(** * tz_web: version diff, fork and spreadsheet import

    A shallow embedding of the request handlers of [routes/specs.js]
    (create a specification, list specifications and versions, fork a
    version, compare two versions), of those of [routes/versions.js] (load
    and save the graph of a version, change its status), and of the Excel
    importer and the editor of [frontend/src/App.jsx], with the properties
    the specification states about them and further properties of the
    handlers, alone and composed.

    JavaScript strings are sequences of UTF-16 code units, a [Map] is an
    association list in insertion order, the Prisma tables are lists of
    rows in insertion order with [SERIAL] counters. *)

From Stdlib Require Import String Ascii.
From Stdlib Require Import NArith ZArith Lia Bool List Sorted.
Import ListNotations.
Open Scope list_scope.

(* ===================================================================== *)
(** * JavaScript strings *)
(* ===================================================================== *)

Module Js.

(** A string value: its UTF-16 code units. [s.length] is [length s]. *)
Definition jsstring := list N.

(** [a === b] on strings. *)
Fixpoint eqb (a b : jsstring) : bool :=
  match a, b with
  | [], [] => true
  | x :: a', y :: b' => N.eqb x y && eqb a' b'
  | _, _ => false
  end.

(** Source literals are written as Rocq strings (UTF-8 bytes) and decoded
    to the code units the JavaScript engine holds. *)
Fixpoint bytes_of (s : string) : list N :=
  match s with
  | EmptyString => []
  | String c r => N_of_ascii c :: bytes_of r
  end.

Fixpoint utf16 (bs : list N) : jsstring :=
  match bs with
  | [] => []
  | b0 :: r0 =>
    if b0 <? 128 then b0 :: utf16 r0
    else if b0 <? 224 then
      match r0 with
      | b1 :: r1 => ((b0 mod 32) * 64 + b1 mod 64) :: utf16 r1
      | [] => []
      end
    else if b0 <? 240 then
      match r0 with
      | b1 :: b2 :: r2 =>
          ((b0 mod 16) * 4096 + (b1 mod 64) * 64 + b2 mod 64) :: utf16 r2
      | _ => []
      end
    else
      match r0 with
      | b1 :: b2 :: b3 :: r3 =>
          let cp := (b0 mod 8) * 262144 + (b1 mod 64) * 4096
                    + (b2 mod 64) * 64 + b3 mod 64 in
          let v := cp - 65536 in
          (55296 + v / 1024) :: (56320 + v mod 1024) :: utf16 r3
      | _ => []
      end
  end%N.

Definition lit (s : string) : jsstring := utf16 (bytes_of s).

(** Truthiness of a string: only the empty string is falsy. *)
Definition truthy (s : jsstring) : bool :=
  match s with [] => false | _ :: _ => true end.

(** Truthiness of [string | null | undefined]. *)
Definition truthy_opt (o : option jsstring) : bool :=
  match o with Some s => truthy s | None => false end.

(** [o || ''] for [o : string | null | undefined]. *)
Definition or_empty (o : option jsstring) : jsstring :=
  match o with Some s => if truthy s then s else [] | None => [] end.

(** [s.startsWith(p)] *)
Fixpoint startsWith (s p : jsstring) {struct p} : bool :=
  match p, s with
  | [], _ => true
  | _ :: _, [] => false
  | a :: p', b :: s' => N.eqb a b && startsWith s' p'
  end.

(** [s.includes(p)] *)
Fixpoint includes (s p : jsstring) {struct s} : bool :=
  startsWith s p ||
  match s with
  | [] => false
  | _ :: s' => includes s' p
  end.

(** White space and line terminators: what [\s] matches and what
    [String.prototype.trim] strips. *)
Definition isWhiteSpace (c : N) : bool :=
  (((9 <=? c) && (c <=? 13)) || (c =? 32) || (c =? 160) || (c =? 5760)
   || ((8192 <=? c) && (c <=? 8202)) || (c =? 8232) || (c =? 8233)
   || (c =? 8239) || (c =? 8287) || (c =? 12288) || (c =? 65279))%N.

(** [\d] *)
Definition isDigit (c : N) : bool := ((48 <=? c) && (c <=? 57))%N.

Fixpoint dropWhile (p : N -> bool) (s : jsstring) : jsstring :=
  match s with
  | [] => []
  | c :: s' => if p c then dropWhile p s' else s
  end.

Fixpoint takeWhile (p : N -> bool) (s : jsstring) : jsstring :=
  match s with
  | [] => []
  | c :: s' => if p c then c :: takeWhile p s' else []
  end.

(** Removal of the longest suffix whose units all satisfy [p]
    (a [replace(/[...]+$/, "")]). *)
Definition dropWhileEnd (p : N -> bool) (s : jsstring) : jsstring :=
  rev (dropWhile p (rev s)).

(** [s.trim()] *)
Definition trim (s : jsstring) : jsstring :=
  dropWhileEnd isWhiteSpace (dropWhile isWhiteSpace s).

(** [s.slice(a, b)] for [0 <= a <= b]. *)
Definition slice (s : jsstring) (a b : nat) : jsstring :=
  firstn (b - a) (skipn a s).

(** [s.slice(-n)] *)
Definition sliceLast (s : jsstring) (n : nat) : jsstring :=
  skipn (length s - n) s.

(** [/\d/.test(s)] *)
Definition hasDigit (s : jsstring) : bool := existsb isDigit s.

(** [String(n)] for a non-negative integer. *)
Fixpoint digits_of_uint (d : Decimal.uint) : jsstring :=
  match d with
  | Decimal.Nil => []
  | Decimal.D0 r => 48%N :: digits_of_uint r
  | Decimal.D1 r => 49%N :: digits_of_uint r
  | Decimal.D2 r => 50%N :: digits_of_uint r
  | Decimal.D3 r => 51%N :: digits_of_uint r
  | Decimal.D4 r => 52%N :: digits_of_uint r
  | Decimal.D5 r => 53%N :: digits_of_uint r
  | Decimal.D6 r => 54%N :: digits_of_uint r
  | Decimal.D7 r => 55%N :: digits_of_uint r
  | Decimal.D8 r => 56%N :: digits_of_uint r
  | Decimal.D9 r => 57%N :: digits_of_uint r
  end.

Definition ofNat (n : nat) : jsstring := digits_of_uint (Nat.to_uint n).

(** [parts.join(sep)] *)
Fixpoint join (sep : jsstring) (parts : list jsstring) : jsstring :=
  match parts with
  | [] => []
  | [p] => p
  | p :: ps => p ++ sep ++ join sep ps
  end.

End Js.

Abbreviation jsstring := Js.jsstring.

(* ===================================================================== *)
(** * The built-in [Map]: keys in insertion order *)
(* ===================================================================== *)

Module JsMap.
Section Defs.
Variables (K V : Type) (keq : K -> K -> bool).

Definition t := list (K * V).

(** [new Map()] *)
Definition empty : t := [].

(** [m.set(k, v)]: an existing key keeps its place and takes the new
    value, a new key goes last. *)
Fixpoint set (m : t) (k : K) (v : V) : t :=
  match m with
  | [] => [(k, v)]
  | (k', v') :: m' =>
      if keq k' k then (k', v) :: m' else (k', v') :: set m' k v
  end.

(** [m.get(k)], [None] for [undefined]. *)
Fixpoint get (m : t) (k : K) : option V :=
  match m with
  | [] => None
  | (k', v') :: m' => if keq k' k then Some v' else get m' k
  end.

(** [m.has(k)] *)
Definition has (m : t) (k : K) : bool :=
  match get m k with Some _ => true | None => false end.

(** [m.entries()] *)
Definition entries (m : t) : list (K * V) := m.

(** A [forEach] over an array whose body is one [m.set]. *)
Definition collect (A : Type) (key : A -> K) (val : A -> V) (l : list A) (m : t) : t :=
  fold_left (fun acc a => set acc (key a) (val a)) l m.

(** The keys, in iteration order. *)
Definition keys (m : t) : list K := map fst m.
End Defs.

(** Two maps with the same keys in the same order and values related by
    [R]. *)
Definition aligned (K V V' : Type) (R : V -> V' -> Prop) (m : t K V) (m' : t K V') : Prop :=
  Forall2 (fun e e' => fst e = fst e' /\ R (snd e) (snd e')) m m'.

Arguments empty {K V}.
Arguments set {K V} keq m k v.
Arguments get {K V} keq m k.
Arguments has {K V} keq m k.
Arguments entries {K V} m.
Arguments collect {K V} keq {A} key val l m.
Arguments keys {K V} m.
Arguments aligned {K V V'} R m m'.
End JsMap.

(* ===================================================================== *)
(** * The persisted data (prisma schema of the init migration) *)
(* ===================================================================== *)

(** [StepType]; the fourth value is ['end']. *)
Inductive StepType := start | action | condition | end_.

Inductive SpecVersionStatus := draft | in_review | approved | published | archived.

Definition StepType_eqb (a b : StepType) : bool :=
  match a, b with
  | start, start | action, action | condition, condition | end_, end_ => true
  | _, _ => false
  end.

(** A [JSONB] value, never inspected by the handlers. *)
Definition json := jsstring.

(** Row identifiers are [SERIAL] integers. [posX] and [posY] (double
    precision in the schema) are only stored and copied, never computed
    with: integers stand for them. The [createdAt] columns are left out. *)
Module Spec.
Record t := mk {
  id : Z;
  title : jsstring;
  code : option jsstring;
  description : option jsstring;
  createdById : option Z;
  currentVersionId : option Z
}.
End Spec.

Module SpecVersion.
Record t := mk {
  id : Z;
  specId : Z;
  versionNumber : Z;
  status : SpecVersionStatus;
  comment : option jsstring;
  plainText : option jsstring;
  createdById : option Z;
  basedOnVersionId : option Z
}.
End SpecVersion.

Module SpecStep.
Record t := mk {
  id : Z;
  versionId : Z;
  stepKey : jsstring;
  type : StepType;
  title : jsstring;
  description : option jsstring;
  posX : Z;
  posY : Z;
  metadata : option json
}.
End SpecStep.

Module SpecStepTransition.
Record t := mk {
  id : Z;
  versionId : Z;
  fromStepId : Z;
  toStepId : Z;
  label : option jsstring;
  condition : option jsstring;
  metadata : option json
}.
End SpecStepTransition.

(** A version loaded with [include: { steps: true, transitions: true }]. *)
Record VersionGraph := {
  version : SpecVersion.t;
  steps : list SpecStep.t;
  transitions : list SpecStepTransition.t
}.

(* ===================================================================== *)
(** * GET /api/specs/:id/versions/compare: the diff *)
(* ===================================================================== *)

Module Compare.

(** [{ stepKey, title, description, type }] *)
Record StepEntry := {
  stepKey : jsstring;
  title : jsstring;
  description : option jsstring;
  type : StepType
}.

(** [{ title, description, type }], one side of a changed step. *)
Record StepSide := {
  sideTitle : jsstring;
  sideDescription : option jsstring;
  sideType : StepType
}.

(** [{ stepKey, from: {...}, to: {...} }] *)
Record StepChange := {
  changedKey : jsstring;
  from : StepSide;
  to : StepSide
}.

(** [{ fromKey, toKey, label }] *)
Record EdgeEntry := {
  fromKey : jsstring;
  toKey : jsstring;
  label : option jsstring
}.

(** The [steps] and [edges] parts of the response: three lists for steps,
    two for edges. *)
Record Diff := {
  stepsAdded : list StepEntry;
  stepsRemoved : list StepEntry;
  stepsChanged : list StepChange;
  edgesAdded : list EdgeEntry;
  edgesRemoved : list EdgeEntry
}.

Definition sideOf (s : SpecStep.t) : StepSide :=
  {| sideTitle := SpecStep.title s;
     sideDescription := SpecStep.description s;
     sideType := SpecStep.type s |}.

Definition entryOf (stepKey : jsstring) (s : SpecStep.t) : StepEntry :=
  {| stepKey := stepKey;
     title := SpecStep.title s;
     description := SpecStep.description s;
     type := SpecStep.type s |}.

(** [fromStepsByKey] / [toStepsByKey] *)
Definition stepsByKey (l : list SpecStep.t) : JsMap.t jsstring SpecStep.t :=
  JsMap.collect Js.eqb SpecStep.stepKey (fun s => s) l JsMap.empty.

(** The test guarding [stepsChanged.push]. *)
Definition differs (fromStep toStep : SpecStep.t) : bool :=
  negb (Js.eqb (SpecStep.title fromStep) (SpecStep.title toStep))
  || negb (Js.eqb (Js.or_empty (SpecStep.description fromStep))
                  (Js.or_empty (SpecStep.description toStep)))
  || negb (StepType_eqb (SpecStep.type fromStep) (SpecStep.type toStep)).

(** First loop, over [toStepsByKey.entries()]: the state is the pair of
    arrays [(stepsAdded, stepsChanged)]. *)
Definition addedChangedLoop (fromStepsByKey toStepsByKey : JsMap.t jsstring SpecStep.t)
  : list StepEntry * list StepChange :=
  fold_left
    (fun (acc : list StepEntry * list StepChange) (e : jsstring * SpecStep.t) =>
       let '(added, changed) := acc in
       let '(stepKey, toStep) := e in
       match JsMap.get Js.eqb fromStepsByKey stepKey with
       | None => (added ++ [entryOf stepKey toStep], changed)
       | Some fromStep =>
           if differs fromStep toStep
           then (added, changed ++ [ {| changedKey := stepKey;
                                        from := sideOf fromStep;
                                        to := sideOf toStep |} ])
           else (added, changed)
       end)
    (JsMap.entries toStepsByKey) ([], []).

(** Second loop, over [fromStepsByKey.entries()]. *)
Definition removedLoop (fromStepsByKey toStepsByKey : JsMap.t jsstring SpecStep.t)
  : list StepEntry :=
  fold_left
    (fun (removed : list StepEntry) (e : jsstring * SpecStep.t) =>
       let '(stepKey, fromStep) := e in
       if JsMap.has Js.eqb toStepsByKey stepKey then removed
       else removed ++ [entryOf stepKey fromStep])
    (JsMap.entries fromStepsByKey) [].

(** [fromIdToKey] / [toIdToKey] *)
Definition idToKey (l : list SpecStep.t) : JsMap.t Z jsstring :=
  JsMap.collect Z.eqb SpecStep.id SpecStep.stepKey l JsMap.empty.

Definition arrow : jsstring := Js.lit "->".
Definition bar : jsstring := Js.lit "|".

(** [`${fromKey}->${toKey}|${label || ''}`] *)
Definition buildEdgeKey (fromKey toKey : jsstring) (label : option jsstring) : jsstring :=
  fromKey ++ arrow ++ toKey ++ bar ++ Js.or_empty label.

(** [fromEdgesSet] / [toEdgesSet]: a transition is skipped when a key is
    [undefined] or the empty string. *)
Definition edgesSet (idmap : JsMap.t Z jsstring) (trs : list SpecStepTransition.t)
  : JsMap.t jsstring EdgeEntry :=
  fold_left
    (fun (m : JsMap.t jsstring EdgeEntry) (tr : SpecStepTransition.t) =>
       match JsMap.get Z.eqb idmap (SpecStepTransition.fromStepId tr),
             JsMap.get Z.eqb idmap (SpecStepTransition.toStepId tr) with
       | Some fromKey, Some toKey =>
           if negb (Js.truthy fromKey) || negb (Js.truthy toKey) then m
           else JsMap.set Js.eqb m
                  (buildEdgeKey fromKey toKey (SpecStepTransition.label tr))
                  {| fromKey := fromKey; toKey := toKey;
                     label := SpecStepTransition.label tr |}
       | _, _ => m
       end)
    trs JsMap.empty.

(** The two loops over the edge maps: entries of [these] whose key
    [those] lacks. *)
Definition edgesMissingFrom (these those : JsMap.t jsstring EdgeEntry) : list EdgeEntry :=
  fold_left
    (fun (out : list EdgeEntry) (e : jsstring * EdgeEntry) =>
       let '(key, edge) := e in
       if JsMap.has Js.eqb those key then out else out ++ [edge])
    (JsMap.entries these) [].

(** The diff computed by the handler once both versions are loaded. *)
Definition diff (fromVersion toVersion : VersionGraph) : Diff :=
  let fromStepsByKey := stepsByKey (steps fromVersion) in
  let toStepsByKey := stepsByKey (steps toVersion) in
  let '(stepsAdded, stepsChanged) := addedChangedLoop fromStepsByKey toStepsByKey in
  let stepsRemoved := removedLoop fromStepsByKey toStepsByKey in
  let fromEdgesSet := edgesSet (idToKey (steps fromVersion)) (transitions fromVersion) in
  let toEdgesSet := edgesSet (idToKey (steps toVersion)) (transitions toVersion) in
  {| stepsAdded := stepsAdded;
     stepsRemoved := stepsRemoved;
     stepsChanged := stepsChanged;
     edgesAdded := edgesMissingFrom toEdgesSet fromEdgesSet;
     edgesRemoved := edgesMissingFrom fromEdgesSet toEdgesSet |}.

End Compare.

(** ** The loops of the diff, entry by entry *)

Module CompareView.
Import Compare.

(** What one iteration of each loop pushes. *)
Definition addedOf (fromMap : JsMap.t jsstring SpecStep.t) (e : jsstring * SpecStep.t)
  : list StepEntry :=
  match JsMap.get Js.eqb fromMap (fst e) with
  | None => [entryOf (fst e) (snd e)]
  | Some _ => []
  end.

Definition changedOf (fromMap : JsMap.t jsstring SpecStep.t) (e : jsstring * SpecStep.t)
  : list StepChange :=
  match JsMap.get Js.eqb fromMap (fst e) with
  | None => []
  | Some fromStep =>
      if differs fromStep (snd e)
      then [ {| changedKey := fst e; from := sideOf fromStep; to := sideOf (snd e) |} ]
      else []
  end.

Definition removedOf (toMap : JsMap.t jsstring SpecStep.t) (e : jsstring * SpecStep.t)
  : list StepEntry :=
  if JsMap.has Js.eqb toMap (fst e) then [] else [entryOf (fst e) (snd e)].

Definition missingOf (those : JsMap.t jsstring EdgeEntry) (e : jsstring * EdgeEntry)
  : list EdgeEntry :=
  if JsMap.has Js.eqb those (fst e) then [] else [snd e].

(** The entry one transition contributes to an edge map, if any. *)
Definition resolved (idmap : JsMap.t Z jsstring) (tr : SpecStepTransition.t)
  : list (jsstring * EdgeEntry) :=
  match JsMap.get Z.eqb idmap (SpecStepTransition.fromStepId tr),
        JsMap.get Z.eqb idmap (SpecStepTransition.toStepId tr) with
  | Some fk, Some tk =>
      if negb (Js.truthy fk) || negb (Js.truthy tk) then []
      else [(buildEdgeKey fk tk (SpecStepTransition.label tr),
             {| fromKey := fk; toKey := tk; label := SpecStepTransition.label tr |})]
  | _, _ => []
  end.

(** The key string of a tuple. *)
Definition tupleKey (f t l : jsstring) : jsstring := f ++ arrow ++ t ++ bar ++ l.

End CompareView.

(** ** Snapshots as the specification sees them *)

Module Snapshot.

(** The transition tuple [(fromKey, toKey, label)], the label with [null]
    read as the empty string, is present in a loaded version: one of its
    transitions joins a step with key [fromKey] to a step with key
    [toKey] under that label. *)
Definition hasTuple (V : VersionGraph) (fromKey toKey label : jsstring) : Prop :=
  exists tr fromStep toStep,
    In tr (transitions V) /\ In fromStep (steps V) /\ In toStep (steps V)
    /\ SpecStep.id fromStep = SpecStepTransition.fromStepId tr
    /\ SpecStep.id toStep = SpecStepTransition.toStepId tr
    /\ SpecStep.stepKey fromStep = fromKey
    /\ SpecStep.stepKey toStep = toKey
    /\ Js.or_empty (SpecStepTransition.label tr) = label.

(** A step key that is not empty and holds neither ["->"] nor ["|"]. *)
Definition keyOk (k : jsstring) : bool :=
  Js.truthy k && negb (Js.includes k Compare.arrow) && negb (Js.includes k Compare.bar).

(** Step ids are a primary key; every step key is [keyOk]. *)
Definition wellKeyed (V : VersionGraph) : Prop :=
  NoDup (map SpecStep.id (steps V))
  /\ Forall (fun s => keyOk (SpecStep.stepKey s) = true) (steps V).

(** The key the handler finds for the step id [stepId] is the empty
    string. *)
Definition emptyKeyAt (V : VersionGraph) (stepId : Z) : bool :=
  match JsMap.get Z.eqb (Compare.idToKey (steps V)) stepId with
  | Some k => negb (Js.truthy k)
  | None => false
  end.

(** A transition with an endpoint whose key is the empty string. *)
Definition emptyEnded (V : VersionGraph) (tr : SpecStepTransition.t) : bool :=
  emptyKeyAt V (SpecStepTransition.fromStepId tr)
  || emptyKeyAt V (SpecStepTransition.toStepId tr).

(** The loaded version without those transitions. *)
Definition withoutEmptyEnded (V : VersionGraph) : VersionGraph :=
  {| version := version V;
     steps := steps V;
     transitions := filter (fun tr => negb (emptyEnded V tr)) (transitions V) |}.

(** Two steps with the same key, title, description and type. *)
Definition sameFields (s s' : SpecStep.t) : Prop :=
  SpecStep.stepKey s = SpecStep.stepKey s'
  /\ SpecStep.title s = SpecStep.title s'
  /\ SpecStep.description s = SpecStep.description s'
  /\ SpecStep.type s = SpecStep.type s'.

End Snapshot.

(* ===================================================================== *)
(** * The database behind the Prisma client *)
(* ===================================================================== *)

Module Db.

(** The tables, each in insertion order, and the next value of each
    [SERIAL] column. Of [User] only the ids matter here.

    The ids of the rows, the ids and numbers a request names and the
    counters are taken to lie in the range of the INTEGER columns that hold
    them, and the sequences not to run out. The one integer a handler
    computes, the number of a new version, is checked against that range
    where it is written. *)
Record t := mk {
  users : list Z;
  specs : list Spec.t;
  specVersions : list SpecVersion.t;
  specSteps : list SpecStep.t;
  specStepTransitions : list SpecStepTransition.t;
  nextSpecId : Z;
  nextVersionId : Z;
  nextStepId : Z;
  nextTransitionId : Z
}.

(** What a query gives: its result and the tables after it, or, when it
    throws, the tables as they were when it threw. The query that throws
    writes no row, but an INSERT has drawn the id of its row from the
    sequence before its foreign keys are checked. *)
Inductive Outcome (A : Type) : Type :=
| Done (result : A * t)
| Thrown (db : t).
Arguments Done {A} result.
Arguments Thrown {A} db.

(** The tables a query has reached, done or thrown. *)
Definition reached {A : Type} (o : Outcome A) : t :=
  match o with
  | Done (_, db) => db
  | Thrown db => db
  end.

(** A query inside a transaction. *)
Definition Tx (A : Type) : Type := t -> Outcome A.

Definition ret {A : Type} (a : A) : Tx A := fun db => Done (a, db).

Definition bind {A B : Type} (c : Tx A) (k : A -> Tx B) : Tx B :=
  fun db => match c db with
            | Done (a, db') => k a db'
            | Thrown db' => Thrown db'
            end.

(** A query that the client rejects before it reaches the database. *)
Definition throw {A : Type} : Tx A := fun db => Thrown db.

(** The tables after the transaction that started on [db] and threw at
    [thrown] has been rolled back: the rows are those of [db]; the values
    drawn from the sequences are not given back. *)
Definition rollback (db thrown : t) : t :=
  mk (users db) (specs db) (specVersions db) (specSteps db) (specStepTransitions db)
     (nextSpecId thrown) (nextVersionId thrown) (nextStepId thrown)
     (nextTransitionId thrown).

(** The same rows in every table. *)
Definition sameRows (a b : t) : Prop :=
  users a = users b /\ specs a = specs b /\ specVersions a = specVersions b
  /\ specSteps a = specSteps b /\ specStepTransitions a = specStepTransitions b.

(** No counter of [b] is behind the counter of [a]. *)
Definition ahead (a b : t) : Prop :=
  (nextSpecId a <= nextSpecId b /\ nextVersionId a <= nextVersionId b
   /\ nextStepId a <= nextStepId b /\ nextTransitionId a <= nextTransitionId b)%Z.

(** The query never sets a counter back. *)
Definition advances {A : Type} (c : Tx A) : Prop :=
  forall db, ahead db (reached (c db)).

(** The values of an INTEGER column. *)
Definition int4 (n : Z) : bool := Z.leb (-2147483648) n && Z.leb n 2147483647.

(** An optional reference whose value, if any, is one of an INTEGER
    column. *)
Definition fits (r : option Z) : bool :=
  match r with
  | None => true
  | Some i => int4 i
  end.

(** A foreign key that may be [NULL]. *)
Definition refOk (ids : list Z) (r : option Z) : bool :=
  match r with
  | None => true
  | Some i => existsb (Z.eqb i) ids
  end.

Definition userIds (db : t) : list Z := users db.
Definition specIds (db : t) : list Z := map Spec.id (specs db).
Definition versionIds (db : t) : list Z := map SpecVersion.id (specVersions db).
Definition stepIds (db : t) : list Z := map SpecStep.id (specSteps db).

(** [tx.spec.create({ data: { title, description, createdById } })] *)
Definition spec_create (title : jsstring) (description : option jsstring)
    (createdById : option Z) : Tx Spec.t :=
  fun db =>
    if refOk (userIds db) createdById then
      let row := Spec.mk (nextSpecId db) title None description createdById None in
      Done (row, mk (users db) (specs db ++ [row]) (specVersions db) (specSteps db)
                    (specStepTransitions db)
                    (nextSpecId db + 1) (nextVersionId db) (nextStepId db)
                    (nextTransitionId db))
    else Thrown (mk (users db) (specs db) (specVersions db) (specSteps db)
                    (specStepTransitions db)
                    (nextSpecId db + 1) (nextVersionId db) (nextStepId db)
                    (nextTransitionId db)).

(** [tx.specVersion.create({ data: { specId, versionNumber, status,
    createdById, basedOnVersionId, comment } })]. A version number that
    [versionNumber INTEGER] cannot hold is rejected by the client, which
    cannot fit it into the parameter of the INSERT: nothing is drawn. *)
Definition specVersion_create (specId versionNumber : Z) (status : SpecVersionStatus)
    (createdById basedOnVersionId : option Z) (comment : option jsstring)
    : Tx SpecVersion.t :=
  fun db =>
    if negb (int4 versionNumber) then Thrown db
    else if existsb (Z.eqb specId) (specIds db)
       && refOk (userIds db) createdById
       && refOk (versionIds db) basedOnVersionId
    then
      let row := SpecVersion.mk (nextVersionId db) specId versionNumber status
                   comment None createdById basedOnVersionId in
      Done (row, mk (users db) (specs db) (specVersions db ++ [row]) (specSteps db)
                    (specStepTransitions db)
                    (nextSpecId db) (nextVersionId db + 1) (nextStepId db)
                    (nextTransitionId db))
    else Thrown (mk (users db) (specs db) (specVersions db) (specSteps db)
                    (specStepTransitions db)
                    (nextSpecId db) (nextVersionId db + 1) (nextStepId db)
                    (nextTransitionId db)).

Definition setCurrentVersionId (v : option Z) (s : Spec.t) : Spec.t :=
  Spec.mk (Spec.id s) (Spec.title s) (Spec.code s) (Spec.description s)
          (Spec.createdById s) v.

(** [tx.spec.update({ where: { id }, data: { currentVersionId } })]: throws
    when no row has the id, when the version does not exist, or when
    another specification already has this current version (the unique
    index on [currentVersionId]). *)
Definition spec_update_currentVersionId (id currentVersionId : Z) : Tx unit :=
  fun db =>
    if existsb (Z.eqb id) (specIds db)
       && existsb (Z.eqb currentVersionId) (versionIds db)
       && negb (existsb (fun s => negb (Z.eqb (Spec.id s) id)
                                  && match Spec.currentVersionId s with
                                     | Some c => Z.eqb c currentVersionId
                                     | None => false
                                     end) (specs db))
    then
      Done (tt, mk (users db)
                   (map (fun s => if Z.eqb (Spec.id s) id
                                  then setCurrentVersionId (Some currentVersionId) s
                                  else s) (specs db))
                   (specVersions db) (specSteps db) (specStepTransitions db)
                   (nextSpecId db) (nextVersionId db) (nextStepId db)
                   (nextTransitionId db))
    else Thrown db.

(** [tx.specStep.create({ data: {...} })] *)
Definition specStep_create (versionId : Z) (stepKey : jsstring) (type : StepType)
    (title : jsstring) (description : option jsstring) (posX posY : Z)
    (metadata : option json) : Tx SpecStep.t :=
  fun db =>
    if existsb (Z.eqb versionId) (versionIds db) then
      let row := SpecStep.mk (nextStepId db) versionId stepKey type title
                   description posX posY metadata in
      Done (row, mk (users db) (specs db) (specVersions db) (specSteps db ++ [row])
                    (specStepTransitions db)
                    (nextSpecId db) (nextVersionId db) (nextStepId db + 1)
                    (nextTransitionId db))
    else Thrown (mk (users db) (specs db) (specVersions db) (specSteps db)
                    (specStepTransitions db)
                    (nextSpecId db) (nextVersionId db) (nextStepId db + 1)
                    (nextTransitionId db)).

(** [tx.specStepTransition.create({ data: {...} })]; a step id that is
    [undefined] is rejected by the client, before any INSERT. *)
Definition specStepTransition_create (versionId : Z) (fromStepId toStepId : option Z)
    (label condition : option jsstring) (metadata : option json)
    : Tx SpecStepTransition.t :=
  fun db =>
    match fromStepId, toStepId with
    | Some f, Some t =>
        if existsb (Z.eqb versionId) (versionIds db)
           && existsb (Z.eqb f) (stepIds db)
           && existsb (Z.eqb t) (stepIds db)
        then
          let row := SpecStepTransition.mk (nextTransitionId db) versionId f t
                       label condition metadata in
          Done (row, mk (users db) (specs db) (specVersions db) (specSteps db)
                        (specStepTransitions db ++ [row])
                        (nextSpecId db) (nextVersionId db) (nextStepId db)
                        (nextTransitionId db + 1))
        else Thrown (mk (users db) (specs db) (specVersions db) (specSteps db)
                        (specStepTransitions db)
                        (nextSpecId db) (nextVersionId db) (nextStepId db)
                        (nextTransitionId db + 1))
    | _, _ => Thrown db
    end.

(** [specStep.findMany({ where: { versionId } })] *)
Definition stepsOf (db : t) (versionId : Z) : list SpecStep.t :=
  filter (fun s => Z.eqb (SpecStep.versionId s) versionId) (specSteps db).

(** [specStepTransition.findMany({ where: { versionId } })] *)
Definition transitionsOf (db : t) (versionId : Z) : list SpecStepTransition.t :=
  filter (fun tr => Z.eqb (SpecStepTransition.versionId tr) versionId)
         (specStepTransitions db).

(** [specVersion.findUnique({ where: { id }, include: { steps: true,
    transitions: true } })] *)
Definition findVersionGraph (db : t) (id : Z) : option VersionGraph :=
  match find (fun v => Z.eqb (SpecVersion.id v) id) (specVersions db) with
  | Some v => Some {| version := v;
                      steps := stepsOf db id;
                      transitions := transitionsOf db id |}
  | None => None
  end.

(** [specVersion.findFirst({ where: { specId, versionNumber } })] *)
Definition findVersionByNumber (db : t) (specId versionNumber : Z) : option SpecVersion.t :=
  find (fun v => Z.eqb (SpecVersion.specId v) specId
                 && Z.eqb (SpecVersion.versionNumber v) versionNumber)
       (specVersions db).

(** [specVersion.findFirst({ where: { specId }, orderBy: { versionNumber:
    'desc' } })] *)
Definition findLastVersion (db : t) (specId : Z) : option SpecVersion.t :=
  fold_left
    (fun (best : option SpecVersion.t) (v : SpecVersion.t) =>
       if Z.eqb (SpecVersion.specId v) specId then
         match best with
         | Some b => if Z.ltb (SpecVersion.versionNumber b) (SpecVersion.versionNumber v)
                     then Some v else best
         | None => Some v
         end
       else best)
    (specVersions db) None.

(** [spec.findUnique({ where: { id } })] *)
Definition findSpec (db : t) (id : Z) : option Spec.t :=
  find (fun s => Z.eqb (Spec.id s) id) (specs db).

End Db.

(** ** The constraints of the schema *)

Module DbInv.

Fixpoint distinct (l : list Z) : bool :=
  match l with
  | [] => true
  | x :: r => negb (existsb (Z.eqb x) r) && distinct r
  end.

Definition below (n : Z) (l : list Z) : bool := forallb (fun i => Z.ltb i n) l.

Definition within (ids l : list Z) : bool :=
  forallb (fun i => existsb (Z.eqb i) ids) l.

(** Primary keys are distinct and were drawn from the [SERIAL] counters;
    the foreign keys the handlers rely on point at existing rows. *)
Definition consistent (db : Db.t) : bool :=
  distinct (Db.specIds db) && distinct (Db.versionIds db) && distinct (Db.stepIds db)
  && below (Db.nextSpecId db) (Db.specIds db)
  && below (Db.nextVersionId db) (Db.versionIds db)
  && below (Db.nextStepId db) (Db.stepIds db)
  && within (Db.specIds db) (map SpecVersion.specId (Db.specVersions db))
  && within (Db.versionIds db) (map SpecStep.versionId (Db.specSteps db))
  && within (Db.versionIds db)
            (map SpecStepTransition.versionId (Db.specStepTransitions db))
  && forallb (fun s => Db.refOk (Db.versionIds db) (Spec.currentVersionId s))
             (Db.specs db).

(** The invariant of a snapshot: the transitions of the version join
    steps of the same version. *)
Definition endpointsInside (db : Db.t) (versionId : Z) : bool :=
  let ids := map SpecStep.id (Db.stepsOf db versionId) in
  forallb (fun tr => existsb (Z.eqb (SpecStepTransition.fromStepId tr)) ids
                     && existsb (Z.eqb (SpecStepTransition.toStepId tr)) ids)
          (Db.transitionsOf db versionId).

(** No step of the version has the empty string as key. *)
Definition keysNonEmpty (db : Db.t) (versionId : Z) : bool :=
  forallb (fun s => Js.truthy (SpecStep.stepKey s)) (Db.stepsOf db versionId).

(** What [consistent] gives, field by field. *)
Record Consistent (db : Db.t) : Prop := {
  specIds_below : forall s, In s (Db.specs db) -> (Spec.id s < Db.nextSpecId db)%Z;
  versionIds_distinct : NoDup (Db.versionIds db);
  versionIds_below :
    forall v, In v (Db.specVersions db) -> (SpecVersion.id v < Db.nextVersionId db)%Z;
  stepIds_distinct : NoDup (Db.stepIds db);
  stepIds_below : forall s, In s (Db.specSteps db) -> (SpecStep.id s < Db.nextStepId db)%Z;
  version_spec :
    forall v, In v (Db.specVersions db) -> (SpecVersion.specId v < Db.nextSpecId db)%Z;
  step_version :
    forall s, In s (Db.specSteps db) -> (SpecStep.versionId s < Db.nextVersionId db)%Z;
  transition_version :
    forall tr, In tr (Db.specStepTransitions db) ->
               (SpecStepTransition.versionId tr < Db.nextVersionId db)%Z;
  current_version :
    forall s c, In s (Db.specs db) -> Spec.currentVersionId s = Some c ->
                (c < Db.nextVersionId db)%Z;
  version_spec_in :
    forall v, In v (Db.specVersions db) -> In (SpecVersion.specId v) (Db.specIds db)
}.

End DbInv.

Declare Scope tx_scope.
Delimit Scope tx_scope with tx.
Notation "x <- c ;; k" := (Db.bind c (fun x => k))
  (at level 61, c at next level, right associativity) : tx_scope.

(* ===================================================================== *)
(** * routes/specs.js *)
(* ===================================================================== *)

Module Routes.

(** [x || null] for a numeric id of the request body. *)
Definition idOrNull (x : option Z) : option Z :=
  match x with
  | Some 0%Z => None
  | _ => x
  end.

(** ** POST /api/specs *)

Record CreateSpecBody := {
  title : option jsstring;
  description : option jsstring;
  createdById : option Z
}.

Inductive CreateSpecResponse :=
| CreateSpec400
| CreateSpec201 (spec : Spec.t) (version : SpecVersion.t)
| CreateSpec500.

(** The body of [prisma.$transaction] of the handler. *)
Definition createSpecTx (title : jsstring) (description : option jsstring)
    (createdById : option Z) : Db.Tx (Spec.t * SpecVersion.t) :=
  (spec <- Db.spec_create title description (idOrNull createdById) ;;
   version <- Db.specVersion_create (Spec.id spec) 1 draft (idOrNull createdById)
                None (Some (Js.lit "Первая версия")) ;;
   _ <- Db.spec_update_currentVersionId (Spec.id spec) (SpecVersion.id version) ;;
   Db.ret (spec, version))%tx.

(** The handler: a transaction that throws is rolled back. *)
Definition createSpec (db : Db.t) (body : CreateSpecBody) : Db.t * CreateSpecResponse :=
  match title body with
  | Some (c :: r) =>
      match createSpecTx (c :: r) (description body) (createdById body) db with
      | Db.Done ((spec, version), db') => (db', CreateSpec201 spec version)
      | Db.Thrown thrown => (Db.rollback db thrown, CreateSpec500)
      end
  | _ => (db, CreateSpec400)
  end.

(** ** POST /api/specs/:id/versions/:versionNumber/fork *)

Record ForkBody := {
  forkCreatedById : option Z;
  forkComment : option jsstring
}.

Inductive ForkResponse :=
| Fork404
| Fork201 (newVersion : SpecVersion.t)
| Fork500.

(** [String(n)] for an integer. *)
Definition stringOfZ (n : Z) : jsstring :=
  match n with
  | Z0 => Js.lit "0"
  | Zpos p => Js.ofNat (Pos.to_nat p)
  | Zneg p => Js.lit "-" ++ Js.ofNat (Pos.to_nat p)
  end.

(** [(lastVersion?.versionNumber || 0) + 1], where [lastVersion] is the
    version of the specification with the greatest number. *)
Definition nextVersionNumber (db : Db.t) (specId : Z) : Z :=
  (match Db.findLastVersion db specId with
   | Some lastVersion => SpecVersion.versionNumber lastVersion
   | None => 0
   end + 1)%Z.

Section Fork.

(** [uuidv4 i] is what the call [uuidv4()] returns in the [i]-th iteration
    of the loop over [baseSteps], when that iteration makes the call. *)
Variable uuidv4 : nat -> jsstring.

(** [for (const step of baseSteps) {...}], with [stepIdMap] as state. *)
Fixpoint copySteps (newVersionId : Z) (baseSteps : list SpecStep.t) (i : nat)
    (stepIdMap : JsMap.t Z Z) : Db.Tx (JsMap.t Z Z) :=
  match baseSteps with
  | [] => Db.ret stepIdMap
  | step :: rest =>
      (newStep <- Db.specStep_create newVersionId
                    (if Js.truthy (SpecStep.stepKey step)
                     then SpecStep.stepKey step else uuidv4 i)
                    (SpecStep.type step) (SpecStep.title step)
                    (SpecStep.description step)
                    (SpecStep.posX step) (SpecStep.posY step)
                    (SpecStep.metadata step) ;;
       copySteps newVersionId rest (S i)
         (JsMap.set Z.eqb stepIdMap (SpecStep.id step) (SpecStep.id newStep)))%tx
  end.

(** [for (const tr of baseTransitions) {...}] *)
Fixpoint copyTransitions (newVersionId : Z) (baseTransitions : list SpecStepTransition.t)
    (stepIdMap : JsMap.t Z Z) : Db.Tx unit :=
  match baseTransitions with
  | [] => Db.ret tt
  | tr :: rest =>
      (_ <- Db.specStepTransition_create newVersionId
              (JsMap.get Z.eqb stepIdMap (SpecStepTransition.fromStepId tr))
              (JsMap.get Z.eqb stepIdMap (SpecStepTransition.toStepId tr))
              (SpecStepTransition.label tr) (SpecStepTransition.condition tr)
              (SpecStepTransition.metadata tr) ;;
       copyTransitions newVersionId rest stepIdMap)%tx
  end.

(** The body of [prisma.$transaction] of the handler. *)
Definition forkTx (specId versionNumber newVersionNumber : Z) (baseVersion : SpecVersion.t)
    (body : ForkBody) : Db.Tx SpecVersion.t :=
  (newVersion <- Db.specVersion_create specId newVersionNumber draft
                   (idOrNull (forkCreatedById body))
                   (Some (SpecVersion.id baseVersion))
                   (Some (if Js.truthy_opt (forkComment body)
                          then Js.or_empty (forkComment body)
                          else Js.lit "Новая версия на основе "
                               ++ stringOfZ versionNumber)) ;;
   stepIdMap <- (fun db => copySteps (SpecVersion.id newVersion)
                             (Db.stepsOf db (SpecVersion.id baseVersion)) 0
                             JsMap.empty db) ;;
   _ <- (fun db => copyTransitions (SpecVersion.id newVersion)
                     (Db.transitionsOf db (SpecVersion.id baseVersion))
                     stepIdMap db) ;;
   Db.ret newVersion)%tx.

(** The handler, for parameters that parse as integers; a transaction
    that throws is rolled back. *)
Definition fork (db : Db.t) (specId versionNumber : Z) (body : ForkBody)
  : Db.t * ForkResponse :=
  match Db.findVersionByNumber db specId versionNumber with
  | None => (db, Fork404)
  | Some baseVersion =>
      let newVersionNumber := nextVersionNumber db specId in
      match forkTx specId versionNumber newVersionNumber baseVersion body db with
      | Db.Done (newVersion, db') => (db', Fork201 newVersion)
      | Db.Thrown thrown => (Db.rollback db thrown, Fork500)
      end
  end.

End Fork.

(** ** GET /api/specs/:id/versions/compare?from=..&to=.. *)

Record VersionInfo := {
  infoId : Z;
  infoVersionNumber : Z;
  infoStatus : SpecVersionStatus
}.

Definition infoOf (v : SpecVersion.t) : VersionInfo :=
  {| infoId := SpecVersion.id v;
     infoVersionNumber := SpecVersion.versionNumber v;
     infoStatus := SpecVersion.status v |}.

Inductive CompareResponse :=
| Compare400
| Compare404
| Compare200 (specId : Z) (fromVersion toVersion : VersionInfo) (delta : Compare.Diff).

(** The handler; a parameter that [parseInt] turns into [NaN] is [None]. *)
Definition compare (db : Db.t) (specId fromVersionId toVersionId : option Z)
  : CompareResponse :=
  match specId, fromVersionId, toVersionId with
  | Some specId, Some fromVersionId, Some toVersionId =>
      match Db.findVersionGraph db fromVersionId, Db.findVersionGraph db toVersionId with
      | Some fromVersion, Some toVersion =>
          if negb (Z.eqb (SpecVersion.specId (version fromVersion)) specId)
             || negb (Z.eqb (SpecVersion.specId (version toVersion)) specId)
          then Compare400
          else Compare200 specId (infoOf (version fromVersion))
                 (infoOf (version toVersion))
                 (Compare.diff fromVersion toVersion)
      | _, _ => Compare404
      end
  | _, _, _ => Compare400
  end.

(** The delta that reports nothing. *)
Definition emptyDiff : Compare.Diff :=
  {| Compare.stepsAdded := []; Compare.stepsRemoved := []; Compare.stepsChanged := [];
     Compare.edgesAdded := []; Compare.edgesRemoved := [] |}.

End Routes.

(** ** The rows a fork creates *)

Module ForkView.

Section Copies.
Variable uuidv4 : nat -> jsstring.

(** The row the [i]-th iteration of the step loop creates. *)
Definition copyOf (newVid nid : Z) (i : nat) (s : SpecStep.t) : SpecStep.t :=
  SpecStep.mk nid newVid
    (if Js.truthy (SpecStep.stepKey s) then SpecStep.stepKey s else uuidv4 i)
    (SpecStep.type s) (SpecStep.title s) (SpecStep.description s)
    (SpecStep.posX s) (SpecStep.posY s) (SpecStep.metadata s).

Fixpoint copiesFrom (newVid nid : Z) (i : nat) (bs : list SpecStep.t) : list SpecStep.t :=
  match bs with
  | [] => []
  | s :: r => copyOf newVid nid i s :: copiesFrom newVid (nid + 1) (S i) r
  end.

End Copies.

Definition withSteps (db : Db.t) (rows : list SpecStep.t) : Db.t :=
  Db.mk (Db.users db) (Db.specs db) (Db.specVersions db) (Db.specSteps db ++ rows)
        (Db.specStepTransitions db) (Db.nextSpecId db) (Db.nextVersionId db)
        (Db.nextStepId db + Z.of_nat (length rows)) (Db.nextTransitionId db).

Definition orZero (o : option Z) : Z := match o with Some z => z | None => 0 end.

(** The row an iteration of the transition loop creates. *)
Definition copyTr (newVid nid : Z) (m : JsMap.t Z Z) (tr : SpecStepTransition.t)
  : SpecStepTransition.t :=
  SpecStepTransition.mk nid newVid
    (orZero (JsMap.get Z.eqb m (SpecStepTransition.fromStepId tr)))
    (orZero (JsMap.get Z.eqb m (SpecStepTransition.toStepId tr)))
    (SpecStepTransition.label tr) (SpecStepTransition.condition tr)
    (SpecStepTransition.metadata tr).

Fixpoint trCopiesFrom (newVid nid : Z) (m : JsMap.t Z Z) (trs : list SpecStepTransition.t)
  : list SpecStepTransition.t :=
  match trs with
  | [] => []
  | tr :: r => copyTr newVid nid m tr :: trCopiesFrom newVid (nid + 1) m r
  end.

Definition withTransitions (db : Db.t) (rows : list SpecStepTransition.t) : Db.t :=
  Db.mk (Db.users db) (Db.specs db) (Db.specVersions db) (Db.specSteps db)
        (Db.specStepTransitions db ++ rows) (Db.nextSpecId db) (Db.nextVersionId db)
        (Db.nextStepId db) (Db.nextTransitionId db + Z.of_nat (length rows)).

(** The transition relation between a transition and its copy: the same
    keys at both ends, the same label. *)
Definition sameEnds (bs copies : list SpecStep.t) (tr tr' : SpecStepTransition.t) : Prop :=
  JsMap.get Z.eqb (Compare.idToKey bs) (SpecStepTransition.fromStepId tr)
  = JsMap.get Z.eqb (Compare.idToKey copies) (SpecStepTransition.fromStepId tr')
  /\ JsMap.get Z.eqb (Compare.idToKey bs) (SpecStepTransition.toStepId tr)
     = JsMap.get Z.eqb (Compare.idToKey copies) (SpecStepTransition.toStepId tr')
  /\ SpecStepTransition.label tr = SpecStepTransition.label tr'.

End ForkView.

(* ===================================================================== *)
(** * frontend/src/App.jsx: the Excel importer *)
(* ===================================================================== *)

Module Importer.

(** The errors the import raises, by message. [HeaderRowMissing] is the
    [TypeError] of [header.findIndex] when the marker row is the last row
    of the sheet. *)
Inductive ImportError :=
| EmptySheet
| NoHeaderFound
| HeaderRowMissing
| MissingRequiredColumns
| NoStepsFound.

Inductive Result (A : Type) :=
| Success (a : A)
| Throws (e : ImportError).
Arguments Success {A} a.
Arguments Throws {A} e.

(** A sheet as [sheet_to_json(sheet, { header: 1, defval: "" })] gives it,
    for sheets whose cells hold text: [String(c)] is then [c] itself. *)
Definition Row := list jsstring.

(** [String(v)] for [v : string | undefined]. *)
Definition stringOf (v : option jsstring) : jsstring :=
  match v with
  | Some s => s
  | None => Js.lit "undefined"
  end.

(** An element of [steps]. *)
Record Step := {
  key : jsstring;
  title : jsstring;
  description : jsstring;
  originalIndex : nat;
  rawDescr : jsstring;
  rawCrit : jsstring;
  rawDevNote : jsstring
}.

(** [arr.findIndex(p)], [None] for [-1]. *)
Fixpoint findIndexFrom {A : Type} (p : A -> bool) (l : list A) (i : nat) : option nat :=
  match l with
  | [] => None
  | a :: l' => if p a then Some i else findIndexFrom p l' (S i)
  end.

Definition findIndex {A : Type} (p : A -> bool) (l : list A) : option nat :=
  findIndexFrom p l 0.

Definition numberSign : jsstring := Js.lit "№".
Definition scenarioStep : jsstring := Js.lit "шаг сценария".

(** [idx !== -1 ? row[idx] : ""] *)
Definition cellOrEmpty (idx : option nat) (row : Row) : option jsstring :=
  match idx with
  | Some j => nth_error row j
  | None => Some []
  end.

(** [v ? String(v) : ""] *)
Definition rawText (v : option jsstring) : jsstring :=
  if Js.truthy_opt v then stringOf v else [].

(** The description assembled from the three cells of a row. *)
Definition describe (rawDescr rawCrit rawErr : option jsstring) : jsstring :=
  let descrParts :=
    (if Js.truthy_opt rawDescr then [Js.trim (stringOf rawDescr)] else [])
    ++ (if Js.truthy_opt rawCrit
        then [Js.lit "Критерий: " ++ Js.trim (stringOf rawCrit)] else [])
    ++ (if Js.truthy_opt rawErr
        then [Js.lit "Ошибки: " ++ Js.trim (stringOf rawErr)] else []) in
  Js.join (Js.lit (String (ascii_of_nat 10) (String (ascii_of_nat 10) EmptyString)))
          (filter Js.truthy descrParts).

(** What one iteration of the row loop pushes, if anything. *)
Definition stepOfRow (idxNum idxTitle : nat) (idxDescr idxCrit idxErr idxDevNote : option nat)
    (i : nat) (row : Row) : option Step :=
  match row with
  | [] => None
  | _ :: _ =>
      let numStr := Js.trim (stringOf (nth_error row idxNum)) in
      if negb (Js.truthy numStr) then None
      else if negb (Js.hasDigit numStr) then None
      else
        let titleRaw := nth_error row idxTitle in
        let title :=
          if Js.truthy_opt titleRaw && Js.truthy (Js.trim (stringOf titleRaw))
          then Js.trim (stringOf titleRaw)
          else Js.lit "Шаг " ++ numStr in
        let rawDescr := cellOrEmpty idxDescr row in
        let rawCrit := cellOrEmpty idxCrit row in
        let rawErr := cellOrEmpty idxErr row in
        let rawDevNote := cellOrEmpty idxDevNote row in
        Some {| key := numStr;
                title := title;
                description := describe rawDescr rawCrit rawErr;
                originalIndex := i;
                rawDescr := rawText rawDescr;
                rawCrit := rawText rawCrit;
                rawDevNote := rawText rawDevNote |}
  end.

(** [for (let i = dataStart; i < rows.length; i++)], over the rows from
    [dataStart] on. *)
Fixpoint collectSteps (idxNum idxTitle : nat) (idxDescr idxCrit idxErr idxDevNote : option nat)
    (i : nat) (rows : list Row) : list Step :=
  match rows with
  | [] => []
  | row :: rest =>
      match stepOfRow idxNum idxTitle idxDescr idxCrit idxErr idxDevNote i row with
      | Some step => [step]
      | None => []
      end ++ collectSteps idxNum idxTitle idxDescr idxCrit idxErr idxDevNote (S i) rest
  end.

Section Locale.

(** [String.prototype.toLowerCase] and the [Canonicalize] operation of a
    regular expression with the [i] flag. *)
Variable toLowerCase : jsstring -> jsstring.
Variable canonicalize : N -> N.

(** Step 3 of the handler: the row after the first one holding the
    marker phrase. *)
Definition headerAfterMarker (rows : list Row) : option nat :=
  match findIndex
          (fun row : Row =>
             existsb (fun cell =>
                        Js.includes (toLowerCase cell)
                          (Js.lit "табличное описание шагов сценария"))
                     row) rows with
  | Some i => Some (i + 1)
  | None => None
  end.

(** Step 4: the first row whose first cell is a number sign and which has
    a "scenario step" cell. *)
Definition headerByFirstCell (rows : list Row) : option nat :=
  findIndex
    (fun row : Row =>
       match row with
       | [] => false
       | cell0 :: _ =>
           let c0 := toLowerCase (Js.trim cell0) in
           (Js.eqb c0 numberSign || Js.eqb c0 (Js.lit "no") || Js.eqb c0 (Js.lit "n"))
           && existsb (fun cell => Js.includes (toLowerCase cell) scenarioStep) row
       end) rows.

(** [headerRowIndex], [None] for [-1]. *)
Definition headerRowIndex (rows : list Row) : option nat :=
  match headerAfterMarker rows with
  | Some i => Some i
  | None => headerByFirstCell rows
  end.

(** [findCol] *)
Definition findCol (header : Row) (predicate : jsstring -> bool) : option nat :=
  findIndex (fun c => predicate (toLowerCase c)) header.

Definition isNum (s : jsstring) : bool :=
  Js.eqb s numberSign || Js.startsWith s numberSign.
Definition isTitle (s : jsstring) : bool := Js.includes s scenarioStep.
Definition isDescr (s : jsstring) : bool := Js.includes s (Js.lit "описание шага").
Definition isCrit (s : jsstring) : bool := Js.includes s (Js.lit "критерий успешности").
Definition isErr (s : jsstring) : bool := Js.includes s (Js.lit "обработка ошибок").
Definition isDevNote (s : jsstring) : bool :=
  Js.includes s (Js.lit "примечание для разработчика").

(** Steps 2 to 6 of the handler: from the rows of the sheet to [steps]. *)
Definition extractSteps (rows : list Row) : Result (list Step) :=
  match rows with
  | [] => Throws EmptySheet
  | _ :: _ =>
      match headerRowIndex rows with
      | None => Throws NoHeaderFound
      | Some h =>
          match nth_error rows h with
          | None => Throws HeaderRowMissing
          | Some header =>
              match findCol header isNum, findCol header isTitle with
              | Some idxNum, Some idxTitle =>
                  match collectSteps idxNum idxTitle
                          (findCol header isDescr) (findCol header isCrit)
                          (findCol header isErr) (findCol header isDevNote)
                          (h + 1) (skipn (h + 1) rows) with
                  | [] => Throws NoStepsFound
                  | steps => Success steps
                  end
              | _, _ => Throws MissingRequiredColumns
              end
          end
      end
  end.

(** ** [extractTransitionsFromText] *)

(** An element of [transitions]. *)
Record Transition := {
  targetKey : jsstring;
  label : jsstring
}.

(** A literal of the pattern against the text, unit by unit, under the
    [i] flag; the rest of the text on success. *)
Fixpoint matchLiteral (pat s : jsstring) {struct pat} : option jsstring :=
  match pat, s with
  | [], _ => Some s
  | _ :: _, [] => None
  | p :: pat', c :: s' =>
      if N.eqb (canonicalize p) (canonicalize c) then matchLiteral pat' s' else None
  end.

(** [/переход к шаг[ау]\s+(\d+)/i] anchored at the start of [s]: the
    digits captured and the length of the match. [\s+] and [\d+] are
    greedy and the two classes are disjoint, so the longest runs are the
    only way to match. *)
Definition matchAt (s : jsstring) : option (jsstring * nat) :=
  match matchLiteral (Js.lit "переход к шаг") s with
  | Some (c :: r) =>
      if N.eqb (canonicalize c) (canonicalize 1072)
         || N.eqb (canonicalize c) (canonicalize 1091)
      then
        let spaces := Js.takeWhile Js.isWhiteSpace r in
        let digits := Js.takeWhile Js.isDigit (Js.dropWhile Js.isWhiteSpace r) in
        if Js.truthy spaces && Js.truthy digits
        then Some (digits, length (Js.lit "переход к шаг") + 1
                           + length spaces + length digits)
        else None
      else None
  | _ => None
  end.

(** The first position from [i] on where the pattern matches; [s] is the
    text from position [i]. *)
Fixpoint searchFrom (s : jsstring) (i : nat) : option (nat * jsstring * nat) :=
  match matchAt s with
  | Some (digits, len) => Some (i, digits, len)
  | None =>
      match s with
      | [] => None
      | _ :: s' => searchFrom s' (S i)
      end
  end.

(** [regex.exec(text)] with [regex.lastIndex = lastIndex]: [match.index],
    [match[1]] and the new [lastIndex]. *)
Definition exec (text : jsstring) (lastIndex : nat) : option (nat * jsstring * nat) :=
  if Nat.ltb (length text) lastIndex then None
  else match searchFrom (skipn lastIndex text) lastIndex with
       | Some (index, digits, len) => Some (index, digits, index + len)
       | None => None
       end.

(** [/[\s\.\,\;\:\-]/] *)
Definition isTail (c : N) : bool :=
  Js.isWhiteSpace c || N.eqb c 46 || N.eqb c 44 || N.eqb c 59 || N.eqb c 58
  || N.eqb c 45.

(** The label built from the text before a match at [index]. *)
Definition labelBefore (text : jsstring) (index : nat) : jsstring :=
  let contextStart := index - 80 in
  let context := Js.trim (Js.slice text contextStart index) in
  let context := Js.trim (Js.dropWhileEnd isTail context) in
  if Nat.ltb 60 (length context)
  then Js.lit "…" ++ Js.sliceLast context 60
  else context.

(** [while ((match = regex.exec(text)) !== null) {...}]; every match is
    at least one unit long, so [fuel] above the length of the text is
    never used up. *)
Fixpoint matchLoop (fuel : nat) (text : jsstring) (lastIndex : nat) : list Transition :=
  match fuel with
  | O => []
  | S fuel' =>
      match exec text lastIndex with
      | Some (index, digits, lastIndex') =>
          {| targetKey := digits; label := labelBefore text index |}
          :: matchLoop fuel' text lastIndex'
      | None => []
      end
  end.

Definition extractTransitionsFromText (rawText : jsstring) : list Transition :=
  match rawText with
  | [] => []
  | _ :: _ => matchLoop (S (length rawText)) rawText 0
  end.

(** ** Nodes and edges from the sorted steps *)

(** [node.data]; [diffStatus] is [null] in every node built here. *)
Record NodeData := {
  dataTitle : jsstring;
  dataDescription : jsstring;
  realType : StepType
}.

(** A React Flow node; [type] is ["block"] in every node built here. *)
Record Node := {
  id : jsstring;
  position : Z * Z;
  data : NodeData
}.

(** An element of [outgoingByFrom.get(fromKey)]. *)
Record Outgoing := {
  target : jsstring;
  outLabel : jsstring
}.

(** An element of [explicitEdges]. *)
Record ExplicitEdge := {
  from : jsstring;
  to : jsstring;
  explicitLabel : jsstring
}.

(** A React Flow edge; [edgeLabel] is [None] when the property is absent
    or [undefined]. *)
Record Edge := {
  edgeId : jsstring;
  source : jsstring;
  edgeTarget : jsstring;
  edgeLabel : option jsstring
}.

(** [stepsSorted.map((step, idx) => ...)], from index [idx] on; [n] is
    [stepsSorted.length]. *)
Fixpoint nodesFrom (n idx : nat) (steps : list Step) : list Node :=
  match steps with
  | [] => []
  | step :: rest =>
      let realType :=
        if Nat.eqb idx 0 then start
        else if Nat.eqb idx (n - 1) then end_
        else
          let t := toLowerCase (title step) in
          if Js.includes t (Js.lit "проверка") || Js.includes t (Js.lit "проверяется")
          then condition else action in
      {| id := key step;
         position := (100 + Z.of_nat idx * 60, 80 + Z.of_nat idx * 30)%Z;
         data := {| dataTitle := title step;
                    dataDescription := description step;
                    realType := realType |} |}
      :: nodesFrom n (S idx) rest
  end.

(** The stub pushed for a target that no node has. *)
Definition placeholder (targetKey : jsstring) (newNodesLength : nat) : Node :=
  {| id := targetKey;
     position := (400, 80 + Z.of_nat newNodesLength * 30)%Z;
     data := {| dataTitle := Js.lit "Шаг " ++ targetKey;
                dataDescription := [];
                realType := action |} |}.

(** [textForParsing] *)
Definition textForParsing (step : Step) : jsstring :=
  (if Js.truthy (rawDescr step) then rawDescr step ++ Js.lit (String (ascii_of_nat 10) EmptyString) else [])
  ++ (if Js.truthy (rawCrit step) then rawCrit step ++ Js.lit (String (ascii_of_nat 10) EmptyString) else [])
  ++ (if Js.truthy (rawDevNote step) then rawDevNote step else []).

(** The arrays and collections the two nested loops of step 9 update;
    [nodeIds] is a [Set], of which only [has] and [add] are used. *)
Record Wiring := {
  newNodes : list Node;
  nodeIds : list jsstring;
  explicitEdges : list ExplicitEdge;
  outgoingByFrom : JsMap.t jsstring (list Outgoing)
}.

(** [for (const tr of transitions) {...}]: the state is [newNodes],
    [nodeIds], [arr] and [explicitEdges]. *)
Fixpoint wireTransitions (fromKey : jsstring) (transitions : list Transition)
    (nodes : list Node) (ids : list jsstring) (arr : list Outgoing)
    (explicit : list ExplicitEdge)
  : list Node * list jsstring * list Outgoing * list ExplicitEdge :=
  match transitions with
  | [] => (nodes, ids, arr, explicit)
  | tr :: rest =>
      if negb (Js.truthy (targetKey tr)) then
        wireTransitions fromKey rest nodes ids arr explicit
      else
        let '(nodes, ids) :=
          if existsb (Js.eqb (targetKey tr)) ids then (nodes, ids)
          else (nodes ++ [placeholder (targetKey tr) (length nodes)],
                ids ++ [targetKey tr]) in
        if existsb (fun e => Js.eqb (target e) (targetKey tr)) arr then
          wireTransitions fromKey rest nodes ids arr explicit
        else
          wireTransitions fromKey rest nodes ids
            (arr ++ [ {| target := targetKey tr; outLabel := label tr |} ])
            (explicit ++ [ {| from := fromKey; to := targetKey tr;
                              explicitLabel := label tr |} ])
  end.

(** [for (const step of stepsSorted) {...}] *)
Fixpoint wireSteps (steps : list Step) (w : Wiring) : Wiring :=
  match steps with
  | [] => w
  | step :: rest =>
      let fromKey := key step in
      match extractTransitionsFromText (textForParsing step) with
      | [] => wireSteps rest w
      | transitions =>
          let arr := match JsMap.get Js.eqb (outgoingByFrom w) fromKey with
                     | Some arr => arr
                     | None => []
                     end in
          let '(nodes, ids, arr, explicit) :=
            wireTransitions fromKey transitions (newNodes w) (nodeIds w) arr
              (explicitEdges w) in
          wireSteps rest
            {| newNodes := nodes;
               nodeIds := ids;
               explicitEdges := explicit;
               outgoingByFrom := JsMap.set Js.eqb (outgoingByFrom w) fromKey arr |}
      end
  end.

(** [`${from}->${to}`] *)
Definition edgeKey (from to : jsstring) : jsstring := from ++ Js.lit "->" ++ to.

(** 9.1: [explicitEdges.forEach((e, idx) => ...)], from index [idx] on. *)
Fixpoint explicitFrom (idx : nat) (explicit : list ExplicitEdge) : list Edge :=
  match explicit with
  | [] => []
  | e :: rest =>
      {| edgeId := edgeKey (from e) (to e) ++ Js.lit "-" ++ Js.ofNat idx;
         source := from e;
         edgeTarget := to e;
         edgeLabel := if Js.truthy (explicitLabel e) then Some (explicitLabel e)
                      else None |}
      :: explicitFrom (S idx) rest
  end.

Definition plainEdge (from to : Step) : Edge :=
  {| edgeId := edgeKey (key from) (key to);
     source := key from;
     edgeTarget := key to;
     edgeLabel := None |}.

(** 9.2: the chain over [stepsSorted[i]], [stepsSorted[i + 1]]. *)
Fixpoint chain (steps : list Step) : list Edge :=
  match steps with
  | from :: (to :: _) as rest => plainEdge from to :: chain rest
  | _ => []
  end.

(** 9.3: the same pairs, with [edgeKeySet] as state; the edges pushed. *)
Fixpoint fallback (outgoing : JsMap.t jsstring (list Outgoing)) (steps : list Step)
    (edgeKeySet : list jsstring) : list Edge :=
  match steps with
  | from :: (to :: _) as rest =>
      let hasOutgoing := JsMap.has Js.eqb outgoing (key from) in
      let ek := edgeKey (key from) (key to) in
      if negb hasOutgoing && negb (existsb (Js.eqb ek) edgeKeySet)
      then plainEdge from to :: fallback outgoing rest (edgeKeySet ++ [ek])
      else fallback outgoing rest edgeKeySet
  | _ => []
  end.

(** Steps 8 and 9 of the handler: what [setNodes] and [setEdges]
    receive. *)
Definition buildGraph (stepsSorted : list Step) : list Node * list Edge :=
  let nodes0 := nodesFrom (length stepsSorted) 0 stepsSorted in
  let w := wireSteps stepsSorted
             {| newNodes := nodes0;
                nodeIds := map id nodes0;
                explicitEdges := [];
                outgoingByFrom := JsMap.empty |} in
  let newEdges := explicitFrom 0 (explicitEdges w) in
  let edgeKeySet := map (fun e => edgeKey (from e) (to e)) (explicitEdges w) in
  match explicitEdges w with
  | [] => (newNodes w, newEdges ++ chain stepsSorted)
  | _ :: _ => (newNodes w, newEdges ++ fallback (outgoingByFrom w) stepsSorted edgeKeySet)
  end.

(** ** What the specification says of the edges *)

(** The transitions found in the text of a step. *)
Definition found (step : Step) : list Transition :=
  extractTransitionsFromText (textForParsing step).

Definition explicitOf (fromKey : jsstring) (tr : Transition) : ExplicitEdge :=
  {| from := fromKey; to := targetKey tr; explicitLabel := label tr |}.

(** Every match of every step, as an edge, in the order of the scan. *)
Definition allMatches (steps : list Step) : list ExplicitEdge :=
  flat_map (fun step => map (explicitOf (key step)) (found step)) steps.

Definition sameEndpoints (e e' : ExplicitEdge) : bool :=
  Js.eqb (from e) (from e') && Js.eqb (to e) (to e').

(** The first match for each pair of endpoints, the pairs of [seen]
    excepted. *)
Fixpoint firstOfEach (seen es : list ExplicitEdge) : list ExplicitEdge :=
  match es with
  | [] => []
  | e :: rest =>
      if existsb (fun e' => sameEndpoints e' e) seen then firstOfEach seen rest
      else e :: firstOfEach (seen ++ [e]) rest
  end.

(** The matches of one step, one per target, the first kept. *)
Fixpoint firstPerTarget (seen : list jsstring) (trs : list Transition) : list Transition :=
  match trs with
  | [] => []
  | tr :: rest =>
      if existsb (Js.eqb (targetKey tr)) seen then firstPerTarget seen rest
      else tr :: firstPerTarget (seen ++ [targetKey tr]) rest
  end.

(** The extracted transitions of a list of steps with distinct keys. *)
Definition extracted (steps : list Step) : list ExplicitEdge :=
  flat_map (fun step => map (explicitOf (key step)) (firstPerTarget [] (found step)))
           steps.

(** The fallback edges: [step[i] -> step[i+1]] for the steps without a
    match of their own. *)
Fixpoint fallbackOf (steps : list Step) : list Edge :=
  match steps with
  | from :: (to :: _) as rest =>
      match found from with
      | [] => plainEdge from to :: fallbackOf rest
      | _ :: _ => fallbackOf rest
      end
  | _ => []
  end.

(** The column search as the specification words it: the first header
    cell that contains [needle], case ignored. *)
Definition columnBySubstring (header : Row) (needle : jsstring) : option nat :=
  findIndex (fun c => Js.includes (toLowerCase c) needle) header.

(** The state the loops start from. *)
Definition wiring0 (steps : list Step) : Wiring :=
  {| newNodes := nodesFrom (length steps) 0 steps;
     nodeIds := map id (nodesFrom (length steps) 0 steps);
     explicitEdges := [];
     outgoingByFrom := JsMap.empty |}.

(** The state they end in. *)
Definition wired (steps : list Step) : Wiring :=
  wireSteps steps (wiring0 steps).

End Locale.

(** ** The state of the loops *)

(** [outgoingByFrom.get(k) || []] *)
Definition arrOf (m : JsMap.t jsstring (list Outgoing)) (k : jsstring) : list Outgoing :=
  match JsMap.get Js.eqb m k with
  | Some arr => arr
  | None => []
  end.

(** The targets recorded for a key are the targets of its edges so far. *)
Definition tracks (k : jsstring) (arr : list Outgoing) (E : list ExplicitEdge) : Prop :=
  map target arr = map to (filter (fun e => Js.eqb (from e) k) E).

Definition nonEmpty (X : Type) (l : list X) : bool :=
  match l with [] => false | _ :: _ => true end.

(** [nodes] is [nodes0] followed by stubs: each stub has the shape the
    handler gives it, no two stubs share an id, and no stub takes the id of
    a node of [nodes0]. *)
Definition grown (nodes0 nodes : list Node) : Prop :=
  exists stubs,
    nodes = nodes0 ++ stubs
    /\ (forall p, In p stubs -> exists n, p = placeholder (id p) n)
    /\ NoDup (map id stubs)
    /\ (forall p, In p stubs -> ~ In (id p) (map id nodes0)).

(** ** A locale for the sample sheets *)

(** [toLowerCase] on text in Basic Latin and Cyrillic (U+0400 to U+045F),
    unit by unit. *)
Definition lowerUnit (c : N) : N :=
  (if (65 <=? c) && (c <=? 90) then c + 32
   else if (1040 <=? c) && (c <=? 1071) then c + 32
   else if (1024 <=? c) && (c <=? 1039) then c + 80
   else c)%N.

Definition toLowerCaseRu (s : jsstring) : jsstring := map lowerUnit s.

(** [Canonicalize] on the same units: the upper-case unit. *)
Definition canonicalizeRu (c : N) : N :=
  (if (97 <=? c) && (c <=? 122) then c - 32
   else if (1072 <=? c) && (c <=? 1103) then c - 32
   else if (1104 <=? c) && (c <=? 1119) then c - 80
   else c)%N.

End Importer.

(* ===================================================================== *)
(** * Sample data *)
(* ===================================================================== *)

Module Samples.

(** The two snapshots of the example of the specification: a start step,
    then the same with an end step and the transition between them. *)
Definition versionA : VersionGraph :=
  {| version := SpecVersion.mk 1 1 1 draft None None None None;
     steps := [SpecStep.mk 1 1 (Js.lit "1") start (Js.lit "Start") None 100 100 None];
     transitions := [] |}.

Definition versionB : VersionGraph :=
  {| version := SpecVersion.mk 2 1 2 draft None None None (Some 1%Z);
     steps := [SpecStep.mk 2 2 (Js.lit "1") start (Js.lit "Start") (Some []) 250 40 None;
               SpecStep.mk 3 2 (Js.lit "2") end_ (Js.lit "End") None 100 200 None];
     transitions := [SpecStepTransition.mk 1 2 2 3 None None None] |}.

(** A version with a step whose key is the empty string, as
    [PUT /api/versions/:id/graph] stores it for a node with [id: ""]. *)
Definition versionE : VersionGraph :=
  {| version := SpecVersion.mk 3 1 3 draft None None None None;
     steps := [SpecStep.mk 4 3 [] start (Js.lit "Start") None 0 0 None;
               SpecStep.mk 5 3 (Js.lit "1") end_ (Js.lit "End") None 0 0 None];
     transitions := [SpecStepTransition.mk 2 3 4 5 None None None] |}.

(** Two versions whose only transitions have different tuples and the same
    key string ["1->2|x|"]. *)
Definition versionBarInKey : VersionGraph :=
  {| version := SpecVersion.mk 4 1 4 draft None None None None;
     steps := [SpecStep.mk 6 4 (Js.lit "1") start (Js.lit "Start") None 0 0 None;
               SpecStep.mk 7 4 (Js.lit "2|x") end_ (Js.lit "End") None 0 0 None];
     transitions := [SpecStepTransition.mk 3 4 6 7 None None None] |}.

Definition versionBarInLabel : VersionGraph :=
  {| version := SpecVersion.mk 5 1 5 draft None None None None;
     steps := [SpecStep.mk 8 5 (Js.lit "1") start (Js.lit "Start") None 0 0 None;
               SpecStep.mk 9 5 (Js.lit "2") end_ (Js.lit "End") None 0 0 None];
     transitions := [SpecStepTransition.mk 4 5 8 9 (Some (Js.lit "x|")) None None] |}.

(** One specification whose version 1 has two steps and a transition. *)
Definition forkDb : Db.t :=
  Db.mk []
    [Spec.mk 1 (Js.lit "Оформление заказа") None None None (Some 1%Z)]
    [SpecVersion.mk 1 1 1 draft (Some (Js.lit "Первая версия")) None None None]
    [SpecStep.mk 1 1 (Js.lit "1") start (Js.lit "Старт") None 100 100 None;
     SpecStep.mk 2 1 (Js.lit "2") end_ (Js.lit "Конец") (Some (Js.lit "готово")) 100 200 None]
    [SpecStepTransition.mk 1 1 1 2 (Some (Js.lit "да")) None None]
    2 2 3 2.

(** The same with the empty string as key of the first step. *)
Definition emptyKeyDb : Db.t :=
  Db.mk []
    [Spec.mk 1 (Js.lit "Оформление заказа") None None None (Some 1%Z)]
    [SpecVersion.mk 1 1 1 draft (Some (Js.lit "Первая версия")) None None None]
    [SpecStep.mk 1 1 [] start (Js.lit "Старт") None 100 100 None;
     SpecStep.mk 2 1 (Js.lit "2") end_ (Js.lit "Конец") None 100 200 None]
    [SpecStepTransition.mk 1 1 1 2 None None None]
    2 2 3 2.

(** The same with the highest number of an INTEGER column as number of
    the version. *)
Definition lastNumberDb : Db.t :=
  Db.mk []
    [Spec.mk 1 (Js.lit "Оформление заказа") None None None (Some 1%Z)]
    [SpecVersion.mk 1 1 2147483647 draft (Some (Js.lit "Первая версия")) None None None]
    [SpecStep.mk 1 1 (Js.lit "1") start (Js.lit "Старт") None 100 100 None;
     SpecStep.mk 2 1 (Js.lit "2") end_ (Js.lit "Конец") (Some (Js.lit "готово")) 100 200 None]
    [SpecStepTransition.mk 1 1 1 2 (Some (Js.lit "да")) None None]
    2 2 3 2.

Definition forkBody : Routes.ForkBody :=
  {| Routes.forkCreatedById := None; Routes.forkComment := None |}.

(** Request bodies that name a user who does not exist. *)
Definition forkBodyUnknownAuthor : Routes.ForkBody :=
  {| Routes.forkCreatedById := Some 42%Z; Routes.forkComment := None |}.

Definition newSpecUnknownAuthor : Routes.CreateSpecBody :=
  {| Routes.title := Some (Js.lit "Оформление заказа");
     Routes.description := None;
     Routes.createdById := Some 42%Z |}.

(** A generator that always returns the same identifier. *)
Definition sampleUuid (_ : nat) : jsstring :=
  Js.lit "1b9d6bcd-bbfd-4b2d-9b5d-ab8dfbbd4bed".

(** A database without rows, and a request body for POST /api/specs. *)
Definition emptyDb : Db.t := Db.mk [] [] [] [] [] 1 1 1 1.

Definition newSpec : Routes.CreateSpecBody :=
  {| Routes.title := Some (Js.lit "Оформление заказа");
     Routes.description := None;
     Routes.createdById := None |}.

(** A sheet whose number column is headed "п/п №". *)
Definition sheetNumberLast : list Importer.Row :=
  [[Js.lit "ТАБЛИЧНОЕ ОПИСАНИЕ ШАГОВ СЦЕНАРИЯ"];
   [Js.lit "п/п №"; Js.lit "Шаг сценария"];
   [Js.lit "1"; Js.lit "Начало"];
   [Js.lit "2"; Js.lit "Конец"]].

(** A sheet with the two mandatory columns only. *)
Definition sheetPlain : list Importer.Row :=
  [[Js.lit "ТАБЛИЧНОЕ ОПИСАНИЕ ШАГОВ СЦЕНАРИЯ"];
   [Js.lit "№"; Js.lit "Шаг сценария"];
   [Js.lit "1"; Js.lit "Начало"];
   [Js.lit "2"; Js.lit "Оплата"];
   [Js.lit "3"; Js.lit "Конец"]].

(** The steps the importer extracts from a sheet, in the locale of the
    samples. *)
Definition stepsOfSheet (rows : list Importer.Row) : list Importer.Step :=
  match Importer.extractSteps Importer.toLowerCaseRu rows with
  | Importer.Success steps => steps
  | Importer.Throws _ => []
  end.

(** Three steps, the first with a branch to step 3. *)
Definition sheetBranch : list Importer.Row :=
  [[Js.lit "ТАБЛИЧНОЕ ОПИСАНИЕ ШАГОВ СЦЕНАРИЯ"];
   [Js.lit "№"; Js.lit "Шаг сценария"; Js.lit "Описание шага"];
   [Js.lit "1"; Js.lit "Начало"; Js.lit "Если оплата прошла — переход к шагу 3."];
   [Js.lit "2"; Js.lit "Проверка оплаты"; []];
   [Js.lit "3"; Js.lit "Конец"; []]].

(** Two rows numbered 1: the first without text, the second with a branch
    to step 3. *)
Definition sheetTwice : list Importer.Row :=
  [[Js.lit "ТАБЛИЧНОЕ ОПИСАНИЕ ШАГОВ СЦЕНАРИЯ"];
   [Js.lit "№"; Js.lit "Шаг сценария"; Js.lit "Описание шага"];
   [Js.lit "1"; Js.lit "Начало"; []];
   [Js.lit "1"; Js.lit "Оплата"; Js.lit "При отказе — переход к шагу 3."];
   [Js.lit "3"; Js.lit "Конец"; []]].

(** Distinct numbers, two of them with an arrow inside: the explicit edge
    of the first row has the edge key ["1->2->3"], and so has the pair of
    the second and third rows. *)
Definition sheetArrow : list Importer.Row :=
  [[Js.lit "ТАБЛИЧНОЕ ОПИСАНИЕ ШАГОВ СЦЕНАРИЯ"];
   [Js.lit "№"; Js.lit "Шаг сценария"; Js.lit "Описание шага"];
   [Js.lit "1->2"; Js.lit "Начало"; Js.lit "Далее переход к шагу 3."];
   [Js.lit "1"; Js.lit "Оплата"; []];
   [Js.lit "2->3"; Js.lit "Конец"; []]].

(** A header found by its first cell "No". *)
Definition sheetNo : list Importer.Row :=
  [[Js.lit "No"; Js.lit "Шаг сценария"];
   [Js.lit "1"; Js.lit "Начало"];
   [Js.lit "2"; Js.lit "Конец"]].

(** A step that names step 99 twice, under two labels; no row has number
    99. *)
Definition sheetStub : list Importer.Row :=
  [[Js.lit "ТАБЛИЧНОЕ ОПИСАНИЕ ШАГОВ СЦЕНАРИЯ"];
   [Js.lit "№"; Js.lit "Шаг сценария"; Js.lit "Описание шага"];
   [Js.lit "1"; Js.lit "Начало";
    Js.lit "При ошибке - переход к шагу 99. При отмене - Переход к шагу 99."];
   [Js.lit "2"; Js.lit "Конец"; []]].

End Samples.

(** ** The diff read back *)

Module DiffView.
Import Compare.

(** A changed step with its two sides exchanged. *)
Definition mirror (c : StepChange) : StepChange :=
  {| changedKey := changedKey c; from := to c; to := from c |}.

(** The last step of a list that has key [k]: the one a [Map] filled by
    [set] in list order holds for [k]. *)
Definition lastWithKey (l : list SpecStep.t) (k : jsstring) : option SpecStep.t :=
  find (fun s => Js.eqb (SpecStep.stepKey s) k) (rev l).

End DiffView.

(* ===================================================================== *)
(** * routes/versions.js *)
(* ===================================================================== *)

(** ** The queries the handlers add to those of routes/specs.js *)

Module DbVersions.

(** [specVersion.findUnique({ where: { id } })] *)
Definition findVersion (db : Db.t) (id : Z) : option SpecVersion.t :=
  find (fun v => Z.eqb (SpecVersion.id v) id) (Db.specVersions db).

(** [tx.specStepTransition.deleteMany({ where: { versionId } })] *)
Definition specStepTransition_deleteMany (versionId : Z) : Db.Tx unit :=
  fun db =>
    Db.Done (tt, Db.mk (Db.users db) (Db.specs db) (Db.specVersions db) (Db.specSteps db)
                (filter (fun tr => negb (Z.eqb (SpecStepTransition.versionId tr) versionId))
                        (Db.specStepTransitions db))
                (Db.nextSpecId db) (Db.nextVersionId db) (Db.nextStepId db)
                (Db.nextTransitionId db)).

(** A transition that refers to one of the steps [gone]. *)
Definition refersTo (gone : list Z) (tr : SpecStepTransition.t) : bool :=
  existsb (Z.eqb (SpecStepTransition.fromStepId tr)) gone
  || existsb (Z.eqb (SpecStepTransition.toStepId tr)) gone.

(** [tx.specStep.deleteMany({ where: { versionId } })]. The foreign keys
    of [SpecStepTransition] to [SpecStep] are ON DELETE RESTRICT: the query
    throws when a transition still refers to one of the rows. *)
Definition specStep_deleteMany (versionId : Z) : Db.Tx unit :=
  fun db =>
    if existsb (refersTo (map SpecStep.id (Db.stepsOf db versionId)))
               (Db.specStepTransitions db)
    then Db.Thrown db
    else
      Db.Done (tt, Db.mk (Db.users db) (Db.specs db) (Db.specVersions db)
                  (filter (fun s => negb (Z.eqb (SpecStep.versionId s) versionId))
                          (Db.specSteps db))
                  (Db.specStepTransitions db)
                  (Db.nextSpecId db) (Db.nextVersionId db) (Db.nextStepId db)
                  (Db.nextTransitionId db)).

Definition setText (plainText comment : option jsstring) (v : SpecVersion.t) : SpecVersion.t :=
  SpecVersion.mk (SpecVersion.id v) (SpecVersion.specId v) (SpecVersion.versionNumber v)
    (SpecVersion.status v) comment plainText (SpecVersion.createdById v)
    (SpecVersion.basedOnVersionId v).

Definition setStatus (status : SpecVersionStatus) (v : SpecVersion.t) : SpecVersion.t :=
  SpecVersion.mk (SpecVersion.id v) (SpecVersion.specId v) (SpecVersion.versionNumber v)
    status (SpecVersion.comment v) (SpecVersion.plainText v) (SpecVersion.createdById v)
    (SpecVersion.basedOnVersionId v).

(** The row with this id changed, any other row as it is. *)
Definition updateRow (id : Z) (change : SpecVersion.t -> SpecVersion.t)
    (w : SpecVersion.t) : SpecVersion.t :=
  if Z.eqb (SpecVersion.id w) id then change w else w.

(** [specVersion.update({ where: { id }, data })] with [change] for the
    data: throws when no row has the id. *)
Definition specVersion_update (id : Z) (change : SpecVersion.t -> SpecVersion.t)
  : Db.Tx SpecVersion.t :=
  fun db =>
    match findVersion db id with
    | None => Db.Thrown db
    | Some v =>
        Db.Done (change v,
              Db.mk (Db.users db) (Db.specs db)
                (map (updateRow id change) (Db.specVersions db))
                (Db.specSteps db) (Db.specStepTransitions db)
                (Db.nextSpecId db) (Db.nextVersionId db) (Db.nextStepId db)
                (Db.nextTransitionId db))
    end.

End DbVersions.

Module Versions.

(** ** GET /api/versions/:id/graph *)

(** A node of the answer: [{ id, type, position: { x, y }, data: { title,
    description } }]. *)
Record GraphNode := {
  gId : jsstring;
  gType : StepType;
  gPosition : Z * Z;
  gTitle : jsstring;
  gDescription : option jsstring
}.

(** An edge of the answer: [{ id, source, target, label, data: {
    condition } }]; [source] and [target] are [None] when [idToKey.get]
    gives [undefined]. *)
Record GraphEdge := {
  geId : jsstring;
  geSource : option jsstring;
  geTarget : option jsstring;
  geLabel : jsstring;
  geCondition : option jsstring
}.

Inductive GetGraphResponse :=
| Graph400
| Graph404
| Graph200 (nodes : list GraphNode) (edges : list GraphEdge).

Definition nodeOf (step : SpecStep.t) : GraphNode :=
  {| gId := SpecStep.stepKey step;
     gType := SpecStep.type step;
     gPosition := (SpecStep.posX step, SpecStep.posY step);
     gTitle := SpecStep.title step;
     gDescription := SpecStep.description step |}.

Definition edgeOf (idToKey : JsMap.t Z jsstring) (tr : SpecStepTransition.t) : GraphEdge :=
  {| geId := Routes.stringOfZ (SpecStepTransition.id tr);
     geSource := JsMap.get Z.eqb idToKey (SpecStepTransition.fromStepId tr);
     geTarget := JsMap.get Z.eqb idToKey (SpecStepTransition.toStepId tr);
     geLabel := Js.or_empty (SpecStepTransition.label tr);
     geCondition := SpecStepTransition.condition tr |}.

(** The handler; an id that [parseInt] turns into [NaN] is [None]. *)
Definition getGraph (db : Db.t) (versionId : option Z) : GetGraphResponse :=
  match versionId with
  | None => Graph400
  | Some versionId =>
      match Db.findVersionGraph db versionId with
      | None => Graph404
      | Some version =>
          let idToKey := Compare.idToKey (steps version) in
          Graph200 (map nodeOf (steps version))
                   (map (edgeOf idToKey) (transitions version))
      end
  end.

(** ** PUT /api/versions/:id/graph *)

(** A node of the request body, as the handler reads it, for bodies whose
    ids are strings (as the frontend sends them): [node.id], [node.type],
    [node.data?.title], [node.data?.description], [node.position?.x],
    [node.position?.y] and [node.data?.metadata]. [None] is a property
    that is absent, [null] or [undefined]; for the metadata also one that
    is falsy. *)
Record NodeIn := {
  nodeId : jsstring;
  nodeType : option jsstring;
  nodeTitle : option jsstring;
  nodeDescription : option jsstring;
  nodeX : option Z;
  nodeY : option Z;
  nodeMetadata : option json
}.

(** An edge of the request body: [edge.source], [edge.target],
    [edge.label], [edge.data?.condition], [edge.data?.metadata]. *)
Record EdgeIn := {
  edgeSource : option jsstring;
  edgeInTarget : option jsstring;
  edgeInLabel : option jsstring;
  edgeInCondition : option jsstring;
  edgeInMetadata : option json
}.

(** [{ nodes, edges, plainText, comment }]; [nodes] and [edges] are [None]
    when they are not arrays. *)
Record PutGraphBody := {
  bodyNodes : option (list NodeIn);
  bodyEdges : option (list EdgeIn);
  bodyPlainText : option jsstring;
  bodyComment : option jsstring
}.

Inductive PutGraphResponse :=
| Put400
| Put404
| Put200 (version : SpecVersion.t)
| Put500.

(** The values of the [StepType] enum; Prisma rejects any other string. *)
Definition stepTypeOf (s : jsstring) : option StepType :=
  if Js.eqb s (Js.lit "start") then Some start
  else if Js.eqb s (Js.lit "action") then Some action
  else if Js.eqb s (Js.lit "condition") then Some condition
  else if Js.eqb s (Js.lit "end") then Some end_
  else None.

Definition stepTypeName (t : StepType) : jsstring :=
  match t with
  | start => Js.lit "start"
  | action => Js.lit "action"
  | condition => Js.lit "condition"
  | end_ => Js.lit "end"
  end.

(** [s || null] *)
Definition orNull (s : option jsstring) : option jsstring :=
  if Js.truthy_opt s then s else None.

(** [x ?? 0] *)
Definition zeroIfNullish (x : option Z) : Z :=
  match x with Some z => z | None => 0%Z end.

(** [a ?? b] *)
Definition orElse (a b : option jsstring) : option jsstring :=
  match a with Some _ => a | None => b end.

(** [node.type || 'action'] *)
Definition typeName (node : NodeIn) : jsstring :=
  if Js.truthy_opt (nodeType node) then Js.or_empty (nodeType node) else Js.lit "action".

(** [for (const node of nodes) {...}], with [stepKeyToId] as state. *)
Fixpoint createSteps (versionId : Z) (nodes : list NodeIn)
    (stepKeyToId : JsMap.t jsstring Z) : Db.Tx (JsMap.t jsstring Z) :=
  match nodes with
  | [] => Db.ret stepKeyToId
  | node :: rest =>
      match stepTypeOf (typeName node) with
      | None => Db.throw
      | Some type =>
          (newStep <- Db.specStep_create versionId (nodeId node) type
                        (Js.or_empty (nodeTitle node)) (orNull (nodeDescription node))
                        (zeroIfNullish (nodeX node)) (zeroIfNullish (nodeY node))
                        (nodeMetadata node) ;;
           createSteps versionId rest
             (JsMap.set Js.eqb stepKeyToId (nodeId node) (SpecStep.id newStep)))%tx
      end
  end.

(** [stepKeyToId.get(k)] for [k : string | undefined]: the keys of the map
    are strings. *)
Definition lookup (stepKeyToId : JsMap.t jsstring Z) (k : option jsstring) : option Z :=
  match k with
  | Some k => JsMap.get Js.eqb stepKeyToId k
  | None => None
  end.

(** [!id] for [id : number | undefined] *)
Definition falsy (id : option Z) : bool :=
  match id with
  | Some z => Z.eqb z 0
  | None => true
  end.

(** [for (const edge of edges) {...}] *)
Fixpoint createTransitions (versionId : Z) (edges : list EdgeIn)
    (stepKeyToId : JsMap.t jsstring Z) : Db.Tx unit :=
  match edges with
  | [] => Db.ret tt
  | edge :: rest =>
      let fromId := lookup stepKeyToId (edgeSource edge) in
      let toId := lookup stepKeyToId (edgeInTarget edge) in
      if falsy fromId || falsy toId then createTransitions versionId rest stepKeyToId
      else
        (_ <- Db.specStepTransition_create versionId fromId toId
                (orNull (edgeInLabel edge)) (orNull (edgeInCondition edge))
                (edgeInMetadata edge) ;;
         createTransitions versionId rest stepKeyToId)%tx
  end.

(** The body of [prisma.$transaction] of the handler; [version] is the row
    read before the transaction. *)
Definition putGraphTx (versionId : Z) (version : SpecVersion.t) (nodes : list NodeIn)
    (edges : list EdgeIn) (plainText comment : option jsstring) : Db.Tx SpecVersion.t :=
  (_ <- DbVersions.specStepTransition_deleteMany versionId ;;
   _ <- DbVersions.specStep_deleteMany versionId ;;
   stepKeyToId <- createSteps versionId nodes JsMap.empty ;;
   _ <- createTransitions versionId edges stepKeyToId ;;
   DbVersions.specVersion_update versionId
     (DbVersions.setText (orElse plainText (SpecVersion.plainText version))
                         (orElse comment (SpecVersion.comment version))))%tx.

(** The handler: a transaction that throws is rolled back. *)
Definition putGraph (db : Db.t) (versionId : option Z) (body : PutGraphBody)
  : Db.t * PutGraphResponse :=
  match versionId with
  | None => (db, Put400)
  | Some versionId =>
      match bodyNodes body, bodyEdges body with
      | Some nodes, Some edges =>
          match DbVersions.findVersion db versionId with
          | None => (db, Put404)
          | Some version =>
              match putGraphTx versionId version nodes edges
                      (bodyPlainText body) (bodyComment body) db with
              | Db.Done (updatedVersion, db') => (db', Put200 updatedVersion)
              | Db.Thrown thrown => (Db.rollback db thrown, Put500)
              end
          end
      | _, _ => (db, Put400)
      end
  end.

(** ** POST /api/versions/:id/status *)

Inductive StatusResponse :=
| Status400
| Status404
| Status200 (version : SpecVersion.t)
| Status500.

(** [allowedStatuses.includes(status)], with the value of the enum. *)
Definition statusOf (s : jsstring) : option SpecVersionStatus :=
  if Js.eqb s (Js.lit "draft") then Some draft
  else if Js.eqb s (Js.lit "in_review") then Some in_review
  else if Js.eqb s (Js.lit "approved") then Some approved
  else if Js.eqb s (Js.lit "published") then Some published
  else if Js.eqb s (Js.lit "archived") then Some archived
  else None.

Definition isPublished (s : SpecVersionStatus) : bool :=
  match s with published => true | _ => false end.

(** The handler. The two updates are not in one transaction: when the
    second throws, the first stays. [status] is [None] when the body has
    no string there. *)
Definition postStatus (db : Db.t) (versionId : option Z) (status : option jsstring)
  : Db.t * StatusResponse :=
  match versionId with
  | None => (db, Status400)
  | Some versionId =>
      match match status with Some s => statusOf s | None => None end with
      | None => (db, Status400)
      | Some status =>
          match DbVersions.findVersion db versionId with
          | None => (db, Status404)
          | Some version =>
              match DbVersions.specVersion_update versionId
                      (DbVersions.setStatus status) db with
              | Db.Thrown thrown => (thrown, Status500)
              | Db.Done (updatedVersion, db1) =>
                  if isPublished status then
                    match Db.spec_update_currentVersionId
                            (SpecVersion.specId version) versionId db1 with
                    | Db.Done (_, db2) => (db2, Status200 updatedVersion)
                    | Db.Thrown thrown => (thrown, Status500)
                    end
                  else (db1, Status200 updatedVersion)
              end
          end
      end
  end.

End Versions.

(** ** The rows a save creates *)

Module PutView.
Import Versions.

(** The type stored for a node whose type Prisma accepts. *)
Definition typeOr (node : NodeIn) : StepType :=
  match stepTypeOf (typeName node) with
  | Some t => t
  | None => action
  end.

(** Every node has a type of the enum. *)
Definition typesOk (nodes : list NodeIn) : bool :=
  forallb (fun node => match stepTypeOf (typeName node) with
                       | Some _ => true
                       | None => false
                       end) nodes.

(** The nodes before the first whose type is not of the enum: the rows
    the node loop has created when it throws. *)
Fixpoint accepted (nodes : list NodeIn) : nat :=
  match nodes with
  | [] => 0
  | node :: rest =>
      match stepTypeOf (typeName node) with
      | Some _ => S (accepted rest)
      | None => 0
      end
  end.

(** The row an iteration of the node loop creates. *)
Definition rowOf (versionId id : Z) (node : NodeIn) : SpecStep.t :=
  SpecStep.mk id versionId (nodeId node) (typeOr node)
    (Js.or_empty (nodeTitle node)) (orNull (nodeDescription node))
    (zeroIfNullish (nodeX node)) (zeroIfNullish (nodeY node)) (nodeMetadata node).

Fixpoint rowsFrom (versionId id : Z) (nodes : list NodeIn) : list SpecStep.t :=
  match nodes with
  | [] => []
  | node :: rest => rowOf versionId id node :: rowsFrom versionId (id + 1) rest
  end.

(** [stepKeyToId] after the rows [rows] have been created. *)
Definition keyMap (rows : list SpecStep.t) (m : JsMap.t jsstring Z) : JsMap.t jsstring Z :=
  JsMap.collect Js.eqb SpecStep.stepKey SpecStep.id rows m.

(** The edge loop skips this edge. *)
Definition skipped (m : JsMap.t jsstring Z) (edge : EdgeIn) : bool :=
  falsy (lookup m (edgeSource edge)) || falsy (lookup m (edgeInTarget edge)).

(** The row an iteration of the edge loop creates. *)
Definition trOf (versionId id : Z) (m : JsMap.t jsstring Z) (edge : EdgeIn)
  : SpecStepTransition.t :=
  SpecStepTransition.mk id versionId
    (zeroIfNullish (lookup m (edgeSource edge))) (zeroIfNullish (lookup m (edgeInTarget edge)))
    (orNull (edgeInLabel edge)) (orNull (edgeInCondition edge)) (edgeInMetadata edge).

Fixpoint trsFrom (versionId id : Z) (m : JsMap.t jsstring Z) (edges : list EdgeIn)
  : list SpecStepTransition.t :=
  match edges with
  | [] => []
  | edge :: rest =>
      if skipped m edge then trsFrom versionId id m rest
      else trOf versionId id m edge :: trsFrom versionId (id + 1) m rest
  end.

(** The tables without the graph of a version. *)
Definition cleared (db : Db.t) (versionId : Z) : Db.t :=
  Db.mk (Db.users db) (Db.specs db) (Db.specVersions db)
    (filter (fun s => negb (Z.eqb (SpecStep.versionId s) versionId)) (Db.specSteps db))
    (filter (fun tr => negb (Z.eqb (SpecStepTransition.versionId tr) versionId))
            (Db.specStepTransitions db))
    (Db.nextSpecId db) (Db.nextVersionId db) (Db.nextStepId db) (Db.nextTransitionId db).

Definition withVersions (db : Db.t) (rows : list SpecVersion.t) : Db.t :=
  Db.mk (Db.users db) (Db.specs db) rows (Db.specSteps db) (Db.specStepTransitions db)
    (Db.nextSpecId db) (Db.nextVersionId db) (Db.nextStepId db) (Db.nextTransitionId db).

(** The tables after a save of [nodes] and [edges] as the graph of the
    version. *)
Definition saved (db : Db.t) (versionId : Z) (nodes : list NodeIn) (edges : list EdgeIn)
    (change : SpecVersion.t -> SpecVersion.t) : Db.t :=
  let rows := rowsFrom versionId (Db.nextStepId db) nodes in
  let trs := trsFrom versionId (Db.nextTransitionId db) (keyMap rows JsMap.empty) edges in
  withVersions
    (ForkView.withTransitions (ForkView.withSteps (cleared db versionId) rows) trs)
    (map (DbVersions.updateRow versionId change) (Db.specVersions db)).

(** No transition of another version refers to a step of this one. *)
Definition foreignFree (db : Db.t) (versionId : Z) : bool :=
  forallb (fun tr => Z.eqb (SpecStepTransition.versionId tr) versionId
                     || negb (DbVersions.refersTo
                                (map SpecStep.id (Db.stepsOf db versionId)) tr))
          (Db.specStepTransitions db).

(** The body names a node with this id. *)
Definition hasNode (nodes : list NodeIn) (k : option jsstring) : bool :=
  match k with
  | Some k => existsb (fun node => Js.eqb (nodeId node) k) nodes
  | None => false
  end.

(** Both ends of the edge are nodes of the body. *)
Definition joined (nodes : list NodeIn) (edge : EdgeIn) : bool :=
  hasNode nodes (edgeSource edge) && hasNode nodes (edgeInTarget edge).

(** What the graph route answers for a saved node and a saved edge. *)
Definition nodeBack (node : NodeIn) : GraphNode :=
  {| gId := nodeId node;
     gType := typeOr node;
     gPosition := (zeroIfNullish (nodeX node), zeroIfNullish (nodeY node));
     gTitle := Js.or_empty (nodeTitle node);
     gDescription := orNull (nodeDescription node) |}.

Definition edgeBack (id : Z) (edge : EdgeIn) : GraphEdge :=
  {| geId := Routes.stringOfZ id;
     geSource := edgeSource edge;
     geTarget := edgeInTarget edge;
     geLabel := Js.or_empty (edgeInLabel edge);
     geCondition := orNull (edgeInCondition edge) |}.

Fixpoint edgesBack (id : Z) (edges : list EdgeIn) : list GraphEdge :=
  match edges with
  | [] => []
  | edge :: rest => edgeBack id edge :: edgesBack (id + 1)%Z rest
  end.

End PutView.

(* ===================================================================== *)
(** * What the handlers keep true of the tables *)
(* ===================================================================== *)

Module AppInv.

Definition stepOfVersion (id versionId : Z) (s : SpecStep.t) : bool :=
  Z.eqb (SpecStep.id s) id && Z.eqb (SpecStep.versionId s) versionId.

(** Every transition joins two steps of its own version. *)
Definition transitionsInside (db : Db.t) : bool :=
  forallb (fun tr =>
             existsb (stepOfVersion (SpecStepTransition.fromStepId tr)
                                    (SpecStepTransition.versionId tr)) (Db.specSteps db)
             && existsb (stepOfVersion (SpecStepTransition.toStepId tr)
                                       (SpecStepTransition.versionId tr)) (Db.specSteps db))
          (Db.specStepTransitions db).

(** The current version of a specification is one of its own versions. *)
Definition currentOwn (db : Db.t) : bool :=
  forallb (fun s => match Spec.currentVersionId s with
                    | None => true
                    | Some c =>
                        existsb (fun v => Z.eqb (SpecVersion.id v) c
                                          && Z.eqb (SpecVersion.specId v) (Spec.id s))
                                (Db.specVersions db)
                    end) (Db.specs db).

(** No two versions of a specification have the same number. *)
Definition numbered (db : Db.t) : bool :=
  forallb (fun v =>
             forallb (fun w =>
                        negb (Z.eqb (SpecVersion.specId v) (SpecVersion.specId w)
                              && Z.eqb (SpecVersion.versionNumber v)
                                       (SpecVersion.versionNumber w))
                        || Z.eqb (SpecVersion.id v) (SpecVersion.id w))
                     (Db.specVersions db))
          (Db.specVersions db).

(** The constraints of the schema, step ids that are positive (the
    [SERIAL] column starts at 1), and the three properties above. *)
Definition ok (db : Db.t) : bool :=
  DbInv.consistent db && Z.ltb 0 (Db.nextStepId db)
  && transitionsInside db && currentOwn db && numbered db.

(** The same, property by property. *)
Record Sound (db : Db.t) : Prop := {
  specs_distinct : NoDup (Db.specIds db);
  specs_below : forall s, In s (Db.specs db) -> (Spec.id s < Db.nextSpecId db)%Z;
  versions_distinct : NoDup (Db.versionIds db);
  versions_below :
    forall v, In v (Db.specVersions db) -> (SpecVersion.id v < Db.nextVersionId db)%Z;
  steps_distinct : NoDup (Db.stepIds db);
  steps_below : forall s, In s (Db.specSteps db) -> (SpecStep.id s < Db.nextStepId db)%Z;
  steps_positive : (0 < Db.nextStepId db)%Z;
  version_of_spec :
    forall v, In v (Db.specVersions db) -> In (SpecVersion.specId v) (Db.specIds db);
  step_of_version :
    forall s, In s (Db.specSteps db) -> In (SpecStep.versionId s) (Db.versionIds db);
  transition_of_version :
    forall tr, In tr (Db.specStepTransitions db) ->
               In (SpecStepTransition.versionId tr) (Db.versionIds db);
  transitions_inside :
    forall tr, In tr (Db.specStepTransitions db) ->
      exists f t, In f (Db.specSteps db) /\ In t (Db.specSteps db)
                  /\ SpecStep.id f = SpecStepTransition.fromStepId tr
                  /\ SpecStep.id t = SpecStepTransition.toStepId tr
                  /\ SpecStep.versionId f = SpecStepTransition.versionId tr
                  /\ SpecStep.versionId t = SpecStepTransition.versionId tr;
  current_own :
    forall s c, In s (Db.specs db) -> Spec.currentVersionId s = Some c ->
      exists v, In v (Db.specVersions db) /\ SpecVersion.id v = c
                /\ SpecVersion.specId v = Spec.id s;
  numbers_distinct :
    forall v w, In v (Db.specVersions db) -> In w (Db.specVersions db) ->
      SpecVersion.specId v = SpecVersion.specId w ->
      SpecVersion.versionNumber v = SpecVersion.versionNumber w ->
      SpecVersion.id v = SpecVersion.id w
}.

End AppInv.

(** ** The requests that write *)

Module Api.

Inductive Request :=
| PostSpec (body : Routes.CreateSpecBody)
| PostFork (uuidv4 : nat -> jsstring) (specId versionNumber : Z) (body : Routes.ForkBody)
| PutGraph (versionId : option Z) (body : Versions.PutGraphBody)
| PostStatus (versionId : option Z) (status : option jsstring).

(** The tables after the request has been handled. *)
Definition handle (db : Db.t) (r : Request) : Db.t :=
  match r with
  | PostSpec body => fst (Routes.createSpec db body)
  | PostFork uuidv4 specId versionNumber body =>
      fst (Routes.fork uuidv4 db specId versionNumber body)
  | PutGraph versionId body => fst (Versions.putGraph db versionId body)
  | PostStatus versionId status => fst (Versions.postStatus db versionId status)
  end.

(** A sequence of requests, handled one after the other. *)
Definition run (db : Db.t) (rs : list Request) : Db.t := fold_left handle rs db.

End Api.

(* ===================================================================== *)
(** * The lists the frontend asks for *)
(* ===================================================================== *)

(** A stable sort by an integer key, smallest first: what ORDER BY on a
    column and [Array.prototype.sort] with [(a, b) => key(a) - key(b)]
    give. Rows with equal keys stay in the order they had; Postgres leaves
    their order open, and no handler relies on it. *)
Module Sorting.
Section Defs.
Variables (A : Type) (key : A -> Z).

(** [a] put after the elements whose key is not greater. *)
Fixpoint insertBy (a : A) (l : list A) : list A :=
  match l with
  | [] => [a]
  | b :: r => if Z.ltb (key a) (key b) then a :: b :: r else b :: insertBy a r
  end.

Definition sortBy (l : list A) : list A :=
  fold_left (fun sorted a => insertBy a sorted) l [].

(** [l.pop()], the element only. *)
Definition pop (l : list A) : option A :=
  match rev l with
  | [] => None
  | a :: _ => Some a
  end.
End Defs.
Arguments insertBy {A} key a l.
Arguments sortBy {A} key l.
Arguments pop {A} l.
End Sorting.

Module RoutesRead.

(** GET /api/specs: the specifications by id, each with its current
    version. *)
Definition listSpecs (db : Db.t) : list (Spec.t * option SpecVersion.t) :=
  map (fun s => (s, match Spec.currentVersionId s with
                    | Some c => DbVersions.findVersion db c
                    | None => None
                    end))
      (Sorting.sortBy Spec.id (Db.specs db)).

(** GET /api/specs/:id/versions: the versions of the specification by
    number. *)
Definition listVersions (db : Db.t) (specId : Z) : list SpecVersion.t :=
  Sorting.sortBy SpecVersion.versionNumber
    (filter (fun v => Z.eqb (SpecVersion.specId v) specId) (Db.specVersions db)).

End RoutesRead.

(* ===================================================================== *)
(** * frontend/src/App.jsx: the editor *)
(* ===================================================================== *)

Module Ui.
Import Importer.

(** [loadVersionsForSpec]: the version opened, for a list of versions that
    is not empty. [preferredVersionId] is [None] for [null] or
    [undefined]; the id 0 is falsy. *)
Definition chooseVersion (versionsFromApi : list SpecVersion.t)
    (preferredVersionId : option Z) : option SpecVersion.t :=
  let chosenVersion :=
    match preferredVersionId with
    | Some p => if Z.eqb p 0 then None
                else find (fun v => Z.eqb (SpecVersion.id v) p) versionsFromApi
    | None => None
    end in
  match chosenVersion with
  | Some v => Some v
  | None => Sorting.pop versionsFromApi
  end.

(** [previousVersion]: the version compared with the current one. *)
Definition previousVersion (versions : list SpecVersion.t) (currentVersionId : option Z)
  : option SpecVersion.t :=
  let currentVersion :=
    match currentVersionId with
    | Some c => find (fun v => Z.eqb (SpecVersion.id v) c) versions
    | None => None
    end in
  match currentVersion with
  | Some currentVersion =>
      Sorting.pop
        (filter (fun v => Z.ltb (SpecVersion.versionNumber v)
                                (SpecVersion.versionNumber currentVersion))
                (Sorting.sortBy SpecVersion.versionNumber versions))
  | None => None
  end.

(** The node [loadGraph] makes of a node of the graph route. The type sent
    by the route is never empty, so [n.type || ...] is [n.type]. *)
Definition nodeOfGraph (n : Versions.GraphNode) : Node :=
  {| id := Versions.gId n;
     position := Versions.gPosition n;
     data := {| dataTitle := Versions.gTitle n;
                dataDescription := Js.or_empty (Versions.gDescription n);
                realType := Versions.gType n |} |}.

(** The block shown for a version without steps. *)
Definition startNode : Node :=
  {| id := Js.lit "start-1";
     position := (100, 100)%Z;
     data := {| dataTitle := Js.lit "Старт";
                dataDescription := [];
                realType := start |} |}.

(** [loadGraph]: the nodes and edges of the editor after the graph of a
    version has been loaded; [None] when the request fails. *)
Definition loadGraph (answer : Versions.GetGraphResponse)
  : option (list Node * list Versions.GraphEdge) :=
  match answer with
  | Versions.Graph200 nodes edges =>
      match map nodeOfGraph nodes with
      | [] => Some ([startNode], edges)
      | shown => Some (shown, edges)
      end
  | _ => None
  end.

(** [saveGraph]: a node as sent, [{ ...n, type: n.data?.realType ||
    "action" }]. *)
Definition nodeToSave (n : Node) : Versions.NodeIn :=
  {| Versions.nodeId := id n;
     Versions.nodeType := Some (Versions.stepTypeName (realType (data n)));
     Versions.nodeTitle := Some (dataTitle (data n));
     Versions.nodeDescription := Some (dataDescription (data n));
     Versions.nodeX := Some (fst (position n));
     Versions.nodeY := Some (snd (position n));
     Versions.nodeMetadata := None |}.

(** An edge of the editor as the save reads it: one that came from the
    graph route, and one that the importer built. *)
Definition edgeOfGraph (e : Versions.GraphEdge) : Versions.EdgeIn :=
  {| Versions.edgeSource := Versions.geSource e;
     Versions.edgeInTarget := Versions.geTarget e;
     Versions.edgeInLabel := Some (Versions.geLabel e);
     Versions.edgeInCondition := Versions.geCondition e;
     Versions.edgeInMetadata := None |}.

Definition edgeOfImport (e : Edge) : Versions.EdgeIn :=
  {| Versions.edgeSource := Some (source e);
     Versions.edgeInTarget := Some (edgeTarget e);
     Versions.edgeInLabel := edgeLabel e;
     Versions.edgeInCondition := None;
     Versions.edgeInMetadata := None |}.

(** [saveGraph]: the body of the PUT request. *)
Definition saveBody (nodes : list Node) (edges : list Versions.EdgeIn)
  : Versions.PutGraphBody :=
  {| Versions.bodyNodes := Some (map nodeToSave nodes);
     Versions.bodyEdges := Some edges;
     Versions.bodyPlainText := None;
     Versions.bodyComment := Some (Js.lit "Сохранено из React Flow") |}.

(** [diffStatus] *)
Inductive DiffStatus := Added | Changed.

(** [displayNodes]: the highlight of a node; [diffResult] is [None] while
    no comparison is shown. *)
Definition diffStatusOf (diffResult : option Compare.Diff) (n : Node) : option DiffStatus :=
  match diffResult with
  | None => None
  | Some d =>
      if existsb (fun s => Js.eqb (Compare.stepKey s) (id n)) (Compare.stepsAdded d)
      then Some Added
      else if existsb (fun s => Js.eqb (Compare.changedKey s) (id n))
                      (Compare.stepsChanged d)
      then Some Changed
      else None
  end.

End Ui.

(* ===================================================================== *)
(** * Sample contents of the editor and sample requests *)
(* ===================================================================== *)

Module SampleEdits.
Import Importer.

(** Two blocks as the editor holds them. *)
Definition nodes : list Node :=
  [ {| id := Js.lit "1";
       position := (100, 100)%Z;
       data := {| dataTitle := Js.lit "Старт"; dataDescription := [];
                  realType := start |} |};
    {| id := Js.lit "2";
       position := (100, 250)%Z;
       data := {| dataTitle := Js.lit "Проверка оплаты";
                  dataDescription := Js.lit "если заказ оплачен";
                  realType := condition |} |} ].

(** Two arrows; the second ends at a block that is not there. *)
Definition edges : list Versions.EdgeIn :=
  [ {| Versions.edgeSource := Some (Js.lit "1");
       Versions.edgeInTarget := Some (Js.lit "2");
       Versions.edgeInLabel := Some (Js.lit "да");
       Versions.edgeInCondition := None;
       Versions.edgeInMetadata := None |};
    {| Versions.edgeSource := Some (Js.lit "2");
       Versions.edgeInTarget := Some (Js.lit "9");
       Versions.edgeInLabel := None;
       Versions.edgeInCondition := None;
       Versions.edgeInMetadata := None |} ].

(** A body to save whose second node has a type that is not of the enum. *)
Definition bodyWrongType : Versions.PutGraphBody :=
  {| Versions.bodyNodes :=
       Some [ {| Versions.nodeId := Js.lit "1";
                 Versions.nodeType := Some (Js.lit "start");
                 Versions.nodeTitle := Some (Js.lit "Старт");
                 Versions.nodeDescription := None;
                 Versions.nodeX := Some 100%Z;
                 Versions.nodeY := Some 100%Z;
                 Versions.nodeMetadata := None |};
              {| Versions.nodeId := Js.lit "2";
                 Versions.nodeType := Some (Js.lit "bogus");
                 Versions.nodeTitle := Some (Js.lit "Конец");
                 Versions.nodeDescription := None;
                 Versions.nodeX := Some 100%Z;
                 Versions.nodeY := Some 200%Z;
                 Versions.nodeMetadata := None |} ];
     Versions.bodyEdges := Some [];
     Versions.bodyPlainText := None;
     Versions.bodyComment := None |}.

(** Three versions of a specification, listed out of order. *)
Definition versions : list SpecVersion.t :=
  [ SpecVersion.mk 7 1 3 draft None None None (Some 5%Z);
    SpecVersion.mk 4 1 1 published None None None None;
    SpecVersion.mk 5 1 2 archived None None None (Some 4%Z) ].

(** A specification is created, its first version is forked, the fork is
    drawn and published. *)
Definition requests : list Api.Request :=
  [ Api.PostSpec Samples.newSpec;
    Api.PostFork Samples.sampleUuid 1 1 Samples.forkBody;
    Api.PutGraph (Some 2%Z) (Ui.saveBody nodes edges);
    Api.PostStatus (Some 2%Z) (Some (Js.lit "published")) ].

End SampleEdits.

(* ===================================================================== *)
(** * Properties *)
(* ===================================================================== *)

(** ** Strings *)

Module JsFacts.
Import Js.

Lemma eqb_spec (a b : jsstring) : reflect (a = b) (eqb a b).
Proof.
  apply iff_reflect. revert b.
  induction a as [|x a IH]; intros [|y b]; simpl; split; try congruence.
  - intros [= -> ->]. rewrite N.eqb_refl. simpl. now apply IH.
  - intros H. apply andb_prop in H as [H1 H2].
    apply N.eqb_eq in H1 as ->. apply IH in H2 as ->. reflexivity.
Qed.

Lemma eqb_eq (a b : jsstring) : eqb a b = true <-> a = b.
Proof. destruct (eqb_spec a b); split; congruence. Qed.

Lemma eqb_neq (a b : jsstring) : eqb a b = false <-> a <> b.
Proof. destruct (eqb_spec a b); split; congruence. Qed.

Lemma eqb_refl (a : jsstring) : eqb a a = true.
Proof. apply eqb_eq. reflexivity. Qed.

Lemma or_empty_Some (s : jsstring) : or_empty (Some s) = s.
Proof. destruct s; reflexivity. Qed.

Lemma or_empty_falsy (o : option jsstring) :
  truthy_opt o = false -> or_empty o = [].
Proof. destruct o as [[|c s]|]; simpl; congruence. Qed.

Lemma truthy_true (s : jsstring) : truthy s = true <-> s <> [].
Proof. destruct s; simpl; split; congruence. Qed.

Lemma startsWith_app (p r : jsstring) : startsWith (p ++ r) p = true.
Proof. induction p; simpl; [reflexivity | now rewrite N.eqb_refl]. Qed.

Lemma startsWith_inv (s p : jsstring) :
  startsWith s p = true -> exists r, s = p ++ r.
Proof.
  revert s; induction p as [|a p IH]; intros s H; simpl in *.
  - now exists s.
  - destruct s as [|b s]; [discriminate|].
    apply andb_prop in H as [Hab H]. apply N.eqb_eq in Hab as ->.
    destruct (IH _ H) as [r ->]. now exists r.
Qed.

Lemma includes_startsWith (s p : jsstring) :
  startsWith s p = true -> includes s p = true.
Proof. destruct s; simpl; intros ->; reflexivity. Qed.

Lemma includes_tail (c : N) (s p : jsstring) :
  includes (c :: s) p = false -> includes s p = false.
Proof. simpl. intros H. now apply orb_false_elim in H as [_ H]. Qed.

Lemma includes_head (s p : jsstring) :
  includes s p = false -> startsWith s p = false.
Proof.
  destruct s; simpl; intros H; now apply orb_false_elim in H as [H _].
Qed.

(** A two-unit separator [u; v] with [u <> v] splits uniquely when the
    left parts do not contain it. *)
Lemma app_sep2_inj (u v : N) (a b x y : jsstring) :
  u <> v ->
  includes a [u; v] = false -> includes b [u; v] = false ->
  a ++ [u; v] ++ x = b ++ [u; v] ++ y -> a = b /\ x = y.
Proof.
  intros Huv. revert b. induction a as [|c a IH]; intros b Ha Hb E.
  - destruct b as [|d b]; simpl in E.
    + injection E as ->. tauto.
    + exfalso. injection E as -> E. destruct b as [|d' b]; simpl in E.
      * injection E as E _. congruence.
      * injection E as -> _. apply includes_head in Hb. simpl in Hb.
        now rewrite !N.eqb_refl in Hb.
  - destruct b as [|d b]; simpl in E.
    + exfalso. injection E as -> E. destruct a as [|c' a]; simpl in E.
      * injection E as E _. congruence.
      * injection E as -> _. apply includes_head in Ha. simpl in Ha.
        now rewrite !N.eqb_refl in Ha.
    + injection E as -> E. apply includes_tail in Ha, Hb.
      destruct (IH b Ha Hb E) as [-> ->]. tauto.
Qed.

(** The same for a one-unit separator. *)
Lemma app_sep1_inj (u : N) (a b x y : jsstring) :
  includes a [u] = false -> includes b [u] = false ->
  a ++ [u] ++ x = b ++ [u] ++ y -> a = b /\ x = y.
Proof.
  revert b. induction a as [|c a IH]; intros b Ha Hb E.
  - destruct b as [|d b]; simpl in E.
    + injection E as ->. tauto.
    + exfalso. injection E as -> _. apply includes_head in Hb. simpl in Hb.
      now rewrite N.eqb_refl in Hb.
  - destruct b as [|d b]; simpl in E.
    + exfalso. injection E as -> _. apply includes_head in Ha. simpl in Ha.
      now rewrite N.eqb_refl in Ha.
    + injection E as -> E. apply includes_tail in Ha, Hb.
      destruct (IH b Ha Hb E) as [-> ->]. tauto.
Qed.

End JsFacts.

(** ** Maps *)

Module JsMapFacts.
Import JsMap.

Section Facts.
Variables (K V : Type) (keq : K -> K -> bool).
Hypothesis keq_eq : forall a b, keq a b = true <-> a = b.

Lemma keq_refl (a : K) : keq a a = true.
Proof. now apply keq_eq. Qed.


Lemma get_set (m : t K V) k v k' :
  get keq (set keq m k v) k' = if keq k k' then Some v else get keq m k'.
Proof.
  induction m as [|[k0 v0] m IH]; simpl.
  - reflexivity.
  - destruct (keq k0 k) eqn:E0; simpl.
    + apply keq_eq in E0 as ->. destruct (keq k k'); reflexivity.
    + rewrite IH. destruct (keq k0 k') eqn:E1; [|reflexivity].
      apply keq_eq in E1 as ->. destruct (keq k k') eqn:E2; [|reflexivity].
      apply keq_eq in E2 as ->. rewrite keq_refl in E0. discriminate.
Qed.

Lemma keys_set (m : t K V) k v k' :
  In k' (keys (set keq m k v)) <-> k' = k \/ In k' (keys m).
Proof.
  induction m as [|[k0 v0] m IH]; simpl.
  - intuition.
  - destruct (keq k0 k) eqn:E0; simpl.
    + apply keq_eq in E0 as ->. intuition.
    + rewrite IH. intuition.
Qed.

Lemma NoDup_set (m : t K V) k v :
  NoDup (keys m) -> NoDup (keys (set keq m k v)).
Proof.
  induction m as [|[k0 v0] m IH]; simpl; intros H.
  - constructor; [intros []|constructor].
  - inversion H as [|? ? Hn Hd]; subst.
    destruct (keq k0 k) eqn:E0; simpl.
    + now constructor.
    + constructor; [|now apply IH].
      intros Hin. apply keys_set in Hin as [->|Hin]; [|now apply Hn].
      rewrite keq_refl in E0. discriminate.
Qed.

Lemma get_In (m : t K V) k v : get keq m k = Some v -> In (k, v) m.
Proof.
  induction m as [|[k0 v0] m IH]; simpl; [discriminate|].
  destruct (keq k0 k) eqn:E.
  - apply keq_eq in E as ->. intros [= ->]. now left.
  - intros H. right. now apply IH.
Qed.

Lemma In_get (m : t K V) k v :
  NoDup (keys m) -> In (k, v) m -> get keq m k = Some v.
Proof.
  induction m as [|[k0 v0] m IH]; simpl; [intros _ []|].
  intros H Hin. inversion H as [|? ? Hn Hd]; subst.
  destruct Hin as [[= -> ->]|Hin].
  - now rewrite keq_refl.
  - destruct (keq k0 k) eqn:E; [|now apply IH].
    apply keq_eq in E as ->. exfalso. apply Hn.
    change k with (fst (k, v)). now apply in_map.
Qed.

Lemma get_None (m : t K V) k : get keq m k = None <-> ~ In k (keys m).
Proof.
  induction m as [|[k0 v0] m IH]; simpl.
  - intuition.
  - destruct (keq k0 k) eqn:E.
    + apply keq_eq in E as ->. intuition discriminate.
    + rewrite IH. split; [|tauto].
      intros Hn [->|Hin]; [|tauto]. rewrite keq_refl in E. discriminate.
Qed.

Lemma has_true (m : t K V) k : has keq m k = true <-> In k (keys m).
Proof.
  unfold has. destruct (get keq m k) eqn:E.
  - split; [intros _|reflexivity].
    apply get_In in E. change k with (fst (k, v)). now apply in_map.
  - split; [discriminate|]. intros Hin. now apply get_None in E.
Qed.

Lemma has_In (m : t K V) k v : NoDup (keys m) -> In (k, v) m -> has keq m k = true.
Proof. intros Hd Hin. unfold has. now rewrite (In_get m k v Hd Hin). Qed.

Section Parallel.
Variables (V' : Type) (R : V -> V' -> Prop).

Lemma aligned_set (m : t K V) (m' : t K V') k v v' :
  aligned R m m' -> R v v' -> aligned R (set keq m k v) (set keq m' k v').
Proof.
  intros H Hv. induction H as [|[k0 v0] [k0' v0'] m m' [Hk H0] H IH]; simpl.
  - repeat constructor; assumption.
  - simpl in Hk, H0. subst k0'. destruct (keq k0 k).
    + constructor; [split; [reflexivity | assumption] | assumption].
    + constructor; [split; [reflexivity | assumption] | assumption].
Qed.

Lemma aligned_collect (A A' : Type) (key : A -> K) (key' : A' -> K)
    (val : A -> V) (val' : A' -> V') (l : list A) (l' : list A')
    (m : t K V) (m' : t K V') :
  Forall2 (fun a a' => key a = key' a' /\ R (val a) (val' a')) l l' ->
  aligned R m m' ->
  aligned R (collect keq key val l m) (collect keq key' val' l' m').
Proof.
  intros H. revert m m'. induction H as [|a a' l l' [Hk Hv] H IH]; intros m m' Hm; simpl.
  - assumption.
  - apply IH. rewrite <- Hk. now apply aligned_set.
Qed.

Lemma aligned_In_r (m : t K V) (m' : t K V') k v' :
  aligned R m m' -> In (k, v') m' -> exists v, In (k, v) m /\ R v v'.
Proof.
  intros H. induction H as [|[k0 v0] [k0' v0'] m m' [Hk H0] H IH]; simpl; [tauto|].
  simpl in Hk, H0. intros [[= -> ->]|Hin].
  - exists v0. subst. tauto.
  - destruct (IH Hin) as (v & Hv & HR). exists v. tauto.
Qed.

Lemma aligned_In_l (m : t K V) (m' : t K V') k v :
  aligned R m m' -> In (k, v) m -> exists v', In (k, v') m' /\ R v v'.
Proof.
  intros H. induction H as [|[k0 v0] [k0' v0'] m m' [Hk H0] H IH]; simpl; [tauto|].
  simpl in Hk, H0. intros [[= -> ->]|Hin].
  - exists v0'. subst. tauto.
  - destruct (IH Hin) as (v' & Hv & HR). exists v'. tauto.
Qed.

End Parallel.

Section Collect.
Variables (A : Type) (key : A -> K) (val : A -> V).

Lemma NoDup_collect (l : list A) (m : t K V) :
  NoDup (keys m) -> NoDup (keys (collect keq key val l m)).
Proof.
  revert m; induction l as [|a l IH]; intros m H; simpl; [assumption|].
  apply IH. now apply NoDup_set.
Qed.

Lemma get_collect_notin (l : list A) (m : t K V) k :
  ~ In k (map key l) -> get keq (collect keq key val l m) k = get keq m k.
Proof.
  revert m; induction l as [|a l IH]; intros m H; simpl; [reflexivity|].
  simpl in H. rewrite IH by tauto. rewrite get_set.
  destruct (keq (key a) k) eqn:E; [|reflexivity].
  apply keq_eq in E. tauto.
Qed.

Lemma get_collect_inv (l : list A) (m : t K V) k v :
  get keq (collect keq key val l m) k = Some v ->
  (exists a, In a l /\ key a = k /\ val a = v) \/ get keq m k = Some v.
Proof.
  revert m; induction l as [|a l IH]; intros m H; simpl in *; [now right|].
  apply IH in H as [(b & Hb & Hk & Hv)|H].
  - left. exists b. tauto.
  - rewrite get_set in H. destruct (keq (key a) k) eqn:E.
    + apply keq_eq in E. injection H as <-. left. exists a. tauto.
    + now right.
Qed.

Lemma get_collect_NoDup (l : list A) (m : t K V) a :
  NoDup (map key l) -> In a l ->
  get keq (collect keq key val l m) (key a) = Some (val a).
Proof.
  revert m; induction l as [|x l IH]; intros m Hd Hin; simpl in *; [tauto|].
  inversion Hd as [|? ? Hn Hd']; subst. destruct Hin as [->|Hin].
  - rewrite get_collect_notin by assumption. now rewrite get_set, keq_refl.
  - now apply IH.
Qed.

Lemma keys_collect (l : list A) (m : t K V) k :
  In k (keys (collect keq key val l m)) <-> In k (map key l) \/ In k (keys m).
Proof.
  revert m; induction l as [|a l IH]; intros m; simpl; [tauto|].
  rewrite IH, keys_set. intuition congruence.
Qed.

End Collect.
End Facts.
End JsMapFacts.

(** ** The diff of two loaded versions *)

Lemma StepType_eqb_spec (a b : StepType) : reflect (a = b) (StepType_eqb a b).
Proof. destruct a, b; constructor; congruence. Qed.

Module CompareFacts.
Import Compare CompareView.

Lemma jmeq (a b : jsstring) : Js.eqb a b = true <-> a = b.
Proof. apply JsFacts.eqb_eq. Qed.

Lemma Zeqb_eq (a b : Z) : Z.eqb a b = true <-> a = b.
Proof. apply Z.eqb_eq. Qed.

Lemma addedChangedLoop_eq fromMap toMap :
  addedChangedLoop fromMap toMap
  = (flat_map (addedOf fromMap) toMap, flat_map (changedOf fromMap) toMap).
Proof.
  unfold addedChangedLoop, JsMap.entries.
  enough (H : forall l a c,
    fold_left
      (fun (acc : list StepEntry * list StepChange) (e : jsstring * SpecStep.t) =>
         let '(added, changed) := acc in
         let '(stepKey, toStep) := e in
         match JsMap.get Js.eqb fromMap stepKey with
         | None => (added ++ [entryOf stepKey toStep], changed)
         | Some fromStep =>
             if differs fromStep toStep
             then (added, changed ++ [ {| changedKey := stepKey;
                                          from := sideOf fromStep;
                                          to := sideOf toStep |} ])
             else (added, changed)
         end) l (a, c)
    = (a ++ flat_map (addedOf fromMap) l, c ++ flat_map (changedOf fromMap) l))
    by apply (H toMap [] []).
  induction l as [|[k s] l IH]; intros a c; cbn [fold_left flat_map].
  - now rewrite !app_nil_r.
  - assert (Ea : addedOf fromMap (k, s)
                 = match JsMap.get Js.eqb fromMap k with
                   | None => [entryOf k s] | Some _ => [] end) by reflexivity.
    assert (Ec : changedOf fromMap (k, s)
                 = match JsMap.get Js.eqb fromMap k with
                   | None => []
                   | Some f => if differs f s
                               then [ {| changedKey := k; from := sideOf f;
                                         to := sideOf s |} ]
                               else []
                   end) by reflexivity.
    rewrite Ea, Ec. clear Ea Ec.
    destruct (JsMap.get Js.eqb fromMap k) as [f|].
    + destruct (differs f s); rewrite IH; simpl; now rewrite <- ?app_assoc.
    + rewrite IH. simpl. now rewrite <- app_assoc.
Qed.

Lemma removedLoop_eq fromMap toMap :
  removedLoop fromMap toMap = flat_map (removedOf toMap) fromMap.
Proof.
  unfold removedLoop, JsMap.entries.
  enough (H : forall l r,
    fold_left
      (fun (removed : list StepEntry) (e : jsstring * SpecStep.t) =>
         let '(stepKey, fromStep) := e in
         if JsMap.has Js.eqb toMap stepKey then removed
         else removed ++ [entryOf stepKey fromStep]) l r
    = r ++ flat_map (removedOf toMap) l) by apply (H fromMap []).
  induction l as [|[k s] l IH]; intros r; cbn [fold_left flat_map].
  - now rewrite app_nil_r.
  - assert (Er : removedOf toMap (k, s)
                 = if JsMap.has Js.eqb toMap k then [] else [entryOf k s])
      by reflexivity.
    rewrite Er, IH. clear Er.
    destruct (JsMap.has Js.eqb toMap k); simpl; now rewrite <- ?app_assoc.
Qed.

Lemma edgesMissingFrom_eq these those :
  edgesMissingFrom these those = flat_map (missingOf those) these.
Proof.
  unfold edgesMissingFrom, JsMap.entries.
  enough (H : forall l r,
    fold_left
      (fun (out : list EdgeEntry) (e : jsstring * EdgeEntry) =>
         let '(key, edge) := e in
         if JsMap.has Js.eqb those key then out else out ++ [edge]) l r
    = r ++ flat_map (missingOf those) l) by apply (H these []).
  induction l as [|[k s] l IH]; intros r; cbn [fold_left flat_map].
  - now rewrite app_nil_r.
  - assert (Er : missingOf those (k, s)
                 = if JsMap.has Js.eqb those k then [] else [s])
      by reflexivity.
    rewrite Er, IH. clear Er.
    destruct (JsMap.has Js.eqb those k); simpl; now rewrite <- ?app_assoc.
Qed.

Lemma stepsAdded_diff A B :
  stepsAdded (diff A B)
  = flat_map (addedOf (stepsByKey (steps A))) (stepsByKey (steps B)).
Proof. unfold diff. rewrite addedChangedLoop_eq. reflexivity. Qed.

Lemma stepsChanged_diff A B :
  stepsChanged (diff A B)
  = flat_map (changedOf (stepsByKey (steps A))) (stepsByKey (steps B)).
Proof. unfold diff. rewrite addedChangedLoop_eq. reflexivity. Qed.

Lemma stepsRemoved_diff A B :
  stepsRemoved (diff A B)
  = flat_map (removedOf (stepsByKey (steps B))) (stepsByKey (steps A)).
Proof. unfold diff. rewrite addedChangedLoop_eq, removedLoop_eq. reflexivity. Qed.

Lemma edgesAdded_diff A B :
  edgesAdded (diff A B)
  = flat_map (missingOf (edgesSet (idToKey (steps A)) (transitions A)))
             (edgesSet (idToKey (steps B)) (transitions B)).
Proof. unfold diff. rewrite addedChangedLoop_eq, !edgesMissingFrom_eq. reflexivity. Qed.

Lemma edgesRemoved_diff A B :
  edgesRemoved (diff A B)
  = flat_map (missingOf (edgesSet (idToKey (steps B)) (transitions B)))
             (edgesSet (idToKey (steps A)) (transitions A)).
Proof. unfold diff. rewrite addedChangedLoop_eq, !edgesMissingFrom_eq. reflexivity. Qed.

Lemma flat_map_nil (A B : Type) (f : A -> list B) (l : list A) :
  (forall a, In a l -> f a = []) -> flat_map f l = [].
Proof.
  induction l as [|a l IH]; simpl; intros H; [reflexivity|].
  rewrite (H a) by now left. apply IH. intros; apply H; now right.
Qed.

Lemma NoDup_stepsByKey l : NoDup (JsMap.keys (stepsByKey l)).
Proof. apply JsMapFacts.NoDup_collect; [apply jmeq | constructor]. Qed.

Lemma NoDup_edgesSet idmap trs : NoDup (JsMap.keys (edgesSet idmap trs)).
Proof.
  unfold edgesSet.
  enough (H : forall m, NoDup (JsMap.keys m) ->
    NoDup (JsMap.keys (fold_left
      (fun (m : JsMap.t jsstring EdgeEntry) (tr : SpecStepTransition.t) =>
         match JsMap.get Z.eqb idmap (SpecStepTransition.fromStepId tr),
               JsMap.get Z.eqb idmap (SpecStepTransition.toStepId tr) with
         | Some fromKey, Some toKey =>
             if negb (Js.truthy fromKey) || negb (Js.truthy toKey) then m
             else JsMap.set Js.eqb m
                    (buildEdgeKey fromKey toKey (SpecStepTransition.label tr))
                    {| fromKey := fromKey; toKey := toKey;
                       label := SpecStepTransition.label tr |}
         | _, _ => m
         end) trs m))) by (apply H; constructor).
  induction trs as [|tr trs IH]; intros m Hm; simpl; [assumption|].
  apply IH.
  destruct (JsMap.get Z.eqb idmap (SpecStepTransition.fromStepId tr)) as [fk|];
    [|assumption].
  destruct (JsMap.get Z.eqb idmap (SpecStepTransition.toStepId tr)) as [tk|];
    [|assumption].
  destruct (negb (Js.truthy fk) || negb (Js.truthy tk)); [assumption|].
  apply JsMapFacts.NoDup_set; [apply jmeq | assumption].
Qed.

Lemma differs_refl s : differs s s = false.
Proof.
  unfold differs. rewrite !JsFacts.eqb_refl.
  now destruct (StepType_eqb_spec (SpecStep.type s) (SpecStep.type s)).
Qed.

Lemma differs_true f t :
  differs f t = true <->
  SpecStep.title f <> SpecStep.title t
  \/ Js.or_empty (SpecStep.description f) <> Js.or_empty (SpecStep.description t)
  \/ SpecStep.type f <> SpecStep.type t.
Proof.
  unfold differs.
  destruct (JsFacts.eqb_spec (SpecStep.title f) (SpecStep.title t));
  destruct (JsFacts.eqb_spec (Js.or_empty (SpecStep.description f))
                             (Js.or_empty (SpecStep.description t)));
  destruct (StepType_eqb_spec (SpecStep.type f) (SpecStep.type t));
  simpl; split; intros H; try reflexivity; try discriminate; tauto.
Qed.

(** C1. Comparing a version with itself reports nothing: no step added,
    removed or changed, and no transition added or removed. *)
Theorem diff_self_empty (S : VersionGraph) :
  diff S S = {| stepsAdded := []; stepsRemoved := []; stepsChanged := [];
                edgesAdded := []; edgesRemoved := [] |}.
Proof.
  assert (Ha : stepsAdded (diff S S) = []).
  { rewrite stepsAdded_diff. apply flat_map_nil. intros [k s] Hin.
    unfold addedOf. simpl.
    now rewrite (JsMapFacts.In_get _ _ Js.eqb jmeq _ k s (NoDup_stepsByKey _) Hin). }
  assert (Hc : stepsChanged (diff S S) = []).
  { rewrite stepsChanged_diff. apply flat_map_nil. intros [k s] Hin.
    unfold changedOf. simpl.
    rewrite (JsMapFacts.In_get _ _ Js.eqb jmeq _ k s (NoDup_stepsByKey _) Hin).
    now rewrite differs_refl. }
  assert (Hr : stepsRemoved (diff S S) = []).
  { rewrite stepsRemoved_diff. apply flat_map_nil. intros [k s] Hin.
    unfold removedOf. simpl.
    now rewrite (JsMapFacts.has_In _ _ Js.eqb jmeq _ k s (NoDup_stepsByKey _) Hin). }
  assert (He : forall m : JsMap.t jsstring EdgeEntry,
             NoDup (JsMap.keys m) -> flat_map (missingOf m) m = []).
  { intros m Hm. apply flat_map_nil. intros [k e] Hin. unfold missingOf. simpl.
    now rewrite (JsMapFacts.has_In _ _ Js.eqb jmeq _ k e Hm Hin). }
  assert (Hea : edgesAdded (diff S S) = [])
    by (rewrite edgesAdded_diff; apply He, NoDup_edgesSet).
  assert (Her : edgesRemoved (diff S S) = [])
    by (rewrite edgesRemoved_diff; apply He, NoDup_edgesSet).
  destruct (diff S S); simpl in *; congruence.
Qed.

(** C4. The steps [diff A B] reports as added are the steps [diff B A]
    reports as removed: the same entries in the same order, hence the
    same set. *)
Theorem added_is_removed_of_reverse (A B : VersionGraph) :
  stepsAdded (diff A B) = stepsRemoved (diff B A)
  /\ (forall e, In e (stepsAdded (diff A B)) <-> In e (stepsRemoved (diff B A))).
Proof.
  assert (H : stepsAdded (diff A B) = stepsRemoved (diff B A)).
  { rewrite stepsAdded_diff, stepsRemoved_diff. apply flat_map_ext.
    intros [k s]. unfold addedOf, removedOf, JsMap.has. simpl.
    now destruct (JsMap.get Js.eqb (stepsByKey (steps A)) k). }
  split; [exact H|]. intros e. now rewrite H.
Qed.

Lemma NoDup_map_inj (X Y : Type) (f : X -> Y) (l : list X) (a b : X) :
  NoDup (map f l) -> In a l -> In b l -> f a = f b -> a = b.
Proof.
  induction l as [|x l IH]; simpl; intros Hd Ha Hb E; [tauto|].
  inversion Hd as [|? ? Hn Hd']; subst.
  destruct Ha as [->|Ha], Hb as [->|Hb]; auto.
  - exfalso. apply Hn. rewrite E. now apply in_map.
  - exfalso. apply Hn. rewrite <- E. now apply in_map.
Qed.

Lemma get_stepsByKey l s :
  NoDup (map SpecStep.stepKey l) -> In s l ->
  JsMap.get Js.eqb (stepsByKey l) (SpecStep.stepKey s) = Some s.
Proof.
  intros Hd Hin. unfold stepsByKey.
  apply (JsMapFacts.get_collect_NoDup _ _ Js.eqb jmeq _ SpecStep.stepKey
           (fun s => s) l JsMap.empty s Hd Hin).
Qed.

Lemma In_stepsByKey l k s :
  In (k, s) (stepsByKey l) -> In s l /\ SpecStep.stepKey s = k.
Proof.
  intros Hin.
  apply (JsMapFacts.In_get _ _ Js.eqb jmeq _ k s (NoDup_stepsByKey l)) in Hin.
  apply JsMapFacts.get_collect_inv in Hin as [(a & Ha & Hk & Hv)|H];
    [|discriminate | apply jmeq].
  subst. tauto.
Qed.

Lemma In_stepsChanged A B c :
  In c (stepsChanged (diff A B)) <->
  exists fromStep toStep,
    In (changedKey c, toStep) (stepsByKey (steps B))
    /\ JsMap.get Js.eqb (stepsByKey (steps A)) (changedKey c) = Some fromStep
    /\ differs fromStep toStep = true
    /\ c = {| changedKey := changedKey c; from := sideOf fromStep; to := sideOf toStep |}.
Proof.
  rewrite stepsChanged_diff, in_flat_map. split.
  - intros [[k t] [Hin Hc]]. unfold changedOf in Hc. simpl in Hc.
    destruct (JsMap.get Js.eqb (stepsByKey (steps A)) k) as [f|] eqn:E; [|destruct Hc].
    destruct (differs f t) eqn:D; [|destruct Hc].
    destruct Hc as [<-|[]]. simpl. exists f, t. rewrite E. tauto.
  - intros (f & t & Hin & E & D & Hc). exists (changedKey c, t). split; [assumption|].
    unfold changedOf. simpl. rewrite E, D. left. now symmetry.
Qed.

(** C2. For snapshots with unique step keys and a key held by a step of
    each: the diff lists the key as changed exactly when the two steps
    differ in title, in description (null and the empty string being the
    same) or in type. Position, id and metadata play no part: two steps
    equal on the three compared fields are never listed. *)
Theorem changed_iff_fields_differ (A B : VersionGraph) (fromStep toStep : SpecStep.t) :
  NoDup (map SpecStep.stepKey (steps A)) ->
  NoDup (map SpecStep.stepKey (steps B)) ->
  In fromStep (steps A) ->
  In toStep (steps B) ->
  SpecStep.stepKey fromStep = SpecStep.stepKey toStep ->
  ((exists c, In c (stepsChanged (diff A B))
              /\ changedKey c = SpecStep.stepKey fromStep)
   <-> (SpecStep.title fromStep <> SpecStep.title toStep
        \/ Js.or_empty (SpecStep.description fromStep)
           <> Js.or_empty (SpecStep.description toStep)
        \/ SpecStep.type fromStep <> SpecStep.type toStep))
  /\ (SpecStep.title fromStep = SpecStep.title toStep ->
      Js.or_empty (SpecStep.description fromStep)
      = Js.or_empty (SpecStep.description toStep) ->
      SpecStep.type fromStep = SpecStep.type toStep ->
      forall c, In c (stepsChanged (diff A B)) ->
                changedKey c <> SpecStep.stepKey fromStep)
  /\ Js.or_empty None = Js.or_empty (Some []).
Proof.
  intros HdA HdB HinA HinB Hk.
  assert (Hiff : (exists c, In c (stepsChanged (diff A B))
                            /\ changedKey c = SpecStep.stepKey fromStep)
                 <-> differs fromStep toStep = true).
  { split.
    - intros (c & Hc & Hck). apply In_stepsChanged in Hc as (f & t & Hin & E & D & _).
      rewrite Hck in *. rewrite (get_stepsByKey _ _ HdA HinA) in E.
      injection E as <-. apply In_stepsByKey in Hin as [Hin Hkt].
      assert (t = toStep) by (apply (NoDup_map_inj _ _ _ _ _ _ HdB Hin HinB); congruence).
      now subst.
    - intros D.
      exists {| changedKey := SpecStep.stepKey fromStep;
                from := sideOf fromStep; to := sideOf toStep |}.
      split; [|reflexivity]. apply In_stepsChanged. simpl.
      exists fromStep, toStep. repeat split; try assumption.
      + rewrite Hk. apply JsMapFacts.get_In with (keq := Js.eqb); [apply jmeq|].
        now apply get_stepsByKey.
      + now apply get_stepsByKey. }
  split; [|split].
  - now rewrite Hiff, differs_true.
  - intros Et Ed Ety c Hc Hck.
    assert (D : differs fromStep toStep = true) by (apply Hiff; now exists c).
    apply differs_true in D. tauto.
  - reflexivity.
Qed.

(** *** Transitions *)

Import Snapshot.

Lemma edgesSet_collect idmap trs :
  edgesSet idmap trs
  = JsMap.collect Js.eqb fst snd (flat_map (resolved idmap) trs) JsMap.empty.
Proof.
  unfold edgesSet, JsMap.collect. generalize (@JsMap.empty jsstring EdgeEntry).
  induction trs as [|tr trs IH]; intros m; cbn [fold_left flat_map]; [reflexivity|].
  rewrite fold_left_app, IH. f_equal. unfold resolved.
  destruct (JsMap.get Z.eqb idmap (SpecStepTransition.fromStepId tr)) as [fk|];
    [|reflexivity].
  destruct (JsMap.get Z.eqb idmap (SpecStepTransition.toStepId tr)) as [tk|];
    [|reflexivity].
  destruct (negb (Js.truthy fk) || negb (Js.truthy tk)); reflexivity.
Qed.

Lemma get_idToKey l i k :
  NoDup (map SpecStep.id l) ->
  (JsMap.get Z.eqb (idToKey l) i = Some k
   <-> exists s, In s l /\ SpecStep.id s = i /\ SpecStep.stepKey s = k).
Proof.
  intros Hd. unfold idToKey. split.
  - intros H. apply JsMapFacts.get_collect_inv in H as [H|H];
      [assumption | discriminate | apply Zeqb_eq].
  - intros (s & Hin & <- & <-).
    apply (JsMapFacts.get_collect_NoDup _ _ Z.eqb Zeqb_eq _ SpecStep.id
             SpecStep.stepKey l JsMap.empty s Hd Hin).
Qed.

Lemma keyOk_inv k :
  keyOk k = true ->
  k <> [] /\ Js.includes k arrow = false /\ Js.includes k bar = false.
Proof.
  unfold keyOk. intros H. apply andb_prop in H as [H Hb]. apply andb_prop in H as [Ht Ha].
  apply JsFacts.truthy_true in Ht. apply negb_true_iff in Ha, Hb. tauto.
Qed.

Lemma tupleKey_inj f t l f' t' l' :
  keyOk f = true -> keyOk f' = true -> keyOk t = true -> keyOk t' = true ->
  tupleKey f t l = tupleKey f' t' l' -> f = f' /\ t = t' /\ l = l'.
Proof.
  intros Hf Hf' Ht Ht' E.
  apply keyOk_inv in Hf as (_ & Hf & _), Hf' as (_ & Hf' & _).
  apply keyOk_inv in Ht as (_ & _ & Ht), Ht' as (_ & _ & Ht').
  unfold tupleKey in E.
  apply (JsFacts.app_sep2_inj 45 62) in E as [-> E]; [|discriminate|assumption..].
  apply (JsFacts.app_sep1_inj 124) in E as [-> ->]; [tauto|assumption..].
Qed.

(** The entries of an edge map come from tuples of the version. *)
Lemma In_resolved_tuple V p :
  wellKeyed V ->
  In p (flat_map (resolved (idToKey (steps V))) (transitions V)) ->
  let e := snd p in
  hasTuple V (fromKey e) (toKey e) (Js.or_empty (label e))
  /\ keyOk (fromKey e) = true /\ keyOk (toKey e) = true
  /\ fst p = tupleKey (fromKey e) (toKey e) (Js.or_empty (label e)).
Proof.
  intros [Hd Hk] Hin. apply in_flat_map in Hin as (tr & Htr & Hp).
  unfold resolved in Hp.
  destruct (JsMap.get Z.eqb (idToKey (steps V)) (SpecStepTransition.fromStepId tr))
    as [fk|] eqn:Ef; [|destruct Hp].
  destruct (JsMap.get Z.eqb (idToKey (steps V)) (SpecStepTransition.toStepId tr))
    as [tk|] eqn:Et; [|destruct Hp].
  destruct (negb (Js.truthy fk) || negb (Js.truthy tk)); [destruct Hp|].
  destruct Hp as [<-|[]]. simpl.
  apply (get_idToKey _ _ _ Hd) in Ef as (sf & Hsf & Hif & Hkf).
  apply (get_idToKey _ _ _ Hd) in Et as (st & Hst & Hit & Hkt).
  rewrite Forall_forall in Hk. repeat split.
  - exists tr, sf, st. tauto.
  - rewrite <- Hkf. now apply Hk.
  - rewrite <- Hkt. now apply Hk.
Qed.

(** Every tuple of the version has an entry under its key string. *)
Lemma tuple_In_resolved V f t l :
  wellKeyed V -> hasTuple V f t l ->
  In (tupleKey f t l)
     (map fst (flat_map (resolved (idToKey (steps V))) (transitions V))).
Proof.
  intros [Hd Hk] (tr & sf & st & Htr & Hsf & Hst & Hif & Hit & Hkf & Hkt & Hl).
  rewrite Forall_forall in Hk.
  apply in_map_iff.
  exists (tupleKey f t l,
          {| fromKey := f; toKey := t; label := SpecStepTransition.label tr |}).
  split; [reflexivity|]. apply in_flat_map. exists tr. split; [assumption|].
  unfold resolved.
  assert (Ef : JsMap.get Z.eqb (idToKey (steps V)) (SpecStepTransition.fromStepId tr)
               = Some f) by (apply (get_idToKey _ _ _ Hd); exists sf; tauto).
  assert (Et : JsMap.get Z.eqb (idToKey (steps V)) (SpecStepTransition.toStepId tr)
               = Some t) by (apply (get_idToKey _ _ _ Hd); exists st; tauto).
  rewrite Ef, Et.
  assert (Hf : keyOk f = true) by (rewrite <- Hkf; now apply Hk).
  assert (Ht : keyOk t = true) by (rewrite <- Hkt; now apply Hk).
  unfold keyOk in Hf, Ht.
  apply andb_prop in Hf as [Hf _]. apply andb_prop in Hf as [Hf _].
  apply andb_prop in Ht as [Ht _]. apply andb_prop in Ht as [Ht _].
  rewrite Hf, Ht. simpl. left. unfold tupleKey, buildEdgeKey. now rewrite Hl.
Qed.

(** The entries of [these] missing from [those], in terms of tuples. *)
Lemma missing_iff_tuple (X Y : VersionGraph) f t l :
  wellKeyed X -> wellKeyed Y ->
  ((exists e, In e (flat_map (missingOf (edgesSet (idToKey (steps Y)) (transitions Y)))
                             (edgesSet (idToKey (steps X)) (transitions X)))
              /\ fromKey e = f /\ toKey e = t /\ Js.or_empty (label e) = l)
   <-> (hasTuple X f t l /\ ~ hasTuple Y f t l)).
Proof.
  intros HX HY. rewrite !edgesSet_collect.
  set (rx := flat_map (resolved (idToKey (steps X))) (transitions X)).
  set (ry := flat_map (resolved (idToKey (steps Y))) (transitions Y)).
  set (mx := JsMap.collect Js.eqb fst snd rx JsMap.empty).
  set (my := JsMap.collect Js.eqb fst snd ry JsMap.empty).
  assert (Hdx : NoDup (JsMap.keys mx))
    by (apply JsMapFacts.NoDup_collect; [apply jmeq | constructor]).
  assert (Hmx : forall k e, In (k, e) mx -> In (k, e) rx).
  { intros k e Hin. apply (JsMapFacts.In_get _ _ Js.eqb jmeq _ k e Hdx) in Hin.
    apply JsMapFacts.get_collect_inv in Hin as [((k', e') & Hin & Hk & He)|H];
      [|discriminate|apply jmeq].
    simpl in *. now subst. }
  assert (Hhas : forall k, JsMap.has Js.eqb my k = true <-> In k (map fst ry)).
  { intros k. rewrite (JsMapFacts.has_true _ _ Js.eqb jmeq). unfold my.
    rewrite JsMapFacts.keys_collect by apply jmeq. simpl. tauto. }
  split.
  - intros (e & Hin & Hf & Ht & Hl). apply in_flat_map in Hin as ((k, e') & Hin & He).
    unfold missingOf in He. simpl in He.
    destruct (JsMap.has Js.eqb my k) eqn:Hh; [destruct He|]. destruct He as [->|[]].
    apply Hmx in Hin.
    destruct (In_resolved_tuple X (k, e) HX Hin) as (Htup & _ & _ & Hk). simpl in *.
    rewrite Hf, Ht, Hl in *. split; [assumption|].
    intros Hy. apply (tuple_In_resolved Y f t l HY) in Hy.
    apply Hhas in Hy. congruence.
  - intros [Hx Hny]. pose proof (tuple_In_resolved X f t l HX Hx) as Hk.
    assert (Hkx : In (tupleKey f t l) (JsMap.keys mx)).
    { unfold mx. rewrite JsMapFacts.keys_collect by apply jmeq. now left. }
    apply (JsMapFacts.has_true _ _ Js.eqb jmeq) in Hkx. unfold JsMap.has in Hkx.
    destruct (JsMap.get Js.eqb mx (tupleKey f t l)) as [e|] eqn:Eg; [|discriminate].
    apply (JsMapFacts.get_In _ _ Js.eqb jmeq) in Eg. pose proof (Hmx _ _ Eg) as Hr.
    destruct (In_resolved_tuple X _ HX Hr) as (Htup & Hfo & Hto & Hkey). simpl in *.
    assert (Hfx : keyOk f = true /\ keyOk t = true).
    { destruct HX as [_ Hk']. rewrite Forall_forall in Hk'.
      destruct Hx as (tr & sf & st & _ & Hsf & Hst & _ & _ & <- & <- & _).
      split; now apply Hk'. }
    destruct Hfx as [Hfk Htk].
    apply tupleKey_inj in Hkey as (Ef & Et & El); try assumption.
    exists e. repeat split; try congruence.
    apply in_flat_map. exists (tupleKey f t l, e). split; [assumption|].
    unfold missingOf. simpl.
    destruct (JsMap.has Js.eqb my (tupleKey f t l)) eqn:Hh; [|now left].
    exfalso. apply Hhas in Hh. apply in_map_iff in Hh as (p & Hp & Hin).
    destruct (In_resolved_tuple Y p HY Hin) as (Htup' & Hfo' & Hto' & Hkey').
    simpl in *. rewrite Hp in Hkey'.
    apply tupleKey_inj in Hkey' as (Ef' & Et' & El'); try assumption.
    apply Hny. now rewrite Ef', Et', El'.
Qed.

(** A transition with an endpoint whose key is empty contributes no
    entry to the edge map. *)
Lemma resolved_emptyEnded V tr :
  emptyEnded V tr = true -> resolved (idToKey (steps V)) tr = [].
Proof.
  unfold emptyEnded, emptyKeyAt, resolved. intros H.
  destruct (JsMap.get Z.eqb (idToKey (steps V)) (SpecStepTransition.fromStepId tr))
    as [fk|]; [|reflexivity].
  destruct (JsMap.get Z.eqb (idToKey (steps V)) (SpecStepTransition.toStepId tr))
    as [tk|]; [|reflexivity].
  now rewrite H.
Qed.

Lemma edgesSet_withoutEmptyEnded V :
  edgesSet (idToKey (steps (withoutEmptyEnded V))) (transitions (withoutEmptyEnded V))
  = edgesSet (idToKey (steps V)) (transitions V).
Proof.
  cbn [withoutEmptyEnded steps transitions]. rewrite !edgesSet_collect. f_equal.
  induction (transitions V) as [|tr trs IH]; [reflexivity|].
  cbn [filter flat_map]. destruct (emptyEnded V tr) eqn:E; cbn [negb].
  - now rewrite (resolved_emptyEnded V tr E).
  - cbn [flat_map]. now rewrite IH.
Qed.

(** Every entry of an edge map has two keys that are not empty. *)
Lemma edgesSet_keys idmap trs k e :
  In (k, e) (edgesSet idmap trs) -> fromKey e <> [] /\ toKey e <> [].
Proof.
  rewrite edgesSet_collect. intros Hin.
  set (r := flat_map (resolved idmap) trs) in *.
  assert (Hd : NoDup (JsMap.keys (JsMap.collect Js.eqb fst snd r JsMap.empty)))
    by (apply JsMapFacts.NoDup_collect; [apply jmeq | constructor]).
  apply (JsMapFacts.In_get _ _ Js.eqb jmeq _ k e Hd) in Hin.
  apply JsMapFacts.get_collect_inv in Hin as [((k', e') & Hin & Hk & He)|H];
    [|discriminate|apply jmeq].
  cbn [fst snd] in Hk, He. subst k' e'.
  apply in_flat_map in Hin as (tr & _ & Hp). unfold resolved in Hp.
  destruct (JsMap.get Z.eqb idmap (SpecStepTransition.fromStepId tr)) as [fk|];
    [|destruct Hp].
  destruct (JsMap.get Z.eqb idmap (SpecStepTransition.toStepId tr)) as [tk|];
    [|destruct Hp].
  destruct fk as [|c fk]; [destruct Hp|]. destruct tk as [|d tk]; [destruct Hp|].
  cbn [Js.truthy negb orb] in Hp. destruct Hp as [[= _ <-]|[]].
  cbn [fromKey toKey]. split; discriminate.
Qed.

Lemma missing_keys those these e :
  In e (flat_map (missingOf those) (edgesSet (fst these) (snd these))) ->
  fromKey e <> [] /\ toKey e <> [].
Proof.
  intros Hin. apply in_flat_map in Hin as ((k, e') & Hin & He).
  unfold missingOf in He. cbn [fst snd] in He.
  destruct (JsMap.has Js.eqb those k); [destruct He|]. destruct He as [->|[]].
  exact (edgesSet_keys _ _ _ _ Hin).
Qed.

(** C3, as the handler implements it. For two versions whose step keys
    are non-empty and hold neither ["->"] nor ["|"]: a transition is
    identified by [(fromKey, toKey, label)] with a [null] label read as
    the empty string. The added list holds exactly the tuples of the
    to-version absent from the from-version, the removed list exactly
    the tuples of the from-version absent from the to-version; there is
    no third list, so a relabelled edge is one removal and one addition.
    For any two versions, a transition with an endpoint whose key is the
    empty string is left out: the diff is the diff of the two versions
    without such transitions, and no reported transition has an empty
    key. *)
Theorem transitions_diff_by_tuple (A B : VersionGraph) :
  (wellKeyed A -> wellKeyed B ->
   (forall f t l,
       (exists e, In e (edgesAdded (diff A B))
                  /\ fromKey e = f /\ toKey e = t /\ Js.or_empty (label e) = l)
       <-> (hasTuple B f t l /\ ~ hasTuple A f t l))
   /\ (forall f t l,
       (exists e, In e (edgesRemoved (diff A B))
                  /\ fromKey e = f /\ toKey e = t /\ Js.or_empty (label e) = l)
       <-> (hasTuple A f t l /\ ~ hasTuple B f t l))
   /\ (forall f t l l',
       l <> l' ->
       hasTuple A f t l -> ~ hasTuple B f t l ->
       hasTuple B f t l' -> ~ hasTuple A f t l' ->
       (exists e, In e (edgesRemoved (diff A B))
                  /\ fromKey e = f /\ toKey e = t /\ Js.or_empty (label e) = l)
       /\ (exists e, In e (edgesAdded (diff A B))
                     /\ fromKey e = f /\ toKey e = t /\ Js.or_empty (label e) = l')))
  /\ diff A B = diff (withoutEmptyEnded A) (withoutEmptyEnded B)
  /\ (forall e, In e (edgesAdded (diff A B)) \/ In e (edgesRemoved (diff A B)) ->
                 fromKey e <> [] /\ toKey e <> []).
Proof.
  split; [|split].
  - intros HA HB.
    assert (Hadd : forall f t l,
        (exists e, In e (edgesAdded (diff A B))
                   /\ fromKey e = f /\ toKey e = t /\ Js.or_empty (label e) = l)
        <-> (hasTuple B f t l /\ ~ hasTuple A f t l)).
    { intros f t l. rewrite edgesAdded_diff. now apply missing_iff_tuple. }
    assert (Hrem : forall f t l,
        (exists e, In e (edgesRemoved (diff A B))
                   /\ fromKey e = f /\ toKey e = t /\ Js.or_empty (label e) = l)
        <-> (hasTuple A f t l /\ ~ hasTuple B f t l)).
    { intros f t l. rewrite edgesRemoved_diff. now apply missing_iff_tuple. }
    split; [exact Hadd|]. split; [exact Hrem|].
    intros f t l l' _ H1 H2 H3 H4. split; [apply Hrem | apply Hadd]; tauto.
  - unfold diff. rewrite !edgesSet_withoutEmptyEnded. reflexivity.
  - intros e [Hin|Hin].
    + rewrite edgesAdded_diff in Hin.
      exact (missing_keys _ (idToKey (steps B), transitions B) e Hin).
    + rewrite edgesRemoved_diff in Hin.
      exact (missing_keys _ (idToKey (steps A), transitions A) e Hin).
Qed.

Lemma changed_iff_fields_differ_witness :
  NoDup (map SpecStep.stepKey (steps Samples.versionA))
  /\ NoDup (map SpecStep.stepKey (steps Samples.versionB))
  /\ forall c, In c (stepsChanged (diff Samples.versionA Samples.versionB)) ->
               changedKey c <> Js.lit "1".
Proof.
  assert (HA : NoDup (map SpecStep.stepKey (steps Samples.versionA)))
    by (repeat constructor; simpl; tauto).
  assert (HB : NoDup (map SpecStep.stepKey (steps Samples.versionB)))
    by (repeat constructor; simpl; intuition discriminate).
  split; [exact HA|]. split; [exact HB|].
  refine (proj1 (proj2 (changed_iff_fields_differ Samples.versionA Samples.versionB
            (SpecStep.mk 1 1 (Js.lit "1") start (Js.lit "Start") None 100 100 None)
            (SpecStep.mk 2 2 (Js.lit "1") start (Js.lit "Start") (Some []) 250 40 None)
            HA HB _ _ _)) _ _ _).
  - simpl; tauto.
  - simpl; tauto.
  - reflexivity.
  - reflexivity.
  - reflexivity.
  - reflexivity.
Defined.

Lemma wellKeyed_versionA : wellKeyed Samples.versionA.
Proof. split; [repeat constructor; simpl; tauto | repeat constructor]. Qed.

Lemma wellKeyed_versionB : wellKeyed Samples.versionB.
Proof.
  split; [repeat constructor; simpl; intuition discriminate | repeat constructor].
Qed.

Lemma transitions_diff_by_tuple_witness :
  wellKeyed Samples.versionA /\ wellKeyed Samples.versionB
  /\ exists e, In e (edgesAdded (diff Samples.versionA Samples.versionB))
               /\ fromKey e = Js.lit "1" /\ toKey e = Js.lit "2"
               /\ Js.or_empty (label e) = [].
Proof.
  split; [exact wellKeyed_versionA|]. split; [exact wellKeyed_versionB|].
  apply (proj1 (proj1 (transitions_diff_by_tuple Samples.versionA Samples.versionB)
                         wellKeyed_versionA wellKeyed_versionB)).
  split.
  - exists (SpecStepTransition.mk 1 2 2 3 None None None),
           (SpecStep.mk 2 2 (Js.lit "1") start (Js.lit "Start") (Some []) 250 40 None),
           (SpecStep.mk 3 2 (Js.lit "2") end_ (Js.lit "End") None 100 200 None).
    simpl. tauto.
  - intros (tr & _ & _ & [] & _).
Defined.

(** C3 as stated fails on a step whose key is the empty string: the
    tuple [("", "1", "")] is in the to-version only, and nothing is
    reported as added. *)
Lemma transitions_diff_by_tuple_empty_key :
  hasTuple Samples.versionE [] (Js.lit "1") []
  /\ ~ hasTuple Samples.versionA [] (Js.lit "1") []
  /\ edgesAdded (diff Samples.versionA Samples.versionE) = [].
Proof.
  split; [|split].
  - exists (SpecStepTransition.mk 2 3 4 5 None None None),
           (SpecStep.mk 4 3 [] start (Js.lit "Start") None 0 0 None),
           (SpecStep.mk 5 3 (Js.lit "1") end_ (Js.lit "End") None 0 0 None).
    simpl. tauto.
  - intros (tr & _ & _ & [] & _).
  - reflexivity.
Qed.

(** With ["|"] in a key, two different tuples share one key string, and
    the diff of the two versions reports no transition at all. *)
Lemma edge_key_collision :
  buildEdgeKey (Js.lit "1") (Js.lit "2|x") None
  = buildEdgeKey (Js.lit "1") (Js.lit "2") (Some (Js.lit "x|"))
  /\ hasTuple Samples.versionBarInLabel (Js.lit "1") (Js.lit "2") (Js.lit "x|")
  /\ ~ hasTuple Samples.versionBarInKey (Js.lit "1") (Js.lit "2") (Js.lit "x|")
  /\ edgesAdded (diff Samples.versionBarInKey Samples.versionBarInLabel) = []
  /\ edgesRemoved (diff Samples.versionBarInKey Samples.versionBarInLabel) = [].
Proof.
  split; [reflexivity|]. split; [|split; [|split; reflexivity]].
  - exists (SpecStepTransition.mk 4 5 8 9 (Some (Js.lit "x|")) None None),
           (SpecStep.mk 8 5 (Js.lit "1") start (Js.lit "Start") None 0 0 None),
           (SpecStep.mk 9 5 (Js.lit "2") end_ (Js.lit "End") None 0 0 None).
    simpl. tauto.
  - intros (tr & sf & st & [<-|[]] & _ & _ & _ & _ & _ & _ & Hl). discriminate.
Qed.

(** *** A version against a copy of it *)

Lemma differs_sameFields f t : sameFields f t -> differs f t = false.
Proof.
  intros (_ & Ht & Hd & Hty). unfold differs. rewrite Ht, Hd, Hty, !JsFacts.eqb_refl.
  now destruct (StepType_eqb_spec (SpecStep.type t) (SpecStep.type t)).
Qed.

Lemma diff_copy_empty (X Y : VersionGraph) :
  Forall2 sameFields (steps X) (steps Y) ->
  flat_map (resolved (idToKey (steps X))) (transitions X)
  = flat_map (resolved (idToKey (steps Y))) (transitions Y) ->
  diff X Y = {| stepsAdded := []; stepsRemoved := []; stepsChanged := [];
                edgesAdded := []; edgesRemoved := [] |}.
Proof.
  intros Hs He.
  assert (Hal : JsMap.aligned sameFields
                  (stepsByKey (steps X)) (stepsByKey (steps Y))).
  { unfold stepsByKey. apply JsMapFacts.aligned_collect; [|constructor].
    eapply Forall2_impl; [|exact Hs]. intros a b H. split; [apply H | exact H]. }
  assert (Ha : stepsAdded (diff X Y) = []).
  { rewrite stepsAdded_diff. apply flat_map_nil. intros [k t] Hin.
    destruct (JsMapFacts.aligned_In_r _ _ _ _ _ _ k t Hal Hin) as (f & Hf & _).
    unfold addedOf. simpl.
    now rewrite (JsMapFacts.In_get _ _ Js.eqb jmeq _ k f (NoDup_stepsByKey _) Hf). }
  assert (Hc : stepsChanged (diff X Y) = []).
  { rewrite stepsChanged_diff. apply flat_map_nil. intros [k t] Hin.
    destruct (JsMapFacts.aligned_In_r _ _ _ _ _ _ k t Hal Hin) as (f & Hf & HR).
    unfold changedOf. simpl.
    rewrite (JsMapFacts.In_get _ _ Js.eqb jmeq _ k f (NoDup_stepsByKey _) Hf).
    now rewrite (differs_sameFields _ _ HR). }
  assert (Hr : stepsRemoved (diff X Y) = []).
  { rewrite stepsRemoved_diff. apply flat_map_nil. intros [k f] Hin.
    destruct (JsMapFacts.aligned_In_l _ _ _ _ _ _ k f Hal Hin) as (t & Ht & _).
    unfold removedOf. simpl.
    now rewrite (JsMapFacts.has_In _ _ Js.eqb jmeq _ k t (NoDup_stepsByKey _) Ht). }
  assert (Hm : forall m : JsMap.t jsstring EdgeEntry,
             NoDup (JsMap.keys m) -> flat_map (missingOf m) m = []).
  { intros m Hm. apply flat_map_nil. intros [k e] Hin. unfold missingOf. simpl.
    now rewrite (JsMapFacts.has_In _ _ Js.eqb jmeq _ k e Hm Hin). }
  assert (Hea : edgesAdded (diff X Y) = []).
  { rewrite edgesAdded_diff, !edgesSet_collect, He. apply Hm.
    apply JsMapFacts.NoDup_collect; [apply jmeq | constructor]. }
  assert (Her : edgesRemoved (diff X Y) = []).
  { rewrite edgesRemoved_diff, !edgesSet_collect, He. apply Hm.
    apply JsMapFacts.NoDup_collect; [apply jmeq | constructor]. }
  destruct (diff X Y); simpl in *; congruence.
Qed.

(** A tuple of a version, through the id map of the handler. *)
Lemma hasTuple_get V f t l :
  NoDup (map SpecStep.id (steps V)) ->
  (hasTuple V f t l <->
   exists tr, In tr (transitions V)
     /\ JsMap.get Z.eqb (idToKey (steps V)) (SpecStepTransition.fromStepId tr) = Some f
     /\ JsMap.get Z.eqb (idToKey (steps V)) (SpecStepTransition.toStepId tr) = Some t
     /\ Js.or_empty (SpecStepTransition.label tr) = l).
Proof.
  intros Hd. split.
  - intros (tr & sf & st & Htr & Hsf & Hst & Hif & Hit & Hkf & Hkt & Hl).
    exists tr. repeat split; try assumption.
    + apply (get_idToKey _ _ _ Hd). exists sf. tauto.
    + apply (get_idToKey _ _ _ Hd). exists st. tauto.
  - intros (tr & Htr & Hf & Ht & Hl).
    apply (get_idToKey _ _ _ Hd) in Hf as (sf & Hsf & Hif & Hkf).
    apply (get_idToKey _ _ _ Hd) in Ht as (st & Hst & Hit & Hkt).
    exists tr, sf, st. tauto.
Qed.

End CompareFacts.

(** ** Transactions *)

Module TxFacts.
Import Db.

Local Open Scope Z_scope.

Lemma ahead_refl (db : t) : ahead db db.
Proof. unfold ahead. lia. Qed.

Lemma ahead_trans (a b c : t) : ahead a b -> ahead b c -> ahead a c.
Proof. unfold ahead. lia. Qed.

Lemma rollback_same (db : t) : rollback db db = db.
Proof. now destruct db. Qed.

Lemma rollback_sameRows (db thrown : t) : sameRows (rollback db thrown) db.
Proof. repeat split. Qed.

Lemma advances_ret (A : Type) (a : A) : advances (ret a).
Proof. intros db. apply ahead_refl. Qed.

Lemma advances_throw (A : Type) : advances (@throw A).
Proof. intros db. apply ahead_refl. Qed.

Lemma advances_bind (A B : Type) (c : Tx A) (k : A -> Tx B) :
  advances c -> (forall a, advances (k a)) -> advances (bind c k).
Proof.
  intros Hc Hk db. unfold bind. specialize (Hc db).
  destruct (c db) as [[a db1]|d]; [|exact Hc].
  exact (ahead_trans _ _ _ Hc (Hk a db1)).
Qed.

Lemma advances_spec_create title description createdById :
  advances (spec_create title description createdById).
Proof.
  intros db. unfold spec_create.
  destruct (refOk (userIds db) createdById); unfold ahead; cbn; lia.
Qed.

Lemma advances_specVersion_create specId versionNumber status createdById basedOn comment :
  advances (specVersion_create specId versionNumber status createdById basedOn comment).
Proof.
  intros db. unfold specVersion_create.
  destruct (negb (int4 versionNumber)); [apply ahead_refl|].
  match goal with |- context [if ?c then _ else _] => destruct c end;
    unfold ahead; cbn; lia.
Qed.

Lemma advances_spec_update id currentVersionId :
  advances (spec_update_currentVersionId id currentVersionId).
Proof.
  intros db. unfold spec_update_currentVersionId.
  match goal with |- context [if ?c then _ else _] => destruct c end;
    unfold ahead; cbn; lia.
Qed.

Lemma advances_specStep_create versionId stepKey type title description posX posY metadata :
  advances (specStep_create versionId stepKey type title description posX posY metadata).
Proof.
  intros db. unfold specStep_create.
  destruct (existsb (Z.eqb versionId) (versionIds db)); unfold ahead; cbn; lia.
Qed.

Lemma advances_specStepTransition_create versionId fromStepId toStepId label condition
    metadata :
  advances (specStepTransition_create versionId fromStepId toStepId label condition
              metadata).
Proof.
  intros db. unfold specStepTransition_create.
  destruct fromStepId as [f|]; [|apply ahead_refl].
  destruct toStepId as [t|]; [|apply ahead_refl].
  match goal with |- context [if ?c then _ else _] => destruct c end;
    unfold ahead; cbn; lia.
Qed.

(** In [H], a [specVersion_create] that is done, past the test of the
    version number. *)
Ltac pass_int4 H :=
  match type of H with
  | (if negb ?c then _ else _) = _ =>
      destruct c eqn:?; cbn [negb] in H; [|discriminate H]
  end.

(** A transaction that throws is undone: the rows are those it started
    from and no counter is behind. *)
Lemma rolled_back (A : Type) (c : Tx A) (db thrown : t) :
  advances c -> c db = Thrown thrown ->
  sameRows (rollback db thrown) db /\ ahead db (rollback db thrown).
Proof.
  intros Hc E. specialize (Hc db). rewrite E in Hc.
  split; [apply rollback_sameRows | exact Hc].
Qed.

End TxFacts.

(** ** The handlers of routes/specs.js *)

Module RoutesFacts.
Import Routes DbInv ForkView.

Local Open Scope Z_scope.

Lemma existsb_Zeqb (i : Z) (l : list Z) : existsb (Z.eqb i) l = true <-> In i l.
Proof.
  rewrite existsb_exists. split.
  - intros (x & Hin & E). apply Z.eqb_eq in E. now subst.
  - intros Hin. exists i. split; [assumption | apply Z.eqb_refl].
Qed.

Lemma existsb_Zeqb_app_r (i : Z) (l : list Z) : existsb (Z.eqb i) (l ++ [i]) = true.
Proof. apply existsb_Zeqb, in_or_app. right. now left. Qed.

Lemma distinct_NoDup (l : list Z) : distinct l = true -> NoDup l.
Proof.
  induction l as [|x l IH]; simpl; intros H; [constructor|].
  apply andb_prop in H as [Hx Hl]. constructor; [|now apply IH].
  intros Hin. apply existsb_Zeqb in Hin. rewrite Hin in Hx. discriminate.
Qed.

Lemma below_In (n : Z) (l : list Z) i : below n l = true -> In i l -> i < n.
Proof.
  unfold below. rewrite forallb_forall. intros H Hin. apply H in Hin. lia.
Qed.

Lemma within_In (ids l : list Z) i : within ids l = true -> In i l -> In i ids.
Proof.
  unfold within. rewrite forallb_forall. intros H Hin.
  apply H in Hin. now apply existsb_Zeqb.
Qed.

Lemma consistent_inv (db : Db.t) : consistent db = true -> Consistent db.
Proof.
  unfold consistent. intros H.
  repeat (apply andb_prop in H as [H ?]).
  constructor.
  - intros s Hs. apply (below_In (Db.nextSpecId db) (Db.specIds db));
      [assumption | now apply in_map].
  - now apply distinct_NoDup.
  - intros v Hv. apply (below_In (Db.nextVersionId db) (Db.versionIds db));
      [assumption | now apply in_map].
  - now apply distinct_NoDup.
  - intros s Hs. apply (below_In (Db.nextStepId db) (Db.stepIds db));
      [assumption | now apply in_map].
  - intros v Hv. apply (below_In (Db.nextSpecId db) (Db.specIds db)); [assumption|].
    apply (within_In (Db.specIds db) (map SpecVersion.specId (Db.specVersions db)));
      [assumption | now apply in_map].
  - intros s Hs. apply (below_In (Db.nextVersionId db) (Db.versionIds db)); [assumption|].
    apply (within_In (Db.versionIds db) (map SpecStep.versionId (Db.specSteps db)));
      [assumption | now apply in_map].
  - intros tr Ht. apply (below_In (Db.nextVersionId db) (Db.versionIds db)); [assumption|].
    apply (within_In (Db.versionIds db)
             (map SpecStepTransition.versionId (Db.specStepTransitions db)));
      [assumption | now apply in_map].
  - intros s c Hs Hc.
    match goal with Hf : forallb _ (Db.specs db) = true |- _ =>
      rewrite forallb_forall in Hf; specialize (Hf s Hs); rewrite Hc in Hf;
      simpl in Hf; apply existsb_Zeqb in Hf end.
    apply (below_In (Db.nextVersionId db) (Db.versionIds db)); assumption.
  - intros v Hv.
    apply (within_In (Db.specIds db) (map SpecVersion.specId (Db.specVersions db)));
      [assumption | now apply in_map].
Qed.

Lemma find_none_app (X : Type) (p : X -> bool) (l : list X) (x : X) :
  (forall y, In y l -> p y = false) -> p x = true -> find p (l ++ [x]) = Some x.
Proof.
  induction l as [|y l IH]; simpl; intros Hl Hx.
  - now rewrite Hx.
  - rewrite (Hl y) by now left. apply IH; [|assumption]. intros; apply Hl; now right.
Qed.

Lemma filter_none (X : Type) (p : X -> bool) (l : list X) :
  (forall y, In y l -> p y = false) -> filter p l = [].
Proof.
  induction l as [|y l IH]; simpl; intros Hl; [reflexivity|].
  rewrite (Hl y) by now left. apply IH. intros; apply Hl; now right.
Qed.

Lemma filter_all (X : Type) (p : X -> bool) (l : list X) :
  (forall y, In y l -> p y = true) -> filter p l = l.
Proof.
  induction l as [|y l IH]; simpl; intros Hl; [reflexivity|].
  rewrite (Hl y) by now left. f_equal. apply IH. intros; apply Hl; now right.
Qed.

Ltac proj :=
  try unfold Db.userIds; try unfold Db.specIds; try unfold Db.versionIds;
  try unfold Db.stepIds;
  cbn [Db.users Db.specs Db.specVersions Db.specSteps Db.specStepTransitions
       Db.nextSpecId Db.nextVersionId Db.nextStepId Db.nextTransitionId
       Db.userIds Db.specIds Db.versionIds Db.stepIds
       Spec.id Spec.currentVersionId SpecVersion.id SpecVersion.specId
       SpecVersion.versionNumber SpecVersion.status
       SpecStep.id SpecStep.versionId SpecStepTransition.versionId
       andb negb fst snd].


(** A transaction that throws, or a request without title, leaves the
    rows of the tables as they were. *)
Lemma createSpec_rollback (db : Db.t) (body : CreateSpecBody) :
  match createSpec db body with
  | (db', CreateSpec201 _ _) => True
  | (db', _) => Db.sameRows db' db
  end.
Proof.
  unfold createSpec. destruct (title body) as [[|c r]|]; try (repeat split).
  destruct (createSpecTx (c :: r) (description body) (createdById body) db)
    as [[[spec ver] db']|]; [exact I | repeat split].
Qed.


(** *** Fork *)

Section ForkFacts.
Variable uuidv4 : nat -> jsstring.

Lemma copySteps_ok (newVid : Z) (bs : list SpecStep.t) :
  forall (i : nat) (m : JsMap.t Z Z) (db : Db.t),
    existsb (Z.eqb newVid) (Db.versionIds db) = true ->
    copySteps uuidv4 newVid bs i m db
    = Db.Done (JsMap.collect Z.eqb fst snd
              (combine (map SpecStep.id bs)
                       (map SpecStep.id (copiesFrom uuidv4 newVid (Db.nextStepId db) i bs))) m,
            withSteps db (copiesFrom uuidv4 newVid (Db.nextStepId db) i bs)).
Proof.
  induction bs as [|s bs IH]; intros i m db Hv; cbn [copySteps copiesFrom].
  - unfold Db.ret, withSteps. cbn [length Z.of_nat map combine JsMap.collect fold_left].
    rewrite app_nil_r, Z.add_0_r. now destruct db.
  - unfold Db.bind, Db.specStep_create. rewrite Hv. lazy beta iota zeta.
    rewrite IH by exact Hv. proj. f_equal. f_equal.
    unfold withSteps. proj. cbn [length]. rewrite <- app_assoc. cbn [app].
    f_equal. lia.
Qed.

Lemma copyTransitions_ok (newVid : Z) (m : JsMap.t Z Z) (trs : list SpecStepTransition.t) :
  forall db : Db.t,
    existsb (Z.eqb newVid) (Db.versionIds db) = true ->
    (forall tr, In tr trs ->
       exists f t,
         JsMap.get Z.eqb m (SpecStepTransition.fromStepId tr) = Some f
         /\ JsMap.get Z.eqb m (SpecStepTransition.toStepId tr) = Some t
         /\ In f (Db.stepIds db) /\ In t (Db.stepIds db)) ->
    copyTransitions newVid trs m db
    = Db.Done (tt, withTransitions db (trCopiesFrom newVid (Db.nextTransitionId db) m trs)).
Proof.
  induction trs as [|tr trs IH]; intros db Hv Htr; cbn [copyTransitions trCopiesFrom].
  - unfold Db.ret, withTransitions. cbn [length Z.of_nat].
    rewrite app_nil_r, Z.add_0_r. now destruct db.
  - destruct (Htr tr (or_introl eq_refl)) as (f & t & Hf & Ht & Hfi & Hti).
    unfold Db.bind, Db.specStepTransition_create. rewrite Hf, Ht, Hv.
    apply existsb_Zeqb in Hfi, Hti. rewrite Hfi, Hti. lazy beta iota zeta. cbn [andb].
    rewrite IH; [| exact Hv | intros tr' Hin; apply Htr; now right].
    proj. f_equal. f_equal. unfold withTransitions, copyTr. proj. cbn [length].
    rewrite Hf, Ht. cbn [orZero]. rewrite <- app_assoc. cbn [app]. f_equal. lia.
Qed.

Lemma length_copiesFrom newVid bs : forall nid i,
  length (copiesFrom uuidv4 newVid nid i bs) = length bs.
Proof. induction bs as [|s bs IH]; intros; simpl; [reflexivity | now rewrite IH]. Qed.

Lemma In_copiesFrom newVid bs : forall nid i c,
  In c (copiesFrom uuidv4 newVid nid i bs) ->
  nid <= SpecStep.id c < nid + Z.of_nat (length bs) /\ SpecStep.versionId c = newVid.
Proof.
  induction bs as [|s bs IH]; intros nid i c; cbn [copiesFrom length]; [intros []|].
  intros [<-|Hin].
  - cbn [copyOf SpecStep.id SpecStep.versionId]. split; [lia | reflexivity].
  - apply IH in Hin. split; [lia | tauto].
Qed.

Lemma NoDup_copiesFrom newVid bs : forall nid i,
  NoDup (map SpecStep.id (copiesFrom uuidv4 newVid nid i bs)).
Proof.
  induction bs as [|s bs IH]; intros nid i; cbn [copiesFrom map]; constructor.
  - intros Hin. apply in_map_iff in Hin as (c & Hc & Hin).
    apply In_copiesFrom in Hin. cbn [copyOf SpecStep.id] in Hc. lia.
  - apply IH.
Qed.

Lemma Forall2_copiesFrom newVid bs : forall nid i,
  (forall s, In s bs -> Js.truthy (SpecStep.stepKey s) = true) ->
  Forall2 Snapshot.sameFields bs (copiesFrom uuidv4 newVid nid i bs).
Proof.
  induction bs as [|s bs IH]; intros nid i Hk; cbn [copiesFrom]; constructor.
  - unfold Snapshot.sameFields, copyOf. cbn. rewrite (Hk s) by now left. tauto.
  - apply IH. intros; apply Hk; now right.
Qed.

(** The copy at a position is the copy of the step at that position, made
    in the iteration of that number. *)
Lemma nth_error_copiesFrom newVid bs : forall nid i j c,
  nth_error (copiesFrom uuidv4 newVid nid i bs) j = Some c ->
  exists s nid', nth_error bs j = Some s /\ c = copyOf uuidv4 newVid nid' (i + j)%nat s.
Proof.
  induction bs as [|s bs IH]; intros nid i [|j] c; cbn [copiesFrom nth_error];
    try discriminate.
  - intros [= <-]. exists s, nid. now rewrite Nat.add_0_r.
  - intros H. destruct (IH _ _ _ _ H) as (s' & nid' & Hs & ->).
    exists s', nid'. split; [assumption|]. now rewrite Nat.add_succ_r.
Qed.

End ForkFacts.

Lemma In_combine_ex (X Y : Type) (l : list X) (l' : list Y) (x : X) :
  length l = length l' -> In x l -> exists y, In (x, y) (combine l l').
Proof.
  revert l'. induction l as [|a l IH]; intros [|b l'] Hl Hin; simpl in *;
    try tauto; try discriminate.
  destruct Hin as [->|Hin].
  - exists b. now left.
  - destruct (IH l' (eq_add_S _ _ Hl) Hin) as (y & Hy). exists y. now right.
Qed.

Lemma In_combine_map (X Y X' Y' : Type) (f : X -> X') (g : Y -> Y')
    (l : list X) (l' : list Y) x y :
  In (x, y) (combine l l') -> In (f x, g y) (combine (map f l) (map g l')).
Proof.
  revert l'. induction l as [|a l IH]; intros [|b l']; simpl; try tauto.
  intros [[= -> ->]|Hin]; [now left | right; now apply IH].
Qed.

Lemma Forall2_combine (X Y : Type) (R : X -> Y -> Prop) (l : list X) (l' : list Y) x y :
  Forall2 R l l' -> In (x, y) (combine l l') -> R x y.
Proof.
  intros H. induction H as [|a b l l' Hab H IH]; simpl; [tauto|].
  intros [[= -> ->]|Hin]; [assumption | now apply IH].
Qed.

Lemma map_fst_combine (X Y : Type) (l : list X) (l' : list Y) :
  length l = length l' -> map fst (combine l l') = l.
Proof.
  revert l'. induction l as [|a l IH]; intros [|b l'] Hl; simpl in *;
    try reflexivity; try discriminate.
  f_equal. apply IH. now injection Hl.
Qed.

Lemma Forall2_In_l (X Y : Type) (R : X -> Y -> Prop) (l : list X) (l' : list Y) x :
  Forall2 R l l' -> In x l -> exists y, In y l' /\ R x y.
Proof.
  intros H. induction H as [|a b l l' Hab H IH]; simpl; [tauto|].
  intros [->|Hin].
  - exists b. tauto.
  - destruct (IH Hin) as (y & Hy & HR). exists y. tauto.
Qed.

Lemma Forall2_In_r (X Y : Type) (R : X -> Y -> Prop) (l : list X) (l' : list Y) y :
  Forall2 R l l' -> In y l' -> exists x, In x l /\ R x y.
Proof.
  intros H. induction H as [|a b l l' Hab H IH]; simpl; [tauto|].
  intros [->|Hin].
  - exists a. tauto.
  - destruct (IH Hin) as (x & Hx & HR). exists x. tauto.
Qed.

Lemma NoDup_map_filter (X Y : Type) (f : X -> Y) (p : X -> bool) (l : list X) :
  NoDup (map f l) -> NoDup (map f (filter p l)).
Proof.
  induction l as [|a l IH]; simpl; intros H; [constructor|].
  inversion H as [|? ? Hn Hd]; subst. destruct (p a); simpl; [|now apply IH].
  constructor; [|now apply IH]. intros Hin. apply Hn.
  apply in_map_iff in Hin as (x & Hx & Hin). apply filter_In in Hin as [Hin _].
  rewrite <- Hx. now apply in_map.
Qed.

Lemma find_app (X : Type) (p : X -> bool) (l l' : list X) :
  find p (l ++ l') = match find p l with Some x => Some x | None => find p l' end.
Proof. induction l as [|a l IH]; simpl; [reflexivity|]. now destruct (p a). Qed.

Lemma find_unique (X : Type) (f : X -> Z) (l : list X) (x : X) :
  NoDup (map f l) -> In x l -> find (fun y => f y =? f x) l = Some x.
Proof.
  induction l as [|a l IH]; simpl; intros Hd Hin; [tauto|].
  inversion Hd as [|? ? Hn Hd']; subst. destruct Hin as [->|Hin].
  - now rewrite Z.eqb_refl.
  - destruct (Z.eqb_spec (f a) (f x)) as [E|_]; [|now apply IH].
    exfalso. apply Hn. rewrite E. now apply in_map.
Qed.

Section ForkFacts2.
Variable uuidv4 : nat -> jsstring.

Lemma In_trCopiesFrom newVid m trs : forall nid t,
  In t (trCopiesFrom newVid nid m trs) -> SpecStepTransition.versionId t = newVid.
Proof.
  induction trs as [|tr trs IH]; intros nid t; cbn [trCopiesFrom]; [intros []|].
  intros [<-|Hin]; [reflexivity | now apply IH in Hin].
Qed.

Lemma resolved_sameEnds bs copies trs trs' :
  Forall2 (sameEnds bs copies) trs trs' ->
  flat_map (CompareView.resolved (Compare.idToKey bs)) trs
  = flat_map (CompareView.resolved (Compare.idToKey copies)) trs'.
Proof.
  intros H. induction H as [|tr tr' trs trs' (Hf & Ht & Hl) H IH]; simpl; [reflexivity|].
  rewrite IH. f_equal. unfold CompareView.resolved. now rewrite Hf, Ht, Hl.
Qed.

(** The id map of the loop sends the id of a step to the id of its copy. *)
Lemma stepIdMap_get (bs copies : list SpecStep.t) (s : SpecStep.t) :
  NoDup (map SpecStep.id bs) -> length bs = length copies -> In s bs ->
  exists c, In (s, c) (combine bs copies)
            /\ JsMap.get Z.eqb
                 (JsMap.collect Z.eqb fst snd
                    (combine (map SpecStep.id bs) (map SpecStep.id copies)) JsMap.empty)
                 (SpecStep.id s) = Some (SpecStep.id c).
Proof.
  intros Hd Hl Hin. destruct (In_combine_ex _ _ bs copies s Hl Hin) as (c & Hc).
  exists c. split; [assumption|].
  apply (JsMapFacts.get_collect_NoDup _ _ Z.eqb CompareFacts.Zeqb_eq _ fst snd
           (combine (map SpecStep.id bs) (map SpecStep.id copies)) JsMap.empty
           (SpecStep.id s, SpecStep.id c)).
  - rewrite map_fst_combine; [assumption | now rewrite !length_map].
  - now apply In_combine_map.
Qed.

Lemma Forall2_trCopies newVid m bs copies trs : forall nid,
  (forall tr, In tr trs -> sameEnds bs copies tr (copyTr newVid nid m tr)) ->
  Forall2 (sameEnds bs copies) trs (trCopiesFrom newVid nid m trs).
Proof.
  induction trs as [|tr trs IH]; intros nid H; cbn [trCopiesFrom]; constructor.
  - apply H. now left.
  - apply IH. intros tr' Hin.
    specialize (H tr' (or_intror Hin)). exact H.
Qed.


End ForkFacts2.



(** C5 as stated also fails on a version that has the highest number an
    INTEGER column holds: its keys are not empty, yet the number of the new
    version does not fit the column and the fork answers 500. *)
Lemma fork_last_number :
  consistent Samples.lastNumberDb = true
  /\ endpointsInside Samples.lastNumberDb 1 = true
  /\ keysNonEmpty Samples.lastNumberDb 1 = true
  /\ nextVersionNumber Samples.lastNumberDb 1 = 2147483648%Z
  /\ snd (fork Samples.sampleUuid Samples.lastNumberDb 1 2147483647 Samples.forkBody)
     = Fork500.
Proof. repeat split; vm_compute; reflexivity. Qed.


End RoutesFacts.

(** ** The importer *)

Module ImporterFacts.
Import Importer.

Lemma findIndexFrom_None (X : Type) (p : X -> bool) (l : list X) : forall i,
  findIndexFrom p l i = None <-> (forall c, In c l -> p c = false).
Proof.
  induction l as [|a l IH]; intros i; simpl.
  - split; [intros _ c [] | reflexivity].
  - destruct (p a) eqn:E.
    + split; [discriminate|]. intros H. rewrite (H a) in E by now left. discriminate.
    + rewrite IH. split.
      * intros H c [<-|Hc]; [assumption | now apply H].
      * intros H c Hc. apply H. now right.
Qed.

Lemma findIndex_None (X : Type) (p : X -> bool) (l : list X) :
  findIndex p l = None <-> (forall c, In c l -> p c = false).
Proof. apply findIndexFrom_None. Qed.

Lemma findIndex_ext (X : Type) (p q : X -> bool) (l : list X) :
  (forall c, p c = q c) -> findIndex p l = findIndex q l.
Proof.
  intros H. unfold findIndex. generalize 0. induction l as [|a l IH]; intros i; simpl.
  - reflexivity.
  - rewrite H. destruct (q a); [reflexivity | apply IH].
Qed.

Lemma isNum_startsWith (s : jsstring) : isNum s = Js.startsWith s numberSign.
Proof.
  unfold isNum. destruct (JsFacts.eqb_spec s numberSign) as [->|_]; [|reflexivity].
  simpl. symmetry. apply (JsFacts.startsWith_app numberSign []).
Qed.

(** Every collected step comes from a row after the header, through
    [stepOfRow]. *)
Lemma In_collectSteps idxNum idxTitle idxDescr idxCrit idxErr idxDevNote rows s :
  forall i,
  In s (collectSteps idxNum idxTitle idxDescr idxCrit idxErr idxDevNote i rows) ->
  exists j row, nth_error rows j = Some row
    /\ stepOfRow idxNum idxTitle idxDescr idxCrit idxErr idxDevNote (i + j) row = Some s.
Proof.
  induction rows as [|row rows IH]; intros i; cbn [collectSteps]; [intros []|].
  intros Hin. apply in_app_or in Hin as [Hin|Hin].
  - exists 0, row. rewrite Nat.add_0_r. split; [reflexivity|].
    destruct (stepOfRow idxNum idxTitle idxDescr idxCrit idxErr idxDevNote i row);
      [|destruct Hin].
    destruct Hin as [->|[]]. reflexivity.
  - apply IH in Hin as (j & r & Hj & Hs). exists (S j), r.
    split; [assumption|]. now rewrite Nat.add_succ_r.
Qed.

Lemma stepOfRow_fields idxNum idxTitle idxDescr idxCrit idxErr idxDevNote i row s :
  stepOfRow idxNum idxTitle idxDescr idxCrit idxErr idxDevNote i row = Some s ->
  originalIndex s = i
  /\ rawDescr s = rawText (cellOrEmpty idxDescr row)
  /\ rawCrit s = rawText (cellOrEmpty idxCrit row)
  /\ rawDevNote s = rawText (cellOrEmpty idxDevNote row)
  /\ description s = describe (cellOrEmpty idxDescr row) (cellOrEmpty idxCrit row)
                              (cellOrEmpty idxErr row).
Proof.
  unfold stepOfRow. destruct row as [|c0 row]; [discriminate|].
  destruct (negb (Js.truthy (Js.trim (stringOf (nth_error (c0 :: row) idxNum)))));
    [discriminate|].
  destruct (negb (Js.hasDigit (Js.trim (stringOf (nth_error (c0 :: row) idxNum)))));
    [discriminate|].
  intros [= <-]. cbn. tauto.
Qed.

Section Columns.
Variable toLowerCase : jsstring -> jsstring.

(** C6, as the handler implements it. For a sheet with a located header
    row: the number column is the first header cell that, in lower case,
    starts with the number sign; the title column the first that, in lower
    case, contains "шаг сценария"; the import fails with
    [MissingRequiredColumns] exactly when one of the two is absent. A
    description, criterion, error or developer-note column that is absent
    counts as the empty string in every row. *)
Theorem column_resolution (rows : list Row) (h : nat) (header : Row) :
  headerRowIndex toLowerCase rows = Some h ->
  nth_error rows h = Some header ->
  findCol toLowerCase header isNum
  = findIndex (fun c => Js.startsWith (toLowerCase c) numberSign) header
  /\ findCol toLowerCase header isTitle = columnBySubstring toLowerCase header scenarioStep
  /\ (extractSteps toLowerCase rows = Throws MissingRequiredColumns
      <-> ((forall c, In c header -> Js.startsWith (toLowerCase c) numberSign = false)
           \/ (forall c, In c header -> Js.includes (toLowerCase c) scenarioStep = false)))
  /\ (forall steps s,
        extractSteps toLowerCase rows = Success steps -> In s steps ->
        exists i row,
          nth_error rows i = Some row /\ h < i /\ originalIndex s = i
          /\ description s
             = describe (cellOrEmpty (findCol toLowerCase header isDescr) row)
                        (cellOrEmpty (findCol toLowerCase header isCrit) row)
                        (cellOrEmpty (findCol toLowerCase header isErr) row)
          /\ (findCol toLowerCase header isDescr = None -> rawDescr s = [])
          /\ (findCol toLowerCase header isCrit = None -> rawCrit s = [])
          /\ (findCol toLowerCase header isDevNote = None -> rawDevNote s = [])
          /\ (findCol toLowerCase header isDescr = None ->
              findCol toLowerCase header isCrit = None ->
              findCol toLowerCase header isErr = None -> description s = []))
  /\ (forall row, cellOrEmpty None row = Some []).
Proof.
  intros Hh Hn.
  assert (Enum : findCol toLowerCase header isNum
                 = findIndex (fun c => Js.startsWith (toLowerCase c) numberSign) header).
  { unfold findCol. apply findIndex_ext. intros c. apply isNum_startsWith. }
  split; [exact Enum|]. split; [reflexivity|].
  assert (Hrows : exists r rs, rows = r :: rs).
  { destruct rows as [|r rs]; [destruct h; discriminate | now exists r, rs]. }
  destruct Hrows as (r0 & rs & Erows).
  split; [|split; [|reflexivity]].
  - unfold extractSteps. rewrite Erows at 1. rewrite Hh, Hn.
    rewrite <- (findIndex_None _ (fun c => Js.startsWith (toLowerCase c) numberSign)).
    rewrite <- (findIndex_None _ (fun c => Js.includes (toLowerCase c) scenarioStep)).
    rewrite <- Enum. change (findIndex (fun c => Js.includes (toLowerCase c) scenarioStep) header)
      with (findCol toLowerCase header isTitle).
    destruct (findCol toLowerCase header isNum) as [idxNum|];
      destruct (findCol toLowerCase header isTitle) as [idxTitle|].
    + split.
      * destruct (collectSteps idxNum idxTitle _ _ _ _ (h + 1) (skipn (h + 1) rows));
          discriminate.
      * intros [H|H]; discriminate.
    + split; [right|]; reflexivity.
    + split; [left|]; reflexivity.
    + split; [left|]; reflexivity.
  - intros steps s Hs Hin. unfold extractSteps in Hs. rewrite Erows in Hs at 1.
    rewrite Hh, Hn in Hs.
    destruct (findCol toLowerCase header isNum) as [idxNum|]; [|discriminate].
    destruct (findCol toLowerCase header isTitle) as [idxTitle|]; [|discriminate].
    destruct (collectSteps idxNum idxTitle (findCol toLowerCase header isDescr)
                (findCol toLowerCase header isCrit) (findCol toLowerCase header isErr)
                (findCol toLowerCase header isDevNote) (h + 1) (skipn (h + 1) rows))
      as [|s0 ss] eqn:Ec; [discriminate|].
    injection Hs as <-. rewrite <- Ec in Hin.
    apply In_collectSteps in Hin as (j & row & Hj & Hrow).
    apply stepOfRow_fields in Hrow as (Hi & Hd & Hcr & Hdn & Hdesc).
    exists (h + 1 + j), row. rewrite nth_error_skipn in Hj.
    split; [exact Hj|]. split; [lia|]. split; [exact Hi|]. split; [exact Hdesc|].
    split; [|split; [|split]].
    + intros E. now rewrite Hd, E.
    + intros E. now rewrite Hcr, E.
    + intros E. now rewrite Hdn, E.
    + intros E1 E2 E3. now rewrite Hdesc, E1, E2, E3.
Qed.

End Columns.

(** *** The scan of a text *)

Section Scan.
Variable canonicalize : N -> N.

Lemma matchAt_Some s d len :
  matchAt canonicalize s = Some (d, len) -> Js.truthy d = true /\ 0 < len.
Proof.
  unfold matchAt. destruct (matchLiteral canonicalize _ s) as [[|c r]|]; try discriminate.
  destruct (_ || _); [|discriminate].
  destruct (Js.truthy (Js.takeWhile Js.isWhiteSpace r)); [|discriminate].
  destruct (Js.truthy (Js.takeWhile Js.isDigit (Js.dropWhile Js.isWhiteSpace r))) eqn:E;
    [|discriminate].
  cbn [andb]. intros [= <- <-]. split; [assumption | lia].
Qed.

Lemma searchFrom_Some s : forall i idx d len,
  searchFrom canonicalize s i = Some (idx, d, len) ->
  Js.truthy d = true /\ 0 < len /\ i <= idx.
Proof.
  induction s as [|c s IH]; intros i idx d len; cbn [searchFrom].
  - destruct (matchAt canonicalize []) as [[d' len']|] eqn:E; [|discriminate].
    intros [= <- <- <-]. apply matchAt_Some in E. intuition lia.
  - destruct (matchAt canonicalize (c :: s)) as [[d' len']|] eqn:E.
    + intros [= <- <- <-]. apply matchAt_Some in E. intuition lia.
    + intros H. apply IH in H. intuition lia.
Qed.

Lemma exec_Some text lastIndex idx d lastIndex' :
  exec canonicalize text lastIndex = Some (idx, d, lastIndex') ->
  Js.truthy d = true /\ lastIndex < lastIndex'.
Proof.
  unfold exec. destruct (Nat.ltb (length text) lastIndex); [discriminate|].
  destruct (searchFrom canonicalize (skipn lastIndex text) lastIndex)
    as [[[i d'] len]|] eqn:E; [|discriminate].
  intros [= <- <- <-]. apply searchFrom_Some in E. intuition lia.
Qed.

Lemma exec_past_end text lastIndex :
  length text < lastIndex -> exec canonicalize text lastIndex = None.
Proof.
  intros H. unfold exec. apply Nat.ltb_lt in H. now rewrite H.
Qed.

(** The loop never runs out of fuel: any two amounts that cover the rest
    of the text give the same transitions. *)
Lemma matchLoop_fuel text : forall f1 f2 lastIndex,
  length text < lastIndex + f1 -> length text < lastIndex + f2 ->
  matchLoop canonicalize f1 text lastIndex = matchLoop canonicalize f2 text lastIndex.
Proof.
  induction f1 as [|f1 IH]; intros f2 li H1 H2.
  - destruct f2 as [|f2]; [reflexivity|]. cbn [matchLoop].
    now rewrite exec_past_end by lia.
  - destruct f2 as [|f2]; cbn [matchLoop].
    + now rewrite exec_past_end by lia.
    + destruct (exec canonicalize text li) as [[[idx d] li']|] eqn:E; [|reflexivity].
      apply exec_Some in E as [_ Hlt]. f_equal. apply IH; lia.
Qed.

Lemma matchLoop_targets text : forall fuel lastIndex tr,
  In tr (matchLoop canonicalize fuel text lastIndex) -> Js.truthy (targetKey tr) = true.
Proof.
  induction fuel as [|fuel IH]; intros li tr; cbn [matchLoop]; [intros []|].
  destruct (exec canonicalize text li) as [[[idx d] li']|] eqn:E; [|intros []].
  intros [<-|Hin]; [|now apply IH in Hin].
  apply exec_Some in E. apply E.
Qed.

(** Every transition found carries a non-empty target. *)
Lemma found_targets step tr :
  In tr (found canonicalize step) -> Js.truthy (targetKey tr) = true.
Proof.
  unfold found, extractTransitionsFromText.
  destruct (textForParsing step); [intros [] | apply matchLoop_targets].
Qed.

End Scan.

(** *** First occurrences *)

Lemma existsb_filter (X : Type) (p q : X -> bool) (l : list X) :
  existsb p (filter q l) = existsb (fun x => q x && p x) l.
Proof.
  induction l as [|a l IH]; simpl; [reflexivity|].
  destruct (q a); simpl; now rewrite IH.
Qed.

Lemma existsb_map (X Y : Type) (f : X -> Y) (p : Y -> bool) (l : list X) :
  existsb p (map f l) = existsb (fun x => p (f x)) l.
Proof. induction l as [|a l IH]; simpl; [reflexivity | now rewrite IH]. Qed.

Lemma firstOfEach_app es1 : forall seen es2,
  firstOfEach seen (es1 ++ es2)
  = firstOfEach seen es1 ++ firstOfEach (seen ++ firstOfEach seen es1) es2.
Proof.
  induction es1 as [|e es1 IH]; intros seen es2; cbn [firstOfEach app].
  - now rewrite app_nil_r.
  - destruct (existsb (fun e' => sameEndpoints e' e) seen).
    + apply IH.
    + cbn [app]. f_equal. rewrite IH. now rewrite <- app_assoc.
Qed.

Lemma In_firstOfEach es : forall seen e, In e (firstOfEach seen es) -> In e es.
Proof.
  induction es as [|a es IH]; intros seen e; cbn [firstOfEach]; [tauto|].
  destruct (existsb (fun e' => sameEndpoints e' a) seen).
  - intros H. right. now apply IH in H.
  - intros [->|H]; [now left | right; now apply IH in H].
Qed.

Lemma sameEndpoints_refl e : sameEndpoints e e = true.
Proof. unfold sameEndpoints. now rewrite !JsFacts.eqb_refl. Qed.

Lemma sameEndpoints_sym e e' : sameEndpoints e e' = sameEndpoints e' e.
Proof.
  unfold sameEndpoints.
  destruct (JsFacts.eqb_spec (from e) (from e')), (JsFacts.eqb_spec (from e') (from e)),
           (JsFacts.eqb_spec (to e) (to e')), (JsFacts.eqb_spec (to e') (to e));
    congruence.
Qed.

Lemma sameEndpoints_trans e1 e2 e3 :
  sameEndpoints e1 e2 = true -> sameEndpoints e2 e3 = sameEndpoints e1 e3.
Proof.
  unfold sameEndpoints. intros H. apply andb_prop in H as [Hf Ht].
  apply JsFacts.eqb_eq in Hf, Ht. now rewrite Hf, Ht.
Qed.

(** No kept edge repeats the endpoints of a seen or of an earlier kept
    edge. *)
Lemma firstOfEach_fresh es : forall seen e,
  In e (firstOfEach seen es) -> existsb (fun e' => sameEndpoints e' e) seen = false.
Proof.
  induction es as [|a es IH]; intros seen e; cbn [firstOfEach]; [intros []|].
  destruct (existsb (fun e' => sameEndpoints e' a) seen) eqn:E.
  - apply IH.
  - intros [->|H]; [assumption|]. apply IH in H. rewrite existsb_app in H.
    now apply orb_false_elim in H as [H _].
Qed.

Lemma sameEndpoints_congr a e0 :
  sameEndpoints a e0 = true -> forall e', sameEndpoints e' a = sameEndpoints e' e0.
Proof.
  unfold sameEndpoints. intros H e'. apply andb_prop in H as [Hf Ht].
  apply JsFacts.eqb_eq in Hf, Ht. now rewrite Hf, Ht.
Qed.

Lemma existsb_eq (X : Type) (p q : X -> bool) (l : list X) :
  (forall x, p x = q x) -> existsb p l = existsb q l.
Proof.
  intros H. induction l as [|a l IH]; simpl; [reflexivity | now rewrite H, IH].
Qed.

(** Among the kept edges, the one with the endpoints of [e0] is the first
    such edge of the list, and it is the only one. *)
Lemma firstOfEach_split es : forall seen e0,
  existsb (fun e' => sameEndpoints e' e0) seen = false ->
  In e0 es ->
  exists l1 e l2,
    firstOfEach seen es = l1 ++ e :: l2
    /\ find (fun e' => sameEndpoints e' e0) es = Some e
    /\ (forall e', In e' (l1 ++ l2) -> sameEndpoints e' e0 = false).
Proof.
  induction es as [|a es IH]; intros seen e0 Hseen Hin; [destruct Hin|].
  cbn [firstOfEach find].
  destruct (sameEndpoints a e0) eqn:Ea.
  - assert (Hsa : existsb (fun e' => sameEndpoints e' a) seen = false).
    { rewrite <- Hseen. apply existsb_eq. now apply sameEndpoints_congr. }
    rewrite Hsa. exists [], a, (firstOfEach (seen ++ [a]) es).
    split; [reflexivity|]. split; [reflexivity|].
    intros e' He'. cbn [app] in He'. apply firstOfEach_fresh in He'.
    rewrite existsb_app in He'. apply orb_false_elim in He' as [_ He'].
    cbn [existsb] in He'. rewrite orb_false_r in He'.
    rewrite <- (sameEndpoints_congr _ _ Ea e'). now rewrite sameEndpoints_sym.
  - destruct Hin as [->|Hin]; [now rewrite sameEndpoints_refl in Ea|].
    destruct (existsb (fun e' => sameEndpoints e' a) seen).
    + now apply IH.
    + destruct (IH (seen ++ [a]) e0) as (l1 & e & l2 & E1 & E2 & E3).
      * rewrite existsb_app, Hseen. cbn [existsb orb]. now rewrite Ea.
      * assumption.
      * exists (a :: l1), e, l2. rewrite E1. split; [reflexivity|].
        split; [assumption|]. intros e' [<-|He']; [assumption | now apply E3].
Qed.

(** *** The two nested loops *)

Lemma tracks_seen k arr E tr :
  tracks k arr E ->
  existsb (fun e => Js.eqb (target e) (targetKey tr)) arr
  = existsb (fun e' => sameEndpoints e' (explicitOf k tr)) E.
Proof.
  unfold tracks. intros H.
  rewrite <- (existsb_map _ _ target (fun x => Js.eqb x (targetKey tr))), H.
  rewrite existsb_map, existsb_filter. apply existsb_eq. intros e. reflexivity.
Qed.

Lemma wireTransitions_edges k trs : forall nodes ids arr E,
  Forall (fun tr => Js.truthy (targetKey tr) = true) trs ->
  tracks k arr E ->
  snd (wireTransitions k trs nodes ids arr E)
  = E ++ firstOfEach E (map (explicitOf k) trs)
  /\ tracks k (snd (fst (wireTransitions k trs nodes ids arr E)))
              (snd (wireTransitions k trs nodes ids arr E)).
Proof.
  induction trs as [|tr trs IH]; intros nodes ids arr E Ht Htr;
    cbn [wireTransitions map firstOfEach].
  - cbn [fst snd]. rewrite app_nil_r. tauto.
  - inversion Ht as [|? ? Htk Ht']; subst. rewrite Htk. cbn [negb].
    rewrite (tracks_seen k arr E tr Htr).
    destruct (existsb (Js.eqb (targetKey tr)) ids);
      destruct (existsb (fun e' => sameEndpoints e' (explicitOf k tr)) E) eqn:Es;
      lazy beta iota zeta.
    + now apply IH.
    + destruct (IH nodes ids (arr ++ [ {| target := targetKey tr; outLabel := label tr |} ])
                 (E ++ [explicitOf k tr]) Ht') as [H1 H2].
      { unfold tracks in *. rewrite filter_app, !map_app, Htr. cbn [filter explicitOf from].
        now rewrite JsFacts.eqb_refl. }
      split; [|exact H2]. fold (explicitOf k tr). rewrite H1. now rewrite <- app_assoc.
    + now apply IH.
    + destruct (IH (nodes ++ [placeholder (targetKey tr) (length nodes)])
                 (ids ++ [targetKey tr])
                 (arr ++ [ {| target := targetKey tr; outLabel := label tr |} ])
                 (E ++ [explicitOf k tr]) Ht') as [H1 H2].
      { unfold tracks in *. rewrite filter_app, !map_app, Htr. cbn [filter explicitOf from].
        now rewrite JsFacts.eqb_refl. }
      split; [|exact H2]. fold (explicitOf k tr). rewrite H1. now rewrite <- app_assoc.
Qed.


Lemma arrOf_set m k arr k' :
  arrOf (JsMap.set Js.eqb m k arr) k' = if Js.eqb k k' then arr else arrOf m k'.
Proof.
  unfold arrOf. rewrite (JsMapFacts.get_set _ _ Js.eqb JsFacts.eqb_eq).
  now destruct (Js.eqb k k').
Qed.

Lemma has_set (m : JsMap.t jsstring (list Outgoing)) k arr k' :
  JsMap.has Js.eqb (JsMap.set Js.eqb m k arr) k' = Js.eqb k k' || JsMap.has Js.eqb m k'.
Proof.
  unfold JsMap.has. rewrite (JsMapFacts.get_set _ _ Js.eqb JsFacts.eqb_eq).
  now destruct (Js.eqb k k').
Qed.

Lemma filter_from_firstOfEach k k' seen trs :
  Js.eqb k k' = false ->
  filter (fun e => Js.eqb (from e) k') (firstOfEach seen (map (explicitOf k) trs)) = [].
Proof.
  intros Hk. apply RoutesFacts.filter_none. intros e He. apply In_firstOfEach in He.
  apply in_map_iff in He as (tr & <- & _). exact Hk.
Qed.

Section Wiring.
Variable canonicalize : N -> N.

Lemma wireSteps_edges steps : forall w,
  (forall k, tracks k (arrOf (outgoingByFrom w) k) (explicitEdges w)) ->
  explicitEdges (wireSteps canonicalize steps w)
  = explicitEdges w ++ firstOfEach (explicitEdges w) (allMatches canonicalize steps).
Proof.
  induction steps as [|s steps IH]; intros w Hw; cbn [wireSteps allMatches flat_map].
  - cbn [firstOfEach]. now rewrite app_nil_r.
  - fold (allMatches canonicalize steps). fold (found canonicalize s).
    pose proof (found_targets canonicalize s) as Htg.
    destruct (found canonicalize s) as [|tr trs] eqn:Ef.
    + cbn [map app]. now apply IH.
    + rewrite <- Ef in *.
      assert (Ht : Forall (fun tr => Js.truthy (targetKey tr) = true) (found canonicalize s))
        by (apply Forall_forall; exact Htg).
      fold (arrOf (outgoingByFrom w) (key s)).
      destruct (wireTransitions_edges (key s) (found canonicalize s) (newNodes w) (nodeIds w)
                  (arrOf (outgoingByFrom w) (key s)) (explicitEdges w) Ht (Hw (key s)))
        as [H1 H2].
      destruct (wireTransitions (key s) (found canonicalize s) (newNodes w) (nodeIds w)
                  (arrOf (outgoingByFrom w) (key s)) (explicitEdges w))
        as [[[nodes ids] arr] E] eqn:Ew.
      cbn [fst snd] in H1, H2. rewrite IH; cbn [explicitEdges outgoingByFrom].
      * rewrite H1, firstOfEach_app. now rewrite <- app_assoc.
      * intros k'. rewrite arrOf_set.
        destruct (Js.eqb (key s) k') eqn:Ek.
        -- apply JsFacts.eqb_eq in Ek as <-. exact H2.
        -- unfold tracks. rewrite H1, filter_app.
           rewrite (filter_from_firstOfEach _ _ _ _ Ek), app_nil_r. apply Hw.
Qed.

Lemma wireSteps_has steps : forall w k,
  JsMap.has Js.eqb (outgoingByFrom (wireSteps canonicalize steps w)) k
  = JsMap.has Js.eqb (outgoingByFrom w) k
    || existsb (fun s => Js.eqb (key s) k && nonEmpty _ (found canonicalize s)) steps.
Proof.
  induction steps as [|s steps IH]; intros w k; cbn [wireSteps existsb].
  - now rewrite orb_false_r.
  - fold (found canonicalize s).
    destruct (found canonicalize s) as [|tr trs] eqn:Ef.
    + cbn [nonEmpty]. rewrite andb_false_r. cbn [orb]. apply IH.
    + rewrite <- Ef.
      destruct (wireTransitions (key s) (found canonicalize s) (newNodes w) (nodeIds w) _
                  (explicitEdges w)) as [[[nodes ids] arr] E].
      rewrite IH. cbn [outgoingByFrom]. rewrite has_set. rewrite Ef. cbn [nonEmpty].
      rewrite andb_true_r. now rewrite orb_assoc, (orb_comm (Js.eqb (key s) k)).
Qed.

End Wiring.


(** *** The nodes *)

Lemma NoDup_snoc (X : Type) (l : list X) (x : X) :
  NoDup l -> ~ In x l -> NoDup (l ++ [x]).
Proof.
  induction l as [|a l IH]; simpl; intros Hd Hn.
  - constructor; [intros [] | constructor].
  - inversion Hd as [|? ? Ha Hd']; subst. constructor.
    + intros Hin. apply in_app_or in Hin as [Hin|[<-|[]]]; tauto.
    + apply IH; tauto.
Qed.

Lemma grown_refl nodes0 : grown nodes0 nodes0.
Proof.
  exists []. rewrite app_nil_r. repeat split; try constructor; intros p [].
Qed.

Lemma grown_push nodes0 nodes target :
  grown nodes0 nodes -> ~ In target (map id nodes) ->
  grown nodes0 (nodes ++ [placeholder target (length nodes)]).
Proof.
  intros (stubs & -> & Hshape & Hd & Hfresh) Hn.
  rewrite map_app in Hn.
  exists (stubs ++ [placeholder target (length (nodes0 ++ stubs))]).
  split; [now rewrite app_assoc|]. split; [|split].
  - intros p Hp. apply in_app_or in Hp as [Hp|[<-|[]]]; [now apply Hshape|].
    now exists (length (nodes0 ++ stubs)).
  - rewrite map_app. cbn [map placeholder id]. apply NoDup_snoc.
    + exact Hd.
    + intros Hin. apply Hn, in_or_app. now right.
  - intros p Hp. apply in_app_or in Hp as [Hp|[<-|[]]]; [now apply Hfresh|].
    cbn [placeholder id]. intros Hin. apply Hn, in_or_app. now left.
Qed.

Lemma existsb_eqb_In (x : jsstring) (l : list jsstring) :
  existsb (Js.eqb x) l = true <-> In x l.
Proof.
  rewrite existsb_exists. split.
  - intros (y & Hy & E). apply JsFacts.eqb_eq in E. now subst.
  - intros H. exists x. split; [assumption | apply JsFacts.eqb_refl].
Qed.

Lemma wireTransitions_nodes nodes0 k trs : forall nodes ids arr E,
  ids = map id nodes -> grown nodes0 nodes ->
  let r := wireTransitions k trs nodes ids arr E in
  snd (fst (fst r)) = map id (fst (fst (fst r)))
  /\ grown nodes0 (fst (fst (fst r)))
  /\ (forall x, In x (map id nodes) -> In x (map id (fst (fst (fst r)))))
  /\ (forall tr, In tr trs -> Js.truthy (targetKey tr) = true ->
                 In (targetKey tr) (map id (fst (fst (fst r))))).
Proof.
  induction trs as [|tr trs IH]; intros nodes ids arr E Hids Hg; cbn [wireTransitions].
  - cbn [fst snd]. repeat split; try assumption; try tauto. intros tr [].
  - destruct (Js.truthy (targetKey tr)) eqn:Htk; cbn [negb].
    + assert (Hstep : forall nodes' ids' arr' E',
                ids' = map id nodes' -> grown nodes0 nodes' ->
                (forall x, In x (map id nodes) -> In x (map id nodes')) ->
                In (targetKey tr) (map id nodes') ->
                let r := wireTransitions k trs nodes' ids' arr' E' in
                snd (fst (fst r)) = map id (fst (fst (fst r)))
                /\ grown nodes0 (fst (fst (fst r)))
                /\ (forall x, In x (map id nodes) -> In x (map id (fst (fst (fst r)))))
                /\ (forall tr', In tr' (tr :: trs) -> Js.truthy (targetKey tr') = true ->
                      In (targetKey tr') (map id (fst (fst (fst r)))))).
      { intros nodes' ids' arr' E' Hi' Hg' Hmono Hin.
        destruct (IH nodes' ids' arr' E' Hi' Hg') as (H1 & H2 & H3 & H4).
        repeat split; try assumption.
        - intros x Hx. now apply H3, Hmono.
        - intros tr' [<-|Htr'] Ht'; [now apply H3 | now apply H4]. }
      destruct (existsb (Js.eqb (targetKey tr)) ids) eqn:Ex.
      * assert (Hin : In (targetKey tr) (map id nodes))
          by (rewrite <- Hids; now apply existsb_eqb_In).
        destruct (existsb (fun e => Js.eqb (target e) (targetKey tr)) arr);
          lazy beta iota zeta; apply Hstep; auto.
      * assert (Hn : ~ In (targetKey tr) (map id nodes)).
        { rewrite <- Hids. intros Hin. apply existsb_eqb_In in Hin. congruence. }
        assert (Hi' : ids ++ [targetKey tr]
                      = map id (nodes ++ [placeholder (targetKey tr) (length nodes)]))
          by (rewrite map_app, Hids; reflexivity).
        assert (Hmono : forall x, In x (map id nodes) ->
                  In x (map id (nodes ++ [placeholder (targetKey tr) (length nodes)])))
          by (intros x Hx; rewrite map_app; apply in_or_app; now left).
        assert (Hin : In (targetKey tr)
                        (map id (nodes ++ [placeholder (targetKey tr) (length nodes)])))
          by (rewrite map_app; apply in_or_app; right; now left).
        destruct (existsb (fun e => Js.eqb (target e) (targetKey tr)) arr);
          lazy beta iota zeta; apply Hstep; auto using grown_push.
    + destruct (IH nodes ids arr E Hids Hg) as (H1 & H2 & H3 & H4).
      repeat split; try assumption.
      intros tr' [<-|Htr'] Ht'; [congruence | now apply H4].
Qed.

Section WiringNodes.
Variable canonicalize : N -> N.

Lemma wireSteps_nodes nodes0 steps : forall w,
  nodeIds w = map id (newNodes w) -> grown nodes0 (newNodes w) ->
  grown nodes0 (newNodes (wireSteps canonicalize steps w))
  /\ (forall x, In x (map id (newNodes w)) ->
                In x (map id (newNodes (wireSteps canonicalize steps w))))
  /\ (forall s tr, In s steps -> In tr (found canonicalize s) ->
        In (targetKey tr) (map id (newNodes (wireSteps canonicalize steps w)))).
Proof.
  induction steps as [|s steps IH]; intros w Hids Hg; cbn [wireSteps].
  - repeat split; try assumption; try tauto. intros s tr [].
  - fold (found canonicalize s).
    destruct (found canonicalize s) as [|tr0 trs] eqn:Ef.
    + destruct (IH w Hids Hg) as (H1 & H2 & H3). repeat split; try assumption.
      intros s' tr [<-|Hs'] Htr; [rewrite Ef in Htr; destruct Htr | now apply (H3 s')].
    + rewrite <- Ef.
      pose proof (wireTransitions_nodes nodes0 (key s) (found canonicalize s) (newNodes w)
                    (nodeIds w)
                    match JsMap.get Js.eqb (outgoingByFrom w) (key s) with
                    | Some arr => arr
                    | None => []
                    end (explicitEdges w) Hids Hg) as Hw.
      destruct (wireTransitions (key s) (found canonicalize s) (newNodes w) (nodeIds w) _
                  (explicitEdges w)) as [[[nodes ids] arr] E].
      cbn [fst snd] in Hw. destruct Hw as (W1 & W2 & W3 & W4).
      match goal with |- context [wireSteps canonicalize steps ?w'] =>
        destruct (IH w' W1 W2) as (H1 & H2 & H3) end.
      cbn [newNodes] in H2. repeat split; try assumption.
      * intros x Hx. now apply H2, W3.
      * intros s' tr [<-|Hs'] Htr; [|now apply (H3 s')].
        apply H2, W4; [assumption | now apply (found_targets canonicalize s)].
Qed.

End WiringNodes.

(** *** Steps with distinct keys *)

Lemma firstOfEach_step k T : forall seen kept,
  (forall e, In e seen -> Js.eqb (from e) k = false) ->
  firstOfEach (seen ++ map (explicitOf k) kept) (map (explicitOf k) T)
  = map (explicitOf k) (firstPerTarget (map targetKey kept) T).
Proof.
  induction T as [|tr T IH]; intros seen kept Hs; cbn [map firstOfEach firstPerTarget];
    [reflexivity|].
  assert (E : existsb (fun e' => sameEndpoints e' (explicitOf k tr))
                (seen ++ map (explicitOf k) kept)
              = existsb (Js.eqb (targetKey tr)) (map targetKey kept)).
  { rewrite existsb_app.
    assert (Hseen : existsb (fun e' => sameEndpoints e' (explicitOf k tr)) seen = false).
    { apply not_true_is_false. intros H. apply existsb_exists in H as (e & He & H).
      unfold sameEndpoints in H. cbn [explicitOf from] in H.
      rewrite (Hs e He) in H. discriminate. }
    rewrite Hseen, !existsb_map. cbn [orb]. apply existsb_eq. intros x.
    unfold sameEndpoints. cbn [explicitOf from to].
    rewrite JsFacts.eqb_refl. cbn [andb].
    destruct (JsFacts.eqb_spec (targetKey x) (targetKey tr)),
             (JsFacts.eqb_spec (targetKey tr) (targetKey x)); congruence. }
  rewrite E. destruct (existsb (Js.eqb (targetKey tr)) (map targetKey kept)).
  - now apply IH.
  - cbn [map]. f_equal. rewrite <- app_assoc.
    change (map (explicitOf k) kept ++ [explicitOf k tr])
      with (map (explicitOf k) kept ++ map (explicitOf k) [tr]).
    rewrite <- map_app. rewrite (IH seen (kept ++ [tr]) Hs). now rewrite map_app.
Qed.

Section Distinct.
Variable canonicalize : N -> N.

Lemma firstOfEach_extracted steps : forall seen,
  NoDup (map key steps) ->
  (forall e, In e seen -> ~ In (from e) (map key steps)) ->
  firstOfEach seen (allMatches canonicalize steps) = extracted canonicalize steps.
Proof.
  induction steps as [|s steps IH]; intros seen Hd Hs; [reflexivity|].
  cbn [allMatches extracted flat_map].
  fold (allMatches canonicalize steps). fold (extracted canonicalize steps).
  inversion Hd as [|? ? Hn Hd']; subst.
  rewrite firstOfEach_app.
  assert (Hk : forall e, In e seen -> Js.eqb (from e) (key s) = false).
  { intros e He. apply JsFacts.eqb_neq. intros E. apply (Hs e He). left. now symmetry. }
  pose proof (firstOfEach_step (key s) (found canonicalize s) seen [] Hk) as H1.
  cbn [map] in H1. rewrite app_nil_r in H1. rewrite H1. f_equal.
  apply IH; [assumption|].
  intros e He. apply in_app_or in He as [He|He].
  - intros Hin. apply (Hs e He). now right.
  - apply in_map_iff in He as (tr & <- & _). exact Hn.
Qed.

(** With distinct keys, a key has an entry in [outgoingByFrom] exactly
    when its own step has a match. *)
Lemma existsb_own_key steps s (p : Step -> bool) :
  NoDup (map key steps) -> In s steps ->
  existsb (fun s' => Js.eqb (key s') (key s) && p s') steps = p s.
Proof.
  induction steps as [|a steps IH]; intros Hd Hin; [destruct Hin|].
  inversion Hd as [|? ? Hn Hd']; subst. cbn [existsb]. destruct Hin as [->|Hin].
  - rewrite JsFacts.eqb_refl. cbn [andb].
    destruct (p s); [reflexivity|]. cbn [orb].
    apply not_true_is_false. intros H. apply existsb_exists in H as (x & Hx & H).
    apply andb_prop in H as [H _]. apply JsFacts.eqb_eq in H.
    apply Hn. rewrite <- H. now apply in_map.
  - rewrite (IH Hd' Hin).
    destruct (JsFacts.eqb_spec (key a) (key s)) as [E|_]; [|reflexivity].
    exfalso. apply Hn. rewrite E. now apply in_map.
Qed.

End Distinct.

(** *** The fallback edges *)

Lemma edgeKey_inj f t f' t' :
  Js.includes f (Js.lit "->") = false -> Js.includes f' (Js.lit "->") = false ->
  edgeKey f t = edgeKey f' t' -> f = f'.
Proof.
  intros Hf Hf' E. unfold edgeKey in E.
  change (Js.lit "->") with [45%N; 62%N] in *.
  now apply (JsFacts.app_sep2_inj 45 62) in E as [-> _].
Qed.

Lemma fallback_sources outgoing steps : forall eks x,
  In x (fallback outgoing steps eks) -> JsMap.has Js.eqb outgoing (source x) = false.
Proof.
  induction steps as [|a steps IH]; intros eks x; [intros []|].
  destruct steps as [|b rest]; [intros []|]. cbn [fallback].
  destruct (JsMap.has Js.eqb outgoing (key a)) eqn:Eh; cbn [negb andb].
  - apply IH.
  - destruct (negb (existsb (Js.eqb (edgeKey (key a) (key b))) eks)).
    + intros [<-|Hin]; [exact Eh | now apply IH in Hin].
    + apply IH.
Qed.

(** A fallback edge joins two steps that follow each other. *)
Lemma fallback_adjacent outgoing steps : forall eks x,
  In x (fallback outgoing steps eks) ->
  exists l1 from to l2, steps = l1 ++ from :: to :: l2 /\ x = plainEdge from to.
Proof.
  induction steps as [|a steps IH]; intros eks x; [intros []|].
  destruct steps as [|b rest]; [intros []|]. cbn [fallback].
  assert (Hnext : forall eks', In x (fallback outgoing (b :: rest) eks') ->
            exists l1 from to l2,
              a :: b :: rest = l1 ++ from :: to :: l2 /\ x = plainEdge from to).
  { intros eks' Hin. destruct (IH eks' x Hin) as (l1 & from & to & l2 & E & Hx).
    exists (a :: l1), from, to, l2. split; [|exact Hx]. cbn [app]. now rewrite E. }
  destruct (negb (JsMap.has Js.eqb outgoing (key a))
            && negb (existsb (Js.eqb (edgeKey (key a) (key b))) eks)).
  - intros [<-|Hin]; [|exact (Hnext _ Hin)].
    exists [], a, b, rest. split; reflexivity.
  - apply Hnext.
Qed.

Section Fallback.
Variable canonicalize : N -> N.

Lemma fallback_spec outgoing steps : forall eks,
  NoDup (map key steps) ->
  (forall s, In s steps -> Js.includes (key s) (Js.lit "->") = false) ->
  (forall s, In s steps ->
     JsMap.has Js.eqb outgoing (key s) = nonEmpty _ (found canonicalize s)) ->
  (forall x, In x eks ->
     exists f t, x = edgeKey f t /\ Js.includes f (Js.lit "->") = false
                 /\ (JsMap.has Js.eqb outgoing f = true \/ ~ In f (map key steps))) ->
  fallback outgoing steps eks = fallbackOf canonicalize steps.
Proof.
  induction steps as [|a steps IH]; intros eks Hd Harrow Hhas Heks; [reflexivity|].
  destruct steps as [|b rest]; [reflexivity|].
  cbn [fallback fallbackOf]. fold (found canonicalize a).
  inversion Hd as [|? ? Hn Hd']; subst.
  rewrite (Hhas a (or_introl eq_refl)).
  assert (Hweak : forall x, In x eks ->
            exists f t, x = edgeKey f t /\ Js.includes f (Js.lit "->") = false
              /\ (JsMap.has Js.eqb outgoing f = true \/ ~ In f (map key (b :: rest)))).
  { intros x Hx. destruct (Heks x Hx) as (f & t & E & Hf & [H|H]).
    - exists f, t. tauto.
    - exists f, t. split; [assumption|]. split; [assumption|]. right.
      intros Hin. apply H. now right. }
  destruct (found canonicalize a) as [|tr trs] eqn:Ef; cbn [nonEmpty negb andb].
  - assert (Hfresh : existsb (Js.eqb (edgeKey (key a) (key b))) eks = false).
    { apply not_true_is_false. intros H. apply existsb_eqb_In in H.
      destruct (Heks _ H) as (f & t & E & Hf & Hor).
      apply edgeKey_inj in E; [|apply Harrow; now left | assumption]. subst f.
      destruct Hor as [Ho|Ho].
      - rewrite (Hhas a (or_introl eq_refl)), Ef in Ho. discriminate.
      - apply Ho. now left. }
    rewrite Hfresh. cbn [negb]. f_equal. apply IH; try assumption.
    + intros s Hs. apply Harrow. now right.
    + intros s Hs. apply Hhas. now right.
    + intros x Hx. apply in_app_or in Hx as [Hx|[<-|[]]]; [now apply Hweak|].
      exists (key a), (key b). split; [reflexivity|].
      split; [apply Harrow; now left|]. now right.
  - apply IH; try assumption.
    + intros s Hs. apply Harrow. now right.
    + intros s Hs. apply Hhas. now right.
Qed.

End Fallback.

Lemma explicitFrom_app l1 : forall idx l2,
  explicitFrom idx (l1 ++ l2)
  = explicitFrom idx l1 ++ explicitFrom (idx + length l1) l2.
Proof.
  induction l1 as [|e l1 IH]; intros idx l2; cbn [explicitFrom app length].
  - now rewrite Nat.add_0_r.
  - f_equal. rewrite IH. now rewrite Nat.add_succ_r.
Qed.

Lemma In_explicitFrom E : forall idx x,
  In x (explicitFrom idx E) ->
  exists e, In e E /\ source x = from e /\ edgeTarget x = to e.
Proof.
  induction E as [|e E IH]; intros idx x; cbn [explicitFrom]; [intros []|].
  intros [<-|Hin].
  - exists e. split; [now left | split; reflexivity].
  - apply IH in Hin as (e' & He' & H). exists e'. split; [now right | exact H].
Qed.

Lemma split_by_id (stubs : list Node) (x : jsstring) :
  In x (map id stubs) -> NoDup (map id stubs) ->
  exists s1 p s2, stubs = s1 ++ p :: s2 /\ id p = x
                  /\ (forall q, In q (s1 ++ s2) -> id q <> x).
Proof.
  intros Hin Hd. apply in_map_iff in Hin as (p & Hp & Hin).
  apply in_split in Hin as (s1 & s2 & ->). exists s1, p, s2.
  split; [reflexivity|]. split; [assumption|].
  rewrite map_app in Hd. cbn [map] in Hd. apply NoDup_remove_2 in Hd.
  intros q Hq E. apply Hd. rewrite <- map_app, Hp, <- E. now apply in_map.
Qed.

Lemma find_app_l (X : Type) (p : X -> bool) (l l' : list X) :
  find p (l ++ l') = match find p l with Some x => Some x | None => find p l' end.
Proof. induction l as [|a l IH]; simpl; [reflexivity|]. now destruct (p a). Qed.

Lemma find_none_all (X : Type) (p : X -> bool) (l : list X) :
  (forall x, In x l -> p x = false) -> find p l = None.
Proof.
  induction l as [|a l IH]; simpl; intros H; [reflexivity|].
  rewrite (H a) by now left. apply IH. intros; apply H; now right.
Qed.

Lemma find_map (X Y : Type) (f : X -> Y) (p : Y -> bool) (l : list X) :
  find p (map f l) = option_map f (find (fun x => p (f x)) l).
Proof. induction l as [|a l IH]; simpl; [reflexivity|]. now destruct (p (f a)). Qed.

Lemma find_ext (X : Type) (p q : X -> bool) (l : list X) :
  (forall x, p x = q x) -> find p l = find q l.
Proof.
  intros H. induction l as [|a l IH]; simpl; [reflexivity|]. now rewrite H, IH.
Qed.

(** *** The graph *)

Section Graph.
Variable toLowerCase : jsstring -> jsstring.
Variable canonicalize : N -> N.

Lemma map_id_nodesFrom n steps : forall idx,
  map id (nodesFrom toLowerCase n idx steps) = map key steps.
Proof.
  induction steps as [|s steps IH]; intros idx; cbn [nodesFrom map]; [reflexivity|].
  now rewrite IH.
Qed.

Lemma buildGraph_eq steps :
  buildGraph toLowerCase canonicalize steps
  = (newNodes (wired toLowerCase canonicalize steps),
     explicitFrom 0 (explicitEdges (wired toLowerCase canonicalize steps))
     ++ match explicitEdges (wired toLowerCase canonicalize steps) with
        | [] => chain steps
        | _ :: _ => fallback (outgoingByFrom (wired toLowerCase canonicalize steps)) steps
                      (map (fun e => edgeKey (from e) (to e))
                           (explicitEdges (wired toLowerCase canonicalize steps)))
        end).
Proof.
  unfold buildGraph, wired, wiring0.
  destruct (explicitEdges (wireSteps canonicalize steps _)); reflexivity.
Qed.

Lemma explicitEdges_wired steps :
  explicitEdges (wired toLowerCase canonicalize steps) = firstOfEach [] (allMatches canonicalize steps).
Proof.
  unfold wired. rewrite wireSteps_edges; [reflexivity|].
  intros k. reflexivity.
Qed.

Lemma has_wired steps k :
  JsMap.has Js.eqb (outgoingByFrom (wired toLowerCase canonicalize steps)) k
  = existsb (fun s => Js.eqb (key s) k && nonEmpty _ (found canonicalize s)) steps.
Proof. unfold wired. now rewrite wireSteps_has. Qed.

Lemma In_allMatches steps e :
  In e (allMatches canonicalize steps) <->
  exists s tr, In s steps /\ In tr (found canonicalize s) /\ e = explicitOf (key s) tr.
Proof.
  unfold allMatches. rewrite in_flat_map. split.
  - intros (s & Hs & He). apply in_map_iff in He as (tr & <- & Htr). now exists s, tr.
  - intros (s & tr & Hs & Htr & ->). exists s. split; [assumption|]. now apply in_map.
Qed.

Lemma has_wired_source steps s tr :
  In s steps -> In tr (found canonicalize s) ->
  JsMap.has Js.eqb (outgoingByFrom (wired toLowerCase canonicalize steps)) (key s) = true.
Proof.
  intros Hs Htr. rewrite has_wired. apply existsb_exists. exists s.
  split; [assumption|]. rewrite JsFacts.eqb_refl.
  destruct (found canonicalize s); [destruct Htr | reflexivity].
Qed.

(** C7, as the handler implements it. When no step has a match, the
    edges are the chain [step[i] -> step[i+1]], for any sorted steps.
    When some step has one and the keys are distinct and free of ["->"],
    the edges are the extracted transitions (per step, one per target,
    the first kept), followed by [step[i] -> step[i+1]] for exactly the
    steps [i] without a match of their own. For any sorted steps of which
    one has a match, the keys repeated or not: the edges are the matches,
    the first kept for each pair of endpoints, followed by edges
    [step[i] -> step[i+1]] only, and none of these leaves a key under
    which some step has a match. *)
Theorem edge_synthesis (steps : list Step) :
  ((forall s, In s steps -> found canonicalize s = []) ->
   snd (buildGraph toLowerCase canonicalize steps) = chain steps)
  /\ (NoDup (map key steps) ->
      (forall s, In s steps -> Js.includes (key s) (Js.lit "->") = false) ->
      (exists s, In s steps /\ found canonicalize s <> []) ->
      snd (buildGraph toLowerCase canonicalize steps)
      = explicitFrom 0 (extracted canonicalize steps) ++ fallbackOf canonicalize steps)
  /\ ((exists s, In s steps /\ found canonicalize s <> []) ->
      exists rest,
        snd (buildGraph toLowerCase canonicalize steps)
        = explicitFrom 0 (firstOfEach [] (allMatches canonicalize steps)) ++ rest
        /\ forall e, In e rest ->
             (exists l1 from to l2,
                 steps = l1 ++ from :: to :: l2 /\ e = plainEdge from to)
             /\ (forall s, In s steps -> key s = source e ->
                           found canonicalize s = [])).
Proof.
  rewrite buildGraph_eq. cbn [snd]. rewrite explicitEdges_wired. split; [|split].
  - intros Hnone.
    assert (E : allMatches canonicalize steps = []).
    { unfold allMatches. apply CompareFacts.flat_map_nil. intros s Hs.
      now rewrite (Hnone s Hs). }
    rewrite E. reflexivity.
  - intros Hd Harrow (s0 & Hs0 & Hf0).
    rewrite (firstOfEach_extracted canonicalize steps [] Hd) by (intros e []).
    assert (Hne : extracted canonicalize steps <> []).
    { rewrite <- (firstOfEach_extracted canonicalize steps [] Hd) by (intros e []).
      destruct (found canonicalize s0) as [|tr trs] eqn:Ef; [congruence|].
      assert (Hin : In (explicitOf (key s0) tr) (allMatches canonicalize steps)).
      { apply In_allMatches. exists s0, tr. rewrite Ef. split; [assumption|].
        split; [now left | reflexivity]. }
      destruct (firstOfEach_split _ [] _ eq_refl Hin) as (l1 & e & l2 & E & _).
      rewrite E. now destruct l1. }
    destruct (extracted canonicalize steps) as [|e0 es] eqn:Ex; [congruence|].
    f_equal. rewrite <- Ex.
    apply (fallback_spec canonicalize); try assumption.
    + intros s Hs. rewrite has_wired.
      apply (existsb_own_key steps s (fun s' => nonEmpty _ (found canonicalize s')) Hd Hs).
    + intros x Hx. apply in_map_iff in Hx as (e & <- & He).
      rewrite <- (firstOfEach_extracted canonicalize steps [] Hd) in He by (intros ? []).
      apply In_firstOfEach, In_allMatches in He as (s & tr & Hs & Htr & ->).
      exists (key s), (targetKey tr). split; [reflexivity|].
      split; [now apply Harrow|]. left. now apply (has_wired_source steps s tr).
  - intros (s0 & Hs0 & Hf0).
    destruct (found canonicalize s0) as [|tr trs] eqn:Ef; [congruence|].
    assert (Hin : In (explicitOf (key s0) tr) (allMatches canonicalize steps)).
    { apply In_allMatches. exists s0, tr. rewrite Ef. split; [assumption|].
      split; [now left | reflexivity]. }
    destruct (firstOfEach_split _ [] _ eq_refl Hin) as (l1 & e1 & l2 & E & _).
    destruct (firstOfEach [] (allMatches canonicalize steps)) as [|e0 es] eqn:Ex;
      [now destruct l1|].
    eexists. split; [reflexivity|]. intros e He. split.
    + exact (fallback_adjacent _ _ _ _ He).
    + intros s Hs Hk. apply fallback_sources in He. rewrite has_wired in He.
      destruct (found canonicalize s) as [|m ms] eqn:Efs; [reflexivity|].
      exfalso. apply (eq_true_false_abs _ (eq_refl true)).
      rewrite <- He. symmetry. apply existsb_exists. exists s.
      split; [assumption|]. rewrite Hk, JsFacts.eqb_refl, Efs. reflexivity.
Qed.


(** With distinct keys, the first match for a pair of endpoints is the
    first match of the source step that has the target. *)
Lemma find_first_match steps s tr :
  NoDup (map key steps) -> In s steps -> In tr (found canonicalize s) ->
  find (fun m => sameEndpoints m (explicitOf (key s) tr)) (allMatches canonicalize steps)
  = option_map (explicitOf (key s))
      (find (fun tr' => Js.eqb (targetKey tr') (targetKey tr)) (found canonicalize s)).
Proof.
  induction steps as [|a steps IH]; intros Hd Hs Htr; [destruct Hs|].
  inversion Hd as [|? ? Hn Hd']; subst.
  cbn [allMatches flat_map]. fold (allMatches canonicalize steps).
  rewrite find_app_l. destruct Hs as [->|Hs].
  - rewrite find_map.
    rewrite (find_ext _ (fun x => sameEndpoints (explicitOf (key s) x) (explicitOf (key s) tr))
               (fun tr' => Js.eqb (targetKey tr') (targetKey tr))).
    2:{ intros x. unfold sameEndpoints. cbn [explicitOf from to].
        now rewrite JsFacts.eqb_refl. }
    destruct (find (fun tr' => Js.eqb (targetKey tr') (targetKey tr)) (found canonicalize s))
      eqn:Ef; [reflexivity|].
    exfalso. apply (find_none _ _ Ef) in Htr. now rewrite JsFacts.eqb_refl in Htr.
  - rewrite find_none_all; [now apply IH|].
    intros m Hm. apply in_map_iff in Hm as (x & <- & _).
    unfold sameEndpoints. cbn [explicitOf from].
    destruct (JsFacts.eqb_spec (key a) (key s)) as [E|_]; [|reflexivity].
    exfalso. apply Hn. rewrite E. now apply in_map.
Qed.

(** C8. For every transition [tr] found in the text of a step [s] of the
    sorted list, with target [N]: the nodes hold a node with id [N]; when
    no step has key [N], exactly one node has id [N] and it is the stub
    of type action, title "Шаг N" and empty description; exactly one
    edge goes from the key of [s] to [N], and its label is the label of
    the first match found for this pair of keys, left out when empty.
    With distinct keys that first match is the first match of [s] itself
    that has target [N]. *)
Theorem placeholder_and_dedup (steps : list Step) (s : Step) (tr : Transition) :
  In s steps ->
  In tr (found canonicalize s) ->
  In (targetKey tr) (map id (fst (buildGraph toLowerCase canonicalize steps)))
  /\ (~ In (targetKey tr) (map key steps) ->
      exists l1 p l2,
        fst (buildGraph toLowerCase canonicalize steps) = l1 ++ p :: l2
        /\ id p = targetKey tr
        /\ data p = {| dataTitle := Js.lit "Шаг " ++ targetKey tr;
                       dataDescription := [];
                       realType := action |}
        /\ (forall q, In q (l1 ++ l2) -> id q <> targetKey tr))
  /\ (exists l1 e l2 first,
        snd (buildGraph toLowerCase canonicalize steps) = l1 ++ e :: l2
        /\ source e = key s /\ edgeTarget e = targetKey tr
        /\ (forall e', In e' (l1 ++ l2) ->
                       ~ (source e' = key s /\ edgeTarget e' = targetKey tr))
        /\ find (fun m => sameEndpoints m (explicitOf (key s) tr))
                (allMatches canonicalize steps) = Some first
        /\ edgeLabel e = (if Js.truthy (explicitLabel first)
                          then Some (explicitLabel first) else None))
  /\ (NoDup (map key steps) ->
      find (fun m => sameEndpoints m (explicitOf (key s) tr))
           (allMatches canonicalize steps)
      = option_map (explicitOf (key s))
          (find (fun tr' => Js.eqb (targetKey tr') (targetKey tr))
                (found canonicalize s))).
Proof.
  intros Hs Htr. rewrite buildGraph_eq. cbn [fst snd].
  destruct (wireSteps_nodes canonicalize (newNodes (wiring0 toLowerCase steps)) steps (wiring0 toLowerCase steps)
              eq_refl (grown_refl _)) as (Hg & _ & Hcover).
  fold (wired toLowerCase canonicalize steps) in Hg, Hcover.
  split; [now apply (Hcover s tr)|]. split; [|split].
  - intros Hnk. destruct Hg as (stubs & Enodes & Hshape & Hdup & Hfresh).
    pose proof (Hcover s tr Hs Htr) as Hin. rewrite Enodes, map_app in Hin.
    cbn [wiring0 newNodes] in Hin, Enodes, Hfresh.
    rewrite map_id_nodesFrom in Hin.
    apply in_app_or in Hin as [Hin|Hin]; [contradiction|].
    destruct (split_by_id stubs _ Hin Hdup) as (s1 & p & s2 & -> & Hp & Hothers).
    exists (nodesFrom toLowerCase (length steps) 0 steps ++ s1), p, s2.
    split; [rewrite Enodes; now rewrite <- app_assoc|]. split; [assumption|]. split.
    + destruct (Hshape p) as (n & E); [apply in_or_app; right; now left|].
      rewrite E, Hp. reflexivity.
    + intros q Hq. rewrite <- app_assoc in Hq. apply in_app_or in Hq as [Hq|Hq].
      * intros E. apply Hnk. rewrite <- E, <- (map_id_nodesFrom (length steps) steps 0).
        now apply in_map.
      * now apply Hothers.
  - rewrite explicitEdges_wired.
    assert (Hin : In (explicitOf (key s) tr) (allMatches canonicalize steps))
      by (apply In_allMatches; now exists s, tr).
    destruct (firstOfEach_split _ [] _ eq_refl Hin) as (l1 & e & l2 & E & Hfind & Hothers).
    pose proof (find_some _ _ Hfind) as [_ Hsame].
    unfold sameEndpoints in Hsame. cbn [explicitOf from to] in Hsame.
    apply andb_prop in Hsame as [Hf Ht]. apply JsFacts.eqb_eq in Hf, Ht.
    assert (Hexp : forall x m, source x = from m -> edgeTarget x = to m ->
              sameEndpoints m (explicitOf (key s) tr) = false ->
              ~ (source x = key s /\ edgeTarget x = targetKey tr)).
    { intros x m Hx1 Hx2 Hm [H1 H2]. unfold sameEndpoints in Hm.
      cbn [explicitOf from to] in Hm.
      rewrite <- Hx1, <- Hx2, H1, H2, !JsFacts.eqb_refl in Hm. discriminate. }
    set (tail := match firstOfEach [] (allMatches canonicalize steps) with
                 | [] => chain steps
                 | _ :: _ => fallback (outgoingByFrom (wired toLowerCase canonicalize steps)) steps
                               (map (fun e => edgeKey (from e) (to e))
                                    (firstOfEach [] (allMatches canonicalize steps)))
                 end).
    assert (Htail : forall x, In x tail -> source x <> key s).
    { intros x Hx Esrc. unfold tail in Hx. rewrite E in Hx.
      destruct (l1 ++ e :: l2) eqn:El; [now destruct l1|].
      apply fallback_sources in Hx. rewrite Esrc in Hx.
      now rewrite (has_wired_source steps s tr Hs Htr) in Hx. }
    rewrite E, explicitFrom_app. cbn [explicitFrom].
    exists (explicitFrom 0 l1),
           {| edgeId := edgeKey (from e) (to e) ++ Js.lit "-" ++ Js.ofNat (0 + length l1);
              source := from e; edgeTarget := to e;
              edgeLabel := if Js.truthy (explicitLabel e) then Some (explicitLabel e)
                           else None |},
           (explicitFrom (S (0 + length l1)) l2 ++ tail), e.
    split; [now rewrite <- app_assoc|]. split; [exact Hf|]. split; [exact Ht|].
    split; [|split; [exact Hfind | reflexivity]].
    intros x Hx. apply in_app_or in Hx as [Hx|Hx].
    + apply In_explicitFrom in Hx as (m & Hm & Hx1 & Hx2).
      apply (Hexp x m Hx1 Hx2). apply Hothers, in_or_app. now left.
    + apply in_app_or in Hx as [Hx|Hx].
      * apply In_explicitFrom in Hx as (m & Hm & Hx1 & Hx2).
        apply (Hexp x m Hx1 Hx2). apply Hothers, in_or_app. now right.
      * intros [H1 _]. now apply (Htail x Hx).
  - intros Hd. now apply find_first_match.
Qed.

End Graph.


(** *** The sample sheets *)

Lemma column_resolution_witness :
  headerRowIndex toLowerCaseRu Samples.sheetPlain = Some 1
  /\ nth_error Samples.sheetPlain 1 = Some [Js.lit "№"; Js.lit "Шаг сценария"]
  /\ (extractSteps toLowerCaseRu Samples.sheetPlain = Throws MissingRequiredColumns
      <-> ((forall c, In c [Js.lit "№"; Js.lit "Шаг сценария"] ->
                      Js.startsWith (toLowerCaseRu c) numberSign = false)
           \/ (forall c, In c [Js.lit "№"; Js.lit "Шаг сценария"] ->
                         Js.includes (toLowerCaseRu c) scenarioStep = false))).
Proof.
  split; [reflexivity|]. split; [reflexivity|].
  exact (proj1 (proj2 (proj2 (column_resolution toLowerCaseRu Samples.sheetPlain 1
                                [Js.lit "№"; Js.lit "Шаг сценария"] eq_refl eq_refl)))).
Defined.

(** C6 as stated fails on a header whose number cell reads "п/п №": the
    cell contains the number sign, the title cell contains "шаг
    сценария", and the import fails with [MissingRequiredColumns]. *)
Lemma column_resolution_number_sign_last :
  headerRowIndex toLowerCaseRu Samples.sheetNumberLast = Some 1
  /\ nth_error Samples.sheetNumberLast 1 = Some [Js.lit "п/п №"; Js.lit "Шаг сценария"]
  /\ columnBySubstring toLowerCaseRu [Js.lit "п/п №"; Js.lit "Шаг сценария"] numberSign
     = Some 0
  /\ columnBySubstring toLowerCaseRu [Js.lit "п/п №"; Js.lit "Шаг сценария"] scenarioStep
     = Some 1
  /\ extractSteps toLowerCaseRu Samples.sheetNumberLast = Throws MissingRequiredColumns.
Proof. repeat split; reflexivity. Qed.

Lemma edge_synthesis_witness :
  NoDup (map key (Samples.stepsOfSheet Samples.sheetBranch))
  /\ (forall s, In s (Samples.stepsOfSheet Samples.sheetBranch) ->
                Js.includes (key s) (Js.lit "->") = false)
  /\ snd (buildGraph toLowerCaseRu canonicalizeRu (Samples.stepsOfSheet Samples.sheetBranch))
     = explicitFrom 0 (extracted canonicalizeRu (Samples.stepsOfSheet Samples.sheetBranch))
       ++ fallbackOf canonicalizeRu (Samples.stepsOfSheet Samples.sheetBranch).
Proof.
  assert (Hd : NoDup (map key (Samples.stepsOfSheet Samples.sheetBranch))).
  { vm_compute. repeat constructor; simpl; intuition discriminate. }
  assert (Ha : forall s, In s (Samples.stepsOfSheet Samples.sheetBranch) ->
                         Js.includes (key s) (Js.lit "->") = false).
  { intros s Hs. vm_compute in Hs. destruct Hs as [<-|[<-|[<-|[]]]]; reflexivity. }
  split; [exact Hd|]. split; [exact Ha|].
  apply (proj1 (proj2 (edge_synthesis toLowerCaseRu canonicalizeRu
                         (Samples.stepsOfSheet Samples.sheetBranch))) Hd Ha).
  exists (nth 0 (Samples.stepsOfSheet Samples.sheetBranch)
              (Build_Step [] [] [] 0 [] [] [])).
  split; [vm_compute; now left | vm_compute; discriminate].
Defined.

(** C7 as stated fails on two rows with the same number: the first has
    no match of its own, a later step has one, and yet no edge goes from
    the first step to the second. *)
Lemma edge_synthesis_same_number :
  map key (Samples.stepsOfSheet Samples.sheetTwice) = [Js.lit "1"; Js.lit "1"; Js.lit "3"]
  /\ map (fun s => length (found canonicalizeRu s)) (Samples.stepsOfSheet Samples.sheetTwice)
     = [0; 1; 0]
  /\ map (fun e => (source e, edgeTarget e))
         (fallbackOf canonicalizeRu (Samples.stepsOfSheet Samples.sheetTwice))
     = [(Js.lit "1", Js.lit "1")]
  /\ map (fun e => (source e, edgeTarget e))
         (snd (buildGraph toLowerCaseRu canonicalizeRu
                 (Samples.stepsOfSheet Samples.sheetTwice)))
     = [(Js.lit "1", Js.lit "3")]
  /\ snd (buildGraph toLowerCaseRu canonicalizeRu (Samples.stepsOfSheet Samples.sheetTwice))
     <> explicitFrom 0 (extracted canonicalizeRu (Samples.stepsOfSheet Samples.sheetTwice))
        ++ fallbackOf canonicalizeRu (Samples.stepsOfSheet Samples.sheetTwice).
Proof.
  split; [reflexivity|]. split; [reflexivity|]. split; [reflexivity|].
  split; [reflexivity|]. vm_compute. discriminate.
Qed.

(** With ["->"] in a key, the fallback edge of a step without a match can
    be skipped: the keys are distinct, the second step has no match, and no
    edge leaves it. *)
Lemma fallback_edge_key_collision :
  map key (Samples.stepsOfSheet Samples.sheetArrow)
  = [Js.lit "1->2"; Js.lit "1"; Js.lit "2->3"]
  /\ map (fun s => length (found canonicalizeRu s)) (Samples.stepsOfSheet Samples.sheetArrow)
     = [1; 0; 0]
  /\ map (fun e => (source e, edgeTarget e))
         (snd (buildGraph toLowerCaseRu canonicalizeRu
                 (Samples.stepsOfSheet Samples.sheetArrow)))
     = [(Js.lit "1->2", Js.lit "3")].
Proof. repeat split; reflexivity. Qed.

(** A header row found by its first cell "No" has no number column for
    the column search, which looks for the number sign only. *)
Lemma header_no_has_no_number_column :
  headerRowIndex toLowerCaseRu Samples.sheetNo = Some 0
  /\ extractSteps toLowerCaseRu Samples.sheetNo = Throws MissingRequiredColumns.
Proof. split; reflexivity. Qed.

Lemma placeholder_and_dedup_witness :
  (exists s tr,
     In s (Samples.stepsOfSheet Samples.sheetStub)
     /\ In tr (found canonicalizeRu s)
     /\ targetKey tr = Js.lit "99"
     /\ ~ In (targetKey tr) (map key (Samples.stepsOfSheet Samples.sheetStub))
     /\ exists l1 p l2,
          fst (buildGraph toLowerCaseRu canonicalizeRu
                 (Samples.stepsOfSheet Samples.sheetStub)) = l1 ++ p :: l2
          /\ id p = targetKey tr
          /\ data p = {| dataTitle := Js.lit "Шаг " ++ targetKey tr;
                         dataDescription := [];
                         realType := action |}
          /\ (forall q, In q (l1 ++ l2) -> id q <> targetKey tr)).
Proof.
  exists (nth 0 (Samples.stepsOfSheet Samples.sheetStub) (Build_Step [] [] [] 0 [] [] [])).
  exists (nth 0 (found canonicalizeRu
                   (nth 0 (Samples.stepsOfSheet Samples.sheetStub)
                        (Build_Step [] [] [] 0 [] [] [])))
              (Build_Transition [] [])).
  assert (Hs : In (nth 0 (Samples.stepsOfSheet Samples.sheetStub)
                       (Build_Step [] [] [] 0 [] [] []))
                  (Samples.stepsOfSheet Samples.sheetStub))
    by (vm_compute; now left).
  assert (Htr : In (nth 0 (found canonicalizeRu
                             (nth 0 (Samples.stepsOfSheet Samples.sheetStub)
                                  (Build_Step [] [] [] 0 [] [] [])))
                        (Build_Transition [] []))
                   (found canonicalizeRu
                      (nth 0 (Samples.stepsOfSheet Samples.sheetStub)
                           (Build_Step [] [] [] 0 [] [] []))))
    by (vm_compute; now left).
  split; [exact Hs|]. split; [exact Htr|]. split; [reflexivity|].
  assert (Hn : ~ In (targetKey (nth 0 (found canonicalizeRu
                             (nth 0 (Samples.stepsOfSheet Samples.sheetStub)
                                  (Build_Step [] [] [] 0 [] [] [])))
                        (Build_Transition [] [])))
                    (map key (Samples.stepsOfSheet Samples.sheetStub))).
  { vm_compute. intros [H|[H|[]]]; discriminate. }
  split; [exact Hn|].
  exact (proj1 (proj2 (placeholder_and_dedup toLowerCaseRu canonicalizeRu
                         (Samples.stepsOfSheet Samples.sheetStub) _ _ Hs Htr)) Hn).
Defined.

End ImporterFacts.

(** ** More on the comparison *)

Module DiffLaws.
Import Compare CompareView DiffView.

Lemma differs_sym f t : differs f t = differs t f.
Proof.
  unfold differs.
  rewrite (eq_true_iff_eq (Js.eqb (SpecStep.title f) (SpecStep.title t))
                          (Js.eqb (SpecStep.title t) (SpecStep.title f))).
  2:{ rewrite !JsFacts.eqb_eq. split; congruence. }
  rewrite (eq_true_iff_eq (Js.eqb (Js.or_empty (SpecStep.description f))
                                  (Js.or_empty (SpecStep.description t)))
                          (Js.eqb (Js.or_empty (SpecStep.description t))
                                  (Js.or_empty (SpecStep.description f)))).
  2:{ rewrite !JsFacts.eqb_eq. split; congruence. }
  now destruct (SpecStep.type f), (SpecStep.type t).
Qed.

Lemma get_In_stepsByKey l k s :
  JsMap.get Js.eqb (stepsByKey l) k = Some s <-> In (k, s) (stepsByKey l).
Proof.
  split.
  - apply JsMapFacts.get_In, CompareFacts.jmeq.
  - apply JsMapFacts.In_get; [apply CompareFacts.jmeq | apply CompareFacts.NoDup_stepsByKey].
Qed.


Lemma stepsByKey_snoc l a :
  stepsByKey (l ++ [a]) = JsMap.set Js.eqb (stepsByKey l) (SpecStep.stepKey a) a.
Proof. unfold stepsByKey, JsMap.collect. now rewrite fold_left_app. Qed.

(** The map built from a list of steps holds, for each key, the last step
    of the list with that key. *)
Lemma get_stepsByKey_last l k :
  JsMap.get Js.eqb (stepsByKey l) k = lastWithKey l k.
Proof.
  unfold lastWithKey. induction l as [|a l IH] using rev_ind.
  - reflexivity.
  - rewrite stepsByKey_snoc, rev_app_distr. cbn [rev app find].
    rewrite (JsMapFacts.get_set _ _ Js.eqb CompareFacts.jmeq).
    destruct (Js.eqb (SpecStep.stepKey a) k); [reflexivity | exact IH].
Qed.

Lemma keys_stepsByKey l k :
  In k (JsMap.keys (stepsByKey l)) <-> In k (map SpecStep.stepKey l).
Proof.
  unfold stepsByKey.
  rewrite (JsMapFacts.keys_collect _ _ Js.eqb CompareFacts.jmeq). simpl. tauto.
Qed.

Lemma In_entry_key (V : Type) (m : JsMap.t jsstring V) k v :
  In (k, v) m -> In k (JsMap.keys m).
Proof. intros H. change k with (fst (k, v)). now apply in_map. Qed.

(** A loop that pushes at most one element per entry of a map, keyed like
    the entry, pushes no key twice. *)
Lemma NoDup_pushed (V X : Type) (key : X -> jsstring) (f : jsstring * V -> list X)
    (m : JsMap.t jsstring V) :
  NoDup (JsMap.keys m) ->
  (forall e x, In x (f e) -> f e = [x] /\ key x = fst e) ->
  NoDup (map key (flat_map f m)).
Proof.
  intros Hd Hf. induction m as [|e m IH]; simpl; [constructor|].
  inversion Hd as [|? ? Hn Hd']; subst.
  destruct (f e) as [|x r] eqn:E; simpl; [now apply IH|].
  destruct (Hf e x) as [Hx Hk]; [rewrite E; now left|].
  rewrite E in Hx. injection Hx as ->. simpl. constructor; [|now apply IH].
  intros Hin. apply in_map_iff in Hin as (y & Hy & Hin).
  apply in_flat_map in Hin as (e' & He' & Hin).
  destruct (Hf e' y Hin) as [_ Hk']. apply Hn.
  rewrite <- Hk, <- Hy, Hk'. now apply in_map.
Qed.

Lemma In_added A B e :
  In e (stepsAdded (diff A B)) <->
  exists s, In (stepKey e, s) (stepsByKey (steps B))
            /\ JsMap.get Js.eqb (stepsByKey (steps A)) (stepKey e) = None
            /\ e = entryOf (stepKey e) s.
Proof.
  rewrite CompareFacts.stepsAdded_diff, in_flat_map. split.
  - intros [[k s] [Hin He]]. unfold addedOf in He. simpl in He.
    destruct (JsMap.get Js.eqb (stepsByKey (steps A)) k) eqn:E; [destruct He|].
    destruct He as [<-|[]]. simpl. exists s. tauto.
  - intros (s & Hin & E & He). exists (stepKey e, s). split; [assumption|].
    unfold addedOf. simpl. rewrite E. left. now symmetry.
Qed.

Lemma In_removed A B e :
  In e (stepsRemoved (diff A B)) <->
  exists s, In (stepKey e, s) (stepsByKey (steps A))
            /\ JsMap.get Js.eqb (stepsByKey (steps B)) (stepKey e) = None
            /\ e = entryOf (stepKey e) s.
Proof.
  rewrite CompareFacts.stepsRemoved_diff, in_flat_map. split.
  - intros [[k s] [Hin He]]. unfold removedOf, JsMap.has in He. simpl in He.
    destruct (JsMap.get Js.eqb (stepsByKey (steps B)) k) eqn:E; [destruct He|].
    destruct He as [<-|[]]. simpl. exists s. tauto.
  - intros (s & Hin & E & He). exists (stepKey e, s). split; [assumption|].
    unfold removedOf, JsMap.has. simpl. rewrite E. left. now symmetry.
Qed.

Lemma get_None_keys l k :
  JsMap.get Js.eqb (stepsByKey l) k = None <-> ~ In k (map SpecStep.stepKey l).
Proof.
  rewrite (JsMapFacts.get_None _ _ Js.eqb CompareFacts.jmeq), keys_stepsByKey. tauto.
Qed.

Lemma In_keys_entry l k :
  In k (map SpecStep.stepKey l) -> exists s, In (k, s) (stepsByKey l).
Proof.
  intros Hin. apply keys_stepsByKey in Hin. unfold JsMap.keys in Hin.
  apply in_map_iff in Hin as ([k' s] & Hk & Hin). simpl in Hk. subst. now exists s.
Qed.

Lemma added_keys (A B : VersionGraph) k :
  In k (map stepKey (stepsAdded (diff A B)))
  <-> In k (map SpecStep.stepKey (steps B)) /\ ~ In k (map SpecStep.stepKey (steps A)).
Proof.
  rewrite in_map_iff. split.
  - intros (e & <- & He). apply In_added in He as (s & Hin & Hn & _).
    split; [apply keys_stepsByKey; eapply In_entry_key; eassumption|].
    now apply get_None_keys.
  - intros [Hb Ha]. destruct (In_keys_entry _ _ Hb) as (s & Hs).
    exists (entryOf k s). split; [reflexivity|]. apply In_added.
    exists s. cbn [entryOf stepKey]. split; [assumption|].
    split; [now apply get_None_keys | reflexivity].
Qed.

Lemma removed_keys (A B : VersionGraph) k :
  In k (map stepKey (stepsRemoved (diff A B)))
  <-> In k (map SpecStep.stepKey (steps A)) /\ ~ In k (map SpecStep.stepKey (steps B)).
Proof.
  rewrite in_map_iff. split.
  - intros (e & <- & He). apply In_removed in He as (s & Hin & Hn & _).
    split; [apply keys_stepsByKey; eapply In_entry_key; eassumption|].
    now apply get_None_keys.
  - intros [Ha Hb]. destruct (In_keys_entry _ _ Ha) as (s & Hs).
    exists (entryOf k s). split; [reflexivity|]. apply In_removed.
    exists s. cbn [entryOf stepKey]. split; [assumption|].
    split; [now apply get_None_keys | reflexivity].
Qed.

Lemma In_changed_last (A B : VersionGraph) c :
  In c (stepsChanged (diff A B)) <->
  exists f t, lastWithKey (steps A) (changedKey c) = Some f
              /\ lastWithKey (steps B) (changedKey c) = Some t
              /\ differs f t = true
              /\ c = {| changedKey := changedKey c; from := sideOf f; to := sideOf t |}.
Proof.
  rewrite CompareFacts.In_stepsChanged.
  setoid_rewrite <- get_stepsByKey_last.
  setoid_rewrite get_In_stepsByKey. split.
  - intros (f & t & H1 & H2 & H3 & H4). exists f, t. tauto.
  - intros (f & t & H1 & H2 & H3 & H4). exists f, t. tauto.
Qed.

Lemma changed_mirror (X Y : VersionGraph) c :
  In c (stepsChanged (diff X Y)) -> In (mirror c) (stepsChanged (diff Y X)).
Proof.
  rewrite !CompareFacts.In_stepsChanged.
  intros (f & t & Hin & Hget & Hd & Hc). exists t, f. cbn [mirror changedKey].
  split; [now apply get_In_stepsByKey|].
  split; [now apply get_In_stepsByKey|].
  split; [now rewrite differs_sym|].
  rewrite Hc. reflexivity.
Qed.

(** X1. Comparing in the other direction mirrors the result: the
    transitions added one way are the transitions removed the other way,
    in the same order, and a step is reported as changed one way exactly
    when it is reported the other way with its two sides exchanged. *)
Theorem diff_reversed (A B : VersionGraph) :
  edgesAdded (diff B A) = edgesRemoved (diff A B)
  /\ edgesRemoved (diff B A) = edgesAdded (diff A B)
  /\ (forall c, In c (stepsChanged (diff A B)) <-> In (mirror c) (stepsChanged (diff B A))).
Proof.
  split; [now rewrite CompareFacts.edgesAdded_diff, CompareFacts.edgesRemoved_diff|].
  split; [now rewrite CompareFacts.edgesAdded_diff, CompareFacts.edgesRemoved_diff|].
  intros c. split; [apply changed_mirror|].
  intros Hm. apply changed_mirror in Hm. now destruct c.
Qed.

(** X2. The three step lists split the keys of the two versions: the added
    keys are the keys of the new version that the old one lacks, the
    removed keys the keys of the old version that the new one lacks, a
    changed key belongs to both; and no list names a key twice, whatever
    repetitions the versions have. *)
Theorem step_lists_by_key (A B : VersionGraph) :
  (forall k, In k (map stepKey (stepsAdded (diff A B)))
             <-> In k (map SpecStep.stepKey (steps B))
                 /\ ~ In k (map SpecStep.stepKey (steps A)))
  /\ (forall k, In k (map stepKey (stepsRemoved (diff A B)))
                <-> In k (map SpecStep.stepKey (steps A))
                    /\ ~ In k (map SpecStep.stepKey (steps B)))
  /\ (forall k, In k (map changedKey (stepsChanged (diff A B)))
                -> In k (map SpecStep.stepKey (steps A))
                   /\ In k (map SpecStep.stepKey (steps B)))
  /\ NoDup (map stepKey (stepsAdded (diff A B)))
  /\ NoDup (map stepKey (stepsRemoved (diff A B)))
  /\ NoDup (map changedKey (stepsChanged (diff A B))).
Proof.
  split; [|split; [|split; [|split; [|split]]]].
  - intros k. apply added_keys.
  - intros k. apply removed_keys.
  - intros k Hin. apply in_map_iff in Hin as (c & <- & Hc).
    apply CompareFacts.In_stepsChanged in Hc as (f & t & Hin & Hget & _).
    split; apply keys_stepsByKey.
    + apply get_In_stepsByKey in Hget. eapply In_entry_key; eassumption.
    + eapply In_entry_key; eassumption.
  - rewrite CompareFacts.stepsAdded_diff.
    apply NoDup_pushed; [apply CompareFacts.NoDup_stepsByKey|].
    intros [k s] x. unfold addedOf. simpl.
    destruct (JsMap.get Js.eqb (stepsByKey (steps A)) k); [intros []|].
    intros [<-|[]]. split; reflexivity.
  - rewrite CompareFacts.stepsRemoved_diff.
    apply NoDup_pushed; [apply CompareFacts.NoDup_stepsByKey|].
    intros [k s] x. unfold removedOf. simpl.
    destruct (JsMap.has Js.eqb (stepsByKey (steps B)) k); [intros []|].
    intros [<-|[]]. split; reflexivity.
  - rewrite CompareFacts.stepsChanged_diff.
    apply NoDup_pushed; [apply CompareFacts.NoDup_stepsByKey|].
    intros [k s] x. unfold changedOf. simpl.
    destruct (JsMap.get Js.eqb (stepsByKey (steps A)) k) as [f|]; [|intros []].
    destruct (differs f s); [|intros []].
    intros [<-|[]]. split; reflexivity.
Qed.

(** X3. When steps of a version share a key, the comparison sees the last
    of them only: a step list entry carries the fields of the last step
    with that key, and a key is reported as changed exactly when the last
    steps with that key in the two versions differ in title, description
    or type. *)
Theorem duplicate_keys_last_wins (A B : VersionGraph) :
  (forall e, In e (stepsAdded (diff A B)) <->
     exists s, lastWithKey (steps B) (stepKey e) = Some s
               /\ lastWithKey (steps A) (stepKey e) = None
               /\ e = entryOf (stepKey e) s)
  /\ (forall e, In e (stepsRemoved (diff A B)) <->
        exists s, lastWithKey (steps A) (stepKey e) = Some s
                  /\ lastWithKey (steps B) (stepKey e) = None
                  /\ e = entryOf (stepKey e) s)
  /\ (forall c, In c (stepsChanged (diff A B)) <->
        exists f t, lastWithKey (steps A) (changedKey c) = Some f
                    /\ lastWithKey (steps B) (changedKey c) = Some t
                    /\ differs f t = true
                    /\ c = {| changedKey := changedKey c;
                              from := sideOf f; to := sideOf t |}).
Proof.
  split; [|split].
  - intros e. rewrite In_added. setoid_rewrite <- get_stepsByKey_last.
    setoid_rewrite get_In_stepsByKey. reflexivity.
  - intros e. rewrite In_removed. setoid_rewrite <- get_stepsByKey_last.
    setoid_rewrite get_In_stepsByKey. reflexivity.
  - intros c. apply In_changed_last.
Qed.

Lemma flat_map_nil_inv (X Y : Type) (f : X -> list Y) (l : list X) :
  flat_map f l = [] -> forall x, In x l -> f x = [].
Proof.
  induction l as [|a l IH]; simpl; intros H x Hin; [destruct Hin|].
  apply app_eq_nil in H as [Ha Hl]. destruct Hin as [<-|Hin]; [assumption|].
  now apply IH.
Qed.

Lemma diff_empty_fields (A B : VersionGraph) :
  diff A B = Routes.emptyDiff <->
  stepsAdded (diff A B) = [] /\ stepsRemoved (diff A B) = []
  /\ stepsChanged (diff A B) = [] /\ edgesAdded (diff A B) = []
  /\ edgesRemoved (diff A B) = [].
Proof.
  unfold Routes.emptyDiff. split.
  - intros ->. simpl. tauto.
  - destruct (diff A B). simpl. intros (-> & -> & -> & -> & ->). reflexivity.
Qed.

(** What an empty list of missing edges says of two edge maps. *)
Lemma missing_nil (these those : JsMap.t jsstring EdgeEntry) :
  flat_map (missingOf those) these = [] <->
  (forall k, In k (JsMap.keys these) -> In k (JsMap.keys those)).
Proof.
  split.
  - intros H k Hk. unfold JsMap.keys in Hk. apply in_map_iff in Hk as ([k' e] & <- & Hin).
    pose proof (flat_map_nil_inv _ _ _ _ H _ Hin) as Hm.
    unfold missingOf in Hm. simpl in *.
    destruct (JsMap.has Js.eqb those k') eqn:E; [|discriminate].
    now apply (JsMapFacts.has_true _ _ Js.eqb CompareFacts.jmeq) in E.
  - intros H. apply CompareFacts.flat_map_nil. intros [k e] Hin. unfold missingOf. simpl.
    assert (Hk : In k (JsMap.keys those)) by (apply H; eapply In_entry_key; eassumption).
    apply (JsMapFacts.has_true _ _ Js.eqb CompareFacts.jmeq) in Hk. now rewrite Hk.
Qed.

Lemma differs_trans f m t :
  differs f m = false -> differs m t = false -> differs f t = false.
Proof.
  intros H1 H2. apply not_true_is_false. intros H.
  apply CompareFacts.differs_true in H.
  assert (N1 : ~ (differs f m = true)) by (rewrite H1; discriminate).
  assert (N2 : ~ (differs m t = true)) by (rewrite H2; discriminate).
  rewrite CompareFacts.differs_true in N1, N2.
  destruct (JsFacts.eqb_spec (SpecStep.title f) (SpecStep.title m)); [|tauto].
  destruct (JsFacts.eqb_spec (SpecStep.title m) (SpecStep.title t)); [|tauto].
  destruct (JsFacts.eqb_spec (Js.or_empty (SpecStep.description f))
                             (Js.or_empty (SpecStep.description m))); [|tauto].
  destruct (JsFacts.eqb_spec (Js.or_empty (SpecStep.description m))
                             (Js.or_empty (SpecStep.description t))); [|tauto].
  destruct (StepType_eqb_spec (SpecStep.type f) (SpecStep.type m)); [|tauto].
  destruct (StepType_eqb_spec (SpecStep.type m) (SpecStep.type t)); [|tauto].
  destruct H as [H|[H|H]]; congruence.
Qed.

Lemma nil_no_member (X : Type) (l : list X) : (forall x, ~ In x l) -> l = [].
Proof. destruct l as [|a l]; [reflexivity|]. intros H. destruct (H a). now left. Qed.

(** What an empty step part of a diff says of the two step maps. *)
Lemma steps_same (A B : VersionGraph) :
  stepsAdded (diff A B) = [] /\ stepsRemoved (diff A B) = []
  /\ stepsChanged (diff A B) = [] <->
  (forall k, In k (map SpecStep.stepKey (steps A))
             <-> In k (map SpecStep.stepKey (steps B)))
  /\ (forall k f t, lastWithKey (steps A) k = Some f -> lastWithKey (steps B) k = Some t ->
                    differs f t = false).
Proof.
  pose proof (added_keys A B) as Ha. pose proof (removed_keys A B) as Hr.
  split.
  - intros (Ea & Er & Ec). split.
    + intros k. specialize (Ha k). specialize (Hr k). rewrite Ea in Ha. rewrite Er in Hr.
      simpl in Ha, Hr.
      destruct (in_dec (list_eq_dec N.eq_dec) k (map SpecStep.stepKey (steps A)));
      destruct (in_dec (list_eq_dec N.eq_dec) k (map SpecStep.stepKey (steps B)));
      tauto.
    + intros k f t Hf Ht. apply not_true_is_false. intros Hd.
      assert (Hin : In {| changedKey := k; from := sideOf f; to := sideOf t |}
                       (stepsChanged (diff A B))).
      { apply In_changed_last. exists f, t.
        cbn [changedKey]. tauto. }
      rewrite Ec in Hin. destruct Hin.
  - intros [Hk Hd]. split; [|split]; apply nil_no_member.
    + intros e He. assert (H : In (stepKey e) (map stepKey (stepsAdded (diff A B))))
        by now apply in_map.
      apply Ha in H. rewrite Hk in H. tauto.
    + intros e He. assert (H : In (stepKey e) (map stepKey (stepsRemoved (diff A B))))
        by now apply in_map.
      apply Hr in H. rewrite Hk in H. tauto.
    + intros c Hc. apply In_changed_last in Hc as (f & t & Hf & Ht & Hdf & _).
      rewrite (Hd _ _ _ Hf Ht) in Hdf. discriminate.
Qed.


Lemma edges_same (A B : VersionGraph) :
  edgesAdded (diff A B) = [] /\ edgesRemoved (diff A B) = [] <->
  (forall k, In k (JsMap.keys (edgesSet (idToKey (steps A)) (transitions A)))
             <-> In k (JsMap.keys (edgesSet (idToKey (steps B)) (transitions B)))).
Proof.
  rewrite CompareFacts.edgesAdded_diff, CompareFacts.edgesRemoved_diff, !missing_nil.
  split.
  - intros [H1 H2] k. split; [apply H2 | apply H1].
  - intros H. split; intros k; apply H.
Qed.

Lemma lastWithKey_Some l k :
  In k (map SpecStep.stepKey l) -> exists s, lastWithKey l k = Some s.
Proof.
  intros Hin. destruct (lastWithKey l k) as [s|] eqn:E; [now exists s|].
  rewrite <- get_stepsByKey_last in E. apply get_None_keys in E. tauto.
Qed.

Lemma lastWithKey_In l k s :
  lastWithKey l k = Some s -> In k (map SpecStep.stepKey l).
Proof.
  intros E. rewrite <- get_stepsByKey_last in E. apply get_In_stepsByKey in E.
  apply keys_stepsByKey. eapply In_entry_key; eassumption.
Qed.

(** X4. Reporting no difference is a symmetric and transitive relation
    between versions: if comparing A with B reports nothing, so does
    comparing B with A; and if neither A with B nor B with C report
    anything, neither does A with C. *)
Theorem no_difference_equivalence (A B C : VersionGraph) :
  (diff A B = Routes.emptyDiff -> diff B A = Routes.emptyDiff)
  /\ (diff A B = Routes.emptyDiff -> diff B C = Routes.emptyDiff ->
      diff A C = Routes.emptyDiff).
Proof.
  split.
  - rewrite !diff_empty_fields. intros (Ha & Hr & Hc & Hea & Her).
    assert (Hs : stepsAdded (diff B A) = [] /\ stepsRemoved (diff B A) = []
                 /\ stepsChanged (diff B A) = []).
    { apply steps_same.
      destruct (proj1 (steps_same A B) (conj Ha (conj Hr Hc))) as [Hk Hd].
      split; [intros k; symmetry; apply Hk|].
      intros k f t Hf Ht. rewrite differs_sym. now apply (Hd k). }
    assert (He : edgesAdded (diff B A) = [] /\ edgesRemoved (diff B A) = []).
    { apply edges_same. intros k. symmetry. revert k. apply edges_same. tauto. }
    tauto.
  - rewrite !diff_empty_fields.
    intros (Ha & Hr & Hc & Hea & Her) (Ha' & Hr' & Hc' & Hea' & Her').
    destruct (proj1 (steps_same A B) (conj Ha (conj Hr Hc))) as [Hk Hd].
    destruct (proj1 (steps_same B C) (conj Ha' (conj Hr' Hc'))) as [Hk' Hd'].
    assert (Hs : stepsAdded (diff A C) = [] /\ stepsRemoved (diff A C) = []
                 /\ stepsChanged (diff A C) = []).
    { apply steps_same. split; [intros k; now rewrite Hk, Hk'|].
      intros k f t Hf Ht.
      destruct (lastWithKey_Some (steps B) k) as (m & Hm);
        [apply Hk; eapply lastWithKey_In; eassumption|].
      apply (differs_trans f m t); [now apply (Hd k) | now apply (Hd' k)]. }
    assert (He : edgesAdded (diff A C) = [] /\ edgesRemoved (diff A C) = []).
    { apply edges_same. intros k.
      rewrite (proj1 (edges_same A B) (conj Hea Her) k).
      apply (proj1 (edges_same B C) (conj Hea' Her') k). }
    tauto.
Qed.

End DiffLaws.

(** ** More on the fork *)

Module ForkLaws.
Import Routes DbInv ForkView.

Local Open Scope Z_scope.

Section Laws.
Variable uuidv4 : nat -> jsstring.

(** The loop over the steps, when it ends, has appended one row per step. *)
Lemma copySteps_shape (newVid : Z) (bs : list SpecStep.t) :
  forall (i : nat) (m m' : JsMap.t Z Z) (db db' : Db.t),
    copySteps uuidv4 newVid bs i m db = Db.Done (m', db') ->
    db' = withSteps db (copiesFrom uuidv4 newVid (Db.nextStepId db) i bs)
    /\ m' = JsMap.collect Z.eqb fst snd
              (combine (map SpecStep.id bs)
                 (map SpecStep.id (copiesFrom uuidv4 newVid (Db.nextStepId db) i bs))) m.
Proof.
  induction bs as [|s bs IH]; intros i m m' db db'; cbn [copySteps copiesFrom].
  - unfold Db.ret. intros [= <- <-]. unfold withSteps.
    cbn [length Z.of_nat map combine JsMap.collect fold_left].
    rewrite app_nil_r, Z.add_0_r. now destruct db.
  - unfold Db.bind, Db.specStep_create.
    destruct (existsb (Z.eqb newVid) (Db.versionIds db)); [|discriminate].
    intros H. apply IH in H as [-> ->]. RoutesFacts.proj. split; [|reflexivity].
    unfold withSteps. RoutesFacts.proj. cbn [length]. rewrite <- app_assoc. cbn [app].
    f_equal. lia.
Qed.

Lemma copyTransitions_shape (newVid : Z) (m : JsMap.t Z Z) (trs : list SpecStepTransition.t) :
  forall (db db' : Db.t) (u : unit),
    copyTransitions newVid trs m db = Db.Done (u, db') ->
    db' = withTransitions db (trCopiesFrom newVid (Db.nextTransitionId db) m trs)
    /\ (forall tr, In tr trs ->
          JsMap.get Z.eqb m (SpecStepTransition.fromStepId tr) <> None
          /\ JsMap.get Z.eqb m (SpecStepTransition.toStepId tr) <> None).
Proof.
  induction trs as [|tr trs IH]; intros db db' u; cbn [copyTransitions trCopiesFrom].
  - unfold Db.ret. intros [= <- <-]. split; [|intros ? []]. unfold withTransitions.
    cbn [length Z.of_nat]. rewrite app_nil_r, Z.add_0_r. now destruct db.
  - unfold Db.bind, Db.specStepTransition_create.
    destruct (JsMap.get Z.eqb m (SpecStepTransition.fromStepId tr)) as [f|] eqn:Ef;
      [|discriminate].
    destruct (JsMap.get Z.eqb m (SpecStepTransition.toStepId tr)) as [t|] eqn:Et;
      [|discriminate].
    destruct (existsb (Z.eqb newVid) (Db.versionIds db) && existsb (Z.eqb f) (Db.stepIds db)
              && existsb (Z.eqb t) (Db.stepIds db)); [|discriminate].
    intros H. apply IH in H as [-> Hall]. RoutesFacts.proj. split.
    + unfold withTransitions, copyTr. RoutesFacts.proj. cbn [length].
      rewrite Ef, Et. cbn [orZero]. rewrite <- app_assoc. cbn [app]. f_equal. lia.
    + intros tr' [<-|Hin]; [rewrite Ef, Et; split; discriminate | now apply Hall].
Qed.

(** [findLastVersion] finds a version of the specification whose number no
    other version of it exceeds. *)
Lemma findLastVersion_max (db : Db.t) (specId : Z) :
  match Db.findLastVersion db specId with
  | Some l => In l (Db.specVersions db) /\ SpecVersion.specId l = specId
              /\ forall v, In v (Db.specVersions db) -> SpecVersion.specId v = specId ->
                           SpecVersion.versionNumber v <= SpecVersion.versionNumber l
  | None => forall v, In v (Db.specVersions db) -> SpecVersion.specId v <> specId
  end.
Proof.
  unfold Db.findLastVersion.
  set (step := fun (best : option SpecVersion.t) (v : SpecVersion.t) =>
       if Z.eqb (SpecVersion.specId v) specId then
         match best with
         | Some b => if Z.ltb (SpecVersion.versionNumber b) (SpecVersion.versionNumber v)
                     then Some v else best
         | None => Some v
         end
       else best).
  enough (H : forall l seen best,
             match best with
             | Some b => In b seen /\ SpecVersion.specId b = specId
                         /\ forall v, In v seen -> SpecVersion.specId v = specId ->
                              SpecVersion.versionNumber v <= SpecVersion.versionNumber b
             | None => forall v, In v seen -> SpecVersion.specId v <> specId
             end ->
             match fold_left step l best with
             | Some b => In b (seen ++ l) /\ SpecVersion.specId b = specId
                         /\ forall v, In v (seen ++ l) -> SpecVersion.specId v = specId ->
                              SpecVersion.versionNumber v <= SpecVersion.versionNumber b
             | None => forall v, In v (seen ++ l) -> SpecVersion.specId v <> specId
             end).
  { apply (H (Db.specVersions db) [] None). intros v []. }
  induction l as [|a l IH]; intros seen best Hb; cbn [fold_left].
  - rewrite app_nil_r. exact Hb.
  - replace (seen ++ a :: l) with ((seen ++ [a]) ++ l) by (rewrite <- app_assoc; reflexivity).
    apply IH. unfold step.
    destruct (Z.eqb_spec (SpecVersion.specId a) specId) as [Ea|Na].
    + destruct best as [b|].
      * destruct Hb as (Hin & Hs & Hmax).
        destruct (Z.ltb_spec (SpecVersion.versionNumber b) (SpecVersion.versionNumber a)).
        -- split; [apply in_or_app; right; now left|]. split; [assumption|].
           intros v Hv Hvs. apply in_app_or in Hv as [Hv|[<-|[]]]; [|lia].
           specialize (Hmax v Hv Hvs). lia.
        -- split; [apply in_or_app; now left|]. split; [assumption|].
           intros v Hv Hvs. apply in_app_or in Hv as [Hv|[<-|[]]]; [|lia].
           now apply Hmax.
      * split; [apply in_or_app; right; now left|]. split; [assumption|].
        intros v Hv Hvs. apply in_app_or in Hv as [Hv|[<-|[]]]; [|lia].
        now destruct (Hb v Hv).
    + destruct best as [b|].
      * destruct Hb as (Hin & Hs & Hmax).
        split; [apply in_or_app; now left|]. split; [assumption|].
        intros v Hv Hvs. apply in_app_or in Hv as [Hv|[<-|[]]]; [|contradiction].
        now apply Hmax.
      * intros v Hv. apply in_app_or in Hv as [Hv|[<-|[]]]; [now apply Hb | assumption].
Qed.


(** What a fork that answers 201 has run through. *)
Lemma fork_201_inv (db db' : Db.t) (specId versionNumber : Z) (body : ForkBody)
    (nv : SpecVersion.t) :
  fork uuidv4 db specId versionNumber body = (db', Fork201 nv) ->
  exists base db1 copies m trs,
    Db.findVersionByNumber db specId versionNumber = Some base
    /\ Db.specVersion_create specId (nextVersionNumber db specId) draft
         (idOrNull (forkCreatedById body)) (Some (SpecVersion.id base))
         (Some (if Js.truthy_opt (forkComment body)
                then Js.or_empty (forkComment body)
                else Js.lit "Новая версия на основе " ++ stringOfZ versionNumber)) db
       = Db.Done (nv, db1)
    /\ copies = copiesFrom uuidv4 (SpecVersion.id nv) (Db.nextStepId db) 0
                  (Db.stepsOf db (SpecVersion.id base))
    /\ m = JsMap.collect Z.eqb fst snd
             (combine (map SpecStep.id (Db.stepsOf db (SpecVersion.id base)))
                      (map SpecStep.id copies)) JsMap.empty
    /\ trs = trCopiesFrom (SpecVersion.id nv) (Db.nextTransitionId db) m
               (Db.transitionsOf db (SpecVersion.id base))
    /\ db' = withTransitions (withSteps db1 copies) trs
    /\ (forall tr, In tr (Db.transitionsOf db (SpecVersion.id base)) ->
          JsMap.get Z.eqb m (SpecStepTransition.fromStepId tr) <> None
          /\ JsMap.get Z.eqb m (SpecStepTransition.toStepId tr) <> None).
Proof.
  unfold fork. destruct (Db.findVersionByNumber db specId versionNumber) as [base|];
    [|discriminate].
  lazy zeta. unfold forkTx, Db.bind.
  match goal with |- context [Db.specVersion_create ?a ?b ?c ?d ?e ?f db] =>
    destruct (Db.specVersion_create a b c d e f db) as [[row db1]|] eqn:Hcreate end;
    [|discriminate].
  destruct (copySteps uuidv4 (SpecVersion.id row) (Db.stepsOf db1 (SpecVersion.id base)) 0
              JsMap.empty db1) as [[m db2]|] eqn:Hs; [|discriminate].
  destruct (copyTransitions (SpecVersion.id row) (Db.transitionsOf db2 (SpecVersion.id base))
              m db2) as [[u db3]|] eqn:Ht; [|discriminate].
  unfold Db.ret. intros [= <- <-].
  apply copySteps_shape in Hs as [-> ->].
  apply copyTransitions_shape in Ht as [-> Hall].
  assert (E1 : Db.specSteps db1 = Db.specSteps db
               /\ Db.specStepTransitions db1 = Db.specStepTransitions db
               /\ Db.nextStepId db1 = Db.nextStepId db
               /\ Db.nextTransitionId db1 = Db.nextTransitionId db).
  { unfold Db.specVersion_create in Hcreate. TxFacts.pass_int4 Hcreate.
    match type of Hcreate with (if ?c then _ else _) = _ => destruct c end;
      [|discriminate].
    injection Hcreate as <- <-. repeat split. }
  destruct E1 as (Es & Et & Ens & Ent).
  assert (Est : Db.stepsOf db1 (SpecVersion.id base) = Db.stepsOf db (SpecVersion.id base))
    by (unfold Db.stepsOf; now rewrite Es).
  assert (Ett : forall rows, Db.transitionsOf (withSteps db1 rows) (SpecVersion.id base)
                             = Db.transitionsOf db (SpecVersion.id base))
    by (intros rows; unfold Db.transitionsOf, withSteps; cbn [Db.specStepTransitions];
        now rewrite Et).
  rewrite Ett, Est, Ens in Hall. rewrite Ett, Est, Ens.
  eexists base, db1, _, _, _. split; [reflexivity|]. split; [exact Hcreate|].
  split; [reflexivity|]. split; [reflexivity|]. split; [reflexivity|].
  split; [|exact Hall].
  f_equal. unfold withSteps. cbn [Db.nextTransitionId]. now rewrite Ent.
Qed.


(** The loops of the fork draw ids of steps and of transitions only, and
    never set a counter back. *)
Lemma advances_copySteps (newVid : Z) (bs : list SpecStep.t) :
  forall (i : nat) (m : JsMap.t Z Z), Db.advances (copySteps uuidv4 newVid bs i m).
Proof.
  induction bs as [|s bs IH]; intros i m; cbn [copySteps].
  - apply TxFacts.advances_ret.
  - apply TxFacts.advances_bind; [apply TxFacts.advances_specStep_create|].
    intros a. apply IH.
Qed.

Lemma advances_copyTransitions (newVid : Z) (m : JsMap.t Z Z)
    (trs : list SpecStepTransition.t) :
  Db.advances (copyTransitions newVid trs m).
Proof.
  induction trs as [|tr trs IH]; cbn [copyTransitions].
  - apply TxFacts.advances_ret.
  - apply TxFacts.advances_bind; [apply TxFacts.advances_specStepTransition_create|].
    intros _. exact IH.
Qed.

Lemma advances_forkTx (specId versionNumber newVersionNumber : Z) (base : SpecVersion.t)
    (body : ForkBody) :
  Db.advances (forkTx uuidv4 specId versionNumber newVersionNumber base body).
Proof.
  unfold forkTx.
  apply TxFacts.advances_bind; [apply TxFacts.advances_specVersion_create|]. intros nv.
  apply TxFacts.advances_bind; [intros db; apply advances_copySteps|]. intros m.
  apply TxFacts.advances_bind; [intros db; apply advances_copyTransitions|]. intros _.
  apply TxFacts.advances_ret.
Qed.

Lemma copySteps_versionId (newVid : Z) (bs : list SpecStep.t) :
  forall (i : nat) (m : JsMap.t Z Z) (db : Db.t),
    Db.nextVersionId (Db.reached (copySteps uuidv4 newVid bs i m db)) = Db.nextVersionId db.
Proof.
  induction bs as [|s bs IH]; intros i m db; cbn [copySteps]; [reflexivity|].
  unfold Db.bind, Db.specStep_create.
  destruct (existsb (Z.eqb newVid) (Db.versionIds db)); [|reflexivity].
  now rewrite IH.
Qed.

Lemma copyTransitions_versionId (newVid : Z) (m : JsMap.t Z Z)
    (trs : list SpecStepTransition.t) :
  forall db : Db.t,
    Db.nextVersionId (Db.reached (copyTransitions newVid trs m db)) = Db.nextVersionId db.
Proof.
  induction trs as [|tr trs IH]; intros db; cbn [copyTransitions]; [reflexivity|].
  unfold Db.bind, Db.specStepTransition_create.
  destruct (JsMap.get Z.eqb m (SpecStepTransition.fromStepId tr)) as [f|]; [|reflexivity].
  destruct (JsMap.get Z.eqb m (SpecStepTransition.toStepId tr)) as [t|]; [|reflexivity].
  match goal with |- context [if ?c then _ else _] => destruct c end; [|reflexivity].
  now rewrite IH.
Qed.

(** The answers of the fork. When the transaction throws it is rolled
    back; if the number of the new version fits, the id of a version has
    been drawn by then. *)
Lemma fork_cases (db : Db.t) (specId versionNumber : Z) (body : ForkBody) :
  match Db.findVersionByNumber db specId versionNumber with
  | None => fork uuidv4 db specId versionNumber body = (db, Fork404)
  | Some _ =>
      (exists thrown,
         fork uuidv4 db specId versionNumber body = (Db.rollback db thrown, Fork500)
         /\ Db.ahead db thrown
         /\ Db.nextVersionId thrown
            = if Db.int4 (nextVersionNumber db specId)
              then Db.nextVersionId db + 1 else Db.nextVersionId db)
      \/ exists db' nv, fork uuidv4 db specId versionNumber body = (db', Fork201 nv)
  end.
Proof.
  unfold fork. destruct (Db.findVersionByNumber db specId versionNumber) as [base|];
    [|reflexivity].
  lazy zeta.
  pose proof (advances_forkTx specId versionNumber (nextVersionNumber db specId) base body db)
    as Hadv.
  destruct (forkTx uuidv4 specId versionNumber (nextVersionNumber db specId) base body db)
    as [[nv db']|thrown] eqn:E; [right; now exists db', nv|].
  left. exists thrown. split; [reflexivity|]. split; [exact Hadv|].
  unfold forkTx, Db.bind, Db.specVersion_create in E.
  destruct (Db.int4 (nextVersionNumber db specId)); cbn [negb] in E;
    [|now injection E as <-].
  match type of E with context [if ?c then _ else _] => destruct c end;
    [|now injection E as <-].
  match type of E with context [copySteps ?u ?a ?b ?c ?d ?e] =>
    pose proof (copySteps_versionId a b c d e) as Hs;
    destruct (copySteps u a b c d e) as [[m db2]|d2] end.
  - match type of E with context [copyTransitions ?a ?b ?c ?e] =>
      pose proof (copyTransitions_versionId a c b e) as Ht;
      destruct (copyTransitions a b c e) as [[u db3]|d3] end; [discriminate|].
    injection E as <-. cbn [Db.reached] in Hs, Ht. rewrite Ht, Hs. reflexivity.
  - injection E as <-. exact Hs.
Qed.

(** The id map of the step loop answers exactly for the ids of the base
    steps. *)
Lemma stepIdMap_None (bs copies : list SpecStep.t) (i : Z) :
  length bs = length copies ->
  (JsMap.get Z.eqb
     (JsMap.collect Z.eqb fst snd
        (combine (map SpecStep.id bs) (map SpecStep.id copies)) JsMap.empty) i = None
   <-> ~ In i (map SpecStep.id bs)).
Proof.
  intros Hl.
  rewrite (JsMapFacts.get_None _ _ Z.eqb CompareFacts.Zeqb_eq).
  rewrite (JsMapFacts.keys_collect _ _ Z.eqb CompareFacts.Zeqb_eq).
  rewrite RoutesFacts.map_fst_combine by now rewrite !length_map.
  simpl. tauto.
Qed.

Lemma fork_201 (db : Db.t) (specId versionNumber : Z) (body : ForkBody)
    (base : SpecVersion.t) :
  consistent db = true ->
  Db.findVersionByNumber db specId versionNumber = Some base ->
  Db.refOk (Db.users db) (idOrNull (forkCreatedById body)) = true ->
  endpointsInside db (SpecVersion.id base) = true ->
  Db.int4 (nextVersionNumber db specId) = true ->
  exists db' nv, fork uuidv4 db specId versionNumber body = (db', Fork201 nv).
Proof.
  intros Hc Hbase Hu Hends Hint. apply RoutesFacts.consistent_inv in Hc. destruct Hc.
  pose proof Hbase as Hb. unfold Db.findVersionByNumber in Hb.
  apply find_some in Hb as [Hbin Hbp]. apply andb_prop in Hbp as [Hbs Hbn].
  apply Z.eqb_eq in Hbs, Hbn.
  unfold fork. rewrite Hbase. lazy zeta.
  unfold forkTx, Db.bind, Db.specVersion_create.
  assert (H1 : existsb (Z.eqb specId) (Db.specIds db) = true).
  { apply RoutesFacts.existsb_Zeqb. rewrite <- Hbs. now apply version_spec_in0. }
  assert (H3 : Db.refOk (Db.versionIds db) (Some (SpecVersion.id base)) = true).
  { cbn [Db.refOk]. apply RoutesFacts.existsb_Zeqb. unfold Db.versionIds. now apply in_map. }
  unfold Db.userIds. rewrite Hint, H1, Hu, H3. lazy beta iota zeta. cbn [andb negb].
  rewrite RoutesFacts.copySteps_ok.
  2:{ unfold Db.versionIds. cbn [Db.specVersions SpecVersion.id]. rewrite map_app.
      apply RoutesFacts.existsb_Zeqb, in_or_app. right. now left. }
  lazy beta iota zeta.
  rewrite RoutesFacts.copyTransitions_ok; [unfold Db.ret; eauto | |].
  - unfold withSteps, Db.versionIds. cbn [Db.specVersions SpecVersion.id]. rewrite map_app.
    apply RoutesFacts.existsb_Zeqb, in_or_app. right. now left.
  - intros tr Htr.
    match type of Htr with In _ (Db.transitionsOf ?d _) =>
      change (Db.transitionsOf d (SpecVersion.id base))
        with (Db.transitionsOf db (SpecVersion.id base)) in Htr end.
    match goal with |- context [copiesFrom ?u ?v ?n ?i ?l] =>
      set (copies := copiesFrom u v n i l) end.
    match goal with |- context [Db.stepsOf ?d (SpecVersion.id base)] =>
      change (Db.stepsOf d (SpecVersion.id base))
        with (Db.stepsOf db (SpecVersion.id base)) in * end.
    set (bs := Db.stepsOf db (SpecVersion.id base)) in *.
    assert (Hdbs : NoDup (map SpecStep.id bs))
      by (apply RoutesFacts.NoDup_map_filter; assumption).
    assert (Hlen : length bs = length copies)
      by (symmetry; apply RoutesFacts.length_copiesFrom).
    unfold endpointsInside in Hends. rewrite forallb_forall in Hends.
    specialize (Hends tr Htr). apply andb_prop in Hends as [Hf Ht].
    apply RoutesFacts.existsb_Zeqb in Hf, Ht. fold bs in Hf, Ht.
    apply in_map_iff in Hf as (sf & Ef & Hsf). apply in_map_iff in Ht as (st & Et & Hst).
    destruct (RoutesFacts.stepIdMap_get bs copies sf Hdbs Hlen Hsf) as (cf & Hcf & Hgf).
    destruct (RoutesFacts.stepIdMap_get bs copies st Hdbs Hlen Hst) as (ct & Hct & Hgt).
    exists (SpecStep.id cf), (SpecStep.id ct). rewrite <- Ef, <- Et.
    split; [exact Hgf|]. split; [exact Hgt|].
    unfold Db.stepIds, withSteps. cbn [Db.specSteps]. rewrite map_app.
    split; apply in_or_app; right; apply in_map; eapply in_combine_r; eassumption.
Qed.


(** X6. What a fork that answers 201 has done. The users and the
    specifications are as before, so no specification has a new current
    version; the one new version row is the version returned, a draft of the
    same specification that records the base in [basedOnVersionId] and
    whose number exceeds the number of every earlier version of the
    specification; the step and transition rows added belong to the new
    version, one for each step and transition of the base; and every other
    version, the base included, loads with the graph it had. *)
Theorem fork_effect (db db' : Db.t) (specId versionNumber : Z) (body : ForkBody)
    (nv : SpecVersion.t) :
  fork uuidv4 db specId versionNumber body = (db', Fork201 nv) ->
  Db.users db' = Db.users db
  /\ Db.specs db' = Db.specs db
  /\ Db.specVersions db' = Db.specVersions db ++ [nv]
  /\ SpecVersion.specId nv = specId
  /\ SpecVersion.status nv = draft
  /\ (forall v, In v (Db.specVersions db) -> SpecVersion.specId v = specId ->
                SpecVersion.versionNumber v < SpecVersion.versionNumber nv)
  /\ (exists base copies trs,
        Db.findVersionByNumber db specId versionNumber = Some base
        /\ SpecVersion.basedOnVersionId nv = Some (SpecVersion.id base)
        /\ Db.specSteps db' = Db.specSteps db ++ copies
        /\ length copies = length (Db.stepsOf db (SpecVersion.id base))
        /\ (forall c, In c copies -> SpecStep.versionId c = SpecVersion.id nv)
        /\ Db.specStepTransitions db' = Db.specStepTransitions db ++ trs
        /\ length trs = length (Db.transitionsOf db (SpecVersion.id base))
        /\ (forall t, In t trs -> SpecStepTransition.versionId t = SpecVersion.id nv))
  /\ (forall w, w <> SpecVersion.id nv ->
                Db.findVersionGraph db' w = Db.findVersionGraph db w).
Proof.
  intros H.
  apply fork_201_inv in H as (base & db1 & copies & m & trs & Hb & Hcreate & Hcp & Hm & Htr
                              & -> & _).
  unfold Db.specVersion_create in Hcreate. TxFacts.pass_int4 Hcreate.
  match type of Hcreate with (if ?c then _ else _) = _ => destruct c end; [|discriminate].
  injection Hcreate as Hnv <-.
  assert (Hcv : forall c, In c copies -> SpecStep.versionId c = SpecVersion.id nv).
  { intros c Hin. rewrite Hcp in Hin. now apply RoutesFacts.In_copiesFrom in Hin. }
  assert (Htv : forall t, In t trs -> SpecStepTransition.versionId t = SpecVersion.id nv).
  { intros t Hin. rewrite Htr in Hin. now apply RoutesFacts.In_trCopiesFrom in Hin. }
  split; [reflexivity|]. split; [reflexivity|].
  split; [cbn [withTransitions withSteps Db.specVersions]; now rewrite Hnv|].
  split; [now rewrite <- Hnv|]. split; [now rewrite <- Hnv|]. split; [|split].
  - intros v Hv Hs. rewrite <- Hnv. cbn [SpecVersion.versionNumber].
    unfold nextVersionNumber.
    pose proof (findLastVersion_max db specId) as Hmax.
    destruct (Db.findLastVersion db specId) as [l|].
    + destruct Hmax as (_ & _ & Hmax). specialize (Hmax v Hv Hs). lia.
    + now destruct (Hmax v Hv).
  - exists base, copies, trs. split; [exact Hb|]. split; [now rewrite <- Hnv|].
    split; [reflexivity|].
    split; [rewrite Hcp; apply RoutesFacts.length_copiesFrom|].
    split; [exact Hcv|]. split; [reflexivity|]. split; [|exact Htv].
    rewrite Htr. clear. generalize (Db.nextTransitionId db).
    induction (Db.transitionsOf db (SpecVersion.id base)) as [|t l IH]; intros n;
      cbn [trCopiesFrom length]; [reflexivity | now rewrite IH].
  - intros w Hw. unfold Db.findVersionGraph, Db.stepsOf, Db.transitionsOf.
    cbn [withTransitions withSteps Db.specVersions Db.specSteps Db.specStepTransitions].
    rewrite RoutesFacts.find_app, !filter_app.
    rewrite (RoutesFacts.filter_none _ _ copies), (RoutesFacts.filter_none _ _ trs).
    + rewrite !app_nil_r. cbn [find]. rewrite Hnv.
      destruct (Z.eqb_spec (SpecVersion.id nv) w) as [E|_]; [now symmetry in E|].
      now destruct (find (fun v => SpecVersion.id v =? w) (Db.specVersions db)).
    + intros t Ht. rewrite (Htv t Ht). now apply Z.eqb_neq.
    + intros c Hc. rewrite (Hcv c Hc). now apply Z.eqb_neq.
Qed.

End Laws.
End ForkLaws.

Module ForkSamples.
Import Routes DbInv ForkView ForkLaws.


Lemma fork_effect_witness :
  exists db' nv,
    fork Samples.sampleUuid Samples.forkDb 1 1 Samples.forkBody = (db', Fork201 nv)
    /\ Db.specs db' = Db.specs Samples.forkDb
    /\ Db.specVersions db' = Db.specVersions Samples.forkDb ++ [nv]
    /\ SpecVersion.versionNumber nv = 2%Z.
Proof.
  pose (r := fork Samples.sampleUuid Samples.forkDb 1 1 Samples.forkBody).
  pose (nv := SpecVersion.mk 2 1 2 draft
                (Some (Js.lit "Новая версия на основе " ++ stringOfZ 1)) None None (Some 1%Z)).
  assert (H : fork Samples.sampleUuid Samples.forkDb 1 1 Samples.forkBody
              = (fst r, Fork201 nv)) by (vm_compute; reflexivity).
  exists (fst r), nv. split; [exact H|].
  destruct (fork_effect Samples.sampleUuid Samples.forkDb (fst r) 1 1 Samples.forkBody nv H)
    as (_ & H2 & H3 & _).
  split; [exact H2|]. split; [exact H3 | reflexivity].
Defined.

End ForkSamples.

(** ** More on POST /api/specs *)

Module CreateSpecLaws.
Import Routes DbInv.

Local Open Scope Z_scope.

(** The tables after a successful POST /api/specs. *)
Lemma createSpec_201 (db : Db.t) (c : N) (r : jsstring) (descr : option jsstring)
    (createdBy : option Z) :
  consistent db = true ->
  Db.refOk (Db.users db) (idOrNull createdBy) = true ->
  createSpec db {| title := Some (c :: r); description := descr; createdById := createdBy |}
  = (Db.mk (Db.users db)
       (Db.specs db
        ++ [Spec.mk (Db.nextSpecId db) (c :: r) None descr (idOrNull createdBy)
              (Some (Db.nextVersionId db))])
       (Db.specVersions db
        ++ [SpecVersion.mk (Db.nextVersionId db) (Db.nextSpecId db) 1 draft
              (Some (Js.lit "Первая версия")) None (idOrNull createdBy) None])
       (Db.specSteps db) (Db.specStepTransitions db)
       (Db.nextSpecId db + 1) (Db.nextVersionId db + 1) (Db.nextStepId db)
       (Db.nextTransitionId db),
     CreateSpec201
       (Spec.mk (Db.nextSpecId db) (c :: r) None descr (idOrNull createdBy) None)
       (SpecVersion.mk (Db.nextVersionId db) (Db.nextSpecId db) 1 draft
          (Some (Js.lit "Первая версия")) None (idOrNull createdBy) None)).
Proof.
  intros Hc Hu. apply RoutesFacts.consistent_inv in Hc. destruct Hc.
  unfold createSpec, createSpecTx, Db.bind.
  cbn [title createdById description].
  unfold Db.spec_create. RoutesFacts.proj. rewrite Hu. lazy beta iota zeta.
  unfold Db.specVersion_create. change (Db.int4 1) with true. RoutesFacts.proj.
  rewrite map_app. cbn [map].
  rewrite RoutesFacts.existsb_Zeqb_app_r, Hu. cbn [Db.refOk]. RoutesFacts.proj.
  lazy beta iota zeta.
  unfold Db.spec_update_currentVersionId. RoutesFacts.proj. rewrite !map_app. cbn [map].
  RoutesFacts.proj. rewrite !RoutesFacts.existsb_Zeqb_app_r. RoutesFacts.proj.
  set (row := Spec.mk (Db.nextSpecId db) (c :: r) None descr (idOrNull createdBy) None).
  assert (Hex : existsb
                  (fun s : Spec.t =>
                     negb (Spec.id s =? Db.nextSpecId db)
                     && match Spec.currentVersionId s with
                        | Some c0 => c0 =? Db.nextVersionId db
                        | None => false
                        end) (Db.specs db ++ [row]) = false).
  { rewrite existsb_app. apply orb_false_intro.
    - apply not_true_is_false. intros H. apply existsb_exists in H as (s & Hs & H).
      apply andb_prop in H as [_ H].
      destruct (Spec.currentVersionId s) as [c0|] eqn:Ec; [|discriminate].
      apply Z.eqb_eq in H. specialize (current_version0 s c0 Hs Ec). lia.
    - cbn [existsb row Spec.id]. now rewrite Z.eqb_refl. }
  rewrite Hex. cbn [negb]. lazy beta iota zeta. unfold Db.ret.
  rewrite Z.eqb_refl.
  assert (Hmap : map (fun s : Spec.t =>
                        if Spec.id s =? Db.nextSpecId db
                        then Db.setCurrentVersionId (Some (Db.nextVersionId db)) s
                        else s) (Db.specs db) = Db.specs db).
  { rewrite <- (map_id (Db.specs db)) at 2. apply map_ext_in. intros s Hs.
    specialize (specIds_below0 s Hs).
    destruct (Z.eqb_spec (Spec.id s) (Db.nextSpecId db)); [lia | reflexivity]. }
  rewrite Hmap. reflexivity.
Qed.

Lemma createSpec_500 (db : Db.t) (c : N) (r : jsstring) (descr : option jsstring)
    (createdBy : option Z) :
  Db.refOk (Db.users db) (idOrNull createdBy) = false ->
  createSpec db {| title := Some (c :: r); description := descr; createdById := createdBy |}
  = (Db.mk (Db.users db) (Db.specs db) (Db.specVersions db) (Db.specSteps db)
       (Db.specStepTransitions db)
       (Db.nextSpecId db + 1) (Db.nextVersionId db) (Db.nextStepId db)
       (Db.nextTransitionId db),
     CreateSpec500).
Proof.
  intros Hu. unfold createSpec, createSpecTx, Db.bind.
  cbn [title createdById description].
  unfold Db.spec_create. RoutesFacts.proj. now rewrite Hu.
Qed.



End CreateSpecLaws.

(** ** More on the importer *)

Module ImporterLaws.
Import Importer.

(** *** Trimming *)

Lemma dropWhile_head (p : N -> bool) (s : jsstring) c r :
  Js.dropWhile p s = c :: r -> p c = false.
Proof.
  induction s as [|a s IH]; simpl; [discriminate|].
  destruct (p a) eqn:E; [exact IH|]. now intros [= <- _].
Qed.

Lemma takeWhile_dropWhile (p : N -> bool) (s : jsstring) :
  s = Js.takeWhile p s ++ Js.dropWhile p s.
Proof.
  induction s as [|a s IH]; simpl; [reflexivity|].
  destruct (p a); simpl; [now f_equal | reflexivity].
Qed.

Lemma takeWhile_all (p : N -> bool) (s : jsstring) :
  forallb p (Js.takeWhile p s) = true.
Proof.
  induction s as [|a s IH]; simpl; [reflexivity|].
  destruct (p a) eqn:E; simpl; [now rewrite E | reflexivity].
Qed.

Lemma dropWhileEnd_last (p : N -> bool) (s : jsstring) c r :
  rev (Js.dropWhileEnd p s) = c :: r -> p c = false.
Proof.
  unfold Js.dropWhileEnd. rewrite rev_involutive. apply dropWhile_head.
Qed.

(** [dropWhileEnd] keeps a prefix. *)
Lemma dropWhileEnd_prefix (p : N -> bool) (s : jsstring) :
  exists t, s = Js.dropWhileEnd p s ++ t.
Proof.
  unfold Js.dropWhileEnd. exists (rev (Js.takeWhile p (rev s))).
  rewrite <- rev_app_distr, <- takeWhile_dropWhile. now rewrite rev_involutive.
Qed.

Lemma dropWhileEnd_head (p : N -> bool) (s : jsstring) c r :
  Js.dropWhileEnd p s = c :: r -> exists r', s = c :: r'.
Proof.
  intros E. destruct (dropWhileEnd_prefix p s) as (t & Ht).
  rewrite E in Ht. simpl in Ht. eauto.
Qed.

Lemma trim_head (s : jsstring) c r : Js.trim s = c :: r -> Js.isWhiteSpace c = false.
Proof.
  unfold Js.trim. intros E. apply dropWhileEnd_head in E as (r' & E).
  now apply dropWhile_head in E.
Qed.

Lemma trim_last (s : jsstring) c r : rev (Js.trim s) = c :: r -> Js.isWhiteSpace c = false.
Proof. unfold Js.trim. apply dropWhileEnd_last. Qed.

Lemma isTail_space c : isTail c = false -> Js.isWhiteSpace c = false.
Proof.
  unfold isTail. intros H. do 5 (apply orb_false_elim in H as [H _]). exact H.
Qed.

(** Trimming a text whose last unit is no white space keeps the last
    unit. *)
Lemma trim_keeps_last (s : jsstring) x rest :
  rev s = x :: rest -> Js.isWhiteSpace x = false ->
  exists rest', rev (Js.trim s) = x :: rest'.
Proof.
  intros Hs Hx. unfold Js.trim, Js.dropWhileEnd. rewrite rev_involutive.
  pose proof (takeWhile_dropWhile Js.isWhiteSpace s) as Hsplit.
  set (d := Js.dropWhile Js.isWhiteSpace s) in *.
  assert (Hr : rev s = rev d ++ rev (Js.takeWhile Js.isWhiteSpace s))
    by (rewrite Hsplit at 1; apply rev_app_distr).
  rewrite Hs in Hr. destruct (rev d) as [|y rd] eqn:Ed.
  - simpl in Hr. exfalso.
    assert (Hall := takeWhile_all Js.isWhiteSpace s).
    rewrite forallb_forall in Hall. specialize (Hall x).
    rewrite Hall in Hx; [discriminate|]. apply in_rev. rewrite <- Hr. now left.
  - simpl in Hr. injection Hr as <- _. simpl. rewrite Hx. now exists rd.
Qed.


(** *** The label of a transition *)

Lemma labelBefore_shape (text : jsstring) (index : nat) :
  length (labelBefore text index) <= 61
  /\ (forall c r, labelBefore text index = c :: r -> Js.isWhiteSpace c = false)
  /\ (forall c r, rev (labelBefore text index) = c :: r -> isTail c = false).
Proof.
  unfold labelBefore.
  set (c1 := Js.trim (Js.slice text (index - 80) index)).
  set (c2 := Js.dropWhileEnd isTail c1).
  set (c3 := Js.trim c2).
  assert (Hlast : forall c r, rev c3 = c :: r -> isTail c = false).
  { intros c r E. destruct (rev c2) as [|x rest] eqn:E2.
    - assert (c2 = []) by (apply (f_equal (@rev N)) in E2; now rewrite rev_involutive in E2).
      unfold c3 in E. rewrite H in E. discriminate.
    - assert (Hx : isTail x = false) by (apply (dropWhileEnd_last isTail c1 x rest); exact E2).
      destruct (trim_keeps_last c2 x rest E2 (isTail_space x Hx)) as (rest' & E3).
      fold c3 in E3. rewrite E3 in E. now injection E as <- _. }
  destruct (Nat.ltb_spec 60 (length c3)) as [Hlong|Hshort].
  - split; [|split].
    + rewrite length_app. unfold Js.sliceLast. rewrite length_skipn.
      change (length (Js.lit "…")) with 1. lia.
    + intros c r E. change (Js.lit "…") with [8230%N] in E. simpl in E.
      now injection E as <- _.
    + intros c r E. unfold Js.sliceLast in E. rewrite rev_app_distr in E.
      replace (rev (skipn (length c3 - 60) c3)) with (firstn 60 (rev c3)) in E.
      2:{ now rewrite firstn_rev. }
      destruct (rev c3) as [|x rest] eqn:E3.
      * apply (f_equal (@length N)) in E3. rewrite length_rev in E3. simpl in E3. lia.
      * simpl in E. injection E as <- _. now apply (Hlast x rest).
  - split; [lia|]. split; [|exact Hlast].
    intros c r E. now apply (trim_head c2 c r).
Qed.

Section Labels.
Variable canonicalize : N -> N.

Lemma matchLoop_labels text : forall fuel lastIndex tr,
  In tr (matchLoop canonicalize fuel text lastIndex) ->
  exists index, label tr = labelBefore text index.
Proof.
  induction fuel as [|fuel IH]; intros lastIndex tr; cbn [matchLoop]; [intros []|].
  destruct (exec canonicalize text lastIndex) as [[[index digits] lastIndex']|];
    [|intros []].
  intros [<-|Hin]; [now exists index | now apply (IH lastIndex')].
Qed.

(** X8. The label of an extracted transition is at most 61 units long (60
    units of context after the ellipsis that marks a cut), does not start
    with white space, and does not end with white space, a full stop, a
    comma, a semicolon, a colon or a hyphen. *)
Theorem label_shape (text : jsstring) (tr : Transition) :
  In tr (extractTransitionsFromText canonicalize text) ->
  length (label tr) <= 61
  /\ (forall c r, label tr = c :: r -> Js.isWhiteSpace c = false)
  /\ (forall c r, rev (label tr) = c :: r -> isTail c = false).
Proof.
  unfold extractTransitionsFromText. destruct text as [|c0 text]; [intros []|].
  intros Hin. apply matchLoop_labels in Hin as (index & ->).
  apply labelBefore_shape.
Qed.

(** *** The targets and the number of transitions *)

Lemma matchLiteral_length pat : forall s rest,
  matchLiteral canonicalize pat s = Some rest -> length s = length pat + length rest.
Proof.
  induction pat as [|p pat IH]; intros s rest; cbn [matchLiteral].
  - destruct s; now intros [= <-].
  - destruct s as [|c s]; [discriminate|].
    destruct (N.eqb (canonicalize p) (canonicalize c)); [|discriminate].
    intros H. apply IH in H. simpl. lia.
Qed.

Lemma takeWhile_length (p : N -> bool) (s : jsstring) :
  length (Js.takeWhile p s) + length (Js.dropWhile p s) = length s.
Proof. rewrite (takeWhile_dropWhile p s) at 3. now rewrite length_app. Qed.

Lemma matchAt_bounds s d len :
  matchAt canonicalize s = Some (d, len) ->
  d <> [] /\ forallb Js.isDigit d = true /\ 16 <= len <= length s.
Proof.
  unfold matchAt.
  destruct (matchLiteral canonicalize (Js.lit "переход к шаг") s) as [[|c r]|] eqn:E;
    try discriminate.
  destruct (N.eqb (canonicalize c) (canonicalize 1072)
            || N.eqb (canonicalize c) (canonicalize 1091)); [|discriminate].
  destruct (Js.truthy (Js.takeWhile Js.isWhiteSpace r)) eqn:Es; [|discriminate].
  destruct (Js.truthy (Js.takeWhile Js.isDigit (Js.dropWhile Js.isWhiteSpace r))) eqn:Ed;
    [|discriminate].
  cbn [andb]. intros [= <- <-].
  apply matchLiteral_length in E. cbn [length] in E.
  pose proof (takeWhile_length Js.isWhiteSpace r) as H1.
  pose proof (takeWhile_length Js.isDigit (Js.dropWhile Js.isWhiteSpace r)) as H2.
  split; [now apply JsFacts.truthy_true|]. split; [apply takeWhile_all|].
  assert (0 < length (Js.takeWhile Js.isWhiteSpace r))
    by (destruct (Js.takeWhile Js.isWhiteSpace r); [discriminate | simpl; lia]).
  assert (0 < length (Js.takeWhile Js.isDigit (Js.dropWhile Js.isWhiteSpace r)))
    by (destruct (Js.takeWhile Js.isDigit (Js.dropWhile Js.isWhiteSpace r));
        [discriminate | simpl; lia]).
  change (length (Js.lit "переход к шаг")) with 13 in *. lia.
Qed.

Lemma searchFrom_bounds s : forall i idx d len,
  searchFrom canonicalize s i = Some (idx, d, len) ->
  d <> [] /\ forallb Js.isDigit d = true /\ 16 <= len /\ i <= idx
  /\ idx + len <= i + length s.
Proof.
  induction s as [|c s IH]; intros i idx d len; cbn [searchFrom].
  - destruct (matchAt canonicalize []) as [[d' len']|] eqn:E; [|discriminate].
    intros [= <- <- <-]. apply matchAt_bounds in E. simpl in *. lia.
  - destruct (matchAt canonicalize (c :: s)) as [[d' len']|] eqn:E.
    + intros [= <- <- <-]. apply matchAt_bounds in E. simpl in *.
      repeat split; try tauto; lia.
    + intros H. apply IH in H. simpl. repeat split; try tauto; lia.
Qed.

Lemma exec_bounds text lastIndex idx d lastIndex' :
  exec canonicalize text lastIndex = Some (idx, d, lastIndex') ->
  d <> [] /\ forallb Js.isDigit d = true
  /\ lastIndex + 16 <= lastIndex' <= length text.
Proof.
  unfold exec. destruct (Nat.ltb_spec (length text) lastIndex); [discriminate|].
  destruct (searchFrom canonicalize (skipn lastIndex text) lastIndex)
    as [[[idx' d'] len]|] eqn:E; [|discriminate].
  intros [= <- <- <-]. apply searchFrom_bounds in E. rewrite length_skipn in E.
  repeat split; try tauto; lia.
Qed.

Lemma matchLoop_bounds text : forall fuel lastIndex,
  Forall (fun tr => targetKey tr <> [] /\ forallb Js.isDigit (targetKey tr) = true)
         (matchLoop canonicalize fuel text lastIndex)
  /\ (lastIndex <= length text ->
      16 * length (matchLoop canonicalize fuel text lastIndex) + lastIndex <= length text).
Proof.
  induction fuel as [|fuel IH]; intros lastIndex; cbn [matchLoop].
  - split; [constructor | simpl; lia].
  - destruct (exec canonicalize text lastIndex) as [[[index digits] lastIndex']|] eqn:E.
    + apply exec_bounds in E. destruct (IH lastIndex') as [IH1 IH2]. split.
      * constructor; [cbn [targetKey]; tauto | exact IH1].
      * intros _. cbn [length]. lia.
    + split; [constructor | simpl; lia].
Qed.

(** X9. Every target extracted from a text is a non-empty run of decimal
    digits, and a text of n units yields at most n / 16 transitions: each
    match takes at least sixteen units and no two matches overlap. *)
Theorem targets_are_numbers (text : jsstring) :
  Forall (fun tr => targetKey tr <> [] /\ forallb Js.isDigit (targetKey tr) = true)
         (extractTransitionsFromText canonicalize text)
  /\ 16 * length (extractTransitionsFromText canonicalize text) <= length text.
Proof.
  unfold extractTransitionsFromText.
  destruct text as [|c0 text]; [split; [constructor | simpl; lia]|].
  destruct (matchLoop_bounds (c0 :: text) (S (length (c0 :: text))) 0) as [H1 H2].
  split; [exact H1|]. specialize (H2 (Nat.le_0_l _)). lia.
Qed.

End Labels.

Lemma label_shape_witness :
  let text := Js.lit "При отказе покупателя от оплаты. - переход к шагу 3." in
  exists tr, In tr (extractTransitionsFromText canonicalizeRu text)
             /\ label tr = Js.lit "При отказе покупателя от оплаты"
             /\ length (label tr) <= 61.
Proof.
  intros text.
  exists {| targetKey := Js.lit "3"; label := Js.lit "При отказе покупателя от оплаты" |}.
  assert (Hin : In {| targetKey := Js.lit "3";
                      label := Js.lit "При отказе покупателя от оплаты" |}
                   (extractTransitionsFromText canonicalizeRu text))
    by (vm_compute; left; reflexivity).
  split; [exact Hin|]. split; [reflexivity|].
  exact (proj1 (label_shape canonicalizeRu text _ Hin)).
Defined.


(** *** The steps read from the sheet *)

Lemma stepOfRow_key idxNum idxTitle idxDescr idxCrit idxErr idxDevNote i row s :
  stepOfRow idxNum idxTitle idxDescr idxCrit idxErr idxDevNote i row = Some s ->
  key s = Js.trim (stringOf (nth_error row idxNum))
  /\ Js.hasDigit (key s) = true
  /\ title s <> []
  /\ originalIndex s = i.
Proof.
  unfold stepOfRow. destruct row as [|c0 row]; [discriminate|].
  set (numStr := Js.trim (stringOf (nth_error (c0 :: row) idxNum))).
  destruct (Js.truthy numStr) eqn:Et; cbn [negb]; [|discriminate].
  destruct (Js.hasDigit numStr) eqn:Ed; cbn [negb]; [|discriminate].
  intros [= <-]. cbn [key title originalIndex]. repeat split; try assumption.
  destruct (Js.truthy_opt (nth_error (c0 :: row) idxTitle)
            && Js.truthy (Js.trim (stringOf (nth_error (c0 :: row) idxTitle)))) eqn:E.
  - apply andb_prop in E as [_ E]. now apply JsFacts.truthy_true.
  - change (Js.lit "Шаг ") with [1064%N; 1072%N; 1075%N; 32%N]. discriminate.
Qed.

Lemma collectSteps_order idxNum idxTitle idxDescr idxCrit idxErr idxDevNote rows :
  forall i,
    StronglySorted lt
      (map originalIndex
         (collectSteps idxNum idxTitle idxDescr idxCrit idxErr idxDevNote i rows))
    /\ (forall s,
          In s (collectSteps idxNum idxTitle idxDescr idxCrit idxErr idxDevNote i rows) ->
          i <= originalIndex s < i + length rows).
Proof.
  induction rows as [|row rows IH]; intros i; cbn [collectSteps].
  - split; [constructor | intros s []].
  - destruct (IH (S i)) as [IHs IHb].
    destruct (stepOfRow idxNum idxTitle idxDescr idxCrit idxErr idxDevNote i row)
      as [step|] eqn:E; cbn [app map length].
    + apply stepOfRow_key in E as (_ & _ & _ & Ei). split.
      * constructor; [exact IHs|]. apply Forall_forall. intros x Hx.
        apply in_map_iff in Hx as (s & <- & Hs). apply IHb in Hs. lia.
      * intros s [<-|Hs]; [lia|]. apply IHb in Hs. lia.
    + split; [exact IHs|]. intros s Hs. apply IHb in Hs. lia.
Qed.

Section Steps.
Variable toLowerCase : jsstring -> jsstring.

(** X10. What a successful extraction returns: at least one step; the
    steps in the order of their rows, no row twice, every row below the
    header row; every key free of white space at both ends and holding a
    decimal digit; every title non-empty. *)
Theorem extracted_steps_shape (rows : list Row) (steps : list Step) :
  extractSteps toLowerCase rows = Success steps ->
  steps <> []
  /\ (exists h, headerRowIndex toLowerCase rows = Some h
                /\ forall s, In s steps -> h < originalIndex s < length rows)
  /\ StronglySorted lt (map originalIndex steps)
  /\ (forall s, In s steps ->
        Js.hasDigit (key s) = true
        /\ (forall c r, key s = c :: r -> Js.isWhiteSpace c = false)
        /\ (forall c r, rev (key s) = c :: r -> Js.isWhiteSpace c = false)
        /\ title s <> []).
Proof.
  unfold extractSteps. destruct rows as [|row0 rows0]; [discriminate|].
  set (rows := row0 :: rows0).
  destruct (headerRowIndex toLowerCase rows) as [h|]; [|discriminate].
  destruct (nth_error rows h) as [header|] eqn:Eh; [|discriminate].
  destruct (findCol toLowerCase header isNum) as [idxNum|]; [|discriminate].
  destruct (findCol toLowerCase header isTitle) as [idxTitle|]; [|discriminate].
  set (l := collectSteps idxNum idxTitle (findCol toLowerCase header isDescr)
              (findCol toLowerCase header isCrit) (findCol toLowerCase header isErr)
              (findCol toLowerCase header isDevNote) (h + 1) (skipn (h + 1) rows)).
  destruct (collectSteps_order idxNum idxTitle (findCol toLowerCase header isDescr)
              (findCol toLowerCase header isCrit) (findCol toLowerCase header isErr)
              (findCol toLowerCase header isDevNote) (skipn (h + 1) rows) (h + 1))
    as [Hs Hb].
  fold l in Hs, Hb.
  assert (Hh : h < length rows) by (apply nth_error_Some; congruence).
  destruct l as [|s0 l'] eqn:El; [discriminate|].
  intros [= <-]. split; [discriminate|]. split; [|split; [exact Hs|]].
  - exists h. split; [reflexivity|]. intros s Hin. apply Hb in Hin.
    rewrite length_skipn in Hin. lia.
  - intros s Hin. rewrite <- El in Hin. unfold l in Hin.
    apply ImporterFacts.In_collectSteps in Hin as (j & row & _ & Hrow).
    apply stepOfRow_key in Hrow as (Hk & Hd & Ht & _).
    split; [exact Hd|]. split; [|split; [|exact Ht]].
    + intros c r E. rewrite Hk in E. now apply trim_head in E.
    + intros c r E. rewrite Hk in E. now apply trim_last in E.
Qed.

End Steps.

Lemma extracted_steps_shape_witness :
  exists steps,
    extractSteps toLowerCaseRu Samples.sheetBranch = Success steps
    /\ map key steps = [Js.lit "1"; Js.lit "2"; Js.lit "3"]
    /\ StronglySorted lt (map originalIndex steps).
Proof.
  pose (steps := Samples.stepsOfSheet Samples.sheetBranch).
  assert (H : extractSteps toLowerCaseRu Samples.sheetBranch = Success steps)
    by (vm_compute; reflexivity).
  exists steps. split; [exact H|]. split; [vm_compute; reflexivity|].
  exact (proj1 (proj2 (proj2 (extracted_steps_shape toLowerCaseRu _ _ H)))).
Defined.


(** *** The nodes and the edges of the graph *)

Section GraphLaws.
Variable toLowerCase : jsstring -> jsstring.
Variable canonicalize : N -> N.

Lemma length_nodesFrom n steps : forall idx,
  length (nodesFrom toLowerCase n idx steps) = length steps.
Proof. induction steps as [|s steps IH]; intros idx; simpl; [reflexivity | now rewrite IH]. Qed.

Lemma nth_nodesFrom n steps : forall idx j node,
  nth_error (nodesFrom toLowerCase n idx steps) j = Some node ->
  exists step,
    nth_error steps j = Some step
    /\ id node = key step
    /\ dataTitle (data node) = title step
    /\ dataDescription (data node) = description step
    /\ realType (data node)
       = (if Nat.eqb (idx + j) 0 then start
          else if Nat.eqb (idx + j) (n - 1) then end_
          else if Js.includes (toLowerCase (title step)) (Js.lit "проверка")
                  || Js.includes (toLowerCase (title step)) (Js.lit "проверяется")
               then condition else action).
Proof.
  induction steps as [|s steps IH]; intros idx j node; cbn [nodesFrom].
  - destruct j; discriminate.
  - destruct j as [|j]; cbn [nth_error].
    + intros [= <-]. exists s. rewrite Nat.add_0_r. cbn. repeat split.
    + intros H. apply IH in H as (step & H1 & H2 & H3 & H4 & H5).
      exists step. replace (idx + S j) with (S idx + j) by lia. tauto.
Qed.

Lemma wired_grown steps :
  grown (nodesFrom toLowerCase (length steps) 0 steps)
        (newNodes (wired toLowerCase canonicalize steps))
  /\ (forall s tr, In s steps -> In tr (found canonicalize s) ->
        In (targetKey tr) (map id (newNodes (wired toLowerCase canonicalize steps)))).
Proof.
  unfold wired.
  destruct (ImporterFacts.wireSteps_nodes canonicalize
              (nodesFrom toLowerCase (length steps) 0 steps) steps
              (wiring0 toLowerCase steps) eq_refl (ImporterFacts.grown_refl _))
    as (H1 & _ & H3).
  split; assumption.
Qed.

(** X11. The types of the nodes of an imported graph. The first node is
    the only start node; with two or more steps, the node of the last step
    is the only end node; a node in between is a condition when its title,
    in lower case, holds "проверка" or "проверяется", and an action
    otherwise. The nodes of the steps come first, in the order of the
    steps and with their keys, titles and descriptions; every node after
    them is a stub of type action whose id is the key of no step. *)
Theorem node_types (steps : list Step) (i : nat) (node : Node) :
  nth_error (fst (buildGraph toLowerCase canonicalize steps)) i = Some node ->
  (realType (data node) = start <-> i = 0)
  /\ (realType (data node) = end_ <-> 0 < i /\ i = length steps - 1)
  /\ (i < length steps ->
      exists step,
        nth_error steps i = Some step /\ id node = key step
        /\ dataTitle (data node) = title step
        /\ dataDescription (data node) = description step
        /\ (0 < i < length steps - 1 ->
            realType (data node)
            = if Js.includes (toLowerCase (title step)) (Js.lit "проверка")
                 || Js.includes (toLowerCase (title step)) (Js.lit "проверяется")
              then condition else action))
  /\ (length steps <= i ->
      data node = {| dataTitle := Js.lit "Шаг " ++ id node;
                     dataDescription := [];
                     realType := action |}
      /\ ~ In (id node) (map key steps)).
Proof.
  assert (Hsome : steps = [] \/ 0 < length steps)
    by (destruct steps; [now left | right; simpl; lia]).
  destruct Hsome as [->|Hsome]; [destruct i; discriminate|].
  rewrite ImporterFacts.buildGraph_eq. cbn [fst].
  destruct (wired_grown steps) as [(stubs & -> & Hstub & _ & Hfresh) _].
  set (nodes0 := nodesFrom toLowerCase (length steps) 0 steps) in *.
  assert (Hlen : length nodes0 = length steps) by apply length_nodesFrom.
  intros Hn. destruct (Nat.lt_ge_cases i (length steps)) as [Hi|Hi].
  - rewrite nth_error_app1 in Hn by lia.
    apply nth_nodesFrom in Hn as (step & H1 & H2 & H3 & H4 & H5). cbn [Nat.add] in H5.
    assert (Hty : realType (data node) = start <-> i = 0).
    { rewrite H5. destruct (Nat.eqb_spec i 0) as [->|Hne]; [tauto|].
      split; [|contradiction].
      destruct (Nat.eqb i (length steps - 1)); [discriminate|].
      destruct (Js.includes _ _ || Js.includes _ _); discriminate. }
    split; [exact Hty|]. split; [|split; [|lia]].
    + rewrite H5. destruct (Nat.eqb_spec i 0) as [->|Hne].
      * split; [discriminate | lia].
      * destruct (Nat.eqb_spec i (length steps - 1)) as [E|Hne'].
        -- split; [lia | reflexivity].
        -- split; [|tauto].
           destruct (Js.includes _ _ || Js.includes _ _); discriminate.
    + intros _. exists step. repeat split; try assumption.
      intros [Hpos Hlt]. rewrite H5.
      destruct (Nat.eqb_spec i 0); [lia|].
      destruct (Nat.eqb_spec i (length steps - 1)); [lia | reflexivity].
  - rewrite nth_error_app2 in Hn by lia.
    apply nth_error_In in Hn.
    destruct (Hstub node Hn) as (k & Hp).
    assert (Hd : data node = {| dataTitle := Js.lit "Шаг " ++ id node;
                                dataDescription := [];
                                realType := action |})
      by (rewrite Hp at 1; reflexivity).
    split; [rewrite Hd; cbn [realType]; split; [discriminate | lia]|].
    split; [rewrite Hd; cbn [realType]; split; [discriminate | lia]|].
    split; [lia|]. intros _. split; [exact Hd|].
    intros Hin. apply (Hfresh node Hn). unfold nodes0.
    now rewrite ImporterFacts.map_id_nodesFrom.
Qed.

Lemma In_chain steps x :
  In x (chain steps) -> exists f t, In f steps /\ In t steps /\ x = plainEdge f t.
Proof.
  induction steps as [|f steps IH]; [intros []|].
  destruct steps as [|t rest]; [intros []|].
  change (chain (f :: t :: rest)) with (plainEdge f t :: chain (t :: rest)).
  intros [<-|Hin].
  - exists f, t. simpl. tauto.
  - destruct (IH Hin) as (f' & t' & Hf & Ht & ->). exists f', t'. simpl in *. tauto.
Qed.

Lemma In_fallback outgoing steps : forall eks x,
  In x (fallback outgoing steps eks) ->
  exists f t, In f steps /\ In t steps /\ x = plainEdge f t.
Proof.
  induction steps as [|f steps IH]; intros eks x; [intros []|].
  destruct steps as [|t rest]; [intros []|].
  change (fallback outgoing (f :: t :: rest) eks)
    with (if negb (JsMap.has Js.eqb outgoing (key f))
             && negb (existsb (Js.eqb (edgeKey (key f) (key t))) eks)
          then plainEdge f t
               :: fallback outgoing (t :: rest) (eks ++ [edgeKey (key f) (key t)])
          else fallback outgoing (t :: rest) eks).
  destruct (negb (JsMap.has Js.eqb outgoing (key f))
            && negb (existsb (Js.eqb (edgeKey (key f) (key t))) eks)).
  - intros [<-|Hin].
    + exists f, t. simpl. tauto.
    + destruct (IH _ _ Hin) as (f' & t' & Hf & Ht & ->). exists f', t'. simpl in *. tauto.
  - intros Hin. destruct (IH _ _ Hin) as (f' & t' & Hf & Ht & ->).
    exists f', t'. simpl in *. tauto.
Qed.

Lemma buildGraph_edges_inside (steps : list Step) (e : Edge) :
  In e (snd (buildGraph toLowerCase canonicalize steps)) ->
  In (source e) (map id (fst (buildGraph toLowerCase canonicalize steps)))
  /\ In (edgeTarget e) (map id (fst (buildGraph toLowerCase canonicalize steps))).
Proof.
  rewrite ImporterFacts.buildGraph_eq. cbn [fst snd].
  destruct (wired_grown steps) as [(stubs & Hnodes & _) Htargets].
  assert (Hkeys : forall s, In s steps ->
            In (key s) (map id (newNodes (wired toLowerCase canonicalize steps)))).
  { intros s Hs. rewrite Hnodes, map_app, ImporterFacts.map_id_nodesFrom.
    apply in_or_app. left. now apply in_map. }
  intros Hin. apply in_app_or in Hin as [Hin|Hin].
  - apply ImporterFacts.In_explicitFrom in Hin as (x & Hx & -> & ->).
    rewrite ImporterFacts.explicitEdges_wired in Hx.
    apply ImporterFacts.In_firstOfEach in Hx.
    apply ImporterFacts.In_allMatches in Hx as (s & tr & Hs & Htr & ->).
    cbn [explicitOf from to]. split; [now apply Hkeys | now apply (Htargets s)].
  - assert (H : exists f t, In f steps /\ In t steps /\ e = plainEdge f t).
    { destruct (explicitEdges (wired toLowerCase canonicalize steps));
        [now apply In_chain | eapply In_fallback; eassumption]. }
    destruct H as (f & t & Hf & Ht & ->). cbn [plainEdge source edgeTarget].
    split; now apply Hkeys.
Qed.

(** X12. An imported graph has no dangling edge: the source and the
    target of every edge are ids of nodes of the graph. *)
Theorem edges_join_nodes (steps : list Step) (e : Edge) :
  In e (snd (buildGraph toLowerCase canonicalize steps)) ->
  In (source e) (map id (fst (buildGraph toLowerCase canonicalize steps)))
  /\ In (edgeTarget e) (map id (fst (buildGraph toLowerCase canonicalize steps))).
Proof. apply buildGraph_edges_inside. Qed.

Lemma buildGraph_nodes_some (steps : list Step) :
  steps <> [] -> fst (buildGraph toLowerCase canonicalize steps) <> [].
Proof.
  intros Hne. rewrite ImporterFacts.buildGraph_eq. cbn [fst].
  destruct (wired_grown steps) as [(stubs & Hnodes & _) _]. rewrite Hnodes.
  destruct steps as [|s r]; [now destruct Hne | discriminate].
Qed.

End GraphLaws.

Lemma node_types_witness :
  exists node,
    nth_error (fst (buildGraph toLowerCaseRu canonicalizeRu
                      (Samples.stepsOfSheet Samples.sheetBranch))) 1 = Some node
    /\ realType (data node) = condition
    /\ ~ (realType (data node) = start).
Proof.
  pose (node := {| id := Js.lit "2"; position := (160, 110)%Z;
                   data := {| dataTitle := Js.lit "Проверка оплаты";
                              dataDescription := [];
                              realType := condition |} |}).
  assert (H : nth_error (fst (buildGraph toLowerCaseRu canonicalizeRu
                                (Samples.stepsOfSheet Samples.sheetBranch))) 1
              = Some node) by (vm_compute; reflexivity).
  exists node. split; [exact H|]. split; [reflexivity|].
  intros Hs.
  apply (proj1 (node_types toLowerCaseRu canonicalizeRu _ 1 node H)) in Hs.
  discriminate.
Defined.

Lemma edges_join_nodes_witness :
  let g := buildGraph toLowerCaseRu canonicalizeRu (Samples.stepsOfSheet Samples.sheetStub) in
  exists e, In e (snd g) /\ edgeTarget e = Js.lit "99" /\ In (Js.lit "99") (map id (fst g)).
Proof.
  intros g.
  pose (e := {| edgeId := Js.lit "1->99-0"; source := Js.lit "1";
                edgeTarget := Js.lit "99"; edgeLabel := Some (Js.lit "При ошибке") |}).
  assert (H : In e (snd g)) by (vm_compute; left; reflexivity).
  exists e. split; [exact H|]. split; [reflexivity|].
  exact (proj2 (edges_join_nodes toLowerCaseRu canonicalizeRu _ e H)).
Defined.

End ImporterLaws.

(** ** The handlers of routes/versions.js *)

Module VersionsFacts.
Import DbInv ForkView Versions PutView.

Local Open Scope Z_scope.

Ltac proj := RoutesFacts.proj.

Lemma In_rowsFrom vid nodes : forall nid r,
  In r (rowsFrom vid nid nodes) ->
  nid <= SpecStep.id r < nid + Z.of_nat (length nodes)
  /\ SpecStep.versionId r = vid
  /\ exists node, In node nodes /\ SpecStep.stepKey r = nodeId node.
Proof.
  induction nodes as [|n nodes IH]; intros nid r; cbn [rowsFrom length]; [intros []|].
  intros [<-|Hin].
  - cbn [rowOf SpecStep.id SpecStep.versionId SpecStep.stepKey].
    split; [lia|]. split; [reflexivity|]. exists n. split; [now left | reflexivity].
  - apply IH in Hin as (H1 & H2 & node & H3 & H4).
    split; [lia|]. split; [assumption|]. exists node. split; [now right | assumption].
Qed.

Lemma NoDup_rowsFrom vid nodes : forall nid,
  NoDup (map SpecStep.id (rowsFrom vid nid nodes)).
Proof.
  induction nodes as [|n nodes IH]; intros nid; cbn [rowsFrom map]; constructor.
  - intros Hin. apply in_map_iff in Hin as (r & Hr & Hin).
    apply In_rowsFrom in Hin. cbn [rowOf SpecStep.id] in Hr. lia.
  - apply IH.
Qed.

Lemma length_rowsFrom vid nodes : forall nid,
  length (rowsFrom vid nid nodes) = length nodes.
Proof. induction nodes as [|n nodes IH]; intros; simpl; [reflexivity | now rewrite IH]. Qed.

Lemma map_key_rowsFrom vid nodes : forall nid,
  map SpecStep.stepKey (rowsFrom vid nid nodes) = map nodeId nodes.
Proof.
  induction nodes as [|n nodes IH]; intros nid; cbn [rowsFrom map]; [reflexivity|].
  now rewrite IH.
Qed.

Lemma map_nodeOf_rowsFrom vid nodes : forall nid,
  map nodeOf (rowsFrom vid nid nodes) = map nodeBack nodes.
Proof.
  induction nodes as [|n nodes IH]; intros nid; cbn [rowsFrom map]; [reflexivity|].
  now rewrite IH.
Qed.

(** The node loop, when every type is of the enum and the version
    exists. *)
Lemma createSteps_ok (vid : Z) (nodes : list NodeIn) :
  forall (m : JsMap.t jsstring Z) (db : Db.t),
    typesOk nodes = true ->
    existsb (Z.eqb vid) (Db.versionIds db) = true ->
    createSteps vid nodes m db
    = Db.Done (keyMap (rowsFrom vid (Db.nextStepId db) nodes) m,
            withSteps db (rowsFrom vid (Db.nextStepId db) nodes)).
Proof.
  induction nodes as [|n nodes IH]; intros m db Ht Hv; cbn [createSteps rowsFrom].
  - unfold Db.ret, withSteps, keyMap. cbn [length Z.of_nat JsMap.collect fold_left].
    rewrite app_nil_r, Z.add_0_r. now destruct db.
  - cbn [typesOk forallb] in Ht. apply andb_prop in Ht as [Hn Ht].
    unfold rowOf, typeOr.
    destruct (stepTypeOf (typeName n)) as [ty|]; [|discriminate].
    unfold Db.bind, Db.specStep_create. rewrite Hv. lazy beta iota zeta.
    rewrite IH; [| exact Ht | exact Hv]. proj. f_equal. f_equal.
    unfold withSteps. proj. cbn [length]. rewrite <- app_assoc. cbn [app].
    f_equal. lia.
Qed.

(** The node loop, when it ends, has created one row per node. *)
Lemma createSteps_shape (vid : Z) (nodes : list NodeIn) :
  forall (m m' : JsMap.t jsstring Z) (db db' : Db.t),
    createSteps vid nodes m db = Db.Done (m', db') ->
    typesOk nodes = true
    /\ m' = keyMap (rowsFrom vid (Db.nextStepId db) nodes) m
    /\ db' = withSteps db (rowsFrom vid (Db.nextStepId db) nodes).
Proof.
  induction nodes as [|n nodes IH]; intros m m' db db'; cbn [createSteps rowsFrom].
  - unfold Db.ret. intros [= <- <-]. split; [reflexivity|]. split; [reflexivity|].
    unfold withSteps. cbn [length Z.of_nat]. rewrite app_nil_r, Z.add_0_r. now destruct db.
  - cbn [typesOk forallb]. unfold rowOf, typeOr.
    destruct (stepTypeOf (typeName n)) as [ty|]; [|discriminate].
    unfold Db.bind, Db.specStep_create.
    destruct (existsb (Z.eqb vid) (Db.versionIds db)); [|discriminate].
    intros H. apply IH in H as (Ht & -> & ->). proj. split; [exact Ht|].
    split; [reflexivity|].
    unfold withSteps. proj. cbn [length]. rewrite <- app_assoc. cbn [app].
    f_equal. lia.
Qed.

Lemma createTransitions_ok (vid : Z) (m : JsMap.t jsstring Z) (edges : list EdgeIn) :
  forall db : Db.t,
    existsb (Z.eqb vid) (Db.versionIds db) = true ->
    (forall k i, JsMap.get Js.eqb m k = Some i -> In i (Db.stepIds db)) ->
    createTransitions vid edges m db
    = Db.Done (tt, withTransitions db (trsFrom vid (Db.nextTransitionId db) m edges)).
Proof.
  induction edges as [|e edges IH]; intros db Hv Hm; cbn [createTransitions trsFrom].
  - unfold Db.ret, withTransitions. cbn [length Z.of_nat].
    rewrite app_nil_r, Z.add_0_r. now destruct db.
  - unfold skipped.
    destruct (falsy (lookup m (edgeSource e)) || falsy (lookup m (edgeInTarget e))) eqn:Es.
    + now apply IH.
    + apply orb_false_elim in Es as [Ef Et].
      destruct (lookup m (edgeSource e)) as [f|] eqn:Lf; [|discriminate].
      destruct (lookup m (edgeInTarget e)) as [t|] eqn:Lt; [|discriminate].
      assert (Hf : In f (Db.stepIds db)).
      { unfold lookup in Lf. destruct (edgeSource e); [|discriminate]. eapply Hm; eassumption. }
      assert (Ht : In t (Db.stepIds db)).
      { unfold lookup in Lt. destruct (edgeInTarget e); [|discriminate]. eapply Hm; eassumption. }
      unfold Db.bind, Db.specStepTransition_create. rewrite Hv.
      apply RoutesFacts.existsb_Zeqb in Hf, Ht. rewrite Hf, Ht. lazy beta iota zeta.
      cbn [andb]. rewrite IH; [| exact Hv | exact Hm].
      proj. f_equal. f_equal. unfold withTransitions, trOf. proj. cbn [length].
      rewrite Lf, Lt. cbn [zeroIfNullish]. rewrite <- app_assoc. cbn [app]. f_equal. lia.
Qed.

Lemma createTransitions_shape (vid : Z) (m : JsMap.t jsstring Z) (edges : list EdgeIn) :
  forall (db db' : Db.t) (u : unit),
    createTransitions vid edges m db = Db.Done (u, db') ->
    db' = withTransitions db (trsFrom vid (Db.nextTransitionId db) m edges).
Proof.
  induction edges as [|e edges IH]; intros db db' u; cbn [createTransitions trsFrom].
  - unfold Db.ret. intros [= <- <-]. unfold withTransitions. cbn [length Z.of_nat].
    rewrite app_nil_r, Z.add_0_r. now destruct db.
  - unfold skipped.
    destruct (falsy (lookup m (edgeSource e)) || falsy (lookup m (edgeInTarget e))) eqn:Es.
    + apply IH.
    + unfold Db.bind, Db.specStepTransition_create.
      destruct (lookup m (edgeSource e)) as [f|] eqn:Lf; [|discriminate].
      destruct (lookup m (edgeInTarget e)) as [t|] eqn:Lt; [|discriminate].
      destruct (existsb (Z.eqb vid) (Db.versionIds db) && existsb (Z.eqb f) (Db.stepIds db)
                && existsb (Z.eqb t) (Db.stepIds db)); [|discriminate].
      intros H. apply IH in H as ->. proj.
      unfold withTransitions, trOf. proj. cbn [length].
      rewrite Lf, Lt. cbn [zeroIfNullish]. rewrite <- app_assoc. cbn [app]. f_equal. lia.
Qed.


Lemma foreignFree_filter (gone : list Z) (vid : Z) (trs : list SpecStepTransition.t) :
  existsb (DbVersions.refersTo gone)
          (filter (fun tr => negb (Z.eqb (SpecStepTransition.versionId tr) vid)) trs) = false
  <-> forallb (fun tr => Z.eqb (SpecStepTransition.versionId tr) vid
                         || negb (DbVersions.refersTo gone tr)) trs = true.
Proof.
  induction trs as [|tr trs IH]; cbn [filter existsb forallb]; [tauto|].
  destruct (Z.eqb (SpecStepTransition.versionId tr) vid); cbn [negb orb andb existsb].
  - exact IH.
  - destruct (DbVersions.refersTo gone tr); cbn [negb orb andb].
    + split; discriminate.
    + exact IH.
Qed.

Lemma findVersion_In (db : Db.t) (vid : Z) (v : SpecVersion.t) :
  DbVersions.findVersion db vid = Some v ->
  In v (Db.specVersions db) /\ SpecVersion.id v = vid.
Proof.
  unfold DbVersions.findVersion. intros H. apply find_some in H as [Hin E].
  apply Z.eqb_eq in E. tauto.
Qed.

Lemma find_update (vid : Z) (change : SpecVersion.t -> SpecVersion.t)
    (l : list SpecVersion.t) :
  (forall w, SpecVersion.id (change w) = SpecVersion.id w) ->
  find (fun v => Z.eqb (SpecVersion.id v) vid) (map (DbVersions.updateRow vid change) l)
  = option_map change (find (fun v => Z.eqb (SpecVersion.id v) vid) l).
Proof.
  intros Hid. induction l as [|w l IH]; cbn [map find]; [reflexivity|].
  destruct (Z.eqb (SpecVersion.id w) vid) eqn:E.
  - assert (Hw : DbVersions.updateRow vid change w = change w)
      by (unfold DbVersions.updateRow; now rewrite E).
    rewrite Hw, Hid, E. reflexivity.
  - assert (Hw : DbVersions.updateRow vid change w = w)
      by (unfold DbVersions.updateRow; now rewrite E).
    rewrite Hw, E. exact IH.
Qed.

Lemma find_update_other (vid w : Z) (change : SpecVersion.t -> SpecVersion.t)
    (l : list SpecVersion.t) :
  w <> vid ->
  (forall x, SpecVersion.id (change x) = SpecVersion.id x) ->
  find (fun v => Z.eqb (SpecVersion.id v) w) (map (DbVersions.updateRow vid change) l)
  = find (fun v => Z.eqb (SpecVersion.id v) w) l.
Proof.
  intros Hw Hid. induction l as [|x l IH]; cbn [map find]; [reflexivity|].
  destruct (Z.eqb (SpecVersion.id x) vid) eqn:E.
  - assert (Hx : DbVersions.updateRow vid change x = change x)
      by (unfold DbVersions.updateRow; now rewrite E).
    rewrite Hx, Hid. apply Z.eqb_eq in E.
    destruct (Z.eqb_spec (SpecVersion.id x) w); [congruence | exact IH].
  - assert (Hx : DbVersions.updateRow vid change x = x)
      by (unfold DbVersions.updateRow; now rewrite E).
    rewrite Hx. destruct (Z.eqb (SpecVersion.id x) w); [reflexivity | exact IH].
Qed.

(** The transaction of a save, run on tables where it goes through. *)
Lemma putGraphTx_ok (db : Db.t) (vid : Z) (v version : SpecVersion.t)
    (nodes : list NodeIn) (edges : list EdgeIn) (plainText comment : option jsstring) :
  DbVersions.findVersion db vid = Some v ->
  typesOk nodes = true ->
  foreignFree db vid = true ->
  putGraphTx vid version nodes edges plainText comment db
  = Db.Done (DbVersions.setText (orElse plainText (SpecVersion.plainText version))
                             (orElse comment (SpecVersion.comment version)) v,
          saved db vid nodes edges
            (DbVersions.setText (orElse plainText (SpecVersion.plainText version))
                                (orElse comment (SpecVersion.comment version)))).
Proof.
  intros Hv Ht Hf. pose proof (findVersion_In _ _ _ Hv) as [Hin Hid].
  unfold putGraphTx, Db.bind, DbVersions.specStepTransition_deleteMany.
  unfold DbVersions.specStep_deleteMany, Db.stepsOf. proj.
  change (filter (fun s => SpecStep.versionId s =? vid) (Db.specSteps db))
    with (Db.stepsOf db vid).
  rewrite (proj2 (foreignFree_filter _ _ _) Hf).
  assert (Hvid : forall d : Db.t, Db.specVersions d = Db.specVersions db ->
                   existsb (Z.eqb vid) (Db.versionIds d) = true).
  { intros d Hd. apply RoutesFacts.existsb_Zeqb. unfold Db.versionIds. rewrite Hd, <- Hid.
    now apply in_map. }
  rewrite createSteps_ok; [| exact Ht | now apply Hvid].
  lazy beta iota zeta. proj.
  rewrite createTransitions_ok; [| now apply Hvid |].
  - lazy beta iota zeta. unfold DbVersions.specVersion_update, DbVersions.findVersion.
    cbn [withTransitions withSteps Db.specVersions].
    unfold DbVersions.findVersion in Hv. rewrite Hv. reflexivity.
  - intros k i Hget. unfold keyMap in Hget.
    apply JsMapFacts.get_collect_inv in Hget as [(r & Hr & _ & <-)|H];
      [| discriminate | apply CompareFacts.jmeq].
    unfold Db.stepIds, withSteps. cbn [Db.specSteps]. rewrite map_app.
    apply in_or_app. right. now apply in_map.
Qed.

(** What a save that answers 200 has run through. *)
Lemma putGraph_200_inv (db db' : Db.t) (vid : Z) (body : PutGraphBody)
    (v' : SpecVersion.t) :
  putGraph db (Some vid) body = (db', Put200 v') ->
  exists nodes edges v,
    bodyNodes body = Some nodes /\ bodyEdges body = Some edges
    /\ DbVersions.findVersion db vid = Some v
    /\ typesOk nodes = true
    /\ foreignFree db vid = true
    /\ v' = DbVersions.setText (orElse (bodyPlainText body) (SpecVersion.plainText v))
                               (orElse (bodyComment body) (SpecVersion.comment v)) v
    /\ db' = saved db vid nodes edges
               (DbVersions.setText (orElse (bodyPlainText body) (SpecVersion.plainText v))
                                   (orElse (bodyComment body) (SpecVersion.comment v))).
Proof.
  unfold putGraph. destruct (bodyNodes body) as [nodes|]; [|discriminate].
  destruct (bodyEdges body) as [edges|]; [|discriminate].
  destruct (DbVersions.findVersion db vid) as [v|] eqn:Hv; [|discriminate].
  destruct (putGraphTx vid v nodes edges (bodyPlainText body) (bodyComment body) db)
    as [[u d]|] eqn:Htx; [|discriminate].
  intros [= <- <-]. exists nodes, edges, v.
  assert (Hboth : typesOk nodes = true /\ foreignFree db vid = true).
  { unfold putGraphTx, Db.bind, DbVersions.specStepTransition_deleteMany in Htx.
    unfold DbVersions.specStep_deleteMany, Db.stepsOf in Htx. proj. cbn [Db.specSteps
      Db.specStepTransitions] in Htx.
    match type of Htx with context [existsb (DbVersions.refersTo ?g) ?l] =>
      destruct (existsb (DbVersions.refersTo g) l) eqn:Hex end; [discriminate|].
    apply foreignFree_filter in Hex.
    match type of Htx with context [createSteps vid nodes ?m ?d] =>
      destruct (createSteps vid nodes m d) as [[m' d']|] eqn:Hs end; [|discriminate].
    apply createSteps_shape in Hs as (Ht & _). split; [exact Ht | exact Hex]. }
  destruct Hboth as [Ht Hf].
  rewrite (putGraphTx_ok db vid v v nodes edges _ _ Hv Ht Hf) in Htx.
  injection Htx as <- <-. repeat split; assumption.
Qed.


(** *** Reading a saved graph back *)

Lemma In_trsFrom vid m edges : forall nid t,
  In t (trsFrom vid nid m edges) -> SpecStepTransition.versionId t = vid.
Proof.
  induction edges as [|e edges IH]; intros nid t; cbn [trsFrom]; [intros []|].
  destruct (skipped m e); [apply IH|].
  intros [<-|Hin]; [reflexivity | now apply IH in Hin].
Qed.

Lemma stepsOf_saved db vid nodes edges change :
  Db.stepsOf (saved db vid nodes edges change) vid
  = rowsFrom vid (Db.nextStepId db) nodes.
Proof.
  unfold Db.stepsOf, saved, withVersions, withTransitions, withSteps, cleared.
  cbn [Db.specSteps]. rewrite filter_app, RoutesFacts.filter_none, RoutesFacts.filter_all.
  - reflexivity.
  - intros r Hr. apply In_rowsFrom in Hr as (_ & -> & _). apply Z.eqb_refl.
  - intros r Hr. apply filter_In in Hr as [_ Hr].
    now destruct (SpecStep.versionId r =? vid).
Qed.

Lemma transitionsOf_saved db vid nodes edges change :
  Db.transitionsOf (saved db vid nodes edges change) vid
  = trsFrom vid (Db.nextTransitionId db)
      (keyMap (rowsFrom vid (Db.nextStepId db) nodes) JsMap.empty) edges.
Proof.
  unfold Db.transitionsOf, saved, withVersions, withTransitions, withSteps, cleared.
  cbn [Db.specStepTransitions Db.nextTransitionId Db.nextStepId].
  rewrite filter_app, RoutesFacts.filter_none, RoutesFacts.filter_all.
  - reflexivity.
  - intros t Ht. apply In_trsFrom in Ht as ->. apply Z.eqb_refl.
  - intros t Ht. apply filter_In in Ht as [_ Ht].
    now destruct (SpecStepTransition.versionId t =? vid).
Qed.

Lemma existsb_nodeId nodes k :
  existsb (fun node => Js.eqb (nodeId node) k) nodes = true <-> In k (map nodeId nodes).
Proof.
  rewrite existsb_exists, in_map_iff. split.
  - intros (n & Hn & E). apply JsFacts.eqb_eq in E. now exists n.
  - intros (n & E & Hn). exists n. split; [assumption | now apply JsFacts.eqb_eq].
Qed.

(** [stepKeyToId] answers for the ids of the nodes, with the id of a row
    that has the key asked for. *)
Lemma keyMap_get vid nid nodes k :
  match JsMap.get Js.eqb (keyMap (rowsFrom vid nid nodes) JsMap.empty) k with
  | Some i => hasNode nodes (Some k) = true
              /\ exists r, In r (rowsFrom vid nid nodes)
                           /\ SpecStep.stepKey r = k /\ SpecStep.id r = i
  | None => hasNode nodes (Some k) = false
  end.
Proof.
  unfold keyMap.
  destruct (JsMap.get Js.eqb
              (JsMap.collect Js.eqb SpecStep.stepKey SpecStep.id (rowsFrom vid nid nodes)
                 JsMap.empty) k) as [i|] eqn:E.
  - apply JsMapFacts.get_collect_inv in E as [(r & Hr & Hk & Hi)|H];
      [| discriminate | apply CompareFacts.jmeq].
    split; [|exists r; tauto]. cbn [hasNode]. apply existsb_nodeId.
    rewrite <- (map_key_rowsFrom vid nodes nid), <- Hk. now apply in_map.
  - apply (JsMapFacts.get_None _ _ Js.eqb CompareFacts.jmeq) in E.
    rewrite (JsMapFacts.keys_collect _ _ Js.eqb CompareFacts.jmeq) in E.
    cbn [hasNode]. apply not_true_is_false. intros H. apply existsb_nodeId in H.
    apply E. left. now rewrite map_key_rowsFrom.
Qed.

Lemma lookup_hasNode vid nid nodes k :
  0 < nid ->
  falsy (lookup (keyMap (rowsFrom vid nid nodes) JsMap.empty) k) = negb (hasNode nodes k).
Proof.
  intros Hpos. destruct k as [k|]; [|reflexivity]. cbn [lookup].
  pose proof (keyMap_get vid nid nodes k) as H.
  destruct (JsMap.get Js.eqb (keyMap (rowsFrom vid nid nodes) JsMap.empty) k) as [i|].
  - destruct H as [-> (r & Hr & _ & <-)]. apply In_rowsFrom in Hr as (Hr & _).
    cbn [falsy negb]. apply Z.eqb_neq. lia.
  - now rewrite H.
Qed.

Lemma or_empty_orNull (o : option jsstring) : Js.or_empty (orNull o) = Js.or_empty o.
Proof. unfold orNull. now destruct o as [[|c s]|]. Qed.

Lemma edgeOf_trOf vid nid nodes id e :
  0 < nid ->
  joined nodes e = true ->
  edgeOf (Compare.idToKey (rowsFrom vid nid nodes))
         (trOf vid id (keyMap (rowsFrom vid nid nodes) JsMap.empty) e)
  = edgeBack id e.
Proof.
  intros Hpos Hj. apply andb_prop in Hj as [Hs Ht].
  unfold edgeOf, edgeBack, trOf.
  cbn [SpecStepTransition.id SpecStepTransition.fromStepId SpecStepTransition.toStepId
       SpecStepTransition.label SpecStepTransition.condition].
  rewrite or_empty_orNull.
  assert (H : forall k, hasNode nodes k = true ->
            JsMap.get Z.eqb (Compare.idToKey (rowsFrom vid nid nodes))
              (zeroIfNullish (lookup (keyMap (rowsFrom vid nid nodes) JsMap.empty) k)) = k).
  { intros [k|] Hk; [|discriminate]. cbn [lookup].
    pose proof (keyMap_get vid nid nodes k) as Hg.
    destruct (JsMap.get Js.eqb (keyMap (rowsFrom vid nid nodes) JsMap.empty) k) as [i|];
      [|rewrite Hk in Hg; discriminate].
    destruct Hg as [_ (r & Hr & Hrk & Hri)]. cbn [zeroIfNullish].
    apply (CompareFacts.get_idToKey _ _ _ (NoDup_rowsFrom vid nodes nid)).
    exists r. tauto. }
  now rewrite (H _ Hs), (H _ Ht).
Qed.

Lemma edges_back vid nid nodes edges : forall id,
  0 < nid ->
  map (edgeOf (Compare.idToKey (rowsFrom vid nid nodes)))
      (trsFrom vid id (keyMap (rowsFrom vid nid nodes) JsMap.empty) edges)
  = edgesBack id (filter (joined nodes) edges).
Proof.
  intros id Hpos. revert id.
  induction edges as [|e edges IH]; intros id; cbn [trsFrom filter]; [reflexivity|].
  unfold skipped. rewrite !(lookup_hasNode vid nid nodes) by exact Hpos.
  rewrite <- negb_andb. fold (joined nodes e).
  destruct (joined nodes e) eqn:Hj; cbn [negb map edgesBack].
  - rewrite IH. f_equal. now apply edgeOf_trOf.
  - apply IH.
Qed.

(** The graph route on the tables a save has produced. *)
Lemma getGraph_saved db vid v nodes edges change :
  0 < Db.nextStepId db ->
  DbVersions.findVersion db vid = Some v ->
  (forall w, SpecVersion.id (change w) = SpecVersion.id w) ->
  getGraph (saved db vid nodes edges change) (Some vid)
  = Graph200 (map nodeBack nodes)
             (edgesBack (Db.nextTransitionId db) (filter (joined nodes) edges)).
Proof.
  intros Hpos Hv Hid. unfold getGraph, Db.findVersionGraph.
  rewrite stepsOf_saved, transitionsOf_saved.
  assert (Hfind : find (fun v0 => SpecVersion.id v0 =? vid)
                       (Db.specVersions (saved db vid nodes edges change))
                  = Some (change v)).
  { unfold saved, withVersions. cbn [Db.specVersions].
    rewrite (find_update vid change _ Hid).
    unfold DbVersions.findVersion in Hv. now rewrite Hv. }
  rewrite Hfind. cbn [steps transitions].
  now rewrite map_nodeOf_rowsFrom, edges_back.
Qed.



(** *** A save that throws *)

Lemma advances_createSteps (vid : Z) (nodes : list NodeIn) :
  forall m : JsMap.t jsstring Z, Db.advances (createSteps vid nodes m).
Proof.
  induction nodes as [|n nodes IH]; intros m; cbn [createSteps].
  - apply TxFacts.advances_ret.
  - destruct (stepTypeOf (typeName n)); [|apply TxFacts.advances_throw].
    apply TxFacts.advances_bind; [apply TxFacts.advances_specStep_create|].
    intros a. apply IH.
Qed.

Lemma advances_createTransitions (vid : Z) (m : JsMap.t jsstring Z) (edges : list EdgeIn) :
  Db.advances (createTransitions vid edges m).
Proof.
  induction edges as [|e edges IH]; cbn [createTransitions].
  - apply TxFacts.advances_ret.
  - lazy zeta.
    destruct (falsy (lookup m (edgeSource e)) || falsy (lookup m (edgeInTarget e)));
      [exact IH|].
    apply TxFacts.advances_bind; [apply TxFacts.advances_specStepTransition_create|].
    intros _. exact IH.
Qed.

Lemma advances_putGraphTx (vid : Z) (version : SpecVersion.t) (nodes : list NodeIn)
    (edges : list EdgeIn) (plainText comment : option jsstring) :
  Db.advances (putGraphTx vid version nodes edges plainText comment).
Proof.
  unfold putGraphTx.
  apply TxFacts.advances_bind; [intros db; unfold Db.ahead; cbn; lia|]. intros _.
  apply TxFacts.advances_bind.
  { intros db. unfold DbVersions.specStep_deleteMany.
    destruct (existsb _ (Db.specStepTransitions db)); unfold Db.ahead; cbn; lia. }
  intros _.
  apply TxFacts.advances_bind; [apply advances_createSteps|]. intros m.
  apply TxFacts.advances_bind; [apply advances_createTransitions|]. intros _.
  intros db. unfold DbVersions.specVersion_update.
  destruct (DbVersions.findVersion db vid); unfold Db.ahead; cbn; lia.
Qed.

(** The node loop on nodes of which one has a type that is not of the
    enum: it throws when it comes to the first of them, after it has
    created the rows of the nodes before. *)
Lemma createSteps_thrown (vid : Z) (nodes : list NodeIn) :
  forall (m : JsMap.t jsstring Z) (db : Db.t),
    existsb (Z.eqb vid) (Db.versionIds db) = true ->
    typesOk nodes = false ->
    exists thrown,
      createSteps vid nodes m db = Db.Thrown thrown
      /\ Db.nextSpecId thrown = Db.nextSpecId db
      /\ Db.nextVersionId thrown = Db.nextVersionId db
      /\ Db.nextStepId thrown = Db.nextStepId db + Z.of_nat (accepted nodes)
      /\ Db.nextTransitionId thrown = Db.nextTransitionId db.
Proof.
  induction nodes as [|n nodes IH]; intros m db Hv Ht; [discriminate|].
  cbn [createSteps accepted]. cbn [typesOk forallb] in Ht.
  destruct (stepTypeOf (typeName n)) as [ty|].
  - cbn [andb] in Ht. unfold Db.bind, Db.specStep_create. rewrite Hv.
    lazy beta iota zeta.
    match goal with |- context [createSteps vid nodes ?m' ?d] =>
      destruct (IH m' d) as (thrown & E & H1 & H2 & H3 & H4) end; [exact Hv | exact Ht |].
    exists thrown. split; [exact E|]. proj. cbn [Db.nextSpecId Db.nextVersionId
      Db.nextStepId Db.nextTransitionId] in H1, H2, H3, H4.
    repeat split; try assumption. lia.
  - exists db. unfold Db.throw. repeat split. cbn [Z.of_nat]. lia.
Qed.

(** The answers of a save of arrays to a version that exists. *)
Lemma putGraph_cases (db : Db.t) (vid : Z) (body : PutGraphBody)
    (nodes : list NodeIn) (edges : list EdgeIn) (v : SpecVersion.t) :
  bodyNodes body = Some nodes -> bodyEdges body = Some edges ->
  DbVersions.findVersion db vid = Some v ->
  (exists thrown,
     putGraph db (Some vid) body = (Db.rollback db thrown, Put500)
     /\ putGraphTx vid v nodes edges (bodyPlainText body) (bodyComment body) db
        = Db.Thrown thrown
     /\ Db.ahead db thrown)
  \/ exists db' v', putGraph db (Some vid) body = (db', Put200 v').
Proof.
  intros Hn He Hv. unfold putGraph. rewrite Hn, He, Hv.
  pose proof (advances_putGraphTx vid v nodes edges (bodyPlainText body) (bodyComment body)
                db) as Hadv.
  destruct (putGraphTx vid v nodes edges (bodyPlainText body) (bodyComment body) db)
    as [[v' db']|thrown]; [right; now exists db', v' | left].
  exists thrown. split; [reflexivity|]. split; [reflexivity | exact Hadv].
Qed.


Lemma filter_other (X : Type) (f : X -> Z) (vid w : Z) (l : list X) :
  w <> vid ->
  filter (fun x => f x =? w) (filter (fun x => negb (f x =? vid)) l)
  = filter (fun x => f x =? w) l.
Proof.
  intros Hw. induction l as [|x l IH]; cbn [filter]; [reflexivity|].
  destruct (Z.eqb_spec (f x) vid) as [E|N]; cbn [negb filter].
  - destruct (Z.eqb_spec (f x) w); [congruence | exact IH].
  - destruct (f x =? w); [now f_equal | exact IH].
Qed.

Lemma setText_id p c w : SpecVersion.id (DbVersions.setText p c w) = SpecVersion.id w.
Proof. reflexivity. Qed.

Lemma putGraph_failed (db : Db.t) (versionId : option Z) (body : PutGraphBody) :
  (forall v', snd (putGraph db versionId body) <> Put200 v') ->
  Db.sameRows (fst (putGraph db versionId body)) db
  /\ Db.ahead db (fst (putGraph db versionId body)).
Proof.
  assert (Hsame : Db.sameRows db db /\ Db.ahead db db)
    by (split; [repeat split | apply TxFacts.ahead_refl]).
  unfold putGraph. destruct versionId as [vid|]; [|intros _; exact Hsame].
  destruct (bodyNodes body) as [nodes|]; [|intros _; exact Hsame].
  destruct (bodyEdges body) as [edges|]; [|intros _; exact Hsame].
  destruct (DbVersions.findVersion db vid) as [v|]; [|intros _; exact Hsame].
  pose proof (advances_putGraphTx vid v nodes edges (bodyPlainText body) (bodyComment body)
                db) as Hadv.
  destruct (putGraphTx vid v nodes edges (bodyPlainText body) (bodyComment body) db)
    as [[v' d]|thrown].
  - intros Hr. now destruct (Hr v').
  - intros _. split; [apply TxFacts.rollback_sameRows | exact Hadv].
Qed.

(** X15. A save touches one version. On an answer other than 200 the rows
    of all tables are as they were and no counter is behind. On 200 the
    users and the specifications are as before (no current version moves),
    every other version loads with the graph it had, and the saved version
    has kept its specification, number, status, author and base: only its
    comment and text may differ. *)
Theorem save_touches_one_version (db : Db.t) (versionId : option Z) (body : PutGraphBody) :
  match putGraph db versionId body with
  | (db', Put200 v') =>
      Db.users db' = Db.users db
      /\ Db.specs db' = Db.specs db
      /\ exists vid v,
           versionId = Some vid
           /\ DbVersions.findVersion db vid = Some v
           /\ DbVersions.findVersion db' vid = Some v'
           /\ SpecVersion.id v' = vid
           /\ SpecVersion.specId v' = SpecVersion.specId v
           /\ SpecVersion.versionNumber v' = SpecVersion.versionNumber v
           /\ SpecVersion.status v' = SpecVersion.status v
           /\ SpecVersion.createdById v' = SpecVersion.createdById v
           /\ SpecVersion.basedOnVersionId v' = SpecVersion.basedOnVersionId v
           /\ (forall w, w <> vid ->
                 Db.findVersionGraph db' w = Db.findVersionGraph db w)
  | (db', _) => Db.sameRows db' db /\ Db.ahead db db'
  end.
Proof.
  destruct (putGraph db versionId body) as [db' r] eqn:H.
  assert (Hother : (forall v', r <> Put200 v') -> Db.sameRows db' db /\ Db.ahead db db').
  { intros Hr. pose proof (putGraph_failed db versionId body) as Hu.
    rewrite H in Hu. now apply Hu. }
  destruct r as [| |v'|]; try (apply Hother; discriminate).
  destruct versionId as [vid|]; [|discriminate].
  apply putGraph_200_inv in H as (nodes & edges & v & _ & _ & Hv & _ & _ & -> & ->).
  split; [reflexivity|]. split; [reflexivity|]. exists vid, v.
  pose proof (findVersion_In _ _ _ Hv) as [_ Hid].
  split; [reflexivity|]. split; [exact Hv|]. split.
  { unfold DbVersions.findVersion, saved, withVersions. cbn [Db.specVersions].
    rewrite (find_update vid _ _ (setText_id _ _)).
    unfold DbVersions.findVersion in Hv. now rewrite Hv. }
  split; [exact Hid|]. do 5 (split; [reflexivity|]).
  intros w Hw. unfold Db.findVersionGraph, Db.stepsOf, Db.transitionsOf.
  unfold saved, withVersions, withTransitions, withSteps, cleared.
  cbn [Db.specVersions Db.specSteps Db.specStepTransitions Db.nextStepId
       Db.nextTransitionId].
  rewrite (find_update_other vid w _ _ Hw (setText_id _ _)).
  rewrite !filter_app.
  rewrite (filter_other _ SpecStep.versionId vid w _ Hw).
  rewrite (filter_other _ SpecStepTransition.versionId vid w _ Hw).
  rewrite (RoutesFacts.filter_none _ _ (rowsFrom _ _ _)),
          (RoutesFacts.filter_none _ _ (trsFrom _ _ _ _)).
  - now rewrite !app_nil_r.
  - intros t Ht. apply In_trsFrom in Ht as ->. apply Z.eqb_neq. congruence.
  - intros r Hr. apply In_rowsFrom in Hr as (_ & -> & _). apply Z.eqb_neq. congruence.
Qed.


(** *** POST /api/versions/:id/status *)

(** The handler on a version that exists and a status of the enum. *)
Lemma postStatus_run (db : Db.t) (vid : Z) (s : jsstring) (st : SpecVersionStatus)
    (v : SpecVersion.t) :
  statusOf s = Some st ->
  DbVersions.findVersion db vid = Some v ->
  postStatus db (Some vid) (Some s)
  = if isPublished st then
      match Db.spec_update_currentVersionId (SpecVersion.specId v) vid
              (withVersions db (map (DbVersions.updateRow vid (DbVersions.setStatus st))
                                    (Db.specVersions db))) with
      | Db.Done (_, db2) => (db2, Status200 (DbVersions.setStatus st v))
      | Db.Thrown thrown => (thrown, Status500)
      end
    else (withVersions db (map (DbVersions.updateRow vid (DbVersions.setStatus st))
                               (Db.specVersions db)),
          Status200 (DbVersions.setStatus st v)).
Proof.
  intros Hs Hv. unfold postStatus. rewrite Hs, Hv.
  unfold DbVersions.specVersion_update. rewrite Hv. reflexivity.
Qed.

Lemma In_updateRow_other (vid : Z) (change : SpecVersion.t -> SpecVersion.t)
    (l : list SpecVersion.t) (w : SpecVersion.t) :
  In w l -> SpecVersion.id w <> vid -> In w (map (DbVersions.updateRow vid change) l).
Proof.
  intros Hw Hne. apply in_map_iff. exists w. split; [|assumption].
  unfold DbVersions.updateRow. now destruct (Z.eqb_spec (SpecVersion.id w) vid).
Qed.

(** X16. A change of status to anything but published: the version row
    takes the new status and nothing else changes. No specification gets
    another current version, so a version that is archived or sent back to
    draft stays the current version if it was. *)
Theorem status_change_keeps_current (db : Db.t) (vid : Z) (s : jsstring)
    (st : SpecVersionStatus) (v : SpecVersion.t) :
  statusOf s = Some st ->
  isPublished st = false ->
  DbVersions.findVersion db vid = Some v ->
  exists db',
    postStatus db (Some vid) (Some s) = (db', Status200 (DbVersions.setStatus st v))
    /\ DbVersions.findVersion db' vid = Some (DbVersions.setStatus st v)
    /\ Db.specs db' = Db.specs db
    /\ (forall w, In w (Db.specVersions db) -> SpecVersion.id w <> vid ->
                  In w (Db.specVersions db'))
    /\ Db.specSteps db' = Db.specSteps db
    /\ Db.specStepTransitions db' = Db.specStepTransitions db.
Proof.
  intros Hs Hp Hv. rewrite (postStatus_run db vid s st v Hs Hv), Hp.
  eexists. split; [reflexivity|]. split; [|split; [reflexivity|split]].
  - unfold DbVersions.findVersion, withVersions. cbn [Db.specVersions].
    rewrite find_update by reflexivity.
    unfold DbVersions.findVersion in Hv. now rewrite Hv.
  - intros w Hw Hne. now apply In_updateRow_other.
  - split; reflexivity.
Qed.

End VersionsFacts.

(** ** What the handlers keep true *)

Module AppInvFacts.
Import DbInv AppInv.

Local Open Scope Z_scope.

Lemma distinct_iff (l : list Z) : distinct l = true <-> NoDup l.
Proof.
  split; [apply RoutesFacts.distinct_NoDup|].
  induction 1 as [|x l Hn Hd IH]; simpl; [reflexivity|].
  rewrite IH, andb_true_r. apply negb_true_iff, not_true_is_false.
  intros H. now apply RoutesFacts.existsb_Zeqb in H.
Qed.

Lemma below_iff (n : Z) (l : list Z) : below n l = true <-> forall i, In i l -> i < n.
Proof.
  unfold below. rewrite forallb_forall. split; intros H i Hi; specialize (H i Hi); lia.
Qed.

Lemma within_iff (ids l : list Z) :
  within ids l = true <-> forall i, In i l -> In i ids.
Proof.
  unfold within. rewrite forallb_forall.
  split; intros H i Hi; specialize (H i Hi); now apply RoutesFacts.existsb_Zeqb.
Qed.

Lemma In_map_iff_fun (X : Type) (f : X -> Z) (l : list X) (P : Z -> Prop) :
  (forall i, In i (map f l) -> P i) <-> (forall x, In x l -> P (f x)).
Proof.
  split.
  - intros H x Hx. apply H. now apply in_map.
  - intros H i Hi. apply in_map_iff in Hi as (x & <- & Hx). now apply H.
Qed.

Lemma stepOfVersion_iff i v s :
  stepOfVersion i v s = true <-> SpecStep.id s = i /\ SpecStep.versionId s = v.
Proof. unfold stepOfVersion. rewrite andb_true_iff, !Z.eqb_eq. tauto. Qed.

Lemma transitionsInside_iff (db : Db.t) :
  transitionsInside db = true <->
  forall tr, In tr (Db.specStepTransitions db) ->
    exists f t, In f (Db.specSteps db) /\ In t (Db.specSteps db)
                /\ SpecStep.id f = SpecStepTransition.fromStepId tr
                /\ SpecStep.id t = SpecStepTransition.toStepId tr
                /\ SpecStep.versionId f = SpecStepTransition.versionId tr
                /\ SpecStep.versionId t = SpecStepTransition.versionId tr.
Proof.
  unfold transitionsInside. rewrite forallb_forall. split.
  - intros H tr Htr. specialize (H tr Htr). apply andb_prop in H as [Hf Ht].
    apply existsb_exists in Hf as (f & Hf & Ef). apply existsb_exists in Ht as (t & Ht & Et).
    apply stepOfVersion_iff in Ef, Et. exists f, t. tauto.
  - intros H tr Htr. destruct (H tr Htr) as (f & t & Hf & Ht & E1 & E2 & E3 & E4).
    apply andb_true_intro. split; apply existsb_exists.
    + exists f. split; [assumption|]. now apply stepOfVersion_iff.
    + exists t. split; [assumption|]. now apply stepOfVersion_iff.
Qed.

Lemma currentOwn_iff (db : Db.t) :
  currentOwn db = true <->
  forall s c, In s (Db.specs db) -> Spec.currentVersionId s = Some c ->
    exists v, In v (Db.specVersions db) /\ SpecVersion.id v = c
              /\ SpecVersion.specId v = Spec.id s.
Proof.
  unfold currentOwn. rewrite forallb_forall. split.
  - intros H s c Hs Hc. specialize (H s Hs). rewrite Hc in H.
    apply existsb_exists in H as (v & Hv & E). apply andb_prop in E as [E1 E2].
    apply Z.eqb_eq in E1, E2. exists v. tauto.
  - intros H s Hs. destruct (Spec.currentVersionId s) as [c|] eqn:Hc; [|reflexivity].
    destruct (H s c Hs Hc) as (v & Hv & E1 & E2). apply existsb_exists. exists v.
    split; [assumption|]. apply andb_true_intro. split; now apply Z.eqb_eq.
Qed.

Lemma numbered_iff (db : Db.t) :
  numbered db = true <->
  forall v w, In v (Db.specVersions db) -> In w (Db.specVersions db) ->
    SpecVersion.specId v = SpecVersion.specId w ->
    SpecVersion.versionNumber v = SpecVersion.versionNumber w ->
    SpecVersion.id v = SpecVersion.id w.
Proof.
  unfold numbered. rewrite forallb_forall. split.
  - intros H v w Hv Hw Es En. specialize (H v Hv). rewrite forallb_forall in H.
    specialize (H w Hw). rewrite Es, En, !Z.eqb_refl in H. cbn [andb negb orb] in H.
    now apply Z.eqb_eq.
  - intros H v Hv. apply forallb_forall. intros w Hw.
    destruct (Z.eqb_spec (SpecVersion.specId v) (SpecVersion.specId w)) as [Es|]; [|reflexivity].
    destruct (Z.eqb_spec (SpecVersion.versionNumber v) (SpecVersion.versionNumber w))
      as [En|]; [|reflexivity].
    cbn [andb negb orb]. apply Z.eqb_eq. now apply H.
Qed.

(** The boolean check and the record say the same. *)
Lemma ok_Sound (db : Db.t) : ok db = true <-> Sound db.
Proof.
  unfold ok, consistent. rewrite !andb_true_iff, !distinct_iff, !below_iff, !within_iff.
  rewrite transitionsInside_iff, currentOwn_iff, numbered_iff, Z.ltb_lt.
  unfold Db.specIds, Db.versionIds, Db.stepIds.
  rewrite !In_map_iff_fun. split.
  - intros H. repeat match goal with H : _ /\ _ |- _ => destruct H end.
    constructor; assumption.
  - intros []. repeat split; try assumption.
    apply forallb_forall. intros s Hs.
    destruct (Spec.currentVersionId s) as [c|] eqn:Hc; [|reflexivity].
    destruct (current_own0 s c Hs Hc) as (v & Hv & <- & _).
    cbn [Db.refOk]. apply RoutesFacts.existsb_Zeqb. unfold Db.versionIds. now apply in_map.
Qed.

Lemma Sound_consistent (db : Db.t) : Sound db -> consistent db = true.
Proof.
  intros H. apply ok_Sound in H. unfold ok in H.
  do 4 (apply andb_prop in H as [H _]). exact H.
Qed.


Ltac tables :=
  unfold Db.specIds, Db.versionIds, Db.stepIds in *;
  cbn [Db.users Db.specs Db.specVersions Db.specSteps Db.specStepTransitions
       Db.nextSpecId Db.nextVersionId Db.nextStepId Db.nextTransitionId] in *.

Lemma NoDup_map_snoc (X : Type) (f : X -> Z) (l : list X) (x : X) :
  NoDup (map f l) -> (forall y, In y l -> f y <> f x) -> NoDup (map f (l ++ [x])).
Proof.
  intros Hd Hx. rewrite map_app. apply ImporterFacts.NoDup_snoc; [assumption|].
  intros Hin. apply in_map_iff in Hin as (y & Hy & Hin). now apply (Hx y).
Qed.

Lemma NoDup_map_app (X : Type) (f : X -> Z) (l l' : list X) :
  NoDup (map f l) -> NoDup (map f l') ->
  (forall x y, In x l -> In y l' -> f x <> f y) -> NoDup (map f (l ++ l')).
Proof.
  intros Hl Hl' Hd. induction l as [|a l IH]; cbn [app map]; [assumption|].
  inversion Hl as [|? ? Hn Hl2]; subst. constructor.
  - rewrite map_app, in_app_iff. intros [H|H]; [tauto|].
    apply in_map_iff in H as (y & Hy & Hin). apply (Hd a y); [now left | assumption | now symmetry].
  - apply IH; [assumption|]. intros x y Hx Hy. apply Hd; [now right | assumption].
Qed.

(** *** A transaction that was rolled back *)

(** Tables with the same rows and counters that are not behind are well
    formed as well. *)
Lemma Sound_ahead (db db' : Db.t) :
  Sound db -> Db.sameRows db' db -> Db.ahead db db' -> Sound db'.
Proof.
  intros HS (Hu & Hs & Hv & Hst & Htr) (H1 & H2 & H3 & H4). destruct HS.
  constructor; unfold Db.specIds, Db.versionIds, Db.stepIds in *;
    rewrite ?Hu, ?Hs, ?Hv, ?Hst, ?Htr; try assumption.
  - intros s Hin. specialize (specs_below0 s Hin). lia.
  - intros v Hin. specialize (versions_below0 v Hin). lia.
  - intros s Hin. specialize (steps_below0 s Hin). lia.
  - lia.
Qed.

(** *** POST /api/specs *)

Lemma Sound_createSpec (db : Db.t) (body : Routes.CreateSpecBody) :
  Sound db -> Sound (fst (Routes.createSpec db body)).
Proof.
  intros HS. pose proof (Sound_consistent db HS) as Hc.
  destruct body as [[[|c r]|] descr createdBy]; try exact HS.
  destruct (Db.refOk (Db.users db) (Routes.idOrNull createdBy)) eqn:Hu.
  2:{ pose proof (CreateSpecLaws.createSpec_500 db c r descr createdBy Hu) as E.
      unfold jsstring in *. rewrite E. cbn [fst].
      apply (Sound_ahead db); [exact HS | repeat split |].
      unfold Db.ahead. cbn. lia. }
  pose proof (CreateSpecLaws.createSpec_201 db c r descr createdBy Hc Hu) as E.
  unfold jsstring in *. rewrite E. clear E. cbn [fst]. destruct HS.
  constructor; tables.
  - apply NoDup_map_snoc; [assumption|]. intros y Hy. cbn [Spec.id].
    specialize (specs_below0 y Hy). lia.
  - intros s Hs. apply in_app_or in Hs as [Hs|[<-|[]]]; [|cbn [Spec.id]; lia].
    specialize (specs_below0 s Hs). lia.
  - apply NoDup_map_snoc; [assumption|]. intros y Hy. cbn [SpecVersion.id].
    specialize (versions_below0 y Hy). lia.
  - intros v Hv. apply in_app_or in Hv as [Hv|[<-|[]]]; [|cbn [SpecVersion.id]; lia].
    specialize (versions_below0 v Hv). lia.
  - assumption.
  - assumption.
  - assumption.
  - intros v Hv. rewrite map_app, in_app_iff.
    apply in_app_or in Hv as [Hv|[<-|[]]]; [left; now apply version_of_spec0|].
    right. now left.
  - intros s Hs. rewrite map_app, in_app_iff. left. now apply step_of_version0.
  - intros tr Htr. rewrite map_app, in_app_iff. left. now apply transition_of_version0.
  - assumption.
  - intros s c0 Hs Hcur. apply in_app_or in Hs as [Hs|[<-|[]]].
    + destruct (current_own0 s c0 Hs Hcur) as (v & Hv & E1 & E2).
      exists v. split; [apply in_or_app; now left | tauto].
    + cbn [Spec.currentVersionId] in Hcur. injection Hcur as <-.
      eexists. split; [apply in_or_app; right; now left|]. split; reflexivity.
  - assert (Hfresh : forall v, In v (Db.specVersions db) ->
                       SpecVersion.specId v <> Db.nextSpecId db).
    { intros v Hv E. apply version_of_spec0 in Hv.
      apply in_map_iff in Hv as (s & Hs & Hin). specialize (specs_below0 s Hin). lia. }
    intros v w Hv Hw Es En.
    apply in_app_or in Hv as [Hv|[<-|[]]]; apply in_app_or in Hw as [Hw|[<-|[]]].
    + now apply numbers_distinct0.
    + cbn [SpecVersion.specId] in Es. now destruct (Hfresh v Hv).
    + cbn [SpecVersion.specId] in Es. symmetry in Es. now destruct (Hfresh w Hw).
    + reflexivity.
Qed.


(** *** The fork *)

Lemma In_trCopiesFrom_inv newVid m trs : forall nid tc,
  In tc (ForkView.trCopiesFrom newVid nid m trs) ->
  exists tr nid', In tr trs /\ tc = ForkView.copyTr newVid nid' m tr.
Proof.
  induction trs as [|tr trs IH]; intros nid tc; cbn [ForkView.trCopiesFrom]; [intros []|].
  intros [<-|Hin].
  - exists tr, nid. split; [now left | reflexivity].
  - destruct (IH _ _ Hin) as (tr' & nid' & H1 & H2). exists tr', nid'.
    split; [now right | assumption].
Qed.

Lemma Sound_fork (uuidv4 : nat -> jsstring) (db : Db.t) (specId versionNumber : Z)
    (body : Routes.ForkBody) :
  Sound db -> Sound (fst (Routes.fork uuidv4 db specId versionNumber body)).
Proof.
  intros HS. pose proof (ForkLaws.fork_cases uuidv4 db specId versionNumber body) as Hcases.
  destruct (Db.findVersionByNumber db specId versionNumber) as [base0|];
    [|rewrite Hcases; exact HS].
  destruct Hcases as [(thrown & E & Ha & _)|(db' & nv & E)].
  { rewrite E. cbn [fst].
    exact (Sound_ahead db _ HS (TxFacts.rollback_sameRows db thrown) Ha). }
  rewrite E. cbn [fst].
  apply ForkLaws.fork_201_inv in E
    as (base & db1 & copies & m & trs & Hbase & Hcreate & Hcp & Hm & Htr & -> & Hall).
  unfold Db.specVersion_create in Hcreate. TxFacts.pass_int4 Hcreate.
  destruct (existsb (Z.eqb specId) (Db.specIds db)) eqn:Hspec; [|discriminate].
  cbn [andb] in Hcreate.
  match type of Hcreate with (if ?c then _ else _) = _ => destruct c end; [|discriminate].
  injection Hcreate as Hnv <-.
  apply RoutesFacts.existsb_Zeqb in Hspec.
  assert (Hid : SpecVersion.id nv = Db.nextVersionId db) by now rewrite <- Hnv.
  assert (Hsp : SpecVersion.specId nv = specId) by now rewrite <- Hnv.
  assert (Hnum : forall v, In v (Db.specVersions db) -> SpecVersion.specId v = specId ->
                           SpecVersion.versionNumber v < SpecVersion.versionNumber nv).
  { intros v Hv Hs. rewrite <- Hnv. cbn [SpecVersion.versionNumber].
    unfold Routes.nextVersionNumber.
    pose proof (ForkLaws.findLastVersion_max db specId) as Hmax.
    destruct (Db.findLastVersion db specId) as [l|].
    - destruct Hmax as (_ & _ & Hmax). specialize (Hmax v Hv Hs). lia.
    - now destruct (Hmax v Hv). }
  assert (Hcopies : forall c, In c copies ->
            Db.nextStepId db <= SpecStep.id c < Db.nextStepId db + Z.of_nat (length copies)
            /\ SpecStep.versionId c = SpecVersion.id nv).
  { intros c Hc. rewrite Hcp in Hc. apply RoutesFacts.In_copiesFrom in Hc.
    rewrite Hcp, RoutesFacts.length_copiesFrom. exact Hc. }
  rewrite Hnv. clear Hnv. destruct HS.
  unfold ForkView.withTransitions, ForkView.withSteps.
  constructor; tables.
  - assumption.
  - assumption.
  - apply NoDup_map_snoc; [assumption|]. intros y Hy.
    specialize (versions_below0 y Hy). lia.
  - intros v Hv. apply in_app_or in Hv as [Hv|[<-|[]]]; [|lia].
    specialize (versions_below0 v Hv). lia.
  - apply NoDup_map_app; [assumption | rewrite Hcp; apply RoutesFacts.NoDup_copiesFrom|].
    intros x y Hx Hy. specialize (steps_below0 x Hx). apply Hcopies in Hy. lia.
  - intros x Hx. apply in_app_or in Hx as [Hx|Hx].
    + specialize (steps_below0 x Hx). lia.
    + apply Hcopies in Hx. lia.
  - lia.
  - intros v Hv. apply in_app_or in Hv as [Hv|[<-|[]]]; [now apply version_of_spec0|].
    now rewrite Hsp.
  - intros x Hx. rewrite map_app, in_app_iff. apply in_app_or in Hx as [Hx|Hx].
    + left. now apply step_of_version0.
    + right. apply Hcopies in Hx as [_ ->]. now left.
  - intros t Ht. rewrite map_app, in_app_iff. apply in_app_or in Ht as [Ht|Ht].
    + left. now apply transition_of_version0.
    + right. rewrite Htr in Ht. apply RoutesFacts.In_trCopiesFrom in Ht as ->. now left.
  - intros t Ht. apply in_app_or in Ht as [Ht|Ht].
    + destruct (transitions_inside0 t Ht) as (f & g & Hf & Hg & H).
      exists f, g. split; [apply in_or_app; now left|].
      split; [apply in_or_app; now left | exact H].
    + rewrite Htr in Ht. apply In_trCopiesFrom_inv in Ht as (tr & nid' & Hin & ->).
      destruct (Hall tr Hin) as [Hf Hg].
      assert (Hget : forall i, JsMap.get Z.eqb m i <> None ->
                exists c, In c copies
                          /\ SpecStep.id c = ForkView.orZero (JsMap.get Z.eqb m i)).
      { intros i Hi. destruct (JsMap.get Z.eqb m i) as [j|] eqn:Ej; [|contradiction].
        rewrite Hm in Ej.
        apply JsMapFacts.get_collect_inv in Ej as [(a & Ha & _ & Hj)|H];
          [| discriminate | apply CompareFacts.Zeqb_eq].
        destruct a as [a1 a2]. apply in_combine_r in Ha.
        apply in_map_iff in Ha as (c & Hc & Hin'). exists c.
        split; [assumption|]. cbn [ForkView.orZero snd] in *. congruence. }
      destruct (Hget _ Hf) as (cf & Hcf & Ef). destruct (Hget _ Hg) as (cg & Hcg & Eg).
      exists cf, cg. split; [apply in_or_app; now right|].
      split; [apply in_or_app; now right|].
      cbn [ForkView.copyTr SpecStepTransition.fromStepId SpecStepTransition.toStepId
           SpecStepTransition.versionId].
      split; [exact Ef|]. split; [exact Eg|].
      split; [now apply Hcopies | now apply Hcopies].
  - intros s c Hs Hcur. destruct (current_own0 s c Hs Hcur) as (v & Hv & H).
    exists v. split; [apply in_or_app; now left | exact H].
  - intros v w Hv Hw Es En.
    apply in_app_or in Hv as [Hv|[<-|[]]]; apply in_app_or in Hw as [Hw|[<-|[]]].
    + now apply numbers_distinct0.
    + rewrite Hsp in Es. specialize (Hnum v Hv Es). lia.
    + rewrite Hsp in Es. symmetry in Es. specialize (Hnum w Hw Es). lia.
    + reflexivity.
Qed.


(** *** Updates of a version row *)

Section Update.
Variables (vid : Z) (change : SpecVersion.t -> SpecVersion.t).
Hypothesis keeps :
  forall w, SpecVersion.id (change w) = SpecVersion.id w
            /\ SpecVersion.specId (change w) = SpecVersion.specId w
            /\ SpecVersion.versionNumber (change w) = SpecVersion.versionNumber w.

Lemma upd_keeps w :
  SpecVersion.id ((DbVersions.updateRow vid change) w) = SpecVersion.id w
  /\ SpecVersion.specId ((DbVersions.updateRow vid change) w) = SpecVersion.specId w
  /\ SpecVersion.versionNumber ((DbVersions.updateRow vid change) w) = SpecVersion.versionNumber w.
Proof.
  unfold DbVersions.updateRow. destruct (SpecVersion.id w =? vid); [apply keeps | tauto].
Qed.

Lemma map_id_upd (l : list SpecVersion.t) :
  map SpecVersion.id (map (DbVersions.updateRow vid change) l) = map SpecVersion.id l.
Proof. rewrite map_map. apply map_ext. intros w. apply upd_keeps. Qed.

Lemma Sound_update (db : Db.t) :
  Sound db ->
  Sound (PutView.withVersions db
           (map (DbVersions.updateRow vid change) (Db.specVersions db))).
Proof.
  intros []. unfold PutView.withVersions. constructor; tables; try assumption.
  - now rewrite map_id_upd.
  - intros v' Hv'. apply in_map_iff in Hv' as (v & <- & Hv).
    rewrite (proj1 (upd_keeps v)). now apply versions_below0.
  - intros v' Hv'. apply in_map_iff in Hv' as (v & <- & Hv).
    rewrite (proj1 (proj2 (upd_keeps v))). now apply version_of_spec0.
  - intros x Hx. rewrite map_id_upd. now apply step_of_version0.
  - intros t Ht. rewrite map_id_upd. now apply transition_of_version0.
  - intros x c Hx Hc. destruct (current_own0 x c Hx Hc) as (v & Hv & E1 & E2).
    exists ((DbVersions.updateRow vid change) v). split; [now apply in_map|].
    destruct (upd_keeps v) as (-> & -> & _). tauto.
  - intros v' w' Hv' Hw'. apply in_map_iff in Hv' as (v & <- & Hv).
    apply in_map_iff in Hw' as (w & <- & Hw).
    destruct (upd_keeps v) as (-> & -> & ->). destruct (upd_keeps w) as (-> & -> & ->).
    now apply numbers_distinct0.
Qed.

End Update.

(** *** The graph of a version replaced *)

Lemma In_trsFrom_inv vid m edges : forall nid t,
  In t (PutView.trsFrom vid nid m edges) ->
  exists e nid', In e edges /\ PutView.skipped m e = false
                 /\ t = PutView.trOf vid nid' m e.
Proof.
  induction edges as [|e edges IH]; intros nid t; cbn [PutView.trsFrom]; [intros []|].
  destruct (PutView.skipped m e) eqn:Es.
  - intros Hin. destruct (IH _ _ Hin) as (e' & nid' & H1 & H2).
    exists e', nid'. split; [now right | assumption].
  - intros [<-|Hin].
    + exists e, nid. split; [now left|]. split; [assumption | reflexivity].
    + destruct (IH _ _ Hin) as (e' & nid' & H1 & H2).
      exists e', nid'. split; [now right | assumption].
Qed.

Lemma Sound_regraph (db : Db.t) (vid : Z) (nodes : list Versions.NodeIn)
    (edges : list Versions.EdgeIn) :
  Sound db -> In vid (Db.versionIds db) ->
  Sound (ForkView.withTransitions
           (ForkView.withSteps (PutView.cleared db vid)
              (PutView.rowsFrom vid (Db.nextStepId db) nodes))
           (PutView.trsFrom vid (Db.nextTransitionId db)
              (PutView.keyMap (PutView.rowsFrom vid (Db.nextStepId db) nodes) JsMap.empty)
              edges)).
Proof.
  intros [] Hvid.
  set (rows := PutView.rowsFrom vid (Db.nextStepId db) nodes).
  set (m := PutView.keyMap rows JsMap.empty).
  assert (Hrows : forall r, In r rows ->
            Db.nextStepId db <= SpecStep.id r < Db.nextStepId db + Z.of_nat (length rows)
            /\ SpecStep.versionId r = vid).
  { intros r Hr. apply VersionsFacts.In_rowsFrom in Hr as (H1 & H2 & _).
    unfold rows. rewrite VersionsFacts.length_rowsFrom. tauto. }
  unfold ForkView.withTransitions, ForkView.withSteps, PutView.cleared.
  constructor; tables; try assumption.
  - apply NoDup_map_app;
      [now apply RoutesFacts.NoDup_map_filter | apply VersionsFacts.NoDup_rowsFrom|].
    intros x y Hx Hy. apply filter_In in Hx as [Hx _].
    specialize (steps_below0 x Hx). apply Hrows in Hy. lia.
  - intros x Hx. apply in_app_or in Hx as [Hx|Hx].
    + apply filter_In in Hx as [Hx _]. specialize (steps_below0 x Hx). lia.
    + apply Hrows in Hx. lia.
  - lia.
  - intros x Hx. apply in_app_or in Hx as [Hx|Hx].
    + apply filter_In in Hx as [Hx _]. now apply step_of_version0.
    + apply Hrows in Hx as [_ ->]. exact Hvid.
  - intros t Ht. apply in_app_or in Ht as [Ht|Ht].
    + apply filter_In in Ht as [Ht _]. now apply transition_of_version0.
    + apply VersionsFacts.In_trsFrom in Ht as ->. exact Hvid.
  - intros t Ht. apply in_app_or in Ht as [Ht|Ht].
    + apply filter_In in Ht as [Ht Hne].
      destruct (transitions_inside0 t Ht) as (f & g & Hf & Hg & E1 & E2 & E3 & E4).
      exists f, g.
      split; [apply in_or_app; left; apply filter_In; split; [assumption | now rewrite E3]|].
      split; [apply in_or_app; left; apply filter_In; split; [assumption | now rewrite E4]|].
      tauto.
    + apply In_trsFrom_inv in Ht as (e & nid' & _ & Hs & ->).
      unfold PutView.skipped in Hs. apply orb_false_elim in Hs as [Hf Hg].
      assert (Hget : forall k, Versions.falsy (Versions.lookup m k) = false ->
                exists r, In r rows
                          /\ SpecStep.id r = Versions.zeroIfNullish (Versions.lookup m k)).
      { intros [k|] Hk; [|discriminate]. cbn [Versions.lookup] in *.
        pose proof (VersionsFacts.keyMap_get vid (Db.nextStepId db) nodes k) as Hg'.
        fold rows in Hg'. fold m in Hg'.
        destruct (JsMap.get Js.eqb m k) as [i|]; [|discriminate].
        destruct Hg' as [_ (r & Hr & _ & Hi)]. exists r. split; [assumption | exact Hi]. }
      destruct (Hget _ Hf) as (rf & Hrf & Ef). destruct (Hget _ Hg) as (rg & Hrg & Eg).
      exists rf, rg. split; [apply in_or_app; now right|].
      split; [apply in_or_app; now right|].
      cbn [PutView.trOf SpecStepTransition.fromStepId SpecStepTransition.toStepId
           SpecStepTransition.versionId].
      split; [exact Ef|]. split; [exact Eg|].
      split; [now apply Hrows | now apply Hrows].
Qed.

(** *** The current version of a specification set *)

Lemma Sound_setCurrent (db : Db.t) (sid vid : Z) (v : SpecVersion.t) :
  Sound db -> In v (Db.specVersions db) -> SpecVersion.id v = vid ->
  SpecVersion.specId v = sid ->
  Sound (Db.mk (Db.users db)
           (map (fun s => if Spec.id s =? sid
                          then Db.setCurrentVersionId (Some vid) s else s) (Db.specs db))
           (Db.specVersions db) (Db.specSteps db) (Db.specStepTransitions db)
           (Db.nextSpecId db) (Db.nextVersionId db) (Db.nextStepId db)
           (Db.nextTransitionId db)).
Proof.
  intros [] Hv Hid Hsp.
  set (upd := fun s => if Spec.id s =? sid then Db.setCurrentVersionId (Some vid) s else s).
  assert (Hk : forall s, Spec.id (upd s) = Spec.id s).
  { intros s. unfold upd. now destruct (Spec.id s =? sid). }
  assert (Hm : map Spec.id (map upd (Db.specs db)) = map Spec.id (Db.specs db)).
  { rewrite map_map. apply map_ext. exact Hk. }
  constructor; tables; try assumption.
  - now rewrite Hm.
  - intros s' Hs'. apply in_map_iff in Hs' as (s & <- & Hs). rewrite Hk.
    now apply specs_below0.
  - intros w Hw. rewrite Hm. now apply version_of_spec0.
  - intros s' c Hs' Hc. apply in_map_iff in Hs' as (s & <- & Hs). rewrite Hk.
    unfold upd in Hc. destruct (Z.eqb_spec (Spec.id s) sid) as [E|N].
    + cbn [Db.setCurrentVersionId Spec.currentVersionId] in Hc. injection Hc as <-.
      exists v. split; [assumption|]. split; [assumption | congruence].
    + now apply current_own0.
Qed.


(** *** PUT /api/versions/:id/graph *)

Lemma keeps_setText p c :
  forall w, SpecVersion.id (DbVersions.setText p c w) = SpecVersion.id w
            /\ SpecVersion.specId (DbVersions.setText p c w) = SpecVersion.specId w
            /\ SpecVersion.versionNumber (DbVersions.setText p c w)
               = SpecVersion.versionNumber w.
Proof. intros w. repeat split. Qed.

Lemma keeps_setStatus st :
  forall w, SpecVersion.id (DbVersions.setStatus st w) = SpecVersion.id w
            /\ SpecVersion.specId (DbVersions.setStatus st w) = SpecVersion.specId w
            /\ SpecVersion.versionNumber (DbVersions.setStatus st w)
               = SpecVersion.versionNumber w.
Proof. intros w. repeat split. Qed.

Lemma Sound_putGraph (db : Db.t) (versionId : option Z) (body : Versions.PutGraphBody) :
  Sound db -> Sound (fst (Versions.putGraph db versionId body)).
Proof.
  intros HS. destruct (Versions.putGraph db versionId body) as [db' r] eqn:E.
  pose proof (VersionsFacts.putGraph_failed db versionId body) as Hu.
  rewrite E in Hu. cbn [fst snd] in *.
  destruct r as [| |v'|];
    try (destruct Hu as [Hrows Ha]; [discriminate | exact (Sound_ahead db _ HS Hrows Ha)]).
  destruct versionId as [vid|]; [|discriminate].
  apply VersionsFacts.putGraph_200_inv in E
    as (nodes & edges & v & _ & _ & Hv & _ & _ & _ & ->).
  apply VersionsFacts.findVersion_In in Hv as [Hin Hid].
  assert (Hvid : In vid (Db.versionIds db)).
  { rewrite <- Hid. unfold Db.versionIds. now apply in_map. }
  pose proof (Sound_regraph db vid nodes edges HS Hvid) as HX.
  exact (Sound_update vid _ (keeps_setText _ _) _ HX).
Qed.

(** *** POST /api/versions/:id/status *)

Lemma Sound_postStatus (db : Db.t) (versionId : option Z) (status : option jsstring) :
  Sound db -> Sound (fst (Versions.postStatus db versionId status)).
Proof.
  intros HS. destruct versionId as [vid|]; [|exact HS].
  destruct status as [s|]; [|exact HS].
  destruct (Versions.statusOf s) as [st|] eqn:Hs;
    [|unfold Versions.postStatus; rewrite Hs; exact HS].
  destruct (DbVersions.findVersion db vid) as [v|] eqn:Hv;
    [|unfold Versions.postStatus; rewrite Hs, Hv; exact HS].
  rewrite (VersionsFacts.postStatus_run db vid s st v Hs Hv).
  pose proof (Sound_update vid _ (keeps_setStatus st) db HS) as H1.
  destruct (Versions.isPublished st); [|exact H1].
  set (db1 := PutView.withVersions db
                (map (DbVersions.updateRow vid (DbVersions.setStatus st))
                     (Db.specVersions db))) in *.
  destruct (Db.spec_update_currentVersionId (SpecVersion.specId v) vid db1)
    as [[u db2]|thrown] eqn:E; cbn [fst]; unfold Db.spec_update_currentVersionId in E;
    match type of E with (if ?c then _ else _) = _ => destruct c end;
    try discriminate; [|injection E as <-; exact H1].
  injection E as _ <-.
  apply VersionsFacts.findVersion_In in Hv as [Hin Hid].
  apply (Sound_setCurrent db1 (SpecVersion.specId v) vid
           (DbVersions.updateRow vid (DbVersions.setStatus st) v) H1).
  - unfold db1, PutView.withVersions. cbn [Db.specVersions]. now apply in_map.
  - rewrite <- Hid. apply upd_keeps. apply keeps_setStatus.
  - apply upd_keeps. apply keeps_setStatus.
Qed.



(** *** Publishing *)

Lemma find_spec_update (sid : Z) (change : Spec.t -> Spec.t) (l : list Spec.t) :
  (forall s, Spec.id (change s) = Spec.id s) ->
  find (fun s => Spec.id s =? sid)
       (map (fun s => if Spec.id s =? sid then change s else s) l)
  = option_map change (find (fun s => Spec.id s =? sid) l).
Proof.
  intros Hid. induction l as [|s l IH]; cbn [map find]; [reflexivity|].
  destruct (Spec.id s =? sid) eqn:E.
  - now rewrite Hid, E.
  - rewrite E. exact IH.
Qed.

(** X18. Publishing a version, in tables that are well formed: the answer
    is 200 with the version as published, and the version is now the
    current version of its specification. Every other specification and
    every other version is as before: a version published earlier keeps
    the status published. The graphs are untouched. *)
Theorem publish_makes_current (db : Db.t) (vid : Z) (v : SpecVersion.t) :
  ok db = true ->
  DbVersions.findVersion db vid = Some v ->
  exists db',
    Versions.postStatus db (Some vid) (Some (Js.lit "published"))
    = (db', Versions.Status200 (DbVersions.setStatus published v))
    /\ DbVersions.findVersion db' vid = Some (DbVersions.setStatus published v)
    /\ (exists row, Db.findSpec db' (SpecVersion.specId v) = Some row
                    /\ Spec.currentVersionId row = Some vid)
    /\ (forall s, In s (Db.specs db) -> Spec.id s <> SpecVersion.specId v ->
                  In s (Db.specs db'))
    /\ (forall w, In w (Db.specVersions db) -> SpecVersion.id w <> vid ->
                  In w (Db.specVersions db'))
    /\ Db.specSteps db' = Db.specSteps db
    /\ Db.specStepTransitions db' = Db.specStepTransitions db.
Proof.
  intros Hok Hv. apply ok_Sound in Hok. destruct Hok.
  rewrite (VersionsFacts.postStatus_run db vid (Js.lit "published") published v eq_refl Hv).
  cbn [Versions.isPublished].
  pose proof (VersionsFacts.findVersion_In _ _ _ Hv) as [Hin Hid].
  unfold Db.spec_update_currentVersionId, PutView.withVersions.
  unfold Db.specIds, Db.versionIds.
  cbn [Db.specs Db.specVersions Db.users Db.specSteps Db.specStepTransitions
       Db.nextSpecId Db.nextVersionId Db.nextStepId Db.nextTransitionId].
  assert (H1 : existsb (Z.eqb (SpecVersion.specId v)) (map Spec.id (Db.specs db)) = true)
    by (apply RoutesFacts.existsb_Zeqb; now apply version_of_spec0).
  assert (H2 : existsb (Z.eqb vid)
                 (map SpecVersion.id
                    (map (DbVersions.updateRow vid (DbVersions.setStatus published))
                         (Db.specVersions db))) = true).
  { apply RoutesFacts.existsb_Zeqb.
    rewrite (map_id_upd vid _ (keeps_setStatus published)), <- Hid. now apply in_map. }
  assert (H3 : existsb (fun s => negb (Spec.id s =? SpecVersion.specId v)
                                 && match Spec.currentVersionId s with
                                    | Some c => c =? vid
                                    | None => false
                                    end) (Db.specs db) = false).
  { apply not_true_is_false. intros H. apply existsb_exists in H as (s & Hs & H).
    apply andb_prop in H as [Hne Hc]. apply negb_true_iff, Z.eqb_neq in Hne.
    destruct (Spec.currentVersionId s) as [c|] eqn:Ec; [|discriminate].
    apply Z.eqb_eq in Hc. subst c.
    destruct (current_own0 s vid Hs Ec) as (w & Hw & Ew & Esp).
    assert (w = v).
    { apply (CompareFacts.NoDup_map_inj _ _ SpecVersion.id (Db.specVersions db));
        [assumption | assumption | assumption | congruence]. }
    subst w. congruence. }
  rewrite H1, H2, H3. cbn [andb negb].
  eexists. split; [reflexivity|].
  cbn [Db.specs Db.specVersions Db.specSteps Db.specStepTransitions].
  split; [|split; [|split; [|split; [|split; reflexivity]]]].
  - unfold DbVersions.findVersion. cbn [Db.specVersions].
    rewrite VersionsFacts.find_update by reflexivity.
    unfold DbVersions.findVersion in Hv. now rewrite Hv.
  - unfold Db.findSpec. cbn [Db.specs].
    rewrite find_spec_update by reflexivity.
    apply RoutesFacts.existsb_Zeqb in H1. apply in_map_iff in H1 as (s0 & Es0 & Hs0).
    destruct (find (fun s => Spec.id s =? SpecVersion.specId v) (Db.specs db)) as [s1|] eqn:E.
    + eexists. split; reflexivity.
    + exfalso. apply (find_none _ _ E) in Hs0. rewrite Es0, Z.eqb_refl in Hs0. discriminate.
  - intros s Hs Hne. apply in_map_iff. exists s. split; [|assumption].
    now destruct (Z.eqb_spec (Spec.id s) (SpecVersion.specId v)).
  - intros w Hw Hne. now apply VersionsFacts.In_updateRow_other.
Qed.

(** *** GET /api/versions/:id/graph *)

Lemma getGraph_edges_inside (db : Db.t) (vid : Z) (nodes : list Versions.GraphNode)
    (edges : list Versions.GraphEdge) (e : Versions.GraphEdge) :
  Sound db ->
  Versions.getGraph db (Some vid) = Versions.Graph200 nodes edges ->
  In e edges ->
  exists s t, Versions.geSource e = Some s /\ Versions.geTarget e = Some t
              /\ In s (map Versions.gId nodes) /\ In t (map Versions.gId nodes).
Proof.
  intros Hok Hg He. destruct Hok.
  unfold Versions.getGraph, Db.findVersionGraph in Hg.
  destruct (find (fun v => SpecVersion.id v =? vid) (Db.specVersions db)); [|discriminate].
  cbn [steps transitions] in Hg. injection Hg as <- <-.
  apply in_map_iff in He as (tr & <- & Htr).
  unfold Db.transitionsOf in Htr. apply filter_In in Htr as [Htr Etr].
  apply Z.eqb_eq in Etr.
  destruct (transitions_inside0 tr Htr) as (f & g & Hf & Hg & E1 & E2 & E3 & E4).
  assert (Hd : NoDup (map SpecStep.id (Db.stepsOf db vid)))
    by (apply RoutesFacts.NoDup_map_filter; assumption).
  assert (Hin : forall x, In x (Db.specSteps db) -> SpecStep.versionId x = vid ->
                          In x (Db.stepsOf db vid)).
  { intros x Hx Ex. apply filter_In. split; [assumption | now apply Z.eqb_eq]. }
  exists (SpecStep.stepKey f), (SpecStep.stepKey g).
  cbn [Versions.edgeOf Versions.geSource Versions.geTarget].
  rewrite map_map.
  split; [|split; [|split]].
  - apply (CompareFacts.get_idToKey _ _ _ Hd). exists f.
    split; [apply Hin; congruence | tauto].
  - apply (CompareFacts.get_idToKey _ _ _ Hd). exists g.
    split; [apply Hin; congruence | tauto].
  - apply in_map_iff. exists f. split; [reflexivity | apply Hin; congruence].
  - apply in_map_iff. exists g. split; [reflexivity | apply Hin; congruence].
Qed.

(** X19. In tables that are well formed, the graph route gives every edge
    a source and a target, and both are ids of nodes of the same answer. *)
Theorem graph_edges_have_ends (db : Db.t) (vid : Z) (nodes : list Versions.GraphNode)
    (edges : list Versions.GraphEdge) (e : Versions.GraphEdge) :
  ok db = true ->
  Versions.getGraph db (Some vid) = Versions.Graph200 nodes edges ->
  In e edges ->
  exists s t, Versions.geSource e = Some s /\ Versions.geTarget e = Some t
              /\ In s (map Versions.gId nodes) /\ In t (map Versions.gId nodes).
Proof.
  intros Hok. apply ok_Sound in Hok. now apply getGraph_edges_inside.
Qed.

(** In well-formed tables no transition of another version hangs on a
    step of the version. *)
Lemma Sound_foreignFree (db : Db.t) (vid : Z) : Sound db -> PutView.foreignFree db vid = true.
Proof.
  intros HS. destruct HS. unfold PutView.foreignFree. apply forallb_forall. intros tr Htr.
  destruct (Z.eqb_spec (SpecStepTransition.versionId tr) vid) as [E|Hne]; [reflexivity|].
  cbn [orb]. apply negb_true_iff.
  destruct (DbVersions.refersTo (map SpecStep.id (Db.stepsOf db vid)) tr) eqn:Hr;
    [|reflexivity].
  exfalso. destruct (transitions_inside0 tr Htr) as (f & g & Hf & Hg & E1 & E2 & E3 & E4).
  assert (Hin : forall x i, In x (Db.specSteps db) -> SpecStep.id x = i ->
                  existsb (Z.eqb i) (map SpecStep.id (Db.stepsOf db vid)) = true ->
                  SpecStep.versionId x = vid).
  { intros x i Hx Ex Hex. apply RoutesFacts.existsb_Zeqb in Hex.
    apply in_map_iff in Hex as (y & Ey & Hy).
    unfold Db.stepsOf in Hy. apply filter_In in Hy as [Hy Ev]. apply Z.eqb_eq in Ev.
    assert (x = y); [|now subst].
    apply (CompareFacts.NoDup_map_inj _ _ SpecStep.id (Db.specSteps db));
      [assumption | assumption | assumption | congruence]. }
  unfold DbVersions.refersTo in Hr. apply orb_true_iff in Hr as [Hr|Hr].
  - apply Hne. rewrite <- E3. now apply (Hin f _ Hf E1).
  - apply Hne. rewrite <- E4. now apply (Hin g _ Hg E2).
Qed.

End AppInvFacts.

(* ===================================================================== *)
(** * The sort of the lists *)
(* ===================================================================== *)

Module SortingFacts.
Import Sorting.

Local Open Scope Z_scope.

Section Sort.
Variables (A : Type) (key : A -> Z).

Lemma In_insertBy (a : A) (l : list A) (x : A) :
  In x (insertBy key a l) <-> x = a \/ In x l.
Proof.
  induction l as [|b r IH]; cbn [insertBy In].
  - intuition.
  - destruct (key a <? key b); cbn [In]; [|rewrite IH]; intuition.
Qed.

Lemma In_fold_insert (l : list A) : forall acc x,
  In x (fold_left (fun sorted a => insertBy key a sorted) l acc) <-> In x acc \/ In x l.
Proof.
  induction l as [|a l IH]; intros acc x; cbn [fold_left In]; [tauto|].
  rewrite IH, In_insertBy. intuition.
Qed.

Lemma In_sortBy (l : list A) (x : A) : In x (sortBy key l) <-> In x l.
Proof. unfold sortBy. rewrite In_fold_insert. cbn [In]. tauto. Qed.

Lemma insertBy_last (a : A) (l : list A) :
  (forall b, In b l -> key b <= key a) -> insertBy key a l = l ++ [a].
Proof.
  induction l as [|b r IH]; intros H; cbn [insertBy app]; [reflexivity|].
  destruct (Z.ltb_spec (key a) (key b)) as [Hlt|_].
  - specialize (H b (or_introl eq_refl)). lia.
  - rewrite IH; [reflexivity|]. intros c Hc. apply H. now right.
Qed.

Lemma sortBy_snoc (l : list A) (a : A) :
  sortBy key (l ++ [a]) = insertBy key a (sortBy key l).
Proof. unfold sortBy. now rewrite fold_left_app. Qed.

Lemma insertBy_sorted (a : A) (l : list A) :
  StronglySorted (fun x y => key x <= key y) l ->
  StronglySorted (fun x y => key x <= key y) (insertBy key a l).
Proof.
  induction 1 as [|b r Hs IH Hall]; cbn [insertBy].
  - constructor; constructor.
  - destruct (Z.ltb_spec (key a) (key b)) as [Hlt|Hge].
    + constructor; [now constructor|]. constructor; [lia|].
      apply Forall_forall. intros c Hc.
      pose proof (proj1 (Forall_forall _ _) Hall c Hc). cbv beta in *. lia.
    + constructor; [assumption|]. apply Forall_forall. intros c Hc.
      apply In_insertBy in Hc as [->|Hc]; [assumption|].
      exact (proj1 (Forall_forall _ _) Hall c Hc).
Qed.

Lemma fold_insert_sorted (l : list A) : forall acc,
  StronglySorted (fun x y => key x <= key y) acc ->
  StronglySorted (fun x y => key x <= key y)
    (fold_left (fun sorted a => insertBy key a sorted) l acc).
Proof.
  induction l as [|a l IH]; intros acc H; cbn [fold_left]; [assumption|].
  apply IH. now apply insertBy_sorted.
Qed.

Lemma sortBy_sorted (l : list A) :
  StronglySorted (fun x y => key x <= key y) (sortBy key l).
Proof. apply fold_insert_sorted. constructor. Qed.

Lemma filter_sorted (p : A -> bool) (l : list A) :
  StronglySorted (fun x y => key x <= key y) l ->
  StronglySorted (fun x y => key x <= key y) (filter p l).
Proof.
  induction 1 as [|b r Hs IH Hall]; cbn [filter]; [constructor|].
  destruct (p b); [|assumption]. constructor; [assumption|].
  apply Forall_forall. intros c Hc. apply filter_In in Hc as [Hc _].
  exact (proj1 (Forall_forall _ _) Hall c Hc).
Qed.

Lemma sorted_last (l : list A) (x : A) :
  StronglySorted (fun a b => key a <= key b) (l ++ [x]) ->
  forall v, In v l -> key v <= key x.
Proof.
  induction l as [|b r IH]; cbn [app]; intros H v Hv; [destruct Hv|].
  inversion H as [|? ? Hs Hall]; subst. destruct Hv as [->|Hv].
  - apply (proj1 (Forall_forall _ _) Hall). apply in_or_app. right. now left.
  - now apply IH.
Qed.

Lemma pop_snoc (l : list A) (a : A) : pop (l ++ [a]) = Some a.
Proof. unfold pop. now rewrite rev_app_distr. Qed.

Lemma pop_inv (l : list A) (x : A) : pop l = Some x -> exists l', l = l' ++ [x].
Proof.
  unfold pop. destruct (rev l) as [|a r] eqn:E; [discriminate|]. intros [= ->].
  exists (rev r). rewrite <- (rev_involutive l), E. reflexivity.
Qed.

Lemma pop_None (l : list A) : pop l = None -> l = [].
Proof.
  unfold pop. destruct (rev l) as [|a r] eqn:E; [|discriminate]. intros _.
  rewrite <- (rev_involutive l), E. reflexivity.
Qed.

End Sort.
End SortingFacts.

(* ===================================================================== *)
(** * The lists of specifications and of versions *)
(* ===================================================================== *)

Module ListFacts.
Import DbInv Routes RoutesRead Ui.

Local Open Scope Z_scope.

Lemma listVersions_snoc (db db' : Db.t) (specId : Z) (nv : SpecVersion.t) :
  Db.specVersions db' = Db.specVersions db ++ [nv] ->
  SpecVersion.specId nv = specId ->
  (forall v, In v (Db.specVersions db) -> SpecVersion.specId v = specId ->
             SpecVersion.versionNumber v <= SpecVersion.versionNumber nv) ->
  listVersions db' specId = listVersions db specId ++ [nv].
Proof.
  intros Hv Hs Hmax. unfold listVersions. rewrite Hv, filter_app. cbn [filter].
  rewrite Hs, Z.eqb_refl, SortingFacts.sortBy_snoc.
  apply SortingFacts.insertBy_last. intros b Hb.
  apply SortingFacts.In_sortBy in Hb. apply filter_In in Hb as [Hb Eb].
  apply Z.eqb_eq in Eb. now apply Hmax.
Qed.

Lemma listVersions_other (db db' : Db.t) (specId : Z) (nv : SpecVersion.t) :
  Db.specVersions db' = Db.specVersions db ++ [nv] ->
  SpecVersion.specId nv <> specId ->
  listVersions db' specId = listVersions db specId.
Proof.
  intros Hv Hs. unfold listVersions. rewrite Hv, filter_app. cbn [filter].
  apply Z.eqb_neq in Hs. now rewrite Hs, app_nil_r.
Qed.

Lemma chooseVersion_new (l : list SpecVersion.t) (nv : SpecVersion.t) :
  (forall v, In v l -> SpecVersion.id v <> SpecVersion.id nv) ->
  chooseVersion (l ++ [nv]) (Some (SpecVersion.id nv)) = Some nv.
Proof.
  intros Hl. unfold chooseVersion.
  destruct (SpecVersion.id nv =? 0); [apply SortingFacts.pop_snoc|].
  rewrite RoutesFacts.find_none_app; [reflexivity | | apply Z.eqb_refl].
  intros y Hy. apply Z.eqb_neq. now apply Hl.
Qed.

Section Fork.
Variable uuidv4 : nat -> jsstring.

Lemma fork_versions (db db' : Db.t) (specId versionNumber : Z) (body : ForkBody)
    (nv : SpecVersion.t) :
  fork uuidv4 db specId versionNumber body = (db', Fork201 nv) ->
  Db.specVersions db' = Db.specVersions db ++ [nv]
  /\ SpecVersion.specId nv = specId
  /\ SpecVersion.id nv = Db.nextVersionId db
  /\ (forall v, In v (Db.specVersions db) -> SpecVersion.specId v = specId ->
                SpecVersion.versionNumber v < SpecVersion.versionNumber nv).
Proof.
  intros H.
  apply (ForkLaws.fork_201_inv uuidv4) in H
    as (base & db1 & copies & m & trs & Hb & Hcreate & Hcp & Hm & Htr & -> & _).
  unfold Db.specVersion_create in Hcreate. TxFacts.pass_int4 Hcreate.
  match type of Hcreate with (if ?c then _ else _) = _ => destruct c end; [|discriminate].
  injection Hcreate as Hnv <-.
  split; [cbn [ForkView.withTransitions ForkView.withSteps Db.specVersions]; now rewrite Hnv|].
  split; [now rewrite <- Hnv|]. split; [now rewrite <- Hnv|].
  intros v Hv Hs. rewrite <- Hnv. cbn [SpecVersion.versionNumber].
  unfold nextVersionNumber.
  pose proof (ForkLaws.findLastVersion_max db specId) as Hmax.
  destruct (Db.findLastVersion db specId) as [l|].
  - destruct Hmax as (_ & _ & Hmax). specialize (Hmax v Hv Hs). lia.
  - now destruct (Hmax v Hv).
Qed.

(** X20. After a fork that answers 201 the list of versions of the
    specification is the list it was with the new version at the end, the
    lists of the other specifications are as they were, and the editor,
    which asks for the new version by its id, opens it. *)
Theorem fork_is_listed_last_and_opened (db db' : Db.t) (specId versionNumber : Z)
    (body : ForkBody) (nv : SpecVersion.t) :
  consistent db = true ->
  fork uuidv4 db specId versionNumber body = (db', Fork201 nv) ->
  listVersions db' specId = listVersions db specId ++ [nv]
  /\ (forall other, other <> specId -> listVersions db' other = listVersions db other)
  /\ chooseVersion (listVersions db' specId) (Some (SpecVersion.id nv)) = Some nv.
Proof.
  intros Hc H. apply fork_versions in H as (Hv & Hs & Hid & Hmax).
  apply RoutesFacts.consistent_inv in Hc. destruct Hc.
  assert (Hl : listVersions db' specId = listVersions db specId ++ [nv]).
  { apply listVersions_snoc; [assumption | assumption |].
    intros v Hin Es. specialize (Hmax v Hin Es). lia. }
  split; [exact Hl|]. split.
  - intros other Hne. apply (listVersions_other db db' other nv Hv). congruence.
  - rewrite Hl. apply chooseVersion_new. intros v Hin.
    apply SortingFacts.In_sortBy in Hin. apply filter_In in Hin as [Hin _].
    specialize (versionIds_below0 v Hin). lia.
Qed.

End Fork.

(** X21. The version the editor compares with. When the current version
    is in the list, the previous version is a version of the list with a
    smaller number and no version of the list has a number between the two;
    there is none exactly when no version of the list has a smaller
    number. *)
Theorem previous_version_is_nearest_below (versions : list SpecVersion.t) (c : Z)
    (cur : SpecVersion.t) :
  find (fun v => SpecVersion.id v =? c) versions = Some cur ->
  match previousVersion versions (Some c) with
  | Some p =>
      In p versions
      /\ SpecVersion.versionNumber p < SpecVersion.versionNumber cur
      /\ (forall v, In v versions ->
                    SpecVersion.versionNumber v < SpecVersion.versionNumber cur ->
                    SpecVersion.versionNumber v <= SpecVersion.versionNumber p)
  | None =>
      forall v, In v versions ->
                SpecVersion.versionNumber cur <= SpecVersion.versionNumber v
  end.
Proof.
  intros Hcur. unfold previousVersion. rewrite Hcur.
  set (below := filter _ _).
  assert (Hin : forall v, In v below <->
                  In v versions
                  /\ SpecVersion.versionNumber v < SpecVersion.versionNumber cur).
  { intros v. unfold below. rewrite filter_In, SortingFacts.In_sortBy, Z.ltb_lt. tauto. }
  assert (Hs : StronglySorted
                 (fun x y => SpecVersion.versionNumber x <= SpecVersion.versionNumber y)
                 below).
  { apply SortingFacts.filter_sorted, SortingFacts.sortBy_sorted. }
  destruct (Sorting.pop below) as [p|] eqn:Hp.
  - apply SortingFacts.pop_inv in Hp as [l' Hl'].
    assert (Hpin : In p below) by (rewrite Hl'; apply in_or_app; right; now left).
    apply Hin in Hpin as [Hp1 Hp2]. split; [assumption|]. split; [assumption|].
    intros v Hv Hlt. assert (Hvin : In v below) by (apply Hin; now split).
    rewrite Hl' in Hvin, Hs. apply in_app_or in Hvin as [Hvin|[<-|[]]]; [|lia].
    exact (SortingFacts.sorted_last _ SpecVersion.versionNumber l' p Hs v Hvin).
  - apply SortingFacts.pop_None in Hp. intros v Hv.
    destruct (Z.lt_ge_cases (SpecVersion.versionNumber v) (SpecVersion.versionNumber cur))
      as [Hlt|Hge]; [|assumption].
    assert (Hvin : In v below) by (apply Hin; now split).
    rewrite Hp in Hvin. destruct Hvin.
Qed.

End ListFacts.

(* ===================================================================== *)
(** * The editor against the routes *)
(* ===================================================================== *)

Module EditorFacts.
Import DbInv Routes RoutesRead ForkView Versions PutView Ui Importer.

Local Open Scope Z_scope.

Lemma stepTypeOf_name (ty : StepType) :
  stepTypeOf (typeName {| nodeId := []; nodeType := Some (stepTypeName ty);
                          nodeTitle := None; nodeDescription := None;
                          nodeX := None; nodeY := None; nodeMetadata := None |})
  = Some ty.
Proof. now destruct ty. Qed.

Lemma typeName_nodeToSave (n : Node) :
  stepTypeOf (typeName (nodeToSave n)) = Some (realType (data n)).
Proof. unfold nodeToSave, typeName. cbn [nodeType]. now destruct (realType (data n)). Qed.

Lemma typesOk_nodeToSave (nodes : list Node) : typesOk (map nodeToSave nodes) = true.
Proof.
  unfold typesOk. apply forallb_forall. intros x Hx.
  apply in_map_iff in Hx as (n & <- & _). now rewrite typeName_nodeToSave.
Qed.

(** A node comes back from a save as it was sent. *)
Lemma nodeOfGraph_nodeBack (n : Node) : nodeOfGraph (nodeBack (nodeToSave n)) = n.
Proof.
  destruct n as [i [x y] [t d ty]].
  unfold nodeOfGraph, nodeBack, typeOr.
  rewrite typeName_nodeToSave.
  cbn [nodeToSave gId gPosition gTitle gDescription gType nodeId nodeX nodeY nodeTitle
       nodeDescription id position data dataTitle dataDescription realType zeroIfNullish fst snd].
  rewrite VersionsFacts.or_empty_orNull, !JsFacts.or_empty_Some. reflexivity.
Qed.

Lemma map_nodeOfGraph_back (nodes : list Node) :
  map nodeOfGraph (map nodeBack (map nodeToSave nodes)) = nodes.
Proof.
  induction nodes as [|n r IH]; cbn [map]; [reflexivity|].
  now rewrite nodeOfGraph_nodeBack, IH.
Qed.

Lemma save_reload (db : Db.t) (vid : Z) (v : SpecVersion.t) (nodes : list Node)
    (edges : list EdgeIn) :
  0 < Db.nextStepId db ->
  DbVersions.findVersion db vid = Some v ->
  foreignFree db vid = true ->
  nodes <> [] ->
  exists db' v',
    putGraph db (Some vid) (saveBody nodes edges) = (db', Put200 v')
    /\ SpecVersion.plainText v' = SpecVersion.plainText v
    /\ SpecVersion.comment v' = Some (Js.lit "Сохранено из React Flow")
    /\ loadGraph (getGraph db' (Some vid))
       = Some (nodes, edgesBack (Db.nextTransitionId db)
                        (filter (joined (map nodeToSave nodes)) edges)).
Proof.
  intros Hpos Hv Hf Hne. unfold putGraph, saveBody. cbn [bodyNodes bodyEdges].
  rewrite Hv. cbn [bodyPlainText bodyComment].
  rewrite (VersionsFacts.putGraphTx_ok db vid v v _ edges _ _ Hv
             (typesOk_nodeToSave nodes) Hf).
  eexists _, _. split; [reflexivity|]. split; [reflexivity|]. split; [reflexivity|].
  rewrite (VersionsFacts.getGraph_saved db vid v); [|assumption|assumption|reflexivity].
  unfold loadGraph. rewrite map_nodeOfGraph_back.
  destruct nodes; [now destruct Hne | reflexivity].
Qed.


Lemma hasNode_nodeToSave (gn : list GraphNode) (k : jsstring) :
  In k (map gId gn) -> hasNode (map nodeToSave (map nodeOfGraph gn)) (Some k) = true.
Proof.
  intros Hk. cbn [hasNode]. apply existsb_exists.
  apply in_map_iff in Hk as (g & <- & Hg).
  exists (nodeToSave (nodeOfGraph g)). split; [now do 2 apply in_map|].
  apply CompareFacts.jmeq. reflexivity.
Qed.

Lemma edgesBack_shape (edges : list GraphEdge) : forall id,
  Forall2 (fun after before =>
             geSource after = geSource before /\ geTarget after = geTarget before
             /\ geLabel after = geLabel before
             /\ geCondition after = orNull (geCondition before))
          (edgesBack id (map edgeOfGraph edges)) edges.
Proof.
  induction edges as [|e r IH]; intros i; cbn [map edgesBack]; constructor; [|apply IH].
  unfold edgeBack, edgeOfGraph.
  cbn [geSource geTarget geLabel geCondition edgeSource edgeInTarget edgeInLabel
       edgeInCondition].
  now rewrite JsFacts.or_empty_Some.
Qed.


(** *** An imported graph *)

Section Imported.
Variable toLowerCase : jsstring -> jsstring.
Variable canonicalize : N -> N.


End Imported.

(** *** A new specification seen from the editor *)

Lemma sortBy_specs_snoc (l : list Spec.t) (s : Spec.t) :
  (forall x, In x l -> Spec.id x < Spec.id s) ->
  Sorting.sortBy Spec.id (l ++ [s]) = Sorting.sortBy Spec.id l ++ [s].
Proof.
  intros H. rewrite SortingFacts.sortBy_snoc. apply SortingFacts.insertBy_last.
  intros b Hb. apply SortingFacts.In_sortBy in Hb. specialize (H b Hb). lia.
Qed.

(** X25. A new specification in the editor. After a creation that answers
    201, in tables that were consistent, the list of specifications is the
    list it was followed by the new specification together with its first
    version; the list of its versions holds that version alone, the editor
    opens it, and its graph, which has no step, is shown as the single
    start block. *)
Theorem new_spec_opens_with_start_block (db db' : Db.t) (body : CreateSpecBody)
    (spec : Spec.t) (version : SpecVersion.t) :
  consistent db = true ->
  createSpec db body = (db', CreateSpec201 spec version) ->
  listSpecs db'
  = listSpecs db
    ++ [(Db.setCurrentVersionId (Some (SpecVersion.id version)) spec, Some version)]
  /\ listVersions db' (Spec.id spec) = [version]
  /\ chooseVersion (listVersions db' (Spec.id spec)) (Some (SpecVersion.id version))
     = Some version
  /\ loadGraph (getGraph db' (Some (SpecVersion.id version))) = Some ([startNode], []).
Proof.
  intros Hc H. pose proof (RoutesFacts.consistent_inv _ Hc) as HC. destruct HC.
  destruct body as [[[|c r]|] descr createdBy]; try discriminate H.
  destruct (Db.refOk (Db.users db) (idOrNull createdBy)) eqn:Hu.
  2:{ pose proof (CreateSpecLaws.createSpec_500 db c r descr createdBy Hu) as E.
      unfold jsstring in *. rewrite E in H. discriminate. }
  pose proof (CreateSpecLaws.createSpec_201 db c r descr createdBy Hc Hu) as E.
  unfold jsstring in *. rewrite E in H. injection H as <- <- <-.
  set (version := SpecVersion.mk _ _ _ _ _ _ _ _).
  assert (Hfresh : forall v, In v (Db.specVersions db) ->
                             SpecVersion.id v <> Db.nextVersionId db).
  { intros v Hv. specialize (versionIds_below0 v Hv). lia. }
  assert (Hlist : listVersions
                    (Db.mk (Db.users db)
                       (Db.specs db
                        ++ [Spec.mk (Db.nextSpecId db) (c :: r) None descr
                              (idOrNull createdBy) (Some (Db.nextVersionId db))])
                       (Db.specVersions db ++ [version])
                       (Db.specSteps db) (Db.specStepTransitions db)
                       (Db.nextSpecId db + 1) (Db.nextVersionId db + 1) (Db.nextStepId db)
                       (Db.nextTransitionId db)) (Db.nextSpecId db) = [version]).
  { unfold listVersions. cbn [Db.specVersions]. rewrite filter_app.
    rewrite RoutesFacts.filter_none.
    - cbn [filter app]. unfold version at 1. cbn [SpecVersion.specId].
      now rewrite Z.eqb_refl.
    - intros y Hy. apply Z.eqb_neq. specialize (version_spec0 y Hy). lia. }
  cbn [Spec.id SpecVersion.id Db.setCurrentVersionId].
  split; [|split; [exact Hlist|split]].
  - unfold listSpecs. cbn [Db.specs]. rewrite sortBy_specs_snoc.
    2:{ intros x Hx. cbn [Spec.id]. now apply specIds_below0. }
    rewrite map_app. cbn [map Spec.currentVersionId]. f_equal.
    + apply map_ext_in. intros s Hs. apply SortingFacts.In_sortBy in Hs. f_equal.
      destruct (Spec.currentVersionId s) as [cv|] eqn:Ecv; [|reflexivity].
      unfold DbVersions.findVersion. cbn [Db.specVersions].
      rewrite RoutesFacts.find_app.
      destruct (find (fun v => SpecVersion.id v =? cv) (Db.specVersions db)); [reflexivity|].
      cbn [find]. unfold version at 1. cbn [SpecVersion.id].
      specialize (current_version0 s cv Hs Ecv).
      destruct (Z.eqb_spec (Db.nextVersionId db) cv); [lia | reflexivity].
    + do 2 f_equal. unfold DbVersions.findVersion. cbn [Db.specVersions].
      apply RoutesFacts.find_none_app.
      * intros y Hy. apply Z.eqb_neq. now apply Hfresh.
      * apply Z.eqb_refl.
  - match goal with |- chooseVersion ?l _ = _ =>
      replace l with [version] by (symmetry; exact Hlist) end.
    exact (ListFacts.chooseVersion_new [] version
             (fun v (F : In v []) => match F with end)).
  - unfold getGraph, Db.findVersionGraph. cbn [Db.specVersions].
    rewrite RoutesFacts.find_none_app;
      [| intros y Hy; apply Z.eqb_neq; now apply Hfresh | apply Z.eqb_refl].
    unfold Db.stepsOf, Db.transitionsOf. cbn [Db.specSteps Db.specStepTransitions].
    rewrite !RoutesFacts.filter_none.
    + reflexivity.
    + intros y Hy. apply Z.eqb_neq. specialize (transition_version0 y Hy).
      unfold version. cbn [SpecVersion.id]. lia.
    + intros y Hy. apply Z.eqb_neq. specialize (step_version0 y Hy).
      unfold version. cbn [SpecVersion.id]. lia.
Qed.

End EditorFacts.

(* ===================================================================== *)
(** * The highlight of the comparison *)
(* ===================================================================== *)

Module HighlightFacts.
Import Compare DiffView Ui.

Local Open Scope Z_scope.

Lemma existsb_key (X : Type) (key : X -> jsstring) (l : list X) (k : jsstring) :
  existsb (fun x => Js.eqb (key x) k) l = true <-> In k (map key l).
Proof.
  rewrite existsb_exists, in_map_iff. split.
  - intros (x & Hx & E). apply CompareFacts.jmeq in E. now exists x.
  - intros (x & E & Hx). exists x. split; [assumption | now apply CompareFacts.jmeq].
Qed.

(** X26. The highlight of a node when the comparison of [A] with [B] is
    shown: the node is marked as added exactly when its id is the key of a
    step of [B] and of no step of [A], and as changed exactly when the last
    steps with that key in [A] and in [B] differ in title, description or
    type. A node is never marked for a step that was removed. *)
Theorem highlight_follows_diff (A B : VersionGraph) (n : Importer.Node) :
  (diffStatusOf (Some (diff A B)) n = Some Added <->
     In (Importer.id n) (map SpecStep.stepKey (steps B))
     /\ ~ In (Importer.id n) (map SpecStep.stepKey (steps A)))
  /\ (diffStatusOf (Some (diff A B)) n = Some Changed <->
        exists f t, lastWithKey (steps A) (Importer.id n) = Some f
                    /\ lastWithKey (steps B) (Importer.id n) = Some t
                    /\ differs f t = true).
Proof.
  unfold diffStatusOf.
  pose proof (existsb_key _ stepKey (stepsAdded (diff A B)) (Importer.id n)) as Ha.
  pose proof (existsb_key _ changedKey (stepsChanged (diff A B)) (Importer.id n)) as Hc.
  rewrite DiffLaws.added_keys in Ha.
  assert (Hch : In (Importer.id n) (map changedKey (stepsChanged (diff A B))) <->
                exists f t, lastWithKey (steps A) (Importer.id n) = Some f
                            /\ lastWithKey (steps B) (Importer.id n) = Some t
                            /\ differs f t = true).
  { rewrite in_map_iff. split.
    - intros (c & E & Hin). apply DiffLaws.In_changed_last in Hin
        as (f & t & Hf & Ht & Hd & _). rewrite E in Hf, Ht. now exists f, t.
    - intros (f & t & Hf & Ht & Hd).
      exists {| changedKey := Importer.id n; from := sideOf f; to := sideOf t |}.
      split; [reflexivity|]. apply DiffLaws.In_changed_last. exists f, t.
      cbn [changedKey]. tauto. }
  rewrite Hch in Hc. clear Hch.
  destruct (existsb (fun s => Js.eqb (stepKey s) (Importer.id n)) (stepsAdded (diff A B)))
    eqn:Ea.
  - split.
    + split; [intros _; now apply Ha | reflexivity].
    + split; [discriminate|]. intros (f & t & Hf & _).
      exfalso. destruct (proj1 Ha eq_refl) as [_ Hn]. apply Hn.
      exact (DiffLaws.lastWithKey_In _ _ _ Hf).
  - split.
    + split.
      * destruct (existsb _ (stepsChanged (diff A B))); discriminate.
      * intros H. apply Ha in H. discriminate.
    + destruct (existsb _ (stepsChanged (diff A B))).
      * split; [intros _; now apply Hc | reflexivity].
      * split; [discriminate|]. intros H. apply Hc in H. discriminate.
Qed.

End HighlightFacts.

(* ===================================================================== *)
(** * The statements above on sample tables *)
(* ===================================================================== *)

Module SampleRuns.
Import Versions PutView Ui.

Local Open Scope Z_scope.


Lemma status_change_keeps_current_witness :
  exists db',
    postStatus Samples.forkDb (Some 1) (Some (Js.lit "archived"))
    = (db', Status200
              (DbVersions.setStatus archived
                 (SpecVersion.mk 1 1 1 draft (Some (Js.lit "Первая версия"))
                    None None None)))
    /\ Db.specs db' = Db.specs Samples.forkDb.
Proof.
  assert (Hs : statusOf (Js.lit "archived") = Some archived) by (vm_compute; reflexivity).
  assert (Hv : DbVersions.findVersion Samples.forkDb 1
               = Some (SpecVersion.mk 1 1 1 draft (Some (Js.lit "Первая версия"))
                         None None None)) by (vm_compute; reflexivity).
  destruct (VersionsFacts.status_change_keeps_current Samples.forkDb 1 (Js.lit "archived")
              archived _ Hs eq_refl Hv) as (db' & H1 & _ & H2 & _).
  exists db'. split; [exact H1 | exact H2].
Defined.

Lemma publish_makes_current_witness :
  AppInv.ok Samples.forkDb = true
  /\ exists db' row,
       postStatus Samples.forkDb (Some 1) (Some (Js.lit "published"))
       = (db', Status200
                 (DbVersions.setStatus published
                    (SpecVersion.mk 1 1 1 draft (Some (Js.lit "Первая версия"))
                       None None None)))
       /\ Db.findSpec db' 1 = Some row
       /\ Spec.currentVersionId row = Some 1.
Proof.
  assert (Hok : AppInv.ok Samples.forkDb = true) by (vm_compute; reflexivity).
  assert (Hv : DbVersions.findVersion Samples.forkDb 1
               = Some (SpecVersion.mk 1 1 1 draft (Some (Js.lit "Первая версия"))
                         None None None)) by (vm_compute; reflexivity).
  split; [exact Hok|].
  destruct (AppInvFacts.publish_makes_current Samples.forkDb 1 _ Hok Hv)
    as (db' & H1 & _ & (row & H2 & H3) & _).
  exists db', row. split; [exact H1|]. split; [exact H2 | exact H3].
Defined.

Lemma graph_edges_have_ends_witness :
  AppInv.ok Samples.forkDb = true
  /\ exists nodes edges e s t,
       getGraph Samples.forkDb (Some 1) = Graph200 nodes edges
       /\ In e edges
       /\ geSource e = Some s /\ geTarget e = Some t
       /\ In s (map gId nodes) /\ In t (map gId nodes).
Proof.
  assert (Hok : AppInv.ok Samples.forkDb = true) by (vm_compute; reflexivity).
  split; [exact Hok|].
  pose (nodes := map nodeOf (Db.stepsOf Samples.forkDb 1)).
  pose (e := edgeOf (Compare.idToKey (Db.stepsOf Samples.forkDb 1))
               (SpecStepTransition.mk 1 1 1 2 (Some (Js.lit "да")) None None)).
  assert (Hg : getGraph Samples.forkDb (Some 1) = Graph200 nodes [e])
    by (vm_compute; reflexivity).
  destruct (AppInvFacts.graph_edges_have_ends Samples.forkDb 1 nodes [e] e Hok Hg
              (or_introl eq_refl)) as (s & t & H).
  exists nodes, [e], e, s, t. split; [exact Hg|]. split; [now left | exact H].
Defined.


Lemma fork_is_listed_last_and_opened_witness :
  DbInv.consistent Samples.forkDb = true
  /\ exists db' nv,
       Routes.fork Samples.sampleUuid Samples.forkDb 1 1 Samples.forkBody
       = (db', Routes.Fork201 nv)
       /\ RoutesRead.listVersions db' 1 = RoutesRead.listVersions Samples.forkDb 1 ++ [nv]
       /\ chooseVersion (RoutesRead.listVersions db' 1) (Some (SpecVersion.id nv)) = Some nv.
Proof.
  assert (Hc : DbInv.consistent Samples.forkDb = true) by (vm_compute; reflexivity).
  split; [exact Hc|].
  pose (r := Routes.fork Samples.sampleUuid Samples.forkDb 1 1 Samples.forkBody).
  pose (nv := SpecVersion.mk 2 1 2 draft
                (Some (Js.lit "Новая версия на основе " ++ Routes.stringOfZ 1))
                None None (Some 1)).
  assert (H : Routes.fork Samples.sampleUuid Samples.forkDb 1 1 Samples.forkBody
              = (fst r, Routes.Fork201 nv)) by (vm_compute; reflexivity).
  exists (fst r), nv. split; [exact H|].
  destruct (ListFacts.fork_is_listed_last_and_opened Samples.sampleUuid Samples.forkDb
              (fst r) 1 1 Samples.forkBody nv Hc H) as (H1 & _ & H3).
  split; [exact H1 | exact H3].
Defined.

Lemma previous_version_is_nearest_below_witness :
  exists p,
    previousVersion SampleEdits.versions (Some 7) = Some p
    /\ SpecVersion.versionNumber p = 2
    /\ (forall v, In v SampleEdits.versions ->
                  SpecVersion.versionNumber v
                  < SpecVersion.versionNumber
                      (SpecVersion.mk 7 1 3 draft None None None (Some 5)) ->
                  SpecVersion.versionNumber v <= SpecVersion.versionNumber p).
Proof.
  pose (p := SpecVersion.mk 5 1 2 archived None None None (Some 4)).
  assert (Hp : previousVersion SampleEdits.versions (Some 7) = Some p)
    by (vm_compute; reflexivity).
  assert (Hc : find (fun v => SpecVersion.id v =? 7) SampleEdits.versions
               = Some (SpecVersion.mk 7 1 3 draft None None None (Some 5)))
    by (vm_compute; reflexivity).
  pose proof (ListFacts.previous_version_is_nearest_below SampleEdits.versions 7 _ Hc) as H.
  rewrite Hp in H. exists p. split; [exact Hp|]. split; [reflexivity|].
  exact (proj2 (proj2 H)).
Defined.



Lemma new_spec_opens_with_start_block_witness :
  DbInv.consistent Samples.emptyDb = true
  /\ exists db' spec version,
       Routes.createSpec Samples.emptyDb Samples.newSpec
       = (db', Routes.CreateSpec201 spec version)
       /\ RoutesRead.listVersions db' (Spec.id spec) = [version]
       /\ loadGraph (getGraph db' (Some (SpecVersion.id version))) = Some ([startNode], []).
Proof.
  assert (Hc : DbInv.consistent Samples.emptyDb = true) by (vm_compute; reflexivity).
  split; [exact Hc|].
  pose (r := Routes.createSpec Samples.emptyDb Samples.newSpec).
  pose (spec := Spec.mk 1 (Js.lit "Оформление заказа") None None None None).
  pose (version := SpecVersion.mk 1 1 1 draft (Some (Js.lit "Первая версия"))
                     None None None).
  assert (H : Routes.createSpec Samples.emptyDb Samples.newSpec
              = (fst r, Routes.CreateSpec201 spec version)) by (vm_compute; reflexivity).
  exists (fst r), spec, version. split; [exact H|].
  destruct (EditorFacts.new_spec_opens_with_start_block Samples.emptyDb (fst r)
              Samples.newSpec spec version Hc H) as (_ & H2 & _ & H4).
  split; [exact H2 | exact H4].
Defined.


(** *** Requests that fail

    The rows are as they were; the ids drawn are lost, and the next request
    that succeeds gets the id after them. *)

Lemma createSpec_unknown_author :
  Routes.createSpec Samples.emptyDb Samples.newSpecUnknownAuthor
  = (Db.mk [] [] [] [] [] 2 1 1 1, Routes.CreateSpec500)
  /\ exists spec version db',
       Routes.createSpec (Db.mk [] [] [] [] [] 2 1 1 1) Samples.newSpec
       = (db', Routes.CreateSpec201 spec version)
       /\ Spec.id spec = 2.
Proof.
  split; [vm_compute; reflexivity|].
  do 3 eexists. split; [vm_compute; reflexivity | reflexivity].
Qed.

Lemma fork_unknown_author :
  exists db',
    Routes.fork Samples.sampleUuid Samples.forkDb 1 1 Samples.forkBodyUnknownAuthor
    = (db', Routes.Fork500)
    /\ Db.sameRows db' Samples.forkDb
    /\ Db.nextVersionId Samples.forkDb = 2
    /\ Db.nextVersionId db' = 3
    /\ exists db'' nv,
         Routes.fork Samples.sampleUuid db' 1 1 Samples.forkBody
         = (db'', Routes.Fork201 nv)
         /\ SpecVersion.id nv = 3.
Proof.
  eexists. split; [vm_compute; reflexivity|].
  split; [repeat split|]. split; [reflexivity|]. split; [reflexivity|].
  do 2 eexists. split; [vm_compute; reflexivity | reflexivity].
Qed.

Lemma putGraph_wrong_type :
  exists db',
    putGraph Samples.forkDb (Some 1) SampleEdits.bodyWrongType = (db', Put500)
    /\ Db.sameRows db' Samples.forkDb
    /\ Db.nextStepId Samples.forkDb = 3
    /\ Db.nextStepId db' = 4.
Proof.
  eexists. split; [vm_compute; reflexivity|].
  split; [repeat split | split; reflexivity].
Qed.

End SampleRuns.
